(** * Text chunkers of linux-speech-tools: a shallow embedding

    The chunkers under [src/chunking] and [analysis/precise_chunker.py] are
    pure string programs built from [str] methods and the [re] module.  They
    are embedded here as Rocq functions over lists of characters.

    Conventions.
    - A Python [str] is a [list ascii]; a character is one code point of the
      Latin-1 range (0..255), which contains every character the sources
      name (the accented vowels, the inverted marks).  Code points above 255
      are outside the embedding.
    - Python integers are [Z]; indices produced by the matcher are [nat].
    - [re] is modelled by a backtracking matcher with Python's priorities
      (leftmost start, first alternative, greedy repetition). *)

From Stdlib Require Import Ascii String List ZArith Lia Bool Arith.
From Stdlib Require Import DecimalNat Permutation.
Import ListNotations.

Set Implicit Arguments.
Open Scope Z_scope.

Definition str := list ascii.

Definition s_ (s : string) : str := list_ascii_of_string s.

(** ** The [str] methods the chunkers call *)

Module Py.

Definition code (c : ascii) : N := N_of_ascii c.

Definition in_range (lo hi : N) (c : ascii) : bool :=
  (N.leb lo (code c) && N.leb (code c) hi)%bool.

Definition is_code (n : N) (c : ascii) : bool := N.eqb (code c) n.

(** [str.isspace] of one character, also the class [\s] of [re]: the
    Latin-1 characters with the Unicode white-space property. *)
Definition isspace (c : ascii) : bool :=
  (in_range 9 13 c || in_range 28 32 c || is_code 133 c || is_code 160 c)%bool.

Definition isupper_ascii (c : ascii) : bool := in_range 65 90 c.

Definition isdigit_ascii (c : ascii) : bool := in_range 48 57 c.

(** The class [\w] of [re] on [str] patterns: alphanumeric or underscore. *)
Definition isword (c : ascii) : bool :=
  (in_range 48 57 c || in_range 65 90 c || in_range 97 122 c || is_code 95 c
   || is_code 170 c || is_code 178 c || is_code 179 c || is_code 181 c
   || is_code 185 c || is_code 186 c || in_range 188 190 c
   || in_range 192 214 c || in_range 216 246 c || in_range 248 255 c)%bool.

(** [str.lower] of one character. *)
Definition lower_char (c : ascii) : ascii :=
  if (in_range 65 90 c || in_range 192 214 c || in_range 216 222 c)%bool
  then ascii_of_N (code c + 32) else c.

Definition lower (s : str) : str := map lower_char s.

Definition len (s : str) : Z := Z.of_nat (length s).

Definition len_list (A : Type) (l : list A) : Z := Z.of_nat (length l).

Definition truthy_list (A : Type) (l : list A) : bool :=
  match l with [] => false | _ => true end.

Definition truthy (s : str) : bool :=
  match s with [] => false | _ => true end.

Fixpoint lstrip (s : str) : str :=
  match s with
  | c :: s' => if isspace c then lstrip s' else s
  | [] => []
  end.

Definition rstrip (s : str) : str := rev (lstrip (rev s)).

Definition strip (s : str) : str := rstrip (lstrip s).

(** [str.split()] without arguments: the maximal runs of non-space
    characters.  [cur] is the run being read, reversed. *)
Fixpoint split_ws_from (cur s : str) : list str :=
  match s with
  | [] => match cur with [] => [] | _ => [rev cur] end
  | c :: s' =>
      if isspace c
      then match cur with
           | [] => split_ws_from [] s'
           | _ => rev cur :: split_ws_from [] s'
           end
      else split_ws_from (c :: cur) s'
  end.

Definition split_ws (s : str) : list str := split_ws_from [] s.

Fixpoint join (sep : str) (l : list str) : str :=
  match l with
  | [] => []
  | [x] => x
  | x :: l' => x ++ sep ++ join sep l'
  end.

Fixpoint startswith (p s : str) : bool :=
  match p, s with
  | [], _ => true
  | a :: p', b :: s' => (Ascii.eqb a b && startswith p' s')%bool
  | _ :: _, [] => false
  end.

Definition endswith (p s : str) : bool := startswith (rev p) (rev s).

(** [chunk.endswith(('.', '!', '?'))] *)
Definition endswith_any (ps : list str) (s : str) : bool :=
  existsb (fun p => endswith p s) ps.

(** [s.find(sub)] as an option: the first index where [sub] starts. *)
Fixpoint find_from (sub s : str) (i : nat) : option nat :=
  if startswith sub s then Some i
  else match s with
       | [] => None
       | _ :: s' => find_from sub s' (S i)
       end.

Definition find (sub s : str) : option nat := find_from sub s 0.

(** [sub in s] *)
Definition contains (sub s : str) : bool :=
  match find sub s with Some _ => true | None => false end.

(** Index normalisation of slices: a negative index counts from the end,
    and indices are clamped to the string. *)
Definition norm_index (n : nat) (i : Z) : nat :=
  if i <? 0 then Z.to_nat (Z.max 0 (Z.of_nat n + i))
  else Nat.min n (Z.to_nat i).

(** [s[:k]] and [s[k:]] *)
Definition slice_to (s : str) (k : Z) : str := firstn (norm_index (length s) k) s.
Definition slice_from (s : str) (k : Z) : str := skipn (norm_index (length s) k) s.

(** [s[a:b]] *)
Definition slice (s : str) (a b : Z) : str :=
  let a' := norm_index (length s) a in
  let b' := norm_index (length s) b in
  firstn (b' - a') (skipn a' s).

(** [s[a:b]] for matcher positions *)
Definition substr (s : str) (a b : nat) : str := firstn (b - a) (skipn a s).

(** The last index at which [sub] starts in [s], as [rfind] reports it. *)
Fixpoint rfind_from (sub s : str) (i : nat) : option nat :=
  match s with
  | [] => if startswith sub [] then Some i else None
  | _ :: s' =>
      match rfind_from sub s' (S i) with
      | Some j => Some j
      | None => if startswith sub s then Some i else None
      end
  end.

(** [s.rfind(sub, 0, e)]: the search is confined to [s[0:e]]; [-1] when
    there is no occurrence. *)
Definition rfind (sub s : str) (e : Z) : Z :=
  match rfind_from sub (slice_to s e) 0 with
  | Some j => Z.of_nat j
  | None => -1
  end.

(** [s.split(sep, 1)] for a non-empty separator. *)
Definition split1 (sep s : str) : list str :=
  match find sep s with
  | Some i => [firstn i s; skipn (i + length sep) s]
  | None => [s]
  end.

(** [s.replace(old, new)] for a non-empty [old]: the occurrences are taken
    left to right without overlap.  [skip] counts the characters of the
    occurrence just replaced that are still to be passed over. *)
Fixpoint replace_from (old new : str) (skip : nat) (s : str) : str :=
  match s with
  | [] => []
  | c :: s' =>
      match skip with
      | S k => replace_from old new k s'
      | O =>
          if startswith old s
          then new ++ replace_from old new (length old - 1) s'
          else c :: replace_from old new 0 s'
      end
  end.

Definition replace (old new s : str) : str := replace_from old new 0 s.

(** [s.replace(old, new, 1)] *)
Definition replace1 (old new s : str) : str :=
  match find old s with
  | Some i => firstn i s ++ new ++ skipn (i + length old) s
  | None => s
  end.

(** [str(n)] of a non-negative integer, as an f-string formats it. *)
Fixpoint digits_of_uint (d : Decimal.uint) : str :=
  match d with
  | Decimal.Nil => []
  | Decimal.D0 d => "0"%char :: digits_of_uint d
  | Decimal.D1 d => "1"%char :: digits_of_uint d
  | Decimal.D2 d => "2"%char :: digits_of_uint d
  | Decimal.D3 d => "3"%char :: digits_of_uint d
  | Decimal.D4 d => "4"%char :: digits_of_uint d
  | Decimal.D5 d => "5"%char :: digits_of_uint d
  | Decimal.D6 d => "6"%char :: digits_of_uint d
  | Decimal.D7 d => "7"%char :: digits_of_uint d
  | Decimal.D8 d => "8"%char :: digits_of_uint d
  | Decimal.D9 d => "9"%char :: digits_of_uint d
  end.

Definition str_of_nat (n : nat) : str := digits_of_uint (Nat.to_uint n).

End Py.

(** ** The part of the [re] module the chunkers use

    Every repetition in the sources' patterns is over a single character
    class, so [Star] takes a class.  The matcher is written with
    continuations: a continuation that fails makes the matcher backtrack
    into the last choice point, as [re] does. *)

Module Re.

Inductive regex : Type :=
| Eps
| Chr (p : ascii -> bool)
| Seq (a b : regex)
| Alt (a b : regex)
| Star (p : ascii -> bool)
| Group (n : nat) (a : regex)
| Ahead (a : regex)
| NotAhead (a : regex)
| WordB
| Eos.

(** The spans of the groups closed so far, most recent first. *)
Definition caps := list (nat * (nat * nat)).

(** A position in the subject is a zipper: the characters before it, in
    reverse, and the characters from it on. *)
Definition cont (R : Type) := str -> str -> caps -> option R.

Definition word_at (s : str) : bool :=
  match s with c :: _ => Py.isword c | [] => false end.

(** [\b] *)
Definition at_boundary (pre rest : str) : bool := xorb (word_at pre) (word_at rest).

(** [$] without MULTILINE: the end, or just before a final newline. *)
Definition at_end (rest : str) : bool :=
  match rest with
  | [] => true
  | [c] => Py.is_code 10 c
  | _ => false
  end.

Fixpoint star (R : Type) (p : ascii -> bool) (k : cont R) (pre rest : str)
    (cs : caps) {struct rest} : option R :=
  match rest with
  | c :: rest' =>
      if p c
      then match star p k (c :: pre) rest' cs with
           | Some r => Some r
           | None => k pre rest cs
           end
      else k pre rest cs
  | [] => k pre rest cs
  end.

Fixpoint run (R : Type) (r : regex) (k : cont R) (pre rest : str) (cs : caps)
    {struct r} : option R :=
  match r with
  | Eps => k pre rest cs
  | Chr p =>
      match rest with
      | c :: rest' => if p c then k (c :: pre) rest' cs else None
      | [] => None
      end
  | Seq a b => run a (fun pre' rest' cs' => run b k pre' rest' cs') pre rest cs
  | Alt a b =>
      match run a k pre rest cs with
      | Some x => Some x
      | None => run b k pre rest cs
      end
  | Star p => star p k pre rest cs
  | Group n a =>
      run a (fun pre' rest' cs' =>
               k pre' rest' ((n, (length pre, length pre')) :: cs'))
          pre rest cs
  | Ahead a =>
      match run a (fun _ _ _ => Some tt) pre rest cs with
      | Some _ => k pre rest cs
      | None => None
      end
  | NotAhead a =>
      match run a (fun _ _ _ => Some tt) pre rest cs with
      | Some _ => None
      | None => k pre rest cs
      end
  | WordB => if at_boundary pre rest then k pre rest cs else None
  | Eos => if at_end rest then k pre rest cs else None
  end.

(** A match object: [m.start()], [m.end()] and the group spans. *)
Record mobj : Type := MObj { mstart : nat; mend : nat; mcaps : caps }.

Definition match_at (r : regex) (pre rest : str) : option mobj :=
  run r (fun pre' _ cs => Some (MObj (length pre) (length pre') cs)) pre rest [].

(** [re.match(r, s)] *)
Definition rmatch (r : regex) (s : str) : option mobj := match_at r [] s.

(** [re.finditer]: the matches from left to right, without overlap.  After
    a match the scan resumes at its end; [skip] counts the characters still
    to pass.  None of the sources' patterns matches the empty string; after
    an empty match this scan moves one character on. *)
Fixpoint finditer_from (r : regex) (pre rest : str) (skip : nat) {struct rest}
    : list mobj :=
  match skip with
  | S n =>
      match rest with
      | c :: rest' => finditer_from r (c :: pre) rest' n
      | [] => []
      end
  | O =>
      match match_at r pre rest with
      | Some m =>
          m :: match rest with
               | c :: rest' => finditer_from r (c :: pre) rest' (mend m - mstart m - 1)
               | [] => []
               end
      | None =>
          match rest with
          | c :: rest' => finditer_from r (c :: pre) rest' 0
          | [] => []
          end
      end
  end.

Definition finditer (r : regex) (s : str) : list mobj := finditer_from r [] s 0.

(** [re.search]: the leftmost match. *)
Definition search (r : regex) (s : str) : option mobj := hd_error (finditer r s).

Fixpoint lookup (n : nat) (cs : caps) : option (nat * nat) :=
  match cs with
  | [] => None
  | (g, sp) :: cs' => if Nat.eqb g n then Some sp else lookup n cs'
  end.

(** [m.group(0)] and [m.group(n)] *)
Definition group0 (s : str) (m : mobj) : str := Py.substr s (mstart m) (mend m).

Definition group (s : str) (m : mobj) (n : nat) : str :=
  match lookup n (mcaps m) with
  | Some (a, b) => Py.substr s a b
  | None => []
  end.

(** [re.split] for a pattern with [ng] groups: the text between the
    matches, each match contributing its groups. *)
Fixpoint split_at (s : str) (ng : nat) (last : nat) (ms : list mobj) : list str :=
  match ms with
  | [] => [skipn last s]
  | m :: ms' =>
      Py.substr s last (mstart m)
        :: map (group s m) (seq 1 ng) ++ split_at s ng (mend m) ms'
  end.

Definition split (r : regex) (ng : nat) (s : str) : list str :=
  split_at s ng 0 (finditer r s).

(** [re.findall] for a pattern with no group: the matched texts. *)
Definition findall (r : regex) (s : str) : list str :=
  map (group0 s) (finditer r s).

(** [re.sub] with the replacement computed from the match. *)
Fixpoint sub_at (s : str) (repl : mobj -> str) (last : nat) (ms : list mobj) : str :=
  match ms with
  | [] => skipn last s
  | m :: ms' => Py.substr s last (mstart m) ++ repl m ++ sub_at s repl (mend m) ms'
  end.

Definition sub (r : regex) (repl : str -> mobj -> str) (s : str) : str :=
  sub_at s (repl s) 0 (finditer r s).

(** *** Pattern syntax *)

Definition chr (c : ascii) : regex := Chr (Ascii.eqb c).

(** A literal character under IGNORECASE. *)
Definition chr_i (c : ascii) : regex :=
  Chr (fun x => Ascii.eqb (Py.lower_char x) (Py.lower_char c)).

Fixpoint seqs (rs : list regex) : regex :=
  match rs with
  | [] => Eps
  | [r] => r
  | r :: rs' => Seq r (seqs rs')
  end.

Fixpoint alts (rs : list regex) : regex :=
  match rs with
  | [] => NotAhead Eps
  | [r] => r
  | r :: rs' => Alt r (alts rs')
  end.

Definition lit (s : string) : regex := seqs (map chr (list_ascii_of_string s)).
Definition lit_i (s : string) : regex := seqs (map chr_i (list_ascii_of_string s)).

Definition plus (p : ascii -> bool) : regex := Seq (Chr p) (Star p).
Definition opt (r : regex) : regex := Alt r Eps.

(** Character classes *)
Definition one_of (cs : list N) (c : ascii) : bool :=
  existsb (fun n => Py.is_code n c) cs.

Definition ws : ascii -> bool := Py.isspace.
Definition upper_AZ : ascii -> bool := Py.in_range 65 90.
Definition lower_az : ascii -> bool := Py.in_range 97 122.
Definition digit : ascii -> bool := Py.in_range 48 57.
Definition enders : ascii -> bool := one_of [46; 33; 63]%N.      (* [.!?] *)
Definition any_but_newline (c : ascii) : bool := negb (Py.is_code 10 c).

(** A class under IGNORECASE admits a character whose lower or upper case
    form is in the class.  The two Latin-1 letters whose upper case form
    lies above 255 cannot enter a class of Latin-1 characters that way. *)
Definition upper_char (c : ascii) : ascii :=
  if (lower_az c || Py.in_range 224 246 c || Py.in_range 248 254 c)%bool
  then ascii_of_N (Py.code c - 32) else c.

Definition class_i (p : ascii -> bool) (c : ascii) : bool :=
  (p c || p (Py.lower_char c) || p (upper_char c))%bool.

End Re.

(** ** analysis/precise_chunker.py *)

Module Precise.
Import Re.

(** The pattern [!\s+\(] *)
Definition bang_paren : regex := seqs [chr "!"; plus ws; chr "("].

(** The pattern [(!\s+)(?=\()] *)
Definition bang_before_paren : regex :=
  Seq (Group 1 (Seq (chr "!") (plus ws))) (Ahead (chr "(")).

(** The pattern [( \( [^)]* \) \. ) \s* ( .* )], written here with spaces *)
Definition paren_then_rest : regex :=
  seqs [Group 1 (seqs [chr "("; Star (fun c => negb (Ascii.eqb c ")")); chr ")"; chr "."]);
        Star ws;
        Group 2 (Star any_but_newline)].

Definition keep_stripped (chunks : list str) : list str :=
  map Py.strip (filter (fun chunk => Py.truthy (Py.strip chunk)) chunks).

Definition precise_mixed_punctuation_split (text : str) : list str :=
  match search bang_paren text with
  | Some _ =>
      let parts := split bang_before_paren 1 text in
      let first_part := hd [] parts ++ s_ "!" in
      let remaining := Py.lstrip (concat (tl parts)) in
      let chunks := [first_part] in
      let chunks :=
        if Py.startswith (s_ "(") remaining
        then match rmatch paren_then_rest remaining with
             | Some paren_match =>
                 let parenthetical := group remaining paren_match 1 in
                 let after_paren := group remaining paren_match 2 in
                 let chunks := chunks ++ [parenthetical] in
                 if Py.contains (s_ "; specifically,") after_paren
                 then match Py.split1 (s_ "; specifically,") after_paren with
                      | [before_semi; after_semi] =>
                          chunks ++ [before_semi ++ s_ ";"]
                                 ++ [s_ "specifically," ++ after_semi]
                      | _ => chunks
                      end
                 else chunks ++ [after_paren]
             | None => chunks
             end
        else chunks
      in keep_stripped chunks
  | None => [text]
  end.

End Precise.

Definition mixed_text : str :=
  s_ "Great work! (Nice job.) However, fix the bug; specifically, the timeout.".


(** ** Outcomes of a constructor call *)

Inductive error : Type := InvalidConfiguration.

Inductive outcome (A : Type) : Type :=
| Returned (a : A)
| Raised (e : error).

Arguments Returned {A} a.
Arguments Raised {A} e.

(** ** src/chunking/gold_standard_chunker.py *)

Module GoldStandardChunker.
Import Re.

Record t : Type := Self {
  target_size : Z;
  max_size : Z;
  prefer_sentence_boundaries : bool;
  min_chunk_size : Z
}.

(** [__init__] stores its arguments; the tables it builds are the
    constants below. *)
Definition __init__ (target_size max_size : Z) (prefer_sentence_boundaries : bool)
    (min_chunk_size : Z) : outcome t :=
  Returned (Self target_size max_size prefer_sentence_boundaries min_chunk_size).

Definition default : t := Self 150 300 true 40.

Inductive language : Type := english | spanish.

Definition acronyms : regex :=
  seqs [WordB;
        Group 1 (alts [lit "NASA"; lit "FBI"; lit "CIA"; lit "MIT"; lit "IBM";
                       lit "CEO"; lit "CFO"; lit "CTO"; lit "HTTP"; lit "HTTPS";
                       lit "SSL"; lit "TLS"]);
        WordB].

Definition meridiem : regex :=
  Group 1 (alts [lit "A.M"; lit "P.M"; lit "a.m"; lit "p.m"]).

(** [self.abbreviations] *)
Definition abbreviations (lang : language) : list regex :=
  match lang with
  | english =>
      [ seqs [WordB;
              Group 1 (alts [lit "Dr"; lit "Mr"; lit "Mrs"; lit "Ms"; lit "Prof";
                             lit "Sr"; lit "Jr"]);
              chr "."];
        seqs [WordB;
              Group 1 (alts [lit "Ph.D"; lit "M.D"; lit "B.A"; lit "M.A"; lit "B.S";
                             lit "M.S"]);
              opt (chr ".")];
        seqs [WordB;
              Group 1 (alts [lit "U.S.A"; lit "U.S"; lit "U.K"]);
              chr ".";
              NotAhead (Seq (Star ws) Eos)];
        seqs [WordB;
              Group 1 (alts [lit "etc"; lit "vs"; lit "i.e"; lit "e.g"]);
              chr "."];
        seqs [WordB; plus digit; chr ":"; plus digit; chr " "; meridiem;
              Ahead (Seq (plus ws) (Chr upper_AZ))];
        acronyms ]
  | spanish =>
      [ seqs [WordB;
              Group 1 (alts [lit "Dr"; lit "Dra"; lit "Sr"; lit "Sra"; lit "Prof"]);
              chr "."];
        seqs [WordB; Group 1 (lit "EE.UU"); WordB; opt (chr ".")];
        seqs [WordB; Group 1 (alts [lit "etc"; lit "p.ej"; lit "vs"]); chr "."];
        seqs [WordB; plus digit; chr ":"; plus digit; chr " "; meridiem; chr "."];
        acronyms ]
  end.

(** The classes that may follow a sentence end: A-Z and the inverted
    marks; for Spanish also the accented letters the source lists. *)
Definition capital_en (c : ascii) : bool := (upper_AZ c || one_of [161; 191]%N c)%bool.

Definition capital_es (c : ascii) : bool :=
  (upper_AZ c
   || one_of [193; 201; 205; 211; 218; 209; 252; 233; 237; 243; 250; 225; 161; 191]%N c)%bool.

(** [self.sentence_endings]; two groups each. *)
Definition sentence_endings (lang : language) : regex :=
  seqs [Group 1 (plus enders); Group 2 (plus ws);
        Ahead (Alt (Chr (match lang with english => capital_en | spanish => capital_es end))
                   Eos)].

(** [self.punctuation_breaks], all under IGNORECASE, each with the number
    of its groups. *)
Definition punctuation_breaks : list (regex * nat) :=
  [ (seqs [Group 1 (seqs [chr "("; Star (fun c => negb (Ascii.eqb c ")")); chr ")"]);
           Group 2 (plus ws)], 2%nat);
    (seqs [Group 1 (chr "!"); Group 2 (plus ws); Ahead (Chr (class_i capital_en))], 2%nat);
    (seqs [Group 1 (chr ";"); Group 2 (plus ws);
           Group 3 (alts [lit_i "specifically"; lit_i "namely"; lit_i "however";
                          lit_i "therefore"; lit_i "furthermore"])], 3%nat) ].

(** The word written a-d-e-m-a-acute-s in the source. *)
Definition ademas : regex :=
  seqs (map chr_i (s_ "adem" ++ [ascii_of_N 225] ++ s_ "s")).

(** [self.natural_breaks], all under IGNORECASE. *)
Definition natural_breaks : list regex :=
  [ seqs [Group 1 (plus ws);
          Group 2 (alts [lit_i "and"; lit_i "but"; lit_i "or"; lit_i "so"; lit_i "yet";
                         lit_i "y"; lit_i "pero"; lit_i "o"]);
          Group 3 (plus ws)];
    seqs [Group 1 (plus ws);
          Group 2 (alts [lit_i "however"; lit_i "therefore"; lit_i "furthermore";
                         lit_i "nevertheless"; lit_i "moreover"; lit_i "sin embargo";
                         lit_i "por lo tanto"; ademas]);
          Group 3 (seqs [Star ws; opt (chr ","); plus ws])];
    seqs [Group 1 (chr ","); Group 2 (plus ws); Ahead (Chr Py.isword)];
    seqs [Group 1 (chr ";"); Group 2 (plus ws)] ].

(** The comma and conjunction pattern of [find_optimal_break_point] and
    [chunk_long_sentence], under IGNORECASE. *)
Definition comma_conjunction_pattern : regex :=
  seqs [Group 1 (chr ","); Group 2 (plus ws);
        Group 3 (alts [lit_i "and"; lit_i "but"; lit_i "or"; lit_i "so"; lit_i "yet"]);
        plus ws].

(** *** detect_language *)

Definition spanish_chars : regex :=
  Chr (one_of [225; 233; 237; 243; 250; 241; 252; 161; 191]%N).

Definition words (wl : list string) : regex :=
  seqs [WordB; Group 1 (alts (map lit wl)); WordB].

Definition spanish_words_re : regex :=
  words ["que"; "para"; "con"; "por"; "desde"; "hasta"; "donde"; "cuando";
         "porque"; "aunque"]%string.

Definition english_words_re : regex :=
  words ["the"; "and"; "for"; "with"; "from"; "where"; "when"; "because";
         "although"; "however"]%string.

Definition spanish_more_re : regex :=
  words ["el"; "la"; "los"; "las"; "es"; "en"; "de"]%string.

Definition english_more_re : regex :=
  words ["a"; "an"; "of"; "in"; "to"; "is"; "was"; "were"]%string.

Definition count (r : regex) (s : str) : Z := Py.len_list (findall r s).

Definition detect_language (text : str) : language :=
  match search spanish_chars text with
  | Some _ => spanish
  | None =>
      let spanish_words := count spanish_words_re (Py.lower text) in
      let english_words := count english_words_re (Py.lower text) in
      let spanish_indicators := spanish_words + count spanish_more_re (Py.lower text) in
      let english_indicators := english_words + count english_more_re (Py.lower text) in
      if english_indicators <? spanish_indicators then spanish else english
  end.

(** *** protect_abbreviations and restore_abbreviations *)

(** The dict [protection_map], in insertion order.  Every key the source
    inserts is new, so an insertion appends. *)
Definition protection_map := list (str * str).

Definition placeholder (i j : nat) : str :=
  s_ "__ABBREV_" ++ Py.str_of_nat i ++ s_ "_" ++ Py.str_of_nat j ++ s_ "__".

(** The inner loop: the matches of pattern [i], last first; [text0] is the
    string the matches were found in. *)
Fixpoint protect_matches (i j : nat) (text0 : str) (rmatches : list mobj)
    (protected_text : str) (map : protection_map) : str * protection_map :=
  match rmatches with
  | [] => (protected_text, map)
  | m :: rest =>
      let ph := placeholder i j in
      let map := map ++ [(ph, group0 text0 m)] in
      let protected_text :=
        Py.slice_to protected_text (Z.of_nat (mstart m)) ++ ph
          ++ Py.slice_from protected_text (Z.of_nat (mend m)) in
      protect_matches i (S j) text0 rest protected_text map
  end.

Fixpoint protect_patterns (i : nat) (patterns : list regex) (protected_text : str)
    (map : protection_map) : str * protection_map :=
  match patterns with
  | [] => (protected_text, map)
  | pattern :: rest =>
      let matches := finditer pattern protected_text in
      let '(protected_text', map') :=
        protect_matches i 0 protected_text (rev matches) protected_text map in
      protect_patterns (S i) rest protected_text' map'
  end.

Definition protect_abbreviations (text : str) (lang : language) : str * protection_map :=
  protect_patterns 0 (abbreviations lang) text [].

Fixpoint restore_abbreviations (text : str) (map : protection_map) : str :=
  match map with
  | [] => text
  | (ph, original) :: rest => restore_abbreviations (Py.replace ph original text) rest
  end.

(** *** split_into_sentences *)

(** The loop over [enumerate(parts)] of the punctuation branch.  The index
    is taken modulo 3 whatever the number of groups of the pattern. *)
Fixpoint punctuation_loop (map : protection_map) (i : nat) (parts : list str)
    (current_sentence : str) (processed_parts : list str) : str * list str :=
  match parts with
  | [] => (current_sentence, processed_parts)
  | part :: rest =>
      match (i mod 3)%nat with
      | O => punctuation_loop map (S i) rest (current_sentence ++ part) processed_parts
      | 1%nat =>
          let current_sentence := current_sentence ++ part in
          let processed_parts :=
            if Py.truthy (Py.strip current_sentence)
            then processed_parts ++ [restore_abbreviations (Py.strip current_sentence) map]
            else processed_parts in
          punctuation_loop map (S i) rest [] processed_parts
      | _ => punctuation_loop map (S i) rest current_sentence processed_parts
      end
  end.

Definition punctuation_split (map : protection_map) (pattern : regex * nat)
    (protected_text : str) : list str :=
  let parts := split (fst pattern) (snd pattern) protected_text in
  let '(current_sentence, processed_parts) := punctuation_loop map 0 parts [] [] in
  if Py.truthy (Py.strip current_sentence)
  then processed_parts ++ [restore_abbreviations (Py.strip current_sentence) map]
  else processed_parts.

(** The loop over [enumerate(parts)] of the standard branch. *)
Fixpoint standard_loop (map : protection_map) (i : nat) (parts : list str)
    (current : str) (sentences : list str) : str * list str :=
  match parts with
  | [] => (current, sentences)
  | part :: rest =>
      match (i mod 3)%nat with
      | O | 1%nat => standard_loop map (S i) rest (current ++ part) sentences
      | _ =>
          let sentences :=
            if Py.truthy (Py.strip current)
            then sentences ++ [restore_abbreviations (Py.strip current) map]
            else sentences in
          standard_loop map (S i) rest [] sentences
      end
  end.

Definition standard_split (map : protection_map) (lang : language)
    (protected_text : str) : list str :=
  let parts := split (sentence_endings lang) 2 protected_text in
  let '(current, sentences) := standard_loop map 0 parts [] [] in
  let sentences :=
    if Py.truthy (Py.strip current)
    then sentences ++ [restore_abbreviations (Py.strip current) map]
    else sentences in
  filter (fun s => Py.truthy (Py.strip s)) sentences.

(** The loop over [self.punctuation_breaks]: the first pattern that is
    found and yields a part returns; otherwise the next pattern is tried,
    and after the last one the standard split runs. *)
Fixpoint try_punctuation (map : protection_map) (lang : language)
    (patterns : list (regex * nat)) (protected_text : str) : list str :=
  match patterns with
  | [] => standard_split map lang protected_text
  | pattern :: rest =>
      match search (fst pattern) protected_text with
      | Some _ =>
          match punctuation_split map pattern protected_text with
          | [] => try_punctuation map lang rest protected_text
          | processed_parts => processed_parts
          end
      | None => try_punctuation map lang rest protected_text
      end
  end.

Definition split_into_sentences (text : str) (lang : language) : list str :=
  let '(protected_text, map) := protect_abbreviations text lang in
  try_punctuation map lang punctuation_breaks protected_text.

(** *** find_optimal_break_point *)

(** The loop over [enumerate(self.natural_breaks)]. *)
Fixpoint natural_loop (search_start : Z) (search_text : str) (priority : Z)
    (patterns : list regex) (best_break best_priority : Z) : Z * Z :=
  match patterns with
  | [] => (best_break, best_priority)
  | pattern :: rest =>
      match rev (finditer pattern search_text) with
      | last_match :: _ =>
          let break_pos :=
            search_start + Z.of_nat (mstart last_match)
              + Py.len (group search_text last_match 1) in
          if best_priority <=? priority
          then natural_loop search_start search_text (priority + 1) rest break_pos priority
          else natural_loop search_start search_text (priority + 1) rest
                 best_break best_priority
      | [] =>
          natural_loop search_start search_text (priority + 1) rest
            best_break best_priority
      end
  end.

Definition find_optimal_break_point (text : str) (max_pos : Z) : Z :=
  if Py.len text <=? max_pos then Py.len text
  else
    let head := Py.slice_to text max_pos in
    match rev (finditer comma_conjunction_pattern head) with
    | last_match :: _ =>
        Z.of_nat (mstart last_match) + Py.len (group head last_match 1)
    | [] =>
        let search_start := Z.max 0 (max_pos - 100) in
        let search_text := Py.slice text search_start max_pos in
        let '(best_break, _) := natural_loop search_start search_text 0 natural_breaks (-1) 0 in
        if best_break =? -1
        then
          let last_space := Py.rfind (s_ " ") text max_pos in
          if last_space =? -1 then max_pos else last_space
        else best_break
    end.

(** *** chunk_long_sentence *)

(** [abs(match.start() - len(sentence) * 0.6)], times five.  The source
    compares these distances in floating point.  Both are multiples of one
    fifth, and a product [n * 0.6] is exact when [n] is a multiple of five
    and otherwise off by far less than one fifth, so for any length a
    string can have the comparison of the floats is the comparison of
    these integers. *)
Definition distance5 (sentence : str) (m : mobj) : Z :=
  Z.abs (5 * Z.of_nat (mstart m) - 3 * Py.len sentence).

(** The loop choosing [best_match]: a later match replaces the best one
    only when strictly closer. *)
Fixpoint best_of (sentence : str) (best_match : option mobj) (matches : list mobj)
    : option mobj :=
  match matches with
  | [] => best_match
  | m :: rest =>
      match best_match with
      | None => best_of sentence (Some m) rest
      | Some b =>
          if distance5 sentence m <? distance5 sentence b
          then best_of sentence (Some m) rest
          else best_of sentence best_match rest
      end
  end.

(** The [while] loop; [None] when the fuel runs out. *)
Fixpoint split_loop (fuel : nat) (self : t) (remaining : str) (chunks : list str)
    : option (list str) :=
  if (Py.truthy remaining && (max_size self <? Py.len remaining))%bool
  then
    match fuel with
    | O => None
    | S fuel' =>
        let break_point := find_optimal_break_point remaining (max_size self) in
        let break_point := if break_point <=? 0 then max_size self else break_point in
        let chunk := Py.strip (Py.slice_to remaining break_point) in
        let chunks := if Py.truthy chunk then chunks ++ [chunk] else chunks in
        split_loop fuel' self (Py.strip (Py.slice_from remaining break_point)) chunks
    end
  else Some (if Py.truthy remaining then chunks ++ [remaining] else chunks).

Definition comma_split (self : t) (sentence : str) : option (list str) :=
  let matches := finditer comma_conjunction_pattern sentence in
  if (Py.truthy_list matches && (target_size self <=? Py.len sentence))%bool
  then
    match best_of sentence None matches with
    | Some best_match =>
        let break_point :=
          Z.of_nat (mstart best_match) + Py.len (group sentence best_match 1) in
        let first_part := Py.strip (Py.slice_to sentence break_point) in
        let second_part := Py.strip (Py.slice_from sentence break_point) in
        if (Py.truthy first_part && Py.truthy second_part)%bool
        then Some [first_part; second_part]
        else None
    | None => None
    end
  else None.

Definition chunk_long_sentence_fuel (fuel : nat) (self : t) (sentence : str)
    : option (list str) :=
  match comma_split self sentence with
  | Some parts => Some parts
  | None =>
      if Py.len sentence <=? max_size self then Some [sentence]
      else split_loop fuel self sentence []
  end.

(** Each turn of the loop shortens [remaining] when [max_size] is
    positive, so this fuel is enough then. *)
Definition chunk_long_sentence (self : t) (sentence : str) : option (list str) :=
  chunk_long_sentence_fuel (S (length sentence)) self sentence.

(** *** gold_standard_chunk_text *)

Definition flush (chunks : list str) (current_chunk : str) : list str :=
  if Py.truthy current_chunk then chunks ++ [Py.strip current_chunk] else chunks.

Definition potential (current_chunk sentence : str) : str :=
  current_chunk ++ (if Py.truthy current_chunk then s_ " " else []) ++ sentence.

(** The loop over [sentences]; the state is [chunks] and [current_chunk]. *)
Fixpoint assemble (self : t) (sentences : list str) (chunks : list str)
    (current_chunk : str) : option (list str * str) :=
  match sentences with
  | [] => Some (chunks, current_chunk)
  | sentence :: rest =>
      let sentence := Py.strip sentence in
      if negb (Py.truthy sentence) then assemble self rest chunks current_chunk
      else if max_size self <? Py.len sentence then
        match chunk_long_sentence self sentence with
        | Some long_chunks => assemble self rest (flush chunks current_chunk ++ long_chunks) []
        | None => None
        end
      else
        let potential_chunk := potential current_chunk sentence in
        let otherwise :=
          if ((Py.len potential_chunk <=? target_size self)
              || negb (Py.truthy current_chunk))%bool
          then assemble self rest chunks potential_chunk
          else assemble self rest (chunks ++ [Py.strip current_chunk]) sentence in
        if prefer_sentence_boundaries self then
          if ((Py.len sentence <=? min_chunk_size self)
              && (Py.len potential_chunk <=? target_size self))%bool
          then assemble self rest chunks potential_chunk
          else if ((Py.len sentence <? target_size self)
                   && (min_chunk_size self <? Py.len sentence))%bool
          then assemble self rest (flush chunks current_chunk ++ [sentence]) []
          else if target_size self <=? Py.len sentence then
            match chunk_long_sentence self sentence with
            | Some sentence_chunks =>
                assemble self rest (flush chunks current_chunk ++ sentence_chunks) []
            | None => None
            end
          else otherwise
        else otherwise
  end.

Definition gold_standard_chunk_text (self : t) (text : str) : option (list str) :=
  if negb (Py.truthy (Py.strip text)) then Some []
  else
    let lang := detect_language text in
    let sentences := split_into_sentences text lang in
    match sentences with
    | [] => Some [Py.strip text]
    | _ =>
        match assemble self sentences [] [] with
        | Some (chunks, current_chunk) =>
            let chunks :=
              if Py.truthy (Py.strip current_chunk)
              then chunks ++ [Py.strip current_chunk] else chunks in
            Some (match chunks with
                  | [] => if Py.truthy (Py.strip text) then [Py.strip text] else []
                  | _ => chunks
                  end)
        | None => None
        end
    end.

End GoldStandardChunker.

(** ** src/chunking/smart_chunking.py *)

Module SmartChunker.
Import Re.

Record t : Type := Self {
  target_size : Z;
  max_size : Z;
  min_size : Z
}.

Definition __init__ (target_size max_size min_size : Z) : outcome t :=
  Returned (Self target_size max_size min_size).

Definition default : t := Self 250 400 100.

(** [self.sentence_endings]: one or more of [.!?], then white space. *)
Definition sentence_endings : regex := Seq (plus enders) (plus ws).

(** [self.paragraph_breaks]: a newline, white space, a newline. *)
Definition paragraph_breaks : regex := seqs [chr "010"; Star ws; chr "010"].

(** The pattern [([.!?])([A-Z])] and its replacement [\1 \2]. *)
Definition glued_sentences : regex := Seq (Group 1 (Chr enders)) (Group 2 (Chr upper_AZ)).

Definition spaced (s : str) (m : mobj) : str := group s m 1 ++ s_ " " ++ group s m 2.

Definition _normalize_text (text : str) : str :=
  let text := Py.join (s_ " ") (Py.split_ws text) in
  sub glued_sentences spaced text.

(** The loop of [_split_sentences] over [enumerate(sentences[:-1])]. *)
Fixpoint rebuild (i : nat) (sentences parts : list str) (result : list str) : list str :=
  match sentences with
  | [] => result
  | sentence :: rest =>
      if Py.truthy (Py.strip sentence)
      then
        let ending := nth i parts (s_ ". ") in
        rebuild (S i) rest parts (result ++ [Py.strip sentence ++ Py.strip ending])
      else rebuild (S i) rest parts result
  end.

Definition _split_sentences (paragraph : str) : list str :=
  let sentences := split sentence_endings 0 paragraph in
  let parts := findall sentence_endings paragraph in
  let result := rebuild 0 (removelast sentences) parts [] in
  if Py.truthy (Py.strip (last sentences []))
  then result ++ [Py.strip (last sentences [])]
  else result.

Definition break_points : list str :=
  [s_ ", "; s_ "; "; s_ " and "; s_ " but "; s_ " or "; s_ " because "; s_ " although "].

(** The [while] loop of the last resort; [None] when the fuel runs out. *)
Fixpoint last_resort (fuel : nat) (self : t) (sentence : str) (chunks : list str)
    : option (list str) :=
  if max_size self <? Py.len sentence
  then
    match fuel with
    | O => None
    | S fuel' =>
        let split_pos := Py.rfind (s_ " ") sentence (max_size self) in
        let split_pos := if split_pos =? -1 then max_size self else split_pos in
        last_resort fuel' self (Py.lstrip (Py.slice_from sentence split_pos))
          (chunks ++ [Py.slice_to sentence split_pos])
    end
  else Some (if Py.truthy sentence then chunks ++ [sentence] else chunks).

(** The loop over [break_points]: the first break point whose two parts
    are both longer than [min_size] splits there; [recurse] is the call of
    [_force_split_sentence] on the second part. *)
Fixpoint try_break_points (self : t) (recurse : str -> option (list str))
    (fallback : option (list str)) (sentence : str) (bps : list str)
    : option (list str) :=
  match bps with
  | [] => fallback
  | break_point :: rest =>
      if Py.contains break_point sentence
      then
        match Py.split1 break_point sentence with
        | [part0; part1] =>
            if ((min_size self <? Py.len part0) && (min_size self <? Py.len part1))%bool
            then option_map (cons (part0 ++ Py.rstrip break_point)) (recurse part1)
            else try_break_points self recurse fallback sentence rest
        | _ => try_break_points self recurse fallback sentence rest
        end
      else try_break_points self recurse fallback sentence rest
  end.

Fixpoint _force_split_sentence_fuel (fuel : nat) (self : t) (sentence : str)
    : option (list str) :=
  match fuel with
  | O => None
  | S fuel' =>
      try_break_points self (_force_split_sentence_fuel fuel' self)
        (last_resort fuel' self sentence []) sentence break_points
  end.

Definition _force_split_sentence (self : t) (sentence : str) : option (list str) :=
  _force_split_sentence_fuel (S (length sentence)) self sentence.

(** The loop of [_chunk_paragraph] over [sentences]. *)
Fixpoint gather (self : t) (sentences : list str) (chunks : list str)
    (current_chunk : str) : option (list str * str) :=
  match sentences with
  | [] => Some (chunks, current_chunk)
  | sentence :: rest =>
      if max_size self <? Py.len sentence then
        let chunks :=
          if Py.truthy current_chunk then chunks ++ [Py.strip current_chunk] else chunks in
        match _force_split_sentence self sentence with
        | Some long_chunks => gather self rest (chunks ++ long_chunks) []
        | None => None
        end
      else
        let potential_chunk :=
          if Py.truthy current_chunk then current_chunk ++ s_ " " ++ sentence
          else sentence in
        if target_size self <? Py.len potential_chunk then
          gather self rest
            (if Py.truthy current_chunk then chunks ++ [Py.strip current_chunk] else chunks)
            sentence
        else gather self rest chunks potential_chunk
  end.

Definition _chunk_paragraph (self : t) (paragraph : str) : option (list str) :=
  if Py.len paragraph <=? max_size self then Some [paragraph]
  else
    match gather self (_split_sentences paragraph) [] [] with
    | Some (chunks, current_chunk) =>
        Some (if Py.truthy current_chunk then chunks ++ [Py.strip current_chunk]
              else chunks)
    | None => None
    end.

(** The loop of [smart_chunk_text] over [paragraphs]. *)
Fixpoint each_paragraph (self : t) (paragraphs : list str) (chunks : list str)
    : option (list str) :=
  match paragraphs with
  | [] => Some chunks
  | paragraph :: rest =>
      if negb (Py.truthy (Py.strip paragraph)) then each_paragraph self rest chunks
      else
        match _chunk_paragraph self (Py.strip paragraph) with
        | Some para_chunks => each_paragraph self rest (chunks ++ para_chunks)
        | None => None
        end
  end.

Definition long_enough (self : t) (chunk : str) : bool :=
  min_size self <=? Py.len (Py.strip chunk).

Definition smart_chunk_text (self : t) (text : str) : option (list str) :=
  let text := _normalize_text text in
  let paragraphs := split paragraph_breaks 0 text in
  option_map (filter (long_enough self)) (each_paragraph self paragraphs []).

End SmartChunker.

(** ** src/chunking/tts_optimized_chunking.py *)

Module TTSOptimizedChunker.
Import Re.

Record t : Type := Self {
  target_size : Z;
  max_size : Z;
  min_size : Z
}.

Definition __init__ (target_size max_size min_size : Z) : outcome t :=
  Returned (Self target_size max_size min_size).

Definition default : t := Self 280 450 120.

(** [self.sentence_endings]: one of [.!?] as group 1, then white space. *)
Definition sentence_endings : regex := Seq (Group 1 (Chr enders)) (plus ws).

Definition paragraph_breaks : regex := seqs [chr "010"; Star ws; chr "010"].

(** [self.protected_patterns]; the first three under IGNORECASE. *)
Definition protected_patterns : list regex :=
  [ seqs [Group 1 (alts [lit_i "Mr"; lit_i "Mrs"; lit_i "Ms"; lit_i "Dr"; lit_i "Prof";
                         lit_i "Sr"; lit_i "Jr"]);
          chr "."; plus ws];
    seqs [Group 1 (alts [lit_i "etc"; lit_i "vs"; lit_i "e.g"; lit_i "i.e"]);
          chr "."; plus ws];
    seqs [Group 1 (alts [lit_i "U.S."; lit_i "U.K."; lit_i "Ph.D"]);
          chr "."; plus ws];
    seqs [WordB; plus digit; chr "."; plus digit; plus ws] ].

(** The four substitutions of [_normalize_for_tts]. *)
Definition glued_sentences : regex := Seq (Group 1 (Chr enders)) (Group 2 (Chr upper_AZ)).

Definition glued_clause : regex :=
  Seq (Group 1 (Chr (one_of [59; 58; 44]%N))) (Group 2 (Chr (fun c => negb (ws c)))).

Definition ending : regex := seqs [Group 1 (Chr enders); Group 2 (Star ws); Eos].

Definition spaced_sentences : regex :=
  seqs [Group 1 (Chr enders); Group 2 (plus ws); Group 3 (Chr upper_AZ)].

Definition _normalize_for_tts (text : str) : str :=
  let text := Py.join (s_ " ") (Py.split_ws text) in
  let text := sub glued_sentences (fun s m => group s m 1 ++ s_ " " ++ group s m 2) text in
  let text := sub glued_clause (fun s m => group s m 1 ++ s_ " " ++ group s m 2) text in
  let text := sub ending (fun s m => group s m 1) text in
  let text :=
    sub spaced_sentences
      (fun s m => group s m 1 ++ s_ " " ++ group s m 2 ++ group s m 3) text in
  Py.strip text.

(** *** _ensure_tts_termination *)

Definition terminators : list str := [s_ "."; s_ "!"; s_ "?"].

Definition _ensure_tts_termination (chunk : str) : str :=
  let chunk := Py.strip chunk in
  if negb (Py.truthy chunk) then chunk
  else if negb (Py.endswith_any terminators chunk) then
    if Py.endswith_any [s_ ":"; s_ ";"; s_ ","] chunk
    then chunk ++ s_ "."
    else chunk ++ s_ "."
  else chunk.

(** *** _split_at_words *)

Fixpoint pack_words (self : t) (words : list str) (chunks : list str)
    (current_chunk : str) : list str * str :=
  match words with
  | [] => (chunks, current_chunk)
  | word :: rest =>
      let test_chunk :=
        if Py.truthy current_chunk then current_chunk ++ s_ " " ++ word else word in
      if target_size self <? Py.len test_chunk
      then pack_words self rest
             (if Py.truthy current_chunk then chunks ++ [current_chunk] else chunks) word
      else pack_words self rest chunks test_chunk
  end.

Definition _split_at_words (self : t) (text : str) : list str :=
  let '(chunks, current_chunk) := pack_words self (Py.split_ws text) [] [] in
  if Py.truthy current_chunk then chunks ++ [current_chunk] else chunks.

(** *** _split_long_sentence_tts_safe *)

Definition conjunction : regex :=
  alts [lit_i "and"; lit_i "but"; lit_i "or"; lit_i "however"; lit_i "therefore";
        lit_i "moreover"].

(** [break_patterns], matched under IGNORECASE. *)
Definition break_patterns : list regex :=
  [ Seq (chr ";") (plus ws);
    seqs [chr ","; plus ws; Group 1 conjunction; plus ws];
    seqs [chr ","; plus ws; lit_i "which"; plus ws];
    Seq (chr ",") (plus ws) ].

(** [min(matches, key=...)]: the first match of least key. *)
Fixpoint min_by (key : mobj -> Z) (best : mobj) (matches : list mobj) : mobj :=
  match matches with
  | [] => best
  | m :: rest => if key m <? key best then min_by key m rest else min_by key best rest
  end.

Definition end_distance (sentence : str) (m : mobj) : Z :=
  Z.abs (Z.of_nat (mend m) - Py.len sentence / 2).

(** The loop over [break_patterns]; [recurse] is the call of
    [_split_long_sentence_tts_safe] on the second part. *)
Fixpoint try_patterns (self : t) (recurse : str -> option (list str))
    (sentence : str) (patterns : list regex) : option (list str) :=
  match patterns with
  | [] => Some (_split_at_words self sentence)
  | pattern :: rest =>
      match finditer pattern sentence with
      | [] => try_patterns self recurse sentence rest
      | m :: ms =>
          let best_match := min_by (end_distance sentence) m ms in
          let first_part := Py.strip (Py.slice_to sentence (Z.of_nat (mend best_match))) in
          let second_part := Py.strip (Py.slice_from sentence (Z.of_nat (mend best_match))) in
          if ((min_size self <=? Py.len first_part)
              && (min_size self <=? Py.len second_part))%bool
          then
            if max_size self <? Py.len second_part
            then option_map (cons first_part) (recurse second_part)
            else Some [first_part; second_part]
          else try_patterns self recurse sentence rest
      end
  end.

Fixpoint _split_long_sentence_tts_safe_fuel (fuel : nat) (self : t) (sentence : str)
    : option (list str) :=
  match fuel with
  | O => None
  | S fuel' =>
      try_patterns self (_split_long_sentence_tts_safe_fuel fuel' self)
        sentence break_patterns
  end.

(** A recursive call is on a strictly shorter string, so the length of the
    sentence bounds the depth. *)
Definition _split_long_sentence_tts_safe (self : t) (sentence : str)
    : option (list str) :=
  _split_long_sentence_tts_safe_fuel (S (length sentence)) self sentence.

(** *** _split_sentences_tts_safe *)

Definition protection_map := list (str * str).

Definition placeholder (n : nat) : str :=
  s_ "__PROTECT_" ++ Py.str_of_nat n ++ s_ "__".

(** The inner loop over the matches of one pattern in [paragraph]. *)
Fixpoint protect_matches (paragraph : str) (matches : list mobj)
    (protected_text : str) (map : protection_map) (protection_counter : nat)
    : str * protection_map * nat :=
  match matches with
  | [] => (protected_text, map, protection_counter)
  | m :: rest =>
      let ph := placeholder protection_counter in
      protect_matches paragraph rest
        (Py.replace1 (group0 paragraph m) ph protected_text)
        (map ++ [(ph, group0 paragraph m)])
        (S protection_counter)
  end.

Fixpoint protect_patterns (paragraph : str) (patterns : list regex)
    (protected_text : str) (map : protection_map) (protection_counter : nat)
    : str * protection_map :=
  match patterns with
  | [] => (protected_text, map)
  | pattern :: rest =>
      let '(protected_text', map', counter') :=
        protect_matches paragraph (finditer pattern paragraph) protected_text map
          protection_counter in
      protect_patterns paragraph rest protected_text' map' counter'
  end.

Fixpoint restore (text : str) (map : protection_map) : str :=
  match map with
  | [] => text
  | (ph, original) :: rest => restore (Py.replace ph original text) rest
  end.

(** The loop [for i in range(0, len(parts) - 1, 2)]: [parts] is read two
    items at a time, as long as two remain. *)
Fixpoint pair_up (map : protection_map) (parts : list str) (sentences : list str)
    : list str :=
  match parts with
  | content :: punctuation :: rest =>
      let sentence_content := Py.strip content in
      if Py.truthy sentence_content
      then pair_up map rest
             (sentences ++ [Py.strip (restore (sentence_content ++ punctuation) map)])
      else pair_up map rest sentences
  | _ => sentences
  end.

Definition _split_sentences_tts_safe (paragraph : str) : list str :=
  let '(protected_text, map) := protect_patterns paragraph protected_patterns paragraph [] 0 in
  let parts := split sentence_endings 1 protected_text in
  let sentences := pair_up map parts [] in
  if (Nat.eqb (length parts mod 2) 1 && Py.truthy (Py.strip (last parts [])))%bool
  then sentences ++ [restore (Py.strip (last parts [])) map]
  else sentences.

(** *** _chunk_paragraph_for_tts *)

Fixpoint gather (self : t) (sentences : list str) (chunks : list str)
    (current_chunk : str) : option (list str * str) :=
  match sentences with
  | [] => Some (chunks, current_chunk)
  | sentence :: rest =>
      if max_size self <? Py.len sentence then
        let chunks :=
          if Py.truthy current_chunk
          then chunks ++ [_ensure_tts_termination current_chunk] else chunks in
        match _split_long_sentence_tts_safe self sentence with
        | Some long_chunks =>
            gather self rest (chunks ++ map _ensure_tts_termination long_chunks) []
        | None => None
        end
      else
        let test_chunk :=
          if Py.truthy current_chunk then current_chunk ++ s_ " " ++ sentence
          else sentence in
        if Py.len test_chunk <=? target_size self
        then gather self rest chunks test_chunk
        else if ((Py.len current_chunk <? min_size self)
                 && (Py.len test_chunk <=? max_size self))%bool
        then gather self rest chunks test_chunk
        else gather self rest
               (if Py.truthy current_chunk
                then chunks ++ [_ensure_tts_termination current_chunk] else chunks)
               sentence
  end.

Definition _chunk_paragraph_for_tts (self : t) (paragraph : str) : option (list str) :=
  if Py.len paragraph <=? max_size self
  then Some [_ensure_tts_termination paragraph]
  else
    match gather self (_split_sentences_tts_safe paragraph) [] [] with
    | Some (chunks, current_chunk) =>
        Some (if Py.truthy current_chunk
              then chunks ++ [_ensure_tts_termination current_chunk] else chunks)
    | None => None
    end.

(** *** tts_chunk_text *)

Fixpoint each_paragraph (self : t) (paragraphs : list str) (chunks : list str)
    : option (list str) :=
  match paragraphs with
  | [] => Some chunks
  | paragraph :: rest =>
      if negb (Py.truthy (Py.strip paragraph)) then each_paragraph self rest chunks
      else
        match _chunk_paragraph_for_tts self (Py.strip paragraph) with
        | Some para_chunks => each_paragraph self rest (chunks ++ para_chunks)
        | None => None
        end
  end.

Definition long_enough (self : t) (chunk : str) : bool :=
  min_size self <=? Py.len (Py.strip chunk).

Definition tts_chunk_text (self : t) (text : str) : option (list str) :=
  let text := _normalize_for_tts text in
  let paragraphs := split paragraph_breaks 0 text in
  option_map (filter (long_enough self)) (each_paragraph self paragraphs []).

End TTSOptimizedChunker.

(** ** src/chunking/enhanced_chunking.py: the long sentence splitter *)

Module NaturalSpeechChunker.
Import Re.

Record t : Type := Self {
  target_size : Z;
  max_size : Z;
  min_size : Z
}.

Definition __init__ (target_size max_size min_size : Z) : outcome t :=
  Returned (Self target_size max_size min_size).

Definition default : t := Self 280 450 120.

(** [self.medium_breaks] and [self.weak_breaks] *)
Definition medium_breaks : regex := Seq (plus (one_of [59; 58]%N)) (plus ws).
Definition weak_breaks : regex := Seq (plus (one_of [44]%N)) (plus ws).

Definition between_spaces (wl : list string) : regex :=
  seqs [plus ws; Group 1 (alts (map lit_i wl)); plus ws].

Definition before_comma (wl : list string) : regex :=
  seqs [plus ws; Group 1 (alts (map lit_i wl)); Star ws; opt (chr ","); plus ws].

(** [self.natural_breaks], all under IGNORECASE. *)
Definition natural_breaks : list regex :=
  [ between_spaces ["and"; "but"; "or"; "nor"; "for"; "so"; "yet"]%string;
    between_spaces ["because"; "since"; "although"; "though"; "while"; "whereas";
                    "if"; "unless"; "until"; "when"; "where"; "after"; "before"]%string;
    before_comma ["however"; "therefore"; "moreover"; "furthermore"; "nevertheless";
                  "consequently"; "meanwhile"; "thus"; "hence"]%string;
    before_comma ["in addition"; "on the other hand"; "for example"; "for instance";
                  "in contrast"; "as a result"]%string;
    between_spaces ["which"; "that"; "who"; "whom"; "whose"; "where"; "when"]%string ].

(** [break_attempts] of [_split_long_sentence_naturally] *)
Definition break_attempts : list regex :=
  [medium_breaks] ++ natural_breaks ++ [weak_breaks].

Fixpoint pack_words (self : t) (words : list str) (chunks : list str)
    (current_chunk : str) : list str * str :=
  match words with
  | [] => (chunks, current_chunk)
  | word :: rest =>
      let test_chunk :=
        if Py.truthy current_chunk then current_chunk ++ s_ " " ++ word else word in
      if target_size self <? Py.len test_chunk
      then pack_words self rest
             (if Py.truthy current_chunk then chunks ++ [current_chunk] else chunks) word
      else pack_words self rest chunks test_chunk
  end.

Definition _force_split_at_words (self : t) (sentence : str) : list str :=
  let '(chunks, current_chunk) := pack_words self (Py.split_ws sentence) [] [] in
  if Py.truthy current_chunk then chunks ++ [current_chunk] else chunks.

Fixpoint min_by (key : mobj -> Z) (best : mobj) (matches : list mobj) : mobj :=
  match matches with
  | [] => best
  | m :: rest => if key m <? key best then min_by key m rest else min_by key best rest
  end.

Definition start_distance (sentence : str) (m : mobj) : Z :=
  Z.abs (Z.of_nat (mstart m) - Py.len sentence / 2).

(** [_attempt_split_at_pattern]; [recurse] is the call of
    [_split_long_sentence_naturally] on the second part.  The empty list
    is the answer for no split. *)
Definition _attempt_split_at_pattern (self : t) (recurse : str -> option (list str))
    (sentence : str) (pattern : regex) : option (list str) :=
  match finditer pattern sentence with
  | [] => Some []
  | m :: ms =>
      let best_break := min_by (start_distance sentence) m ms in
      let split_pos := Z.of_nat (mend best_break) in
      let first_part := Py.strip (Py.slice_to sentence split_pos) in
      let second_part := Py.strip (Py.slice_from sentence split_pos) in
      if ((min_size self <=? Py.len first_part)
          && (min_size self <=? Py.len second_part))%bool
      then
        if max_size self <? Py.len second_part
        then option_map (cons first_part) (recurse second_part)
        else Some [first_part; second_part]
      else Some []
  end.

Definition within_bounds (self : t) (chunk : str) : bool :=
  ((min_size self <=? Py.len chunk) && (Py.len chunk <=? max_size self))%bool.

(** The loop over [break_attempts]. *)
Fixpoint try_attempts (self : t) (recurse : str -> option (list str))
    (sentence : str) (attempts : list regex) : option (list str) :=
  match attempts with
  | [] => Some (_force_split_at_words self sentence)
  | break_pattern :: rest =>
      match _attempt_split_at_pattern self recurse sentence break_pattern with
      | Some chunks =>
          if (Py.truthy_list chunks && forallb (within_bounds self) chunks)%bool
          then Some chunks
          else try_attempts self recurse sentence rest
      | None => None
      end
  end.

Fixpoint _split_long_sentence_naturally_fuel (fuel : nat) (self : t) (sentence : str)
    : option (list str) :=
  match fuel with
  | O => None
  | S fuel' =>
      try_attempts self (_split_long_sentence_naturally_fuel fuel' self)
        sentence break_attempts
  end.

Definition _split_long_sentence_naturally (self : t) (sentence : str)
    : option (list str) :=
  _split_long_sentence_naturally_fuel (S (length sentence)) self sentence.

(** *** natural_chunk_text and what it calls *)

(** [self.strong_breaks] and [self.paragraph_breaks] *)
Definition strong_breaks : regex := Seq (plus enders) (plus ws).
Definition paragraph_breaks : regex := seqs [chr "010"; Star ws; chr "010"].

(** The class of a space or a tab. *)
Definition blanks : ascii -> bool := one_of [32; 9]%N.

(** [self.no_break_patterns], matched as written (no IGNORECASE). *)
Definition no_break_patterns : list regex :=
  [ seqs [Group 1 (alts [lit "Mr"; lit "Mrs"; lit "Ms"; lit "Dr"; lit "Prof";
                         lit "Sr"; lit "Jr"]);
          chr "."; plus ws];
    seqs [plus digit; chr "."; plus digit];
    seqs [Chr upper_AZ; chr "."; Star ws; Chr upper_AZ; chr "."];
    seqs [Group 1 (alts [lit "etc"; lit "vs"; lit "e.g"; lit "i.e"]);
          chr "."; plus ws];
    seqs [Group 1 (alts [lit "U.S."; lit "U.K."; lit "Ph.D"]);
          chr "."; plus ws] ].

(** The five substitutions of [_normalize_text]. *)
Definition spaces_and_tabs : regex := plus blanks.

Definition loose_paragraph_break : regex := seqs [chr "010"; Star blanks; chr "010"].

Definition glued_sentences : regex := Seq (Group 1 (Chr enders)) (Group 2 (Chr upper_AZ)).

Definition glued_clause : regex :=
  Seq (Group 1 (Chr (one_of [59; 58; 44]%N))) (Group 2 (Chr (fun c => negb (ws c)))).

Definition white_space : regex := plus ws.

Definition _normalize_text (text : str) : str :=
  let text := sub spaces_and_tabs (fun _ _ => s_ " ") text in
  let text := sub loose_paragraph_break (fun _ _ => ["010"%char; "010"%char]) text in
  let text := sub glued_sentences (fun s m => group s m 1 ++ s_ " " ++ group s m 2) text in
  let text := sub glued_clause (fun s m => group s m 1 ++ s_ " " ++ group s m 2) text in
  let text := sub white_space (fun _ _ => s_ " ") text in
  Py.strip text.

(** *** _split_sentences_advanced *)

Definition protection_map := list (str * str).

Definition placeholder (n : nat) : str :=
  s_ "__PROTECT_" ++ Py.str_of_nat n ++ s_ "__".

(** The inner loop over the matches of one pattern in [paragraph]. *)
Fixpoint protect_matches (paragraph : str) (matches : list mobj)
    (protected_text : str) (map : protection_map) (protection_counter : nat)
    : str * protection_map * nat :=
  match matches with
  | [] => (protected_text, map, protection_counter)
  | m :: rest =>
      let ph := placeholder protection_counter in
      protect_matches paragraph rest
        (Py.replace1 (group0 paragraph m) ph protected_text)
        (map ++ [(ph, group0 paragraph m)])
        (S protection_counter)
  end.

Fixpoint protect_patterns (paragraph : str) (patterns : list regex)
    (protected_text : str) (map : protection_map) (protection_counter : nat)
    : str * protection_map :=
  match patterns with
  | [] => (protected_text, map)
  | pattern :: rest =>
      let '(protected_text', map', counter') :=
        protect_matches paragraph (finditer pattern paragraph) protected_text map
          protection_counter in
      protect_patterns paragraph rest protected_text' map' counter'
  end.

Fixpoint restore (text : str) (map : protection_map) : str :=
  match map with
  | [] => text
  | (ph, original) :: rest => restore (Py.replace ph original text) rest
  end.

(** The loop over [enumerate(sentences[:-1])]. *)
Fixpoint rebuild (map : protection_map) (i : nat) (sentences parts : list str)
    (result : list str) : list str :=
  match sentences with
  | [] => result
  | sentence :: rest =>
      if Py.truthy (Py.strip sentence)
      then
        let ending := nth i parts (s_ ". ") in
        let full_sentence := Py.strip sentence ++ Py.strip ending in
        rebuild map (S i) rest parts (result ++ [restore full_sentence map])
      else rebuild map (S i) rest parts result
  end.

Definition _split_sentences_advanced (paragraph : str) : list str :=
  let '(protected_text, map) :=
    protect_patterns paragraph no_break_patterns paragraph [] 0 in
  let sentences := split strong_breaks 0 protected_text in
  let parts := findall strong_breaks protected_text in
  let result := rebuild map 0 (removelast sentences) parts [] in
  if Py.truthy (Py.strip (last sentences []))
  then result ++ [restore (Py.strip (last sentences [])) map]
  else result.

(** *** _chunk_paragraph_naturally *)

(** The loop over [sentences]. *)
Fixpoint gather (self : t) (sentences : list str) (chunks : list str)
    (current_chunk : str) : option (list str * str) :=
  match sentences with
  | [] => Some (chunks, current_chunk)
  | sentence :: rest =>
      if max_size self <? Py.len sentence then
        let chunks :=
          if Py.truthy current_chunk then chunks ++ [Py.strip current_chunk] else chunks in
        match _split_long_sentence_naturally self sentence with
        | Some long_chunks => gather self rest (chunks ++ long_chunks) []
        | None => None
        end
      else
        let potential_chunk :=
          if Py.truthy current_chunk then current_chunk ++ s_ " " ++ sentence
          else sentence in
        if target_size self <? Py.len potential_chunk then
          if ((Py.len current_chunk <? min_size self)
              && (Py.len potential_chunk <=? max_size self))%bool
          then gather self rest chunks potential_chunk
          else gather self rest
                 (if Py.truthy current_chunk then chunks ++ [Py.strip current_chunk]
                  else chunks)
                 sentence
        else gather self rest chunks potential_chunk
  end.

Definition terminators : list str := [s_ "."; s_ "!"; s_ "?"].

(** The final chunk: stripped, and given a period when it ends with none
    of the three marks. *)
Definition finish (current_chunk : str) : str :=
  let final_chunk := Py.strip current_chunk in
  if (Py.truthy final_chunk && negb (Py.endswith_any terminators final_chunk))%bool
  then final_chunk ++ s_ "."
  else final_chunk.

Definition _chunk_paragraph_naturally (self : t) (paragraph : str) : option (list str) :=
  if Py.len paragraph <=? max_size self then Some [paragraph]
  else
    match gather self (_split_sentences_advanced paragraph) [] [] with
    | Some (chunks, current_chunk) =>
        Some (if Py.truthy current_chunk then chunks ++ [finish current_chunk]
              else chunks)
    | None => None
    end.

(** *** natural_chunk_text *)

Fixpoint each_paragraph (self : t) (paragraphs : list str) (chunks : list str)
    : option (list str) :=
  match paragraphs with
  | [] => Some chunks
  | paragraph :: rest =>
      if negb (Py.truthy (Py.strip paragraph)) then each_paragraph self rest chunks
      else
        match _chunk_paragraph_naturally self (Py.strip paragraph) with
        | Some para_chunks => each_paragraph self rest (chunks ++ para_chunks)
        | None => None
        end
  end.

Definition long_enough (self : t) (chunk : str) : bool :=
  min_size self <=? Py.len (Py.strip chunk).

Definition natural_chunk_text (self : t) (text : str) : option (list str) :=
  let text := _normalize_text text in
  let paragraphs := split paragraph_breaks 0 text in
  option_map (filter (long_enough self)) (each_paragraph self paragraphs []).

End NaturalSpeechChunker.

(** ** chunking_test_framework.py: the text comparison *)

Module ChunkingEvaluator.

(** [normalize_text]: the words of the text joined by single spaces. *)
Definition normalize_text (text : str) : str :=
  Py.strip (Py.join (s_ " ") (Py.split_ws text)).

(** The text a list of chunks stands for, as [calculate_similarity]
    builds it: the chunks joined by single spaces, then normalised. *)
Definition reconstructed (chunks : list str) : str :=
  normalize_text (Py.join (s_ " ") chunks).

End ChunkingEvaluator.

(** ** The language classifier as the specification words it *)

Module ClassifierSpec.

Import GoldStandardChunker.

(** The Spanish-specific characters: the accented vowels a, e, i, o, u,
    the n with tilde, the u with diaeresis, and the two inverted marks. *)
Definition spanish_marks : list N := [225; 233; 237; 243; 250; 241; 252; 161; 191]%N.

Definition has_spanish_mark (text : str) : bool :=
  existsb (fun c => existsb (fun n => N.eqb (N_of_ascii c) n) spanish_marks) text.

(** The words of a text: its maximal runs of word characters.  [cur] is
    the run being read, reversed. *)
Fixpoint tokens_from (cur s : str) : list str :=
  match s with
  | [] => match cur with [] => [] | _ => [rev cur] end
  | c :: s' =>
      if Py.isword c then tokens_from (c :: cur) s'
      else match cur with
           | [] => tokens_from [] s'
           | _ => rev cur :: tokens_from [] s'
           end
  end.

Definition tokens (s : str) : list str := tokens_from [] s.

Fixpoint str_eqb (a b : str) : bool :=
  match a, b with
  | [], [] => true
  | x :: a', y :: b' => (Ascii.eqb x y && str_eqb a' b')%bool
  | _, _ => false
  end.

Definition listed (wl : list string) (w : str) : bool :=
  existsb (fun x => str_eqb (s_ x) w) wl.

(** The number of whole words of the text that are, without regard to
    case, in the list. *)
Definition whole_words (wl : list string) (text : str) : Z :=
  Z.of_nat (length (filter (listed wl) (tokens (Py.lower text)))).

Definition spanish_function_words : list string :=
  ["que"; "para"; "con"; "por"; "desde"; "hasta"; "donde"; "cuando"; "porque";
   "aunque"; "el"; "la"; "los"; "las"; "es"; "en"; "de"]%string.

Definition english_function_words : list string :=
  ["the"; "and"; "for"; "with"; "from"; "where"; "when"; "because"; "although";
   "however"; "a"; "an"; "of"; "in"; "to"; "is"; "was"; "were"]%string.

Definition classify (text : str) : language :=
  if has_spanish_mark text then spanish
  else if whole_words english_function_words text
          <? whole_words spanish_function_words text
       then spanish
       else english.

End ClassifierSpec.

Unset Implicit Arguments.

#[local] Arguments Ascii.eqb : simpl never.

(** * Theorems *)

(** ** Mixed punctuation (C4) *)

Definition four_chunks : list str :=
  [s_ "Great work!"; s_ "(Nice job.)"; s_ "However, fix the bug;";
   s_ "specifically, the timeout."].

Definition two_chunks : list str :=
  [s_ "Great work! (Nice job.)";
   s_ "However, fix the bug; specifically, the timeout."].

(** The precise splitter keeps the exclamation mark in [remaining], which
    therefore never starts with a parenthesis: only the first chunk is
    produced. *)
Example precise_mixed_text :
  Precise.precise_mixed_punctuation_split mixed_text = [s_ "Great work!"].
Proof. vm_compute. reflexivity. Qed.

(** C4, as stated: the gold standard engine does not return the four
    chunks on the mixed punctuation input. *)
Lemma C4_four_chunks_refuted :
  GoldStandardChunker.gold_standard_chunk_text GoldStandardChunker.default mixed_text
    <> Some four_chunks.
Proof. vm_compute. discriminate. Qed.

(** C4, amended: on the mixed punctuation input the text is classified
    as English, the parenthetical break class is the first one found and
    alone decides the split, which gives two sentences, and the engine
    with its default thresholds returns them as two chunks. *)
Theorem C4_mixed_punctuation_two_chunks :
  GoldStandardChunker.detect_language mixed_text = GoldStandardChunker.english
  /\ GoldStandardChunker.split_into_sentences mixed_text GoldStandardChunker.english
     = two_chunks
  /\ GoldStandardChunker.gold_standard_chunk_text GoldStandardChunker.default mixed_text
     = Some two_chunks.
Proof. vm_compute. repeat split; reflexivity. Qed.

(** ** Facts about the [str] methods *)

Section StrFacts.

Import Py.

(** Empty or white space only. *)
Definition blank (s : str) : bool := forallb isspace s.

Lemma lstrip_length (s : str) : (length (lstrip s) <= length s)%nat.
Proof.
  induction s as [|c s IH]; simpl; [lia|].
  destruct (isspace c); simpl; lia.
Qed.

Lemma lstrip_blank (s : str) : lstrip s = [] <-> blank s = true.
Proof.
  induction s as [|c s IH]; simpl; [tauto|].
  destruct (isspace c); simpl; [exact IH|].
  split; discriminate.
Qed.

Lemma lstrip_head (s : str) (c : ascii) (r : str) :
  lstrip s = c :: r -> isspace c = false.
Proof.
  induction s as [|d s IH]; simpl; [discriminate|].
  destruct (isspace d) eqn:E; [exact IH|].
  intros H; injection H as <- _; exact E.
Qed.

Lemma lstrip_fixed (s : str) :
  match s with c :: _ => isspace c = false | [] => True end -> lstrip s = s.
Proof. destruct s as [|c s]; simpl; [reflexivity|]. intros ->; reflexivity. Qed.

Lemma lstrip_idem (s : str) : lstrip (lstrip s) = lstrip s.
Proof.
  apply lstrip_fixed. destruct (lstrip s) as [|c r] eqn:E; [exact I|].
  exact (lstrip_head _ _ _ E).
Qed.

Lemma blank_app (a b : str) : blank (a ++ b) = (blank a && blank b)%bool.
Proof. apply forallb_app. Qed.

Lemma blank_rev (s : str) : blank (rev s) = blank s.
Proof.
  induction s as [|c s IH]; simpl; [reflexivity|].
  rewrite blank_app, IH. simpl. rewrite andb_true_r. apply andb_comm.
Qed.

(** [lstrip] removes a blank prefix. *)
Lemma lstrip_split (s : str) : exists l, s = l ++ lstrip s /\ blank l = true.
Proof.
  induction s as [|c s [l [E B]]]; simpl.
  - exists []; split; reflexivity.
  - destruct (isspace c) eqn:Ec.
    + exists (c :: l); simpl. rewrite Ec, B. split; [congruence|reflexivity].
    + exists []; split; reflexivity.
Qed.

Lemma lstrip_keeps_blank (s : str) : blank (lstrip s) = blank s.
Proof.
  destruct (lstrip_split s) as [l [E B]].
  rewrite E at 2. rewrite blank_app, B. reflexivity.
Qed.

Lemma rstrip_length (s : str) : (length (rstrip s) <= length s)%nat.
Proof.
  unfold rstrip. rewrite length_rev.
  pose proof (lstrip_length (rev s)) as H. rewrite length_rev in H. exact H.
Qed.

Lemma strip_length (s : str) : (length (strip s) <= length s)%nat.
Proof.
  unfold strip. pose proof (rstrip_length (lstrip s)). pose proof (lstrip_length s). lia.
Qed.

Lemma rstrip_blank (s : str) : rstrip s = [] <-> blank s = true.
Proof.
  unfold rstrip. rewrite <- (blank_rev s), <- lstrip_blank.
  split; intros H.
  - apply (f_equal (@rev ascii)) in H. rewrite rev_involutive in H. exact H.
  - rewrite H. reflexivity.
Qed.

Lemma strip_blank (s : str) : strip s = [] <-> blank s = true.
Proof. unfold strip. rewrite rstrip_blank, lstrip_keeps_blank. tauto. Qed.

Lemma truthy_strip (s : str) : truthy (strip s) = negb (blank s).
Proof.
  destruct (blank s) eqn:B.
  - apply strip_blank in B. rewrite B. reflexivity.
  - destruct (strip s) eqn:E; [|reflexivity].
    apply strip_blank in E. congruence.
Qed.

(** [rstrip] removes a blank suffix. *)
Lemma rstrip_split (s : str) : exists r, s = rstrip s ++ r /\ blank r = true.
Proof.
  destruct (lstrip_split (rev s)) as [l [E B]].
  exists (rev l). split.
  - unfold rstrip. rewrite <- rev_app_distr, <- E, rev_involutive. reflexivity.
  - rewrite blank_rev. exact B.
Qed.

Lemma rstrip_keeps_blank (s : str) : blank (rstrip s) = blank s.
Proof.
  destruct (rstrip_split s) as [r [E B]].
  rewrite E at 2. rewrite blank_app, B, andb_true_r. reflexivity.
Qed.

Lemma strip_keeps_blank (s : str) : blank (strip s) = blank s.
Proof. unfold strip. rewrite rstrip_keeps_blank. apply lstrip_keeps_blank. Qed.

Lemma rstrip_idem (s : str) : rstrip (rstrip s) = rstrip s.
Proof. unfold rstrip. rewrite rev_involutive, lstrip_idem. reflexivity. Qed.

(** What [rstrip] leaves still starts where the string started. *)
Lemma rstrip_keeps_head (s : str) (c : ascii) (r : str) :
  s = c :: r -> isspace c = false -> exists r', rstrip s = c :: r'.
Proof.
  intros -> Hc.
  destruct (rstrip_split (c :: r)) as [t [E B]].
  destruct (rstrip (c :: r)) as [|d r'] eqn:Er.
  - simpl in E. subst t. simpl in B. rewrite Hc in B. discriminate.
  - simpl in E. injection E as <- _. eauto.
Qed.

Lemma lstrip_rstrip (s : str) : lstrip (rstrip (lstrip s)) = rstrip (lstrip s).
Proof.
  apply lstrip_fixed.
  destruct (lstrip s) as [|c r] eqn:E.
  - reflexivity.
  - destruct (rstrip_keeps_head _ _ _ (eq_refl (c :: r)) (lstrip_head _ _ _ E)) as [r' ->].
    exact (lstrip_head _ _ _ E).
Qed.

Lemma strip_idem (s : str) : strip (strip s) = strip s.
Proof. unfold strip. rewrite lstrip_rstrip, rstrip_idem. reflexivity. Qed.

Lemma len_nonneg (s : str) : 0 <= len s.
Proof. unfold len. lia. Qed.

Lemma len_strip (s : str) : len (strip s) <= len s.
Proof. unfold len. pose proof (strip_length s). lia. Qed.

Lemma truthy_len (s : str) : truthy s = true <-> 0 < len s.
Proof. destruct s; unfold len; simpl; split; intros; try discriminate; lia. Qed.

Lemma slice_from_length (s : str) (k : Z) :
  1 <= k -> s <> [] -> (length (slice_from s k) < length s)%nat.
Proof.
  intros Hk Hs. unfold slice_from, norm_index.
  destruct (Z.ltb_spec k 0); [lia|].
  rewrite length_skipn.
  destruct s; [congruence|]. simpl length. lia.
Qed.

End StrFacts.

(** ** The gold standard engine returns, and returns no blank chunk *)

Section GoldTotal.

Import Py GoldStandardChunker.

Definition nonblank (c : str) : Prop := blank c = false.

(** A string that is non-blank as soon as it is non-empty. *)
Definition solid (s : str) : Prop := truthy s = true -> nonblank s.

Lemma solid_strip (s : str) : solid (strip s).
Proof.
  intros H. unfold nonblank. rewrite strip_keeps_blank.
  rewrite truthy_strip in H. destruct (blank s); [discriminate|reflexivity].
Qed.

Lemma nonblank_strip (s : str) : nonblank s -> nonblank (strip s).
Proof. unfold nonblank. rewrite strip_keeps_blank. tauto. Qed.

Lemma nonblank_truthy_strip (s : str) : nonblank s -> truthy (strip s) = true.
Proof. unfold nonblank. rewrite truthy_strip. intros ->. reflexivity. Qed.

Lemma comma_split_nonblank (self : t) (sentence : str) (parts : list str) :
  comma_split self sentence = Some parts -> Forall nonblank parts.
Proof.
  unfold comma_split.
  destruct (truthy_list _ && _)%bool; [|discriminate].
  destruct (best_of sentence None _) as [b|]; [|discriminate].
  destruct (truthy (strip (slice_to sentence _))) eqn:E1; simpl; [|discriminate].
  destruct (truthy (strip (slice_from sentence _))) eqn:E2; simpl; [|discriminate].
  intros H; injection H as <-.
  repeat constructor; apply solid_strip; assumption.
Qed.

Lemma split_loop_total (self : t) :
  0 < max_size self ->
  forall fuel remaining chunks,
    (length remaining <= fuel)%nat ->
    solid remaining -> Forall nonblank chunks ->
    exists r, split_loop fuel self remaining chunks = Some r /\ Forall nonblank r.
Proof.
  intros Hmax. induction fuel as [|fuel IH]; intros remaining chunks Hlen Hsolid Hchunks.
  - destruct remaining; [|simpl in Hlen; lia].
    simpl. eexists; split; [reflexivity|assumption].
  - simpl.
    destruct (truthy remaining && (max_size self <? len remaining))%bool eqn:Hgo.
    + apply andb_true_iff in Hgo as [Ht _].
      set (bp := if find_optimal_break_point remaining (max_size self) <=? 0
                 then max_size self
                 else find_optimal_break_point remaining (max_size self)).
      assert (Hbp : 1 <= bp).
      { unfold bp. destruct (Z.leb_spec (find_optimal_break_point remaining (max_size self)) 0); lia. }
      apply IH.
      * pose proof (strip_length (slice_from remaining bp)).
        assert (remaining <> []) by (destruct remaining; [discriminate|congruence]).
        pose proof (slice_from_length remaining bp Hbp H0). lia.
      * apply solid_strip.
      * destruct (truthy (strip (slice_to remaining bp))) eqn:E; [|assumption].
        apply Forall_app; split; [assumption|].
        repeat constructor. apply solid_strip; assumption.
    + eexists; split; [reflexivity|].
      destruct (truthy remaining) eqn:E; [|assumption].
      apply Forall_app; split; [assumption|]. repeat constructor. auto.
Qed.

Lemma chunk_long_sentence_total (self : t) (sentence : str) :
  0 < max_size self -> nonblank sentence ->
  exists r, chunk_long_sentence self sentence = Some r /\ Forall nonblank r.
Proof.
  intros Hmax Hs. unfold chunk_long_sentence, chunk_long_sentence_fuel.
  destruct (comma_split self sentence) as [parts|] eqn:E.
  - eexists; split; [reflexivity|]. exact (comma_split_nonblank _ _ _ E).
  - destruct (len sentence <=? max_size self).
    + eexists; split; [reflexivity|]. repeat constructor; assumption.
    + apply split_loop_total; auto. intros _; assumption.
Qed.

Lemma flush_nonblank (chunks : list str) (current_chunk : str) :
  Forall nonblank chunks -> solid current_chunk ->
  Forall nonblank (flush chunks current_chunk).
Proof.
  intros Hc Hs. unfold flush. destruct (truthy current_chunk) eqn:E; [|assumption].
  apply Forall_app; split; [assumption|].
  repeat constructor. apply nonblank_strip. auto.
Qed.

Lemma potential_nonblank (current_chunk sentence : str) :
  nonblank sentence -> nonblank (potential current_chunk sentence).
Proof.
  unfold nonblank, potential. intros H. rewrite !blank_app, H, !andb_false_r. reflexivity.
Qed.

Lemma assemble_total (self : t) :
  0 < max_size self ->
  forall sentences chunks current_chunk,
    Forall nonblank chunks -> solid current_chunk ->
    exists chunks' current', assemble self sentences chunks current_chunk
                             = Some (chunks', current')
                             /\ Forall nonblank chunks' /\ solid current'.
Proof.
  intros Hmax. induction sentences as [|sentence rest IH]; intros chunks cur Hc Hs.
  - simpl. eauto.
  - simpl.
    destruct (truthy (strip sentence)) eqn:Et; simpl; [|auto].
    assert (Hnb : nonblank (strip sentence)) by (apply solid_strip; assumption).
    assert (Hsolid_nil : solid []) by (intros H; discriminate).
    assert (Hpot : solid (potential cur (strip sentence)))
      by (intros _; apply potential_nonblank; assumption).
    assert (Hsen : solid (strip sentence)) by (intros _; assumption).
    assert (Hflush := flush_nonblank _ _ Hc Hs).
    assert (Hlong : forall X,
      (forall r, Forall nonblank r ->
         exists chunks' current', X r = Some (chunks', current')
                                  /\ Forall nonblank chunks' /\ solid current') ->
      exists chunks' current',
        match chunk_long_sentence self (strip sentence) with
        | Some r => X r
        | None => None
        end = Some (chunks', current') /\ Forall nonblank chunks' /\ solid current').
    { intros X HX.
      destruct (chunk_long_sentence_total self _ Hmax Hnb) as [r [-> Hr]]. auto. }
    assert (Hother : exists chunks' current',
      (if ((len (potential cur (strip sentence)) <=? target_size self)
           || negb (truthy cur))%bool
       then assemble self rest chunks (potential cur (strip sentence))
       else assemble self rest (chunks ++ [strip cur]) (strip sentence))
      = Some (chunks', current') /\ Forall nonblank chunks' /\ solid current').
    { destruct (_ || negb (truthy cur))%bool eqn:E; [auto|].
      apply IH; [|assumption].
      apply orb_false_iff in E as [_ E]. apply negb_false_iff in E.
      apply Forall_app. split; [assumption|].
      repeat constructor. apply nonblank_strip. auto. }
    destruct (max_size self <? len (strip sentence)).
    { apply Hlong. intros r Hr. apply IH; [|assumption].
      apply Forall_app; split; assumption. }
    destruct (prefer_sentence_boundaries self); [|exact Hother].
    destruct (_ && _)%bool; [auto|].
    destruct (_ && _)%bool.
    { apply IH; [|assumption]. apply Forall_app; split; [assumption|].
      repeat constructor; assumption. }
    destruct (target_size self <=? len (strip sentence)); [|exact Hother].
    apply Hlong. intros r Hr. apply IH; [|assumption].
    apply Forall_app; split; assumption.
Qed.

(** The engine returns for every text when [max_size] is positive; the
    result is empty on a blank text, non-empty otherwise, and free of
    blank chunks. *)
Lemma gold_standard_chunk_text_total (self : t) (text : str) :
  0 < max_size self ->
  exists chunks,
    gold_standard_chunk_text self text = Some chunks
    /\ (blank text = true -> chunks = [])
    /\ (blank text = false -> chunks <> [])
    /\ Forall nonblank chunks.
Proof.
  intros Hmax. unfold gold_standard_chunk_text.
  rewrite truthy_strip, negb_involutive.
  destruct (blank text) eqn:B.
  - exists []. repeat split; auto. discriminate.
  - assert (Hfallback : nonblank (strip text)) by (apply nonblank_strip; exact B).
    destruct (split_into_sentences text (detect_language text)) as [|s0 ss] eqn:E.
    + exists [strip text]. repeat split; try discriminate. repeat constructor; assumption.
    + destruct (assemble_total self Hmax (s0 :: ss) [] [])
        as [chunks' [cur' [-> [Hc Hs]]]]; [constructor | intros H; discriminate |].
      simpl negb.
      eexists; split; [reflexivity|].
      set (final := if truthy (strip cur') then chunks' ++ [strip cur'] else chunks').
      assert (Hfinal : Forall nonblank final).
      { unfold final. destruct (truthy (strip cur')) eqn:Et; [|assumption].
        apply Forall_app; split; [assumption|]. repeat constructor.
        apply solid_strip; assumption. }
      destruct final as [|c0 cs]; simpl.
      * repeat split; try discriminate. repeat constructor; assumption.
      * repeat split; try discriminate. assumption.
Qed.

End GoldTotal.

(** ** A sentence without white space in [_force_split_sentence] (C3) *)

Section ForceSplit.

Import Py SmartChunker.

Definition spaceless (s : str) : Prop := Forall (fun c => isspace c = false) s.

Lemma startswith_prefix (p s : str) :
  startswith p s = true -> exists r, s = p ++ r.
Proof.
  revert s. induction p as [|a p IH]; intros s H; simpl in *.
  - eauto.
  - destruct s as [|b s]; [discriminate|].
    apply andb_true_iff in H as [Hab Hps].
    apply Ascii.eqb_eq in Hab as ->.
    destruct (IH _ Hps) as [r ->]. eauto.
Qed.

Lemma find_from_In (sub s : str) (i j : nat) (c : ascii) :
  find_from sub s i = Some j -> In c sub -> In c s.
Proof.
  revert i. induction s as [|d s IH]; intros i H Hc; simpl in H.
  - destruct (startswith sub []) eqn:E; [|discriminate].
    apply startswith_prefix in E as [r E]. destruct sub; [inversion Hc|discriminate].
  - destruct (startswith sub (d :: s)) eqn:E.
    + apply startswith_prefix in E as [r ->]. apply in_or_app. auto.
    + right. eapply IH; eauto.
Qed.

Lemma spaceless_not_contains (sub s : str) :
  spaceless s -> In " "%char sub -> contains sub s = false.
Proof.
  intros Hs Hin. unfold contains, find.
  destruct (find_from sub s 0) as [j|] eqn:E; [|reflexivity].
  pose proof (find_from_In _ _ _ _ _ E Hin) as H.
  unfold spaceless in Hs. rewrite Forall_forall in Hs.
  apply Hs in H. discriminate.
Qed.

Lemma rfind_from_None (s : str) (i : nat) :
  spaceless s -> rfind_from (s_ " ") s i = None.
Proof.
  revert i. induction s as [|c s IH]; intros i Hs.
  - reflexivity.
  - inversion Hs as [|? ? Hc Hs']; subst.
    change (rfind_from (s_ " ") (c :: s) i)
      with (match rfind_from (s_ " ") s (S i) with
            | Some j => Some j
            | None => if (Ascii.eqb " " c && true)%bool then Some i else None
            end).
    rewrite (IH _ Hs').
    destruct (Ascii.eqb_spec " "%char c) as [<-|_]; [discriminate Hc|reflexivity].
Qed.

Lemma spaceless_firstn (n : nat) (s : str) : spaceless s -> spaceless (firstn n s).
Proof.
  unfold spaceless. rewrite <- (firstn_skipn n s) at 1. rewrite Forall_app. tauto.
Qed.

Lemma spaceless_skipn (n : nat) (s : str) : spaceless s -> spaceless (skipn n s).
Proof.
  unfold spaceless. rewrite <- (firstn_skipn n s) at 1. rewrite Forall_app. tauto.
Qed.

Lemma spaceless_rfind (s : str) (e : Z) : spaceless s -> rfind (s_ " ") s e = -1.
Proof.
  intros H. unfold rfind, slice_to.
  rewrite rfind_from_None; [reflexivity|]. apply spaceless_firstn; assumption.
Qed.

Lemma spaceless_lstrip (s : str) : spaceless s -> lstrip s = s.
Proof. intros H. apply lstrip_fixed. destruct H; auto. Qed.

(** Without white space the last resort cuts every [max_size] characters. *)
Lemma last_resort_spaceless (self : t) :
  1 <= max_size self ->
  forall fuel sentence chunks,
    (length sentence <= fuel)%nat -> spaceless sentence ->
    exists pieces,
      last_resort fuel self sentence chunks = Some (chunks ++ pieces)
      /\ concat pieces = sentence
      /\ Forall (fun p => 0 < len p <= max_size self) pieces
      /\ (max_size self < len sentence ->
          hd [] pieces = firstn (Z.to_nat (max_size self)) sentence
          /\ (2 <= length pieces)%nat).
Proof.
  intros Hmax. induction fuel as [|fuel IH]; intros sentence chunks Hlen Hs.
  - destruct sentence; [|simpl in Hlen; lia].
    exists []. simpl. rewrite app_nil_r.
    destruct (Z.ltb_spec (max_size self) (len (@nil ascii))); [unfold len in *; simpl in *; lia|].
    repeat split; auto; unfold len in *; simpl in *; lia.
  - simpl. destruct (Z.ltb_spec (max_size self) (len sentence)) as [Hlong|Hshort].
    + rewrite (spaceless_rfind _ _ Hs). simpl.
      assert (Hn : norm_index (length sentence) (max_size self) = Z.to_nat (max_size self)).
      { unfold norm_index. destruct (Z.ltb_spec (max_size self) 0); [lia|].
        unfold len in Hlong. lia. }
      unfold slice_from, slice_to. rewrite Hn.
      rewrite (spaceless_lstrip _ (spaceless_skipn _ _ Hs)).
      destruct (IH (skipn (Z.to_nat (max_size self)) sentence)
                   (chunks ++ [firstn (Z.to_nat (max_size self)) sentence]))
        as [pieces [E [Hcat [Hall Hhd]]]].
      * rewrite length_skipn. unfold len in Hlong. lia.
      * apply spaceless_skipn; assumption.
      * exists (firstn (Z.to_nat (max_size self)) sentence :: pieces).
        split; [rewrite <- app_assoc in E; exact E|].
        simpl. repeat split.
        -- rewrite Hcat. apply firstn_skipn.
        -- constructor; [|assumption].
           unfold len in *. rewrite length_firstn. lia.
        -- destruct pieces as [|p ps]; simpl; [|lia].
           simpl in Hcat. apply (f_equal (@length ascii)) in Hcat.
           rewrite length_skipn in Hcat. unfold len in Hlong. simpl in Hcat. lia.
    + exists (if truthy sentence then [sentence] else []).
      destruct sentence as [|c s]; simpl.
      * rewrite app_nil_r. repeat split; auto; lia.
      * repeat split; auto; try lia.
        -- rewrite app_nil_r. reflexivity.
        -- constructor; [|constructor].
           split; [unfold len; simpl; lia | assumption].
Qed.

Lemma try_break_points_spaceless (self : t) (recurse : str -> option (list str))
    (fallback : option (list str)) (sentence : str) (bps : list str) :
  spaceless sentence -> Forall (In " "%char) bps ->
  try_break_points self recurse fallback sentence bps = fallback.
Proof.
  intros Hs. induction bps as [|bp bps IH]; intros Hb; simpl; [reflexivity|].
  inversion Hb; subst.
  rewrite spaceless_not_contains; auto.
Qed.

Lemma break_points_have_space : Forall (In " "%char) break_points.
Proof. unfold break_points. repeat constructor; simpl; tauto. Qed.

Lemma force_split_step (fuel : nat) (self : t) (sentence : str) :
  _force_split_sentence_fuel (S fuel) self sentence
  = try_break_points self (_force_split_sentence_fuel fuel self)
      (last_resort fuel self sentence []) sentence break_points.
Proof. reflexivity. Qed.

End ForceSplit.

Definition a500 : str := repeat "a"%char 500.

(** C3, as stated: a run of 500 letters with [max_size] 300 is not
    returned whole by [_force_split_sentence], nor by the gold standard
    [chunk_long_sentence]. *)
Lemma C3_single_oversized_chunk_refuted :
  SmartChunker._force_split_sentence (SmartChunker.Self 250 300 100) a500 <> Some [a500]
  /\ GoldStandardChunker.chunk_long_sentence GoldStandardChunker.default a500
     <> Some [a500].
Proof. vm_compute. split; discriminate. Qed.

(** C3, amended: a sentence longer than [max_size] that contains no white
    space has no break point; [_force_split_sentence] then returns, and its
    result is the sentence cut every [max_size] characters: at least two
    pieces, the first one the first [max_size] characters, none longer than
    [max_size], which concatenated give the sentence back.  The gold
    standard [chunk_long_sentence] cuts the run of 500 letters the same
    way. *)
Theorem C3_hard_cut_at_max_size (self : SmartChunker.t) (sentence : str) :
  1 <= SmartChunker.max_size self ->
  spaceless sentence ->
  SmartChunker.max_size self < Py.len sentence ->
  (exists pieces,
     SmartChunker._force_split_sentence self sentence = Some pieces
     /\ concat pieces = sentence
     /\ Forall (fun p => 0 < Py.len p <= SmartChunker.max_size self) pieces
     /\ hd [] pieces = firstn (Z.to_nat (SmartChunker.max_size self)) sentence
     /\ (2 <= length pieces)%nat)
  /\ GoldStandardChunker.chunk_long_sentence GoldStandardChunker.default a500
     = Some [repeat "a"%char 300; repeat "a"%char 200].
Proof.
  intros Hmax Hs Hlong. split.
  - unfold SmartChunker._force_split_sentence. rewrite force_split_step.
    rewrite (try_break_points_spaceless _ _ _ _ _ Hs break_points_have_space).
    destruct (last_resort_spaceless self Hmax (length sentence) sentence [] (le_n _) Hs)
      as [pieces [E [Hcat [Hall Hhd]]]].
    exists pieces. destruct (Hhd Hlong) as [H1 H2]. auto.
  - vm_compute. reflexivity.
Qed.

(** A witness: forty letters with [max_size] 16. *)
Lemma C3_hard_cut_witness :
  exists pieces,
    SmartChunker._force_split_sentence (SmartChunker.Self 10 16 4) (repeat "x"%char 40)
      = Some pieces
    /\ length pieces = 3%nat.
Proof.
  destruct (C3_hard_cut_at_max_size (SmartChunker.Self 10 16 4) (repeat "x"%char 40))
    as [[pieces [E _]] _].
  - simpl. lia.
  - unfold spaceless. repeat constructor.
  - vm_compute. reflexivity.
  - exists pieces. split; [exact E|].
    vm_compute in E. injection E as <-. reflexivity.
Defined.

(** ** What a match of the matcher consists of *)

Section ReFacts.

Import Re.

(** [matches r pre mid post]: after the characters [pre] (reversed), the
    pattern [r] can consume exactly [mid], leaving [post]. *)
Fixpoint matches (r : regex) (pre mid post : str) : Prop :=
  match r with
  | Eps => mid = []
  | Chr p => exists c, mid = [c] /\ p c = true
  | Seq a b =>
      exists m1 m2, mid = m1 ++ m2 /\ matches a pre m1 (m2 ++ post)
                    /\ matches b (rev m1 ++ pre) m2 post
  | Alt a b => matches a pre mid post \/ matches b pre mid post
  | Star p => forallb p mid = true
  | Group _ a => matches a pre mid post
  | Ahead a => mid = [] /\ exists m post', post = m ++ post' /\ matches a pre m post'
  | NotAhead _ => mid = []
  | WordB => mid = [] /\ at_boundary pre post = true
  | Eos => mid = [] /\ at_end post = true
  end.

Lemma star_sound (R : Type) (p : ascii -> bool) (k : cont R) :
  forall rest pre cs res,
    star p k pre rest cs = Some res ->
    exists mid post, rest = mid ++ post /\ forallb p mid = true
                     /\ k (rev mid ++ pre) post cs = Some res.
Proof.
  induction rest as [|c rest IH]; intros pre cs res H; simpl in H.
  - exists [], []. auto.
  - destruct (p c) eqn:Hc.
    + destruct (star p k (c :: pre) rest cs) as [x|] eqn:E.
      * injection H as <-.
        destruct (IH _ _ _ E) as [mid [post [-> [Hall Hk]]]].
        exists (c :: mid), post. simpl. rewrite Hc, Hall, <- app_assoc. auto.
      * exists [], (c :: rest). auto.
    + exists [], (c :: rest). auto.
Qed.

Lemma run_sound (r : regex) :
  forall (R : Type) (k : cont R) pre rest cs res,
    run r k pre rest cs = Some res ->
    exists mid post cs', rest = mid ++ post /\ matches r pre mid post
                         /\ k (rev mid ++ pre) post cs' = Some res.
Proof.
  induction r as [|p|a IHa b IHb|a IHa b IHb|p|n a IHa|a IHa|a IHa| |];
    intros R k pre rest cs res H; simpl in H.
  - exists [], rest, cs. simpl. auto.
  - destruct rest as [|c rest]; [discriminate|].
    destruct (p c) eqn:Hc; [|discriminate].
    exists [c], rest, cs. simpl. eauto.
  - apply IHa in H as [m1 [post1 [cs1 [-> [Ha H]]]]].
    apply IHb in H as [m2 [post [cs2 [-> [Hb H]]]]].
    exists (m1 ++ m2), post, cs2. rewrite rev_app_distr, <- !app_assoc.
    split; [reflexivity|]. split; [|exact H].
    simpl. exists m1, m2. auto.
  - destruct (run a k pre rest cs) as [x|] eqn:E.
    + injection H as <-. apply IHa in E as [mid [post [cs' [-> [Ha H]]]]].
      exists mid, post, cs'. simpl. auto.
    + apply IHb in H as [mid [post [cs' [-> [Hb H]]]]].
      exists mid, post, cs'. simpl. auto.
  - apply star_sound in H as [mid [post [-> [Hall H]]]].
    exists mid, post, cs. simpl. auto.
  - apply IHa in H as [mid [post [cs' [-> [Ha H]]]]].
    exists mid, post. eexists. simpl. eauto.
  - destruct (run a (fun _ _ _ => Some tt) pre rest cs) as [x|] eqn:E; [|discriminate].
    apply IHa in E as [m [post' [cs' [-> [Ha _]]]]].
    exists [], (m ++ post'), cs. simpl. eauto 8.
  - destruct (run a (fun _ _ _ => Some tt) pre rest cs); [discriminate|].
    exists [], rest, cs. simpl. auto.
  - destruct (at_boundary pre rest) eqn:E; [|discriminate].
    exists [], rest, cs. simpl. auto.
  - destruct (at_end rest) eqn:E; [|discriminate].
    exists [], rest, cs. simpl. auto.
Qed.

Lemma match_at_sound (r : regex) (pre rest : str) (m : mobj) :
  match_at r pre rest = Some m ->
  exists mid post, rest = mid ++ post /\ matches r pre mid post
                   /\ mstart m = length pre
                   /\ mend m = (length pre + length mid)%nat.
Proof.
  unfold match_at. intros H.
  apply run_sound in H as [mid [post [cs' [-> [Hm H]]]]].
  injection H as <-. exists mid, post. simpl.
  rewrite length_app, length_rev. repeat split; auto. lia.
Qed.

(** A match found in the subject [s]: where it lies and what it is. *)
Definition span_of (r : regex) (s : str) (m : mobj) : Prop :=
  exists a mid post,
    s = a ++ mid ++ post /\ mstart m = length a
    /\ mend m = (length a + length mid)%nat /\ matches r (rev a) mid post.

Lemma finditer_from_spans (r : regex) :
  forall rest pre skip m,
    In m (finditer_from r pre rest skip) ->
    span_of r (rev pre ++ rest) m /\ (length pre + skip <= mstart m)%nat.
Proof.
  assert (Hcons : forall c (pre rest : str), rev (c :: pre) ++ rest = rev pre ++ c :: rest).
  { intros. simpl. rewrite <- app_assoc. reflexivity. }
  assert (Hhere : forall pre rest m, match_at r pre rest = Some m ->
            span_of r (rev pre ++ rest) m /\ (length pre + 0 <= mstart m)%nat).
  { intros pre rest m E.
    apply match_at_sound in E as [mid [post [-> [Hm [Hs He]]]]].
    split; [|lia]. exists (rev pre), mid, post.
    rewrite length_rev, rev_involutive. auto. }
  induction rest as [|c rest IH]; intros pre skip m H.
  - destruct skip; simpl in H; [|contradiction].
    destruct (match_at r pre []) as [m0|] eqn:E; [|contradiction].
    destruct H as [<-|[]]. auto.
  - destruct skip as [|n]; simpl in H.
    + destruct (match_at r pre (c :: rest)) as [m0|] eqn:E.
      * destruct H as [<-|H]; [auto|].
        apply IH in H as [Hsp Hle]. rewrite Hcons in Hsp. simpl in Hle.
        split; [assumption|lia].
      * apply IH in H as [Hsp Hle]. rewrite Hcons in Hsp. simpl in Hle.
        split; [assumption|lia].
    + apply IH in H as [Hsp Hle]. rewrite Hcons in Hsp. simpl in Hle.
      split; [assumption|lia].
Qed.

Lemma finditer_spans (r : regex) (s : str) (m : mobj) :
  In m (finditer r s) -> span_of r s m.
Proof. intros H. apply finditer_from_spans in H as [H _]. exact H. Qed.

(** The least number of characters a match consumes. *)
Fixpoint min_len (r : regex) : nat :=
  match r with
  | Chr _ => 1
  | Seq a b => min_len a + min_len b
  | Alt a b => Nat.min (min_len a) (min_len b)
  | Group _ a => min_len a
  | _ => 0
  end.

Lemma matches_min_len (r : regex) :
  forall pre mid post, matches r pre mid post -> (min_len r <= length mid)%nat.
Proof.
  induction r as [|p|a IHa b IHb|a IHa b IHb|p|n a IHa|a IHa|a IHa| |];
    intros pre mid post H; simpl in *; try lia.
  - destruct H as [c [-> _]]. simpl. lia.
  - destruct H as [m1 [m2 [-> [Ha Hb]]]]. rewrite length_app.
    apply IHa in Ha. apply IHb in Hb. lia.
  - destruct H as [H|H]; [apply IHa in H|apply IHb in H]; lia.
  - eauto.
Qed.

Lemma span_min_len (r : regex) (s : str) (m : mobj) :
  span_of r s m ->
  (mstart m + min_len r <= mend m)%nat /\ (mend m <= length s)%nat.
Proof.
  intros [a [mid [post [-> [Hs [He Hm]]]]]].
  apply matches_min_len in Hm. rewrite !length_app. lia.
Qed.

(** Every character a match consumes satisfies [P], when every class of
    the pattern outside its lookaheads does. *)
Fixpoint consumes (P : ascii -> Prop) (r : regex) : Prop :=
  match r with
  | Chr p | Star p => forall c, p c = true -> P c
  | Seq a b | Alt a b => consumes P a /\ consumes P b
  | Group _ a => consumes P a
  | _ => True
  end.

Lemma matches_consumes (P : ascii -> Prop) (r : regex) :
  consumes P r ->
  forall pre mid post, matches r pre mid post -> Forall P mid.
Proof.
  induction r as [|p|a IHa b IHb|a IHa b IHb|p|n a IHa|a IHa|a IHa| |];
    intros HP pre mid post H; simpl in *.
  - subst mid. constructor.
  - destruct H as [c [-> Hc]]. auto.
  - destruct HP as [Pa Pb]. destruct H as [m1 [m2 [-> [Ha Hb]]]].
    apply Forall_app. eauto.
  - destruct HP as [Pa Pb]. destruct H as [H|H]; eauto.
  - apply Forall_forall. intros c Hc.
    rewrite forallb_forall in H. auto.
  - eauto.
  - destruct H as [-> _]. constructor.
  - subst mid. constructor.
  - destruct H as [-> _]. constructor.
  - destruct H as [-> _]. constructor.
Qed.

End ReFacts.

(** ** The chunks of [tts_chunk_text] (C10) *)

Section TTSTermination.

Import Py Re TTSOptimizedChunker.

Definition ends_with_terminator (chunk : str) : Prop :=
  exists body c, chunk = body ++ [c] /\ (c = "."%char \/ c = "!"%char \/ c = "?"%char).

Lemma endswith_char (c : ascii) (s : str) :
  endswith [c] s = true -> exists body, s = body ++ [c].
Proof.
  unfold endswith. intros H. apply startswith_prefix in H as [r H].
  simpl in H. exists (rev r). rewrite <- (rev_involutive s), H. reflexivity.
Qed.

Lemma endswith_self (c : ascii) (s : str) : endswith [c] (s ++ [c]) = true.
Proof.
  unfold endswith. rewrite rev_app_distr. simpl. rewrite Ascii.eqb_refl. reflexivity.
Qed.

Lemma terminators_end (s : str) :
  endswith_any terminators s = true -> ends_with_terminator s.
Proof.
  unfold endswith_any, terminators. simpl. rewrite !orb_true_iff.
  intros [H|[H|[H|H]]]; try discriminate;
    apply endswith_char in H as [body ->]; exists body; eexists; split; eauto.
Qed.

(** What [_ensure_tts_termination] returns. *)
Lemma ensure_cases (chunk : str) :
  _ensure_tts_termination chunk
  = if blank chunk then []
    else if endswith_any terminators (strip chunk) then strip chunk
         else strip chunk ++ s_ ".".
Proof.
  unfold _ensure_tts_termination. rewrite truthy_strip, negb_involutive.
  destruct (blank chunk) eqn:B.
  - apply strip_blank in B. exact B.
  - destruct (endswith_any terminators (strip chunk)); simpl; [reflexivity|].
    match goal with |- (if ?b then _ else _) = _ => destruct b end; reflexivity.
Qed.

Lemma ensure_ends (chunk : str) :
  _ensure_tts_termination chunk = []
  \/ ends_with_terminator (_ensure_tts_termination chunk).
Proof.
  rewrite ensure_cases. destruct (blank chunk); [auto|right].
  destruct (endswith_any terminators (strip chunk)) eqn:E.
  - apply terminators_end. exact E.
  - exists (strip chunk), "."%char. auto.
Qed.

(** A chunk that went through [_ensure_tts_termination]. *)
Definition ensured (chunk : str) : Prop := exists x, chunk = _ensure_tts_termination x.

Lemma min_by_In (key : mobj -> Z) (ms : list mobj) :
  forall best, In (min_by key best ms) (best :: ms).
Proof.
  induction ms as [|m ms IH]; intros best; simpl.
  - auto.
  - destruct (key m <? key best).
    + destruct (IH m) as [H|H]; auto.
    + destruct (IH best) as [H|H]; auto.
Qed.

Lemma break_patterns_consume : Forall (fun p => (1 <= min_len p)%nat) break_patterns.
Proof. unfold break_patterns. repeat constructor; simpl; lia. Qed.

Lemma try_patterns_total (self : t) (recurse : str -> option (list str))
    (sentence : str) :
  (forall second, (length second < length sentence)%nat ->
                  exists r, recurse second = Some r) ->
  forall patterns, Forall (fun p => (1 <= min_len p)%nat) patterns ->
  exists r, try_patterns self recurse sentence patterns = Some r.
Proof.
  intros Hrec. induction patterns as [|pattern rest IH]; intros Hp; simpl.
  - eauto.
  - inversion Hp as [|? ? Hmin Hrest]; subst.
    destruct (finditer pattern sentence) as [|m ms] eqn:E; [auto|].
    set (best := min_by (end_distance sentence) m ms).
    destruct (_ && _)%bool; [|auto].
    destruct (max_size self <? _); [|eauto].
    assert (Hin : In best (finditer pattern sentence)).
    { rewrite E. apply min_by_In. }
    apply finditer_spans in Hin. apply span_min_len in Hin as [H1 H2].
    destruct (Hrec (strip (slice_from sentence (Z.of_nat (mend best))))) as [r ->].
    + pose proof (strip_length (slice_from sentence (Z.of_nat (mend best)))).
      assert (sentence <> []) by (destruct sentence; [simpl in H2; lia|congruence]).
      pose proof (slice_from_length sentence (Z.of_nat (mend best)) ltac:(lia) H0). lia.
    + simpl. eauto.
Qed.

Lemma split_long_total (self : t) :
  forall fuel sentence, (length sentence < fuel)%nat ->
  exists r, _split_long_sentence_tts_safe_fuel fuel self sentence = Some r.
Proof.
  induction fuel as [|fuel IH]; intros sentence Hlen; [lia|].
  change (_split_long_sentence_tts_safe_fuel (S fuel) self sentence)
    with (try_patterns self (_split_long_sentence_tts_safe_fuel fuel self)
            sentence break_patterns).
  apply try_patterns_total; [|exact break_patterns_consume].
  intros second Hs. apply IH. lia.
Qed.

Lemma gather_ensured (self : t) :
  forall sentences chunks current_chunk,
    Forall ensured chunks ->
    exists chunks' current',
      gather self sentences chunks current_chunk = Some (chunks', current')
      /\ Forall ensured chunks'.
Proof.
  induction sentences as [|sentence rest IH]; intros chunks cur Hc; simpl.
  - eauto.
  - assert (Hflush : Forall ensured
              (if truthy cur then chunks ++ [_ensure_tts_termination cur] else chunks)).
    { destruct (truthy cur); [|assumption].
      apply Forall_app; split; [assumption|]. repeat constructor. exists cur. reflexivity. }
    destruct (max_size self <? len sentence).
    + destruct (split_long_total self (S (length sentence)) sentence (Nat.lt_succ_diag_r _))
        as [r Hr].
      unfold _split_long_sentence_tts_safe. rewrite Hr.
      apply IH. apply Forall_app; split; [assumption|].
      apply Forall_forall. intros c Hin. apply in_map_iff in Hin as [x [<- _]].
      exists x. reflexivity.
    + destruct (len _ <=? target_size self); [auto|].
      destruct (_ && _)%bool; auto.
Qed.

Lemma chunk_paragraph_ensured (self : t) (paragraph : str) :
  exists chunks, _chunk_paragraph_for_tts self paragraph = Some chunks
                 /\ Forall ensured chunks.
Proof.
  unfold _chunk_paragraph_for_tts.
  destruct (len paragraph <=? max_size self).
  - eexists; split; [reflexivity|]. repeat constructor. exists paragraph. reflexivity.
  - destruct (gather_ensured self (_split_sentences_tts_safe paragraph) [] [])
      as [chunks' [cur' [-> Hc]]]; [constructor|].
    eexists; split; [reflexivity|].
    destruct (truthy cur'); [|assumption].
    apply Forall_app; split; [assumption|]. repeat constructor. exists cur'. reflexivity.
Qed.

Lemma each_paragraph_ensured (self : t) :
  forall paragraphs chunks,
    Forall ensured chunks ->
    exists chunks', each_paragraph self paragraphs chunks = Some chunks'
                    /\ Forall ensured chunks'.
Proof.
  induction paragraphs as [|paragraph rest IH]; intros chunks Hc; simpl.
  - eauto.
  - destruct (negb (truthy (strip paragraph))); [auto|].
    destruct (chunk_paragraph_ensured self (strip paragraph)) as [pc [-> Hpc]].
    apply IH. apply Forall_app; split; assumption.
Qed.

End TTSTermination.

(** C10: with a positive [min_size], [tts_chunk_text] returns for every
    text, and every chunk it returns went through
    [_ensure_tts_termination] and ends with a period, an exclamation mark
    or a question mark.  [_ensure_tts_termination] strips the chunk and
    appends a period exactly when the stripped chunk is not empty and does
    not end with one of the three marks. *)
Theorem C10_chunks_end_with_terminator (self : TTSOptimizedChunker.t) (text : str) :
  1 <= TTSOptimizedChunker.min_size self ->
  (exists chunks,
     TTSOptimizedChunker.tts_chunk_text self text = Some chunks
     /\ Forall (fun chunk => ensured chunk /\ ends_with_terminator chunk) chunks)
  /\ (forall chunk,
        TTSOptimizedChunker._ensure_tts_termination chunk
        = if blank chunk then []
          else if Py.endswith_any TTSOptimizedChunker.terminators (Py.strip chunk)
               then Py.strip chunk
               else Py.strip chunk ++ s_ ".").
Proof.
  intros Hmin. split; [|exact ensure_cases].
  unfold TTSOptimizedChunker.tts_chunk_text.
  destruct (each_paragraph_ensured self
              (Re.split TTSOptimizedChunker.paragraph_breaks 0
                 (TTSOptimizedChunker._normalize_for_tts text)) [])
    as [chunks [-> Hc]]; [constructor|].
  simpl. eexists; split; [reflexivity|].
  apply Forall_forall. intros c Hin. apply filter_In in Hin as [Hin Hlong].
  rewrite Forall_forall in Hc. specialize (Hc c Hin).
  split; [exact Hc|].
  destruct Hc as [x ->].
  destruct (ensure_ends x) as [E|E]; [|exact E].
  unfold TTSOptimizedChunker.long_enough in Hlong. rewrite E in Hlong.
  apply Z.leb_le in Hlong. change (Py.len (Py.strip [])) with 0 in Hlong. lia.
Qed.

(** A witness: the second test text of the source's own demonstration. *)
Lemma C10_witness :
  exists chunks,
    TTSOptimizedChunker.tts_chunk_text (TTSOptimizedChunker.Self 40 50 5)
      (s_ "The participants, i.e., people aged 18-65, experienced significant improvements")
    = Some chunks
    /\ Forall ends_with_terminator chunks.
Proof.
  destruct (C10_chunks_end_with_terminator (TTSOptimizedChunker.Self 40 50 5)
              (s_ "The participants, i.e., people aged 18-65, experienced significant improvements"))
    as [[chunks [E H]] _].
  - simpl. lia.
  - exists chunks. split; [exact E|].
    apply Forall_forall. intros c Hin. rewrite Forall_forall in H.
    exact (proj2 (H c Hin)).
Defined.

(** ** The smart chunker returns when [max_size] is positive *)

Section SmartTotal.

Import Py SmartChunker.

Lemma rfind_from_found (sub s : str) :
  forall i j, rfind_from sub s i = Some j ->
    (i <= j)%nat /\ startswith sub (skipn (j - i) s) = true.
Proof.
  induction s as [|c s IH]; intros i j H; simpl in H.
  - destruct (startswith sub []) eqn:E; [|discriminate].
    injection H as <-. rewrite Nat.sub_diag. auto.
  - destruct (rfind_from sub s (S i)) as [j'|] eqn:E.
    + injection H as <-. apply IH in E as [Hle Hst].
      split; [lia|]. replace (j' - i)%nat with (S (j' - S i)) by lia. exact Hst.
    + destruct (startswith sub (c :: s)) eqn:Es; [|discriminate].
      injection H as <-. rewrite Nat.sub_diag. auto.
Qed.

(** One turn of the last resort shortens the sentence. *)
Lemma last_resort_shortens (self : t) (sentence : str) :
  1 <= max_size self -> max_size self < len sentence ->
  let split_pos := rfind (s_ " ") sentence (max_size self) in
  let split_pos := if split_pos =? -1 then max_size self else split_pos in
  (length (lstrip (slice_from sentence split_pos)) < length sentence)%nat.
Proof.
  intros Hmax Hlong. cbv zeta.
  assert (Hne : sentence <> []).
  { destruct sentence; [unfold len in Hlong; simpl in Hlong; lia|congruence]. }
  unfold rfind.
  destruct (rfind_from (s_ " ") (slice_to sentence (max_size self)) 0) as [j|] eqn:E.
  - destruct (Z.eqb_spec (Z.of_nat j) (-1)); [lia|].
    destruct j as [|j].
    + apply rfind_from_found in E as [_ E]. simpl in E.
      unfold slice_to in E.
      destruct sentence as [|c s]; [congruence|].
      destruct (norm_index (length (c :: s)) (max_size self)); simpl in E; [discriminate|].
      rewrite andb_true_r in E. apply Ascii.eqb_eq in E. subst c.
      change (slice_from (" "%char :: s) (Z.of_nat 0)) with (" "%char :: s).
      change (lstrip (" "%char :: s)) with (lstrip s).
      pose proof (lstrip_length s). simpl. lia.
    + pose proof (lstrip_length (slice_from sentence (Z.of_nat (S j)))).
      pose proof (slice_from_length sentence (Z.of_nat (S j)) ltac:(lia) Hne). lia.
  - change (-1 =? -1) with true. cbv iota.
    pose proof (lstrip_length (slice_from sentence (max_size self))).
    pose proof (slice_from_length sentence (max_size self) Hmax Hne). lia.
Qed.

Lemma last_resort_total (self : t) :
  1 <= max_size self ->
  forall fuel sentence chunks, (length sentence <= fuel)%nat ->
  exists r, last_resort fuel self sentence chunks = Some r.
Proof.
  intros Hmax. induction fuel as [|fuel IH]; intros sentence chunks Hlen; simpl.
  - destruct (Z.ltb_spec (max_size self) (len sentence)); [|eauto].
    destruct sentence; simpl in Hlen; [unfold len in *; simpl in *|]; lia.
  - destruct (Z.ltb_spec (max_size self) (len sentence)) as [Hlong|]; [|eauto].
    apply IH. pose proof (last_resort_shortens self sentence Hmax Hlong) as H.
    simpl in H. lia.
Qed.

Lemma split1_second_shorter (sep s part0 part1 : str) :
  sep <> [] -> split1 sep s = [part0; part1] ->
  (length part1 < length s)%nat.
Proof.
  unfold split1. intros Hsep H.
  destruct (find sep s) as [i|] eqn:E; [|discriminate].
  injection H as _ <-. rewrite length_skipn.
  destruct sep as [|c sep]; [congruence|].
  pose proof (find_from_In _ _ _ _ c E (or_introl eq_refl)) as Hin.
  destruct s; [inversion Hin|]. simpl length. lia.
Qed.

Lemma try_break_points_total (self : t) (recurse : str -> option (list str))
    (fallback : option (list str)) (sentence : str) :
  (forall part1, (length part1 < length sentence)%nat -> exists r, recurse part1 = Some r) ->
  (exists r, fallback = Some r) ->
  forall bps, Forall (fun bp => bp <> []) bps ->
  exists r, try_break_points self recurse fallback sentence bps = Some r.
Proof.
  intros Hrec Hfb. induction bps as [|bp bps IH]; intros Hb; simpl; [assumption|].
  inversion Hb; subst.
  destruct (contains bp sentence); [|auto].
  destruct (split1 bp sentence) as [|part0 [|part1 [|? ?]]] eqn:E; auto.
  destruct (_ && _)%bool; [|auto].
  destruct (Hrec part1) as [r ->]; [|simpl; eauto].
  eapply split1_second_shorter; eauto.
Qed.

Lemma force_split_total (self : t) :
  1 <= max_size self ->
  forall fuel sentence, (length sentence < fuel)%nat ->
  exists r, _force_split_sentence_fuel fuel self sentence = Some r.
Proof.
  intros Hmax. induction fuel as [|fuel IH]; intros sentence Hlen; [lia|].
  rewrite force_split_step. apply try_break_points_total.
  - intros part1 H. apply IH. lia.
  - apply last_resort_total; [assumption|lia].
  - unfold break_points. repeat constructor; discriminate.
Qed.

Lemma smart_gather_total (self : t) :
  1 <= max_size self ->
  forall sentences chunks current_chunk,
  exists r, gather self sentences chunks current_chunk = Some r.
Proof.
  intros Hmax. induction sentences as [|sentence rest IH]; intros chunks cur; simpl.
  - eauto.
  - destruct (max_size self <? len sentence).
    + unfold _force_split_sentence.
      destruct (force_split_total self Hmax (S (length sentence)) sentence
                  (Nat.lt_succ_diag_r _)) as [r ->].
      apply IH.
    + destruct (target_size self <? len _); apply IH.
Qed.

Lemma smart_each_paragraph_total (self : t) :
  1 <= max_size self ->
  forall paragraphs chunks,
  exists r, each_paragraph self paragraphs chunks = Some r.
Proof.
  intros Hmax. induction paragraphs as [|paragraph rest IH]; intros chunks; simpl.
  - eauto.
  - destruct (negb (truthy (strip paragraph))); [apply IH|].
    unfold _chunk_paragraph.
    destruct (len (strip paragraph) <=? max_size self); [apply IH|].
    destruct (smart_gather_total self Hmax (_split_sentences (strip paragraph)) [] [])
      as [[chunks' cur'] ->].
    apply IH.
Qed.

Lemma split_ws_from_blank (s : str) : blank s = true -> split_ws_from [] s = [].
Proof.
  induction s as [|c s IH]; simpl; [reflexivity|].
  intros H. apply andb_true_iff in H as [Hc Hs]. rewrite Hc. auto.
Qed.

(** On a blank text the result is the empty list. *)
Lemma smart_chunk_text_blank (self : t) (text : str) :
  blank text = true -> smart_chunk_text self text = Some [].
Proof.
  intros B. unfold smart_chunk_text, _normalize_text, split_ws.
  rewrite (split_ws_from_blank text B). reflexivity.
Qed.

(** With positive [max_size] and [min_size] the result has no blank chunk. *)
Lemma smart_chunk_text_total (self : t) (text : str) :
  1 <= max_size self -> 1 <= min_size self ->
  exists chunks, smart_chunk_text self text = Some chunks /\ Forall nonblank chunks.
Proof.
  intros Hmax Hmin. unfold smart_chunk_text.
  destruct (smart_each_paragraph_total self Hmax
              (Re.split paragraph_breaks 0 (_normalize_text text)) []) as [r ->].
  simpl. eexists; split; [reflexivity|].
  apply Forall_forall. intros c Hin. apply filter_In in Hin as [_ Hlong].
  unfold long_enough in Hlong. apply Z.leb_le in Hlong.
  unfold nonblank. destruct (blank c) eqn:B; [|reflexivity].
  apply strip_blank in B. rewrite B in Hlong. unfold len in Hlong. simpl in Hlong. lia.
Qed.

End SmartTotal.

(** ** Edge inputs (C2) *)

(** C2, as stated: the smart chunker with its default thresholds returns
    no chunk at all for a short text that is not blank. *)
Lemma C2_smart_drops_short_text :
  blank (s_ "Hello world.") = false
  /\ SmartChunker.smart_chunk_text SmartChunker.default (s_ "Hello world.") = Some [].
Proof. vm_compute. split; reflexivity. Qed.

(** C2, amended: the gold standard engine with a positive [max_size]
    returns for every text; the result is the empty list on an empty or
    white-space-only text, has at least one chunk on any other text, and
    never holds an empty or white-space-only chunk.  The smart chunker
    returns the empty list on an empty or white-space-only text and, with
    positive [max_size] and [min_size], returns for every text a list
    without empty or white-space-only chunks; it keeps only the chunks of
    stripped length at least [min_size]. *)
Theorem C2_edge_inputs :
  (forall (self : GoldStandardChunker.t) (text : str),
     0 < GoldStandardChunker.max_size self ->
     exists chunks,
       GoldStandardChunker.gold_standard_chunk_text self text = Some chunks
       /\ (blank text = true -> chunks = [])
       /\ (blank text = false -> chunks <> [])
       /\ Forall nonblank chunks)
  /\ (forall (self : SmartChunker.t) (text : str),
        (blank text = true -> SmartChunker.smart_chunk_text self text = Some [])
        /\ (1 <= SmartChunker.max_size self -> 1 <= SmartChunker.min_size self ->
            exists chunks,
              SmartChunker.smart_chunk_text self text = Some chunks
              /\ Forall nonblank chunks
              /\ Forall (fun chunk => SmartChunker.min_size self <= Py.len (Py.strip chunk))
                   chunks)).
Proof.
  split.
  - exact gold_standard_chunk_text_total.
  - intros self text. split; [apply smart_chunk_text_blank|].
    intros Hmax Hmin.
    destruct (smart_chunk_text_total self text Hmax Hmin) as [chunks [E H]].
    exists chunks. repeat split; auto.
    unfold SmartChunker.smart_chunk_text in E.
    destruct (SmartChunker.each_paragraph self _ []) as [r|]; [|discriminate].
    injection E as <-. apply Forall_forall. intros c Hin.
    apply filter_In in Hin as [_ Hlong]. apply Z.leb_le. exact Hlong.
Qed.

(** A witness for the gold standard part, on the mixed punctuation text. *)
Lemma C2_witness :
  exists chunks,
    GoldStandardChunker.gold_standard_chunk_text GoldStandardChunker.default mixed_text
      = Some chunks
    /\ chunks <> [] /\ Forall nonblank chunks.
Proof.
  destruct (proj1 C2_edge_inputs GoldStandardChunker.default mixed_text)
    as [chunks [E [_ [H1 H2]]]].
  - simpl. lia.
  - exists chunks. repeat split; auto.
Defined.

(** ** Construction (C9) *)

Definition zero_max : GoldStandardChunker.t := GoldStandardChunker.Self 150 0 true 40.

(** With [max_size] zero the loop of [chunk_long_sentence] makes no
    progress on a one-letter sentence: no amount of fuel lets it return. *)
Lemma zero_max_never_returns (fuel : nat) :
  GoldStandardChunker.chunk_long_sentence_fuel fuel zero_max (s_ "a") = None.
Proof.
  assert (Hloop : forall chunks,
            GoldStandardChunker.split_loop fuel zero_max (s_ "a") chunks = None).
  { induction fuel as [|fuel IH]; intros chunks; [reflexivity|].
    change (GoldStandardChunker.split_loop (S fuel) zero_max (s_ "a") chunks)
      with (GoldStandardChunker.split_loop fuel zero_max
              (Py.strip (Py.slice_from (s_ "a")
                 (if GoldStandardChunker.find_optimal_break_point (s_ "a") 0 <=? 0
                  then 0
                  else GoldStandardChunker.find_optimal_break_point (s_ "a") 0)))
              (if Py.truthy (Py.strip (Py.slice_to (s_ "a")
                    (if GoldStandardChunker.find_optimal_break_point (s_ "a") 0 <=? 0
                     then 0
                     else GoldStandardChunker.find_optimal_break_point (s_ "a") 0)))
               then chunks ++ [Py.strip (Py.slice_to (s_ "a")
                    (if GoldStandardChunker.find_optimal_break_point (s_ "a") 0 <=? 0
                     then 0
                     else GoldStandardChunker.find_optimal_break_point (s_ "a") 0))]
               else chunks)).
    replace (GoldStandardChunker.find_optimal_break_point (s_ "a") 0) with 0
      by (vm_compute; reflexivity).
    apply IH. }
  unfold GoldStandardChunker.chunk_long_sentence_fuel.
  replace (GoldStandardChunker.comma_split zero_max (s_ "a")) with (@None (list str))
    by (vm_compute; reflexivity).
  apply Hloop.
Qed.

(** C9, as stated: thresholds that violate the required ordering are
    accepted by the constructors, and the engine so constructed, here with
    [max_size] zero, then fails to return from a call. *)
Lemma C9_invalid_configuration_accepted :
  ~ (20 < 10 <= 5)
  /\ SmartChunker.__init__ 10 5 20 <> Raised InvalidConfiguration
  /\ GoldStandardChunker.__init__ 10 5 true 20 <> Raised InvalidConfiguration
  /\ ~ (40 < 150 <= 0)
  /\ GoldStandardChunker.__init__ 150 0 true 40 = Returned zero_max
  /\ (forall fuel,
        GoldStandardChunker.chunk_long_sentence_fuel fuel zero_max (s_ "a") = None).
Proof.
  repeat split; try discriminate; try lia. exact zero_max_never_returns.
Qed.

(** C9, amended: the constructors check nothing.  For every choice of
    thresholds, ordered or not, construction returns the engine holding
    exactly these thresholds; and a call of the gold standard engine
    returns for every text as soon as [max_size] is positive, whatever the
    other thresholds are. *)
Theorem C9_construction_never_fails :
  (forall target_size max_size min_size,
     SmartChunker.__init__ target_size max_size min_size
     = Returned (SmartChunker.Self target_size max_size min_size))
  /\ (forall target_size max_size min_size,
        TTSOptimizedChunker.__init__ target_size max_size min_size
        = Returned (TTSOptimizedChunker.Self target_size max_size min_size))
  /\ (forall target_size max_size prefer min_chunk_size,
        GoldStandardChunker.__init__ target_size max_size prefer min_chunk_size
        = Returned (GoldStandardChunker.Self target_size max_size prefer min_chunk_size))
  /\ (forall self text,
        0 < GoldStandardChunker.max_size self ->
        exists chunks, GoldStandardChunker.gold_standard_chunk_text self text = Some chunks).
Proof.
  repeat split.
  intros self text Hmax.
  destruct (gold_standard_chunk_text_total self text Hmax) as [chunks [E _]].
  exists chunks. exact E.
Qed.

(** A witness: an engine whose thresholds are out of order still answers. *)
Lemma C9_witness :
  exists chunks,
    GoldStandardChunker.gold_standard_chunk_text (GoldStandardChunker.Self 10 5 true 20)
      mixed_text = Some chunks.
Proof.
  apply (proj2 (proj2 (proj2 C9_construction_never_fails))). simpl. lia.
Defined.

(** ** The size check of the long sentence splitters (C6) *)

Section MinSizeGate.

Import Py Re.

(** What a committed split of [_split_long_sentence_tts_safe] looks like:
    the first chunk is the text before the end of a match of one of the
    break patterns, and both sides of the cut reach [min_size]. *)
Definition tts_committed (self : TTSOptimizedChunker.t)
    (recurse : str -> option (list str)) (patterns : list regex)
    (sentence : str) (chunks : list str) : Prop :=
  exists pattern m,
    In pattern patterns /\ In m (finditer pattern sentence)
    /\ let first_part := strip (slice_to sentence (Z.of_nat (mend m))) in
       let second_part := strip (slice_from sentence (Z.of_nat (mend m))) in
       TTSOptimizedChunker.min_size self <= len first_part
       /\ TTSOptimizedChunker.min_size self <= len second_part
       /\ exists rest, chunks = first_part :: rest
          /\ (rest = [second_part] \/ recurse second_part = Some rest).

Lemma tts_try_patterns_commit (self : TTSOptimizedChunker.t)
    (recurse : str -> option (list str)) (sentence : str) :
  forall patterns chunks,
    TTSOptimizedChunker.try_patterns self recurse sentence patterns = Some chunks ->
    chunks = TTSOptimizedChunker._split_at_words self sentence
    \/ tts_committed self recurse patterns sentence chunks.
Proof.
  induction patterns as [|pattern rest IH]; intros chunks H; simpl in H.
  - injection H as <-. auto.
  - assert (Hnext : TTSOptimizedChunker.try_patterns self recurse sentence rest = Some chunks ->
              chunks = TTSOptimizedChunker._split_at_words self sentence
              \/ tts_committed self recurse (pattern :: rest) sentence chunks).
    { intros H'. destruct (IH _ H') as [E|[p [m [Hp [Hm Hrest]]]]]; [auto|].
      right. exists p, m.
      split; [right; exact Hp|]. split; [exact Hm|exact Hrest]. }
    destruct (finditer pattern sentence) as [|m ms] eqn:E; [auto|].
    set (best := TTSOptimizedChunker.min_by (TTSOptimizedChunker.end_distance sentence) m ms)
      in *.
    destruct (_ && _)%bool eqn:Hok; [|auto].
    apply andb_true_iff in Hok as [H1 H2]. apply Z.leb_le in H1, H2.
    right. exists pattern, best. split; [simpl; auto|].
    split; [rewrite E; apply min_by_In|].
    cbv zeta. split; [exact H1|]. split; [exact H2|].
    destruct (TTSOptimizedChunker.max_size self <? _).
    + destruct (recurse _) as [r|] eqn:Er; [|discriminate].
      injection H as <-. eauto.
    + injection H as <-. eauto.
Qed.

(** A candidate that fails the check is not committed: the next pattern
    is tried. *)
Lemma tts_try_patterns_next (self : TTSOptimizedChunker.t)
    (recurse : str -> option (list str)) (sentence : str)
    (pattern : regex) (rest : list regex) (m : mobj) (ms : list mobj) :
  finditer pattern sentence = m :: ms ->
  let best := TTSOptimizedChunker.min_by (TTSOptimizedChunker.end_distance sentence) m ms in
  (len (strip (slice_to sentence (Z.of_nat (mend best)))) < TTSOptimizedChunker.min_size self
   \/ len (strip (slice_from sentence (Z.of_nat (mend best))))
      < TTSOptimizedChunker.min_size self) ->
  TTSOptimizedChunker.try_patterns self recurse sentence (pattern :: rest)
  = TTSOptimizedChunker.try_patterns self recurse sentence rest.
Proof.
  intros E best Hfail. simpl. rewrite E. fold best.
  replace ((_ <=? _) && (_ <=? _))%bool with false; [reflexivity|].
  symmetry. apply andb_false_iff.
  destruct Hfail as [H|H]; [left|right]; apply Z.leb_gt; exact H.
Qed.

Lemma natural_min_by_In (key : mobj -> Z) (ms : list mobj) :
  forall best, In (NaturalSpeechChunker.min_by key best ms) (best :: ms).
Proof.
  induction ms as [|m ms IH]; intros best; simpl.
  - auto.
  - destruct (key m <? key best).
    + destruct (IH m) as [H|H]; auto.
    + destruct (IH best) as [H|H]; auto.
Qed.

(** [_attempt_split_at_pattern] answers with no split, or with a split
    whose two sides reach [min_size]. *)
Lemma natural_attempt_commit (self : NaturalSpeechChunker.t)
    (recurse : str -> option (list str)) (sentence : str) (pattern : regex)
    (chunks : list str) :
  NaturalSpeechChunker._attempt_split_at_pattern self recurse sentence pattern = Some chunks ->
  chunks = []
  \/ exists m rest,
       In m (finditer pattern sentence)
       /\ chunks = strip (slice_to sentence (Z.of_nat (mend m))) :: rest
       /\ NaturalSpeechChunker.min_size self
          <= len (strip (slice_to sentence (Z.of_nat (mend m))))
       /\ NaturalSpeechChunker.min_size self
          <= len (strip (slice_from sentence (Z.of_nat (mend m)))).
Proof.
  unfold NaturalSpeechChunker._attempt_split_at_pattern. intros H.
  destruct (finditer pattern sentence) as [|m ms] eqn:E.
  - injection H as <-. auto.
  - set (best := NaturalSpeechChunker.min_by
                   (NaturalSpeechChunker.start_distance sentence) m ms) in *.
    destruct (_ && _)%bool eqn:Hok.
    + apply andb_true_iff in Hok as [H1 H2]. apply Z.leb_le in H1, H2.
      right. exists best.
      destruct (NaturalSpeechChunker.max_size self <? _).
      * destruct (recurse _) as [r|]; [|discriminate]. injection H as <-.
        exists r. repeat split; auto. apply natural_min_by_In.
      * injection H as <-. eexists. repeat split; auto. apply natural_min_by_In.
    + injection H as <-. auto.
Qed.

End MinSizeGate.

Definition short_head : str := s_ "A, and " ++ repeat "b"%char 300.

(** C6, as stated: the gold standard [chunk_long_sentence] commits a split
    whose first part has two characters, with [min_chunk_size] 40. *)
Lemma C6_gold_commits_short_part :
  GoldStandardChunker.chunk_long_sentence GoldStandardChunker.default short_head
  = Some [s_ "A,"; s_ "and " ++ repeat "b"%char 300]
  /\ Py.len (s_ "A,") < GoldStandardChunker.min_chunk_size GoldStandardChunker.default.
Proof. vm_compute. split; reflexivity. Qed.

(** C6, amended: [_split_long_sentence_tts_safe] always returns; its
    result is either what the word packing of the last resort gives, which
    is not checked against [min_size], or a split at the end of a match of
    a break pattern with both stripped sides of length at least
    [min_size]; a pattern whose chosen match fails this check is passed
    over for the next pattern.  [_attempt_split_at_pattern] of the natural
    speech chunker likewise answers with no split or with a split whose
    two sides reach [min_size].  The gold standard [chunk_long_sentence]
    has no such check: whenever its comma and conjunction split yields two
    non-empty parts, these are its result. *)
Theorem C6_min_size_gate :
  (forall (self : TTSOptimizedChunker.t) (sentence : str),
     exists chunks,
       TTSOptimizedChunker._split_long_sentence_tts_safe self sentence = Some chunks
       /\ (chunks = TTSOptimizedChunker._split_at_words self sentence
           \/ tts_committed self
                (TTSOptimizedChunker._split_long_sentence_tts_safe_fuel (length sentence) self)
                TTSOptimizedChunker.break_patterns sentence chunks))
  /\ (forall (self : TTSOptimizedChunker.t) recurse sentence pattern rest m ms,
        Re.finditer pattern sentence = m :: ms ->
        let best := TTSOptimizedChunker.min_by
                      (TTSOptimizedChunker.end_distance sentence) m ms in
        (Py.len (Py.strip (Py.slice_to sentence (Z.of_nat (Re.mend best))))
           < TTSOptimizedChunker.min_size self
         \/ Py.len (Py.strip (Py.slice_from sentence (Z.of_nat (Re.mend best))))
            < TTSOptimizedChunker.min_size self) ->
        TTSOptimizedChunker.try_patterns self recurse sentence (pattern :: rest)
        = TTSOptimizedChunker.try_patterns self recurse sentence rest)
  /\ (forall (self : NaturalSpeechChunker.t) recurse sentence pattern chunks,
        NaturalSpeechChunker._attempt_split_at_pattern self recurse sentence pattern
          = Some chunks ->
        chunks = []
        \/ exists m rest,
             In m (Re.finditer pattern sentence)
             /\ chunks = Py.strip (Py.slice_to sentence (Z.of_nat (Re.mend m))) :: rest
             /\ NaturalSpeechChunker.min_size self
                <= Py.len (Py.strip (Py.slice_to sentence (Z.of_nat (Re.mend m))))
             /\ NaturalSpeechChunker.min_size self
                <= Py.len (Py.strip (Py.slice_from sentence (Z.of_nat (Re.mend m)))))
  /\ (forall (self : GoldStandardChunker.t) sentence parts,
        GoldStandardChunker.comma_split self sentence = Some parts ->
        GoldStandardChunker.chunk_long_sentence self sentence = Some parts).
Proof.
  split; [|split; [|split]].
  - intros self sentence.
    destruct (split_long_total self (S (length sentence)) sentence (Nat.lt_succ_diag_r _))
      as [chunks E].
    exists chunks. split; [exact E|].
    apply tts_try_patterns_commit. exact E.
  - exact tts_try_patterns_next.
  - exact natural_attempt_commit.
  - intros self sentence parts E.
    unfold GoldStandardChunker.chunk_long_sentence,
      GoldStandardChunker.chunk_long_sentence_fuel.
    rewrite E. reflexivity.
Qed.

(** A witness: a sentence cut at its semicolon, and the comma of
    [short_head] passed over because its first part is too short. *)
Lemma C6_witness :
  TTSOptimizedChunker.try_patterns (TTSOptimizedChunker.Self 30 40 4) (fun _ => None)
    (s_ "A, b; the rest of this sentence is long enough")
    [Re.Seq (Re.chr ",") (Re.plus Re.ws); Re.Seq (Re.chr ";") (Re.plus Re.ws)]
  = Some [s_ "A, b;"; s_ "the rest of this sentence is long enough"].
Proof.
  rewrite (proj1 (proj2 C6_min_size_gate) (TTSOptimizedChunker.Self 30 40 4) (fun _ => None)
             (s_ "A, b; the rest of this sentence is long enough")
             (Re.Seq (Re.chr ",") (Re.plus Re.ws))
             [Re.Seq (Re.chr ";") (Re.plus Re.ws)]
             (Re.MObj 1 3 []) []).
  - vm_compute. reflexivity.
  - vm_compute. reflexivity.
  - left. vm_compute. reflexivity.
Defined.

(** ** The groups a match records *)

Section ReGroups.

Import Re.

Fixpoint group_ids (r : regex) : list nat :=
  match r with
  | Seq a b | Alt a b => group_ids a ++ group_ids b
  | Group n a => n :: group_ids a
  | _ => []
  end.

Definition only_ids (ids : list nat) (added : caps) : Prop :=
  Forall (fun kv : nat * (nat * nat) => In (fst kv) ids) added.

Lemma only_ids_incl (ids ids' : list nat) (added : caps) :
  incl ids ids' -> only_ids ids added -> only_ids ids' added.
Proof.
  intros Hi H. unfold only_ids in *. rewrite Forall_forall in *.
  intros kv Hin. apply Hi. auto.
Qed.

Lemma star_caps (R : Type) (p : ascii -> bool) (k : cont R) :
  forall rest pre cs res,
    star p k pre rest cs = Some res ->
    exists pre' rest', k pre' rest' cs = Some res.
Proof.
  induction rest as [|c rest IH]; intros pre cs res H; simpl in H.
  - eauto.
  - destruct (p c); [|eauto].
    destruct (star p k (c :: pre) rest cs) as [x|] eqn:E; [|eauto].
    injection H as <-. eauto.
Qed.

(** The continuation receives the spans it was given, with the spans of
    the groups of [r] put in front. *)
Lemma run_caps (r : regex) :
  forall (R : Type) (k : cont R) pre rest cs res,
    run r k pre rest cs = Some res ->
    exists pre' rest' added,
      k pre' rest' (added ++ cs) = Some res /\ only_ids (group_ids r) added.
Proof.
  induction r as [|p|a IHa b IHb|a IHa b IHb|p|n a IHa|a IHa|a IHa| |];
    intros R k pre rest cs res H; simpl in H.
  - exists pre, rest, []. split; [exact H|constructor].
  - destruct rest as [|c rest]; [discriminate|].
    destruct (p c); [|discriminate].
    exists (c :: pre), rest, []. split; [exact H|constructor].
  - apply IHa in H as [pre1 [rest1 [add1 [H Ha]]]].
    apply IHb in H as [pre2 [rest2 [add2 [H Hb]]]].
    exists pre2, rest2, (add2 ++ add1). rewrite <- app_assoc. split; [exact H|].
    apply Forall_app. split.
    + eapply only_ids_incl; [|exact Hb]. simpl. apply incl_appr, incl_refl.
    + eapply only_ids_incl; [|exact Ha]. simpl. apply incl_appl, incl_refl.
  - destruct (run a k pre rest cs) as [x|] eqn:E.
    + injection H as <-. apply IHa in E as [pre1 [rest1 [add1 [H Ha]]]].
      exists pre1, rest1, add1. split; [exact H|].
      eapply only_ids_incl; [|exact Ha]. simpl. apply incl_appl, incl_refl.
    + apply IHb in H as [pre1 [rest1 [add1 [H Hb]]]].
      exists pre1, rest1, add1. split; [exact H|].
      eapply only_ids_incl; [|exact Hb]. simpl. apply incl_appr, incl_refl.
  - apply star_caps in H as [pre' [rest' H]].
    exists pre', rest', []. split; [exact H|constructor].
  - apply IHa in H as [pre1 [rest1 [add1 [H Ha]]]].
    exists pre1, rest1, ((n, (length pre, length pre1)) :: add1).
    split; [exact H|]. constructor; [simpl; auto|].
    eapply only_ids_incl; [|exact Ha]. simpl. apply incl_tl, incl_refl.
  - destruct (run a (fun _ _ _ => Some tt) pre rest cs); [|discriminate].
    exists pre, rest, []. split; [exact H|constructor].
  - destruct (run a (fun _ _ _ => Some tt) pre rest cs); [discriminate|].
    exists pre, rest, []. split; [exact H|constructor].
  - destruct (at_boundary pre rest); [|discriminate].
    exists pre, rest, []. split; [exact H|constructor].
  - destruct (at_end rest); [|discriminate].
    exists pre, rest, []. split; [exact H|constructor].
Qed.

Lemma lookup_added (n : nat) (ids : list nat) (added cs : caps) :
  only_ids ids added -> ~ In n ids -> lookup n (added ++ cs) = lookup n cs.
Proof.
  intros H Hn. induction added as [|[g sp] added IH]; simpl; [reflexivity|].
  inversion H as [|? ? Hg Hrest]; subst. simpl in Hg.
  destruct (Nat.eqb_spec g n) as [->|_]; [contradiction|]. auto.
Qed.

End ReGroups.

(** ** The comma and conjunction split of the gold standard engine (C5) *)

Section CommaSplit.

Import Py Re GoldStandardChunker.

Lemma finditer_from_match_at (r : regex) :
  forall rest pre skip m,
    In m (finditer_from r pre rest skip) ->
    exists pre' rest', match_at r pre' rest' = Some m
                       /\ rev pre' ++ rest' = rev pre ++ rest.
Proof.
  assert (Hcons : forall c (pre rest : str), rev (c :: pre) ++ rest = rev pre ++ c :: rest).
  { intros. simpl. rewrite <- app_assoc. reflexivity. }
  induction rest as [|c rest IH]; intros pre skip m H.
  - destruct skip; simpl in H; [|contradiction].
    destruct (match_at r pre []) as [m0|] eqn:E; [|contradiction].
    destruct H as [<-|[]]. eauto.
  - destruct skip as [|n]; simpl in H.
    + destruct (match_at r pre (c :: rest)) as [m0|] eqn:E.
      * destruct H as [<-|H]; [eauto|].
        apply IH in H as [pre' [rest' [Hm Heq]]]. rewrite Hcons in Heq. eauto.
      * apply IH in H as [pre' [rest' [Hm Heq]]]. rewrite Hcons in Heq. eauto.
    + apply IH in H as [pre' [rest' [Hm Heq]]]. rewrite Hcons in Heq. eauto.
Qed.

Definition conjunction_words : regex :=
  alts [lit_i "and"; lit_i "but"; lit_i "or"; lit_i "so"; lit_i "yet"].

Definition conjunction_tail : regex :=
  Seq (Group 2 (plus ws)) (Seq (Group 3 conjunction_words) (plus ws)).

Lemma comma_conjunction_unfold :
  comma_conjunction_pattern = Seq (Group 1 (chr ",")) conjunction_tail.
Proof. reflexivity. Qed.

Definition unspaced (c : ascii) : Prop := isspace c = false.

Lemma chr_i_unspaced (c : ascii) :
  isspace c = false -> isspace (upper_char c) = false ->
  lower_char c = c ->
  consumes unspaced (chr_i c).
Proof.
  intros Hc Hu Hl x Hx. unfold unspaced.
  apply Ascii.eqb_eq in Hx. rewrite Hl in Hx.
  destruct (isspace x) eqn:E; [|reflexivity].
  (* a white space character is its own lower case form *)
  assert (lower_char x = x).
  { unfold lower_char.
    destruct (in_range 65 90 x || in_range 192 214 x || in_range 216 222 x)%bool eqn:Er;
      [|reflexivity].
    unfold isspace in E. unfold in_range, is_code in *.
    repeat (apply orb_true_iff in E; destruct E as [E|E]);
    repeat (apply orb_true_iff in Er; destruct Er as [Er|Er]);
    repeat match goal with
           | H : (_ && _)%bool = true |- _ => apply andb_true_iff in H; destruct H
           | H : N.leb _ _ = true |- _ => apply N.leb_le in H
           | H : N.eqb _ _ = true |- _ => apply N.eqb_eq in H
           end; lia. }
  congruence.
Qed.

Lemma conjunction_words_unspaced : consumes unspaced conjunction_words.
Proof.
  unfold conjunction_words. simpl. repeat split; apply chr_i_unspaced; reflexivity.
Qed.

(** What every match of the comma and conjunction pattern looks like. *)
Lemma comma_match_shape (pre rest : str) (m : mobj) :
  match_at comma_conjunction_pattern pre rest = Some m ->
  exists r, rest = ","%char :: r
            /\ mstart m = length pre
            /\ lookup 1 (mcaps m) = Some (length pre, S (length pre))
            /\ blank r = false.
Proof.
  rewrite comma_conjunction_unfold. unfold match_at.
  remember conjunction_tail as tail eqn:Htail.
  destruct rest as [|c r]; simpl; [discriminate|].
  unfold chr. destruct (Ascii.eqb_spec ","%char c) as [<-|_]; [|discriminate].
  intros H. exists r. split; [reflexivity|].
  pose proof H as Hcaps. apply run_caps in Hcaps as [pre' [rest' [added [Hk Hids]]]].
  injection Hk as <-. simpl.
  split; [reflexivity|]. split.
  - rewrite (lookup_added 1 (group_ids tail) added _ Hids).
    + reflexivity.
    + subst tail. simpl. intuition discriminate.
  - apply run_sound in H as [mid [post [cs' [-> [Hm _]]]]].
    subst tail. unfold conjunction_tail in Hm. cbn [matches] in Hm.
    destruct Hm as [m1 [m2 [-> [_ [m3 [m4 [-> [Hconj _]]]]]]]].
    pose proof (matches_consumes unspaced _ conjunction_words_unspaced _ _ _ Hconj) as Hall.
    pose proof (matches_min_len _ _ _ _ Hconj) as Hlen.
    destruct m3 as [|x m3]; [simpl in Hlen; lia|].
    inversion Hall as [|? ? Hx _]; subst.
    rewrite !blank_app. simpl. unfold unspaced in Hx. rewrite Hx.
    rewrite andb_false_r. reflexivity.
Qed.

(** Where a match of the pattern lies in the sentence. *)
Lemma comma_match_in_sentence (sentence : str) (m : mobj) :
  In m (finditer comma_conjunction_pattern sentence) ->
  exists a r, sentence = a ++ ","%char :: r
              /\ mstart m = length a
              /\ lookup 1 (mcaps m) = Some (length a, S (length a))
              /\ blank r = false.
Proof.
  intros H. apply finditer_from_match_at in H as [pre [rest [Hm Heq]]].
  simpl in Heq. apply comma_match_shape in Hm as [r [-> [Hs [Hl Hb]]]].
  exists (rev pre), r. rewrite length_rev. auto.
Qed.

Lemma best_of_least (sentence : str) (ms : list mobj) :
  forall b0, exists b,
    best_of sentence (Some b0) ms = Some b /\ In b (b0 :: ms)
    /\ forall m, In m (b0 :: ms) -> distance5 sentence b <= distance5 sentence m.
Proof.
  induction ms as [|m ms IH]; intros b0; simpl.
  - exists b0. repeat split; auto. intros m [<-|[]]. lia.
  - destruct (Z.ltb_spec (distance5 sentence m) (distance5 sentence b0)).
    + destruct (IH m) as [b [E [Hin Hleast]]].
      exists b. split; [exact E|]. split; [destruct Hin; auto|].
      intros x [<-|[<-|Hx]]; [|apply Hleast; simpl; auto|apply Hleast; simpl; auto].
      specialize (Hleast m (or_introl eq_refl)). lia.
    + destruct (IH b0) as [b [E [Hin Hleast]]].
      exists b. split; [exact E|]. split; [destruct Hin; auto|].
      intros x [<-|[<-|Hx]]; [apply Hleast; simpl; auto| |apply Hleast; simpl; auto].
      specialize (Hleast b0 (or_introl eq_refl)). lia.
Qed.

Lemma slices_at_comma (a r : str) :
  slice_to (a ++ ","%char :: r) (Z.of_nat (length a) + 1) = a ++ [","%char]
  /\ slice_from (a ++ ","%char :: r) (Z.of_nat (length a) + 1) = r.
Proof.
  unfold slice_to, slice_from, norm_index.
  destruct (Z.ltb_spec (Z.of_nat (length a) + 1) 0); [lia|].
  replace (Nat.min _ _) with (length (a ++ [","%char])).
  - replace (a ++ ","%char :: r) with ((a ++ [","%char]) ++ r)
      by (rewrite <- app_assoc; reflexivity).
    rewrite firstn_app, firstn_all, Nat.sub_diag, skipn_app, skipn_all, Nat.sub_diag.
    simpl. rewrite app_nil_r. auto.
  - rewrite !length_app. simpl. lia.
Qed.

Lemma group1_at_comma (a r : str) (m : mobj) :
  lookup 1 (mcaps m) = Some (length a, S (length a)) ->
  len (group (a ++ ","%char :: r) m 1) = 1.
Proof.
  intros H. unfold group. rewrite H. unfold substr.
  rewrite skipn_app, skipn_all, Nat.sub_diag.
  replace (S (length a) - length a)%nat with 1%nat by lia. reflexivity.
Qed.

(** The comma and conjunction split of [chunk_long_sentence]. *)
Lemma comma_split_at_best (self : t) (sentence : str) :
  finditer comma_conjunction_pattern sentence <> [] ->
  target_size self <= len sentence ->
  exists best a r,
    In best (finditer comma_conjunction_pattern sentence)
    /\ (forall m, In m (finditer comma_conjunction_pattern sentence) ->
                  distance5 sentence best <= distance5 sentence m)
    /\ sentence = a ++ ","%char :: r /\ mstart best = length a
    /\ chunk_long_sentence self sentence = Some [strip (a ++ [","%char]); strip r]
    /\ nonblank (strip (a ++ [","%char])) /\ nonblank (strip r).
Proof.
  intros Hne Hlen.
  destruct (finditer comma_conjunction_pattern sentence) as [|m ms] eqn:E; [congruence|].
  destruct (best_of_least sentence ms m) as [best [Hbest [Hin Hleast]]].
  assert (Hin' : In best (finditer comma_conjunction_pattern sentence))
    by (rewrite E; exact Hin).
  destruct (comma_match_in_sentence sentence best Hin') as [a [r [Hs [Hstart [Hl Hb]]]]].
  exists best, a, r. repeat split; auto.
  - unfold chunk_long_sentence, chunk_long_sentence_fuel, comma_split.
    rewrite E. simpl truthy_list.
    apply Z.leb_le in Hlen. rewrite Hlen. simpl andb.
    change (best_of sentence None (m :: ms)) with (best_of sentence (Some m) ms).
    rewrite Hbest, Hstart. subst sentence.
    rewrite (group1_at_comma a r best Hl).
    destruct (slices_at_comma a r) as [-> ->].
    rewrite !truthy_strip, Hb, blank_app. simpl. rewrite andb_false_r. reflexivity.
  - apply nonblank_strip. unfold nonblank. rewrite blank_app. simpl.
    apply andb_false_r.
  - apply nonblank_strip. exact Hb.
Qed.

End CommaSplit.

Lemma tts_min_by_least (key : Re.mobj -> Z) (ms : list Re.mobj) :
  forall best m,
    In m (best :: ms) -> key (TTSOptimizedChunker.min_by key best ms) <= key m.
Proof.
  induction ms as [|x ms IH]; intros best m Hin; simpl.
  - destruct Hin as [<-|[]]. lia.
  - destruct (Z.ltb_spec (key x) (key best)).
    + destruct Hin as [<-|[<-|Hin]].
      * specialize (IH x x (or_introl eq_refl)). lia.
      * apply IH. simpl. auto.
      * apply IH. simpl. auto.
    + destruct Hin as [<-|[<-|Hin]].
      * apply IH. simpl. auto.
      * specialize (IH best best (or_introl eq_refl)). lia.
      * apply IH. simpl. auto.
Qed.

Definition two_commas : str :=
  repeat "a"%char 44 ++ s_ ", and " ++ repeat "b"%char 8 ++ s_ ", and "
    ++ repeat "c"%char 36.

Definition sentence400 : str :=
  repeat "a"%char 239 ++ s_ ", and " ++ repeat "b"%char 155.

(** C5, as stated: in a sentence of 100 characters with a comma and
    conjunction at 44 and another at 58, the second is the closer to 60
    percent of the length, yet [_split_long_sentence_tts_safe] cuts at the
    first, which is the closer to the middle, and cuts after the
    conjunction, not at the comma. *)
Lemma C5_tts_cuts_near_the_middle :
  map Re.mstart (Re.finditer (nth 1 TTSOptimizedChunker.break_patterns Re.Eps) two_commas)
    = [44%nat; 58%nat]
  /\ Z.abs (5 * 58 - 3 * Py.len two_commas) < Z.abs (5 * 44 - 3 * Py.len two_commas)
  /\ TTSOptimizedChunker._split_long_sentence_tts_safe
       (TTSOptimizedChunker.Self 40 60 10) two_commas
     = Some [repeat "a"%char 44 ++ s_ ", and";
             repeat "b"%char 8 ++ s_ ", and " ++ repeat "c"%char 36].
Proof. vm_compute. repeat split; reflexivity. Qed.


(** ** Words and single spaces *)

Section Words.

Import Py.

(** A word: not empty, no white space. *)
Definition word (w : str) : Prop := w <> [] /\ spaceless w.

Lemma split_ws_from_words (s : str) :
  forall cur, spaceless cur -> Forall word (split_ws_from cur s).
Proof.
  induction s as [|c s IH]; intros cur Hcur; simpl.
  - destruct cur as [|d cur]; [constructor|].
    repeat constructor.
    + intros H. apply (f_equal (@length ascii)) in H.
      rewrite length_rev in H. discriminate.
    + unfold spaceless. apply Forall_rev. exact Hcur.
  - destruct (isspace c) eqn:E.
    + destruct cur as [|d cur]; [apply IH; constructor|].
      constructor; [|apply IH; constructor].
      split.
      * intros H. apply (f_equal (@length ascii)) in H.
        rewrite length_rev in H. discriminate.
      * unfold spaceless. apply Forall_rev. exact Hcur.
    + apply IH. constructor; assumption.
Qed.

Lemma split_ws_words (s : str) : Forall word (split_ws s).
Proof. apply split_ws_from_words. constructor. Qed.

Lemma split_ws_from_word (w : str) :
  spaceless w ->
  forall cur s, split_ws_from cur (w ++ s) = split_ws_from (rev w ++ cur) s.
Proof.
  induction 1 as [|c w Hc Hw IH]; intros cur s; simpl; [reflexivity|].
  rewrite Hc, IH, <- app_assoc. reflexivity.
Qed.

(** Joining words by single spaces and splitting again gives the words. *)
Lemma split_ws_join (ws : list str) :
  Forall word ws -> split_ws (join (s_ " ") ws) = ws.
Proof.
  unfold split_ws. induction 1 as [|w ws [Hne Hw] Hws IH]; [reflexivity|].
  destruct ws as [|w' ws].
  - simpl. rewrite <- (app_nil_r w) at 1.
    rewrite (split_ws_from_word w Hw), app_nil_r. simpl.
    destruct (rev w) eqn:E.
    + apply (f_equal (@length ascii)) in E. rewrite length_rev in E.
      destruct w; [congruence|discriminate].
    + rewrite <- E, rev_involutive. reflexivity.
  - change (join (s_ " ") (w :: w' :: ws))
      with (w ++ " "%char :: join (s_ " ") (w' :: ws)).
    rewrite (split_ws_from_word w Hw), app_nil_r.
    change (split_ws_from (rev w) (" "%char :: join (s_ " ") (w' :: ws)))
      with (match rev w with
            | [] => split_ws_from [] (join (s_ " ") (w' :: ws))
            | _ => rev (rev w) :: split_ws_from [] (join (s_ " ") (w' :: ws))
            end).
    rewrite IH. destruct (rev w) eqn:E.
    + apply (f_equal (@length ascii)) in E. rewrite length_rev in E.
      destruct w; [congruence|discriminate].
    + rewrite <- E, rev_involutive. reflexivity.
Qed.

(** A string with no white space at either end. *)
Definition starts_unspaced (s : str) : Prop :=
  match s with c :: _ => isspace c = false | [] => True end.

Definition trimmed (s : str) : Prop := starts_unspaced s /\ starts_unspaced (rev s).

Lemma strip_trimmed (s : str) : trimmed s -> strip s = s.
Proof.
  intros [H1 H2]. unfold strip, rstrip.
  rewrite (lstrip_fixed s H1), (lstrip_fixed (rev s) H2). apply rev_involutive.
Qed.

Lemma starts_unspaced_app (a b : str) :
  a <> [] -> starts_unspaced a -> starts_unspaced (a ++ b).
Proof. destruct a; [congruence|]. simpl. auto. Qed.

Lemma word_trimmed (w : str) : word w -> trimmed w.
Proof.
  intros [Hne Hw]. split.
  - destruct Hw; simpl; auto.
  - assert (H : spaceless (rev w)) by (apply Forall_rev; exact Hw).
    destruct H; simpl; auto.
Qed.

Lemma join_nonempty (w : str) (ws : list str) : w <> [] -> join (s_ " ") (w :: ws) <> [].
Proof.
  intros Hne. destruct ws; simpl; [exact Hne|].
  destruct w; [congruence|discriminate].
Qed.

Lemma join_trimmed (ws : list str) : Forall word ws -> trimmed (join (s_ " ") ws).
Proof.
  induction 1 as [|w ws Hw Hws IH]; [split; exact I|].
  destruct ws as [|w' ws]; [apply word_trimmed; exact Hw|].
  change (join (s_ " ") (w :: w' :: ws))
    with (w ++ " "%char :: join (s_ " ") (w' :: ws)).
  destruct (word_trimmed w Hw) as [H1 _]. destruct IH as [_ H2].
  split.
  - apply starts_unspaced_app; [exact (proj1 Hw)|exact H1].
  - rewrite rev_app_distr. simpl rev at 1. rewrite <- app_assoc.
    apply starts_unspaced_app; [|exact H2].
    intros E. apply (f_equal (@rev ascii)) in E. rewrite rev_involutive in E.
    inversion Hws as [|? ? Hw' _]; subst.
    exact (join_nonempty w' ws (proj1 Hw') E).
Qed.

Lemma join_no_newline (ws : list str) :
  Forall word ws -> Forall (fun c => c <> "010"%char) (join (s_ " ") ws).
Proof.
  assert (Hword : forall w, word w -> Forall (fun c => c <> "010"%char) w).
  { intros w [_ Hw]. unfold spaceless in Hw. rewrite Forall_forall in *.
    intros c Hin Hc. apply Hw in Hin. subst c. discriminate. }
  induction 1 as [|w ws Hw Hws IH]; [constructor|].
  destruct ws as [|w' ws]; [simpl; auto|].
  change (join (s_ " ") (w :: w' :: ws))
    with (w ++ " "%char :: join (s_ " ") (w' :: ws)).
  apply Forall_app. split; [auto|]. constructor; [discriminate|exact IH].
Qed.

(** Normalising twice is normalising once. *)
Lemma normalize_text_join (s : str) :
  ChunkingEvaluator.normalize_text s = join (s_ " ") (split_ws s).
Proof.
  unfold ChunkingEvaluator.normalize_text.
  apply strip_trimmed, join_trimmed, split_ws_words.
Qed.

Lemma normalize_text_idem (s : str) :
  ChunkingEvaluator.normalize_text (ChunkingEvaluator.normalize_text s)
  = ChunkingEvaluator.normalize_text s.
Proof.
  rewrite !normalize_text_join, split_ws_join; [reflexivity|apply split_ws_words].
Qed.

End Words.

(** ** A text that fits in one chunk (C1) *)

Section SingleChunk.

Import Py Re SmartChunker.

Lemma finditer_from_nomatch (r : regex) (P : ascii -> Prop) :
  (forall pre rest, Forall P rest -> match_at r pre rest = None) ->
  forall rest pre skip, Forall P rest -> finditer_from r pre rest skip = [].
Proof.
  intros Hno. induction rest as [|c rest IH]; intros pre skip HP.
  - destruct skip; simpl; [|reflexivity]. rewrite (Hno pre [] HP). reflexivity.
  - inversion HP as [|? ? Hc Hrest]; subst.
    destruct skip; simpl; [|auto]. rewrite (Hno pre (c :: rest) HP). auto.
Qed.

Lemma paragraph_breaks_need_newline (pre rest : str) :
  Forall (fun c => c <> "010"%char) rest -> match_at paragraph_breaks pre rest = None.
Proof.
  intros HP. destruct (match_at paragraph_breaks pre rest) as [m|] eqn:E; [|reflexivity].
  apply match_at_sound in E as [mid [post [-> [Hm _]]]].
  unfold paragraph_breaks, seqs, chr in Hm. cbn [matches] in Hm.
  destruct Hm as [m1 [m2 [-> [[c [-> Hc]] _]]]].
  apply Ascii.eqb_eq in Hc. subst c.
  inversion HP as [|? ? Hc _]. congruence.
Qed.

Lemma search_none (r : regex) (s : str) : search r s = None -> finditer r s = [].
Proof. unfold search. destruct (finditer r s); [reflexivity|discriminate]. Qed.

(** A text whose normal form fits in one chunk comes back as that one
    chunk. *)
Lemma smart_single_chunk (self : t) (text : str) :
  search glued_sentences (ChunkingEvaluator.normalize_text text) = None ->
  min_size self <= len (ChunkingEvaluator.normalize_text text) <= max_size self ->
  smart_chunk_text self text
  = Some (if truthy (ChunkingEvaluator.normalize_text text)
          then [ChunkingEvaluator.normalize_text text] else []).
Proof.
  intros Hglue [Hmin Hmax].
  pose proof (normalize_text_join text) as Hn.
  pose proof (strip_trimmed _ (join_trimmed _ (split_ws_words text))) as Hstrip.
  pose proof (join_no_newline _ (split_ws_words text)) as Hnl.
  rewrite Hn in *.
  set (t0 := join (s_ " ") (split_ws text)) in *.
  unfold smart_chunk_text, _normalize_text. fold t0.
  unfold sub. rewrite (search_none _ _ Hglue). simpl sub_at.
  unfold split, finditer.
  rewrite (finditer_from_nomatch paragraph_breaks _ paragraph_breaks_need_newline
             t0 [] 0%nat Hnl).
  simpl split_at. simpl each_paragraph. rewrite Hstrip.
  destruct (truthy t0) eqn:Et; simpl negb; cbv iota; [|reflexivity].
  unfold _chunk_paragraph. apply Z.leb_le in Hmax. rewrite Hmax.
  simpl. unfold long_enough. rewrite Hstrip.
  apply Z.leb_le in Hmin. rewrite Hmin. reflexivity.
Qed.

End SingleChunk.

Definition unfinished : str :=
  s_ "The progressive streaming system works by processing content in parallel while the audio of the earlier parts is already being played back".

(** C1, as stated: the smart chunker with its default thresholds drops a
    short text whole, and the TTS chunker with its default thresholds adds
    a period to a text that has none; in both cases the chunks do not
    reconstruct the input. *)
Lemma C1_content_dropped_and_added :
  (SmartChunker.smart_chunk_text SmartChunker.default (s_ "Hello world.") = Some []
   /\ ChunkingEvaluator.reconstructed []
      <> ChunkingEvaluator.normalize_text (s_ "Hello world."))
  /\ (TTSOptimizedChunker.tts_chunk_text TTSOptimizedChunker.default unfinished
      = Some [unfinished ++ s_ "."]
      /\ ChunkingEvaluator.reconstructed [unfinished ++ s_ "."]
         <> ChunkingEvaluator.normalize_text unfinished).
Proof. vm_compute. repeat split; discriminate. Qed.


(** ** The language classifier (C7) *)

Section Classifier.

Import Py Re GoldStandardChunker ClassifierSpec.

Lemma run_alts_cons (R : Type) (r : regex) (rs : list regex) (k : cont R)
    (pre rest : str) (cs : caps) :
  run (alts (r :: rs)) k pre rest cs
  = match run r k pre rest cs with
    | Some x => Some x
    | None => run (alts rs) k pre rest cs
    end.
Proof.
  destruct rs as [|r' rs]; [|reflexivity].
  simpl. destruct (run r k pre rest cs); reflexivity.
Qed.

Lemma run_seqs_cons (R : Type) (r : regex) (rs : list regex) (k : cont R)
    (pre rest : str) (cs : caps) :
  run (seqs (r :: rs)) k pre rest cs
  = run r (fun pre' rest' cs' => run (seqs rs) k pre' rest' cs') pre rest cs.
Proof. destruct rs as [|r' rs]; reflexivity. Qed.

(** A literal matches exactly where the subject starts with it. *)
Lemma run_literal (R : Type) (w : str) (k : cont R) :
  forall pre rest cs,
    run (seqs (map chr w)) k pre rest cs
    = if startswith w rest then k (rev w ++ pre) (skipn (length w) rest) cs else None.
Proof.
  induction w as [|c w IH]; intros pre rest cs.
  - reflexivity.
  - change (map chr (c :: w)) with (chr c :: map chr w).
    rewrite run_seqs_cons. unfold chr at 1. simpl run at 1.
    destruct rest as [|x rest]; [reflexivity|].
    simpl startswith. destruct (Ascii.eqb_spec c x) as [<-|_]; [|reflexivity].
    rewrite IH. simpl. rewrite <- app_assoc. reflexivity.
Qed.

(** A word of a word list: not empty, word characters only. *)
Definition wordish (w : str) : Prop := w <> [] /\ Forall (fun c => isword c = true) w.

Lemma startswith_refl_app (w s : str) : startswith w (w ++ s) = true.
Proof. induction w as [|c w IH]; simpl; [reflexivity|]. rewrite Ascii.eqb_refl. exact IH. Qed.

Lemma str_eqb_eq (a b : str) : str_eqb a b = true <-> a = b.
Proof.
  revert b. induction a as [|x a IH]; intros [|y b]; simpl; split; intros H;
    try discriminate; try reflexivity.
  - apply andb_true_iff in H as [Hx Ha]. apply Ascii.eqb_eq in Hx.
    apply IH in Ha. subst. reflexivity.
  - injection H as -> ->. rewrite Ascii.eqb_refl. apply IH. reflexivity.
Qed.

Lemma word_at_rev_wordish (w pre : str) : wordish w -> word_at (rev w ++ pre) = true.
Proof.
  intros [Hne Hw]. assert (H : Forall (fun c => isword c = true) (rev w))
    by (apply Forall_rev; exact Hw).
  destruct (rev w) as [|c r] eqn:E.
  - apply (f_equal (@rev ascii)) in E. rewrite rev_involutive in E. simpl in E. congruence.
  - inversion H; subst. simpl. assumption.
Qed.

Lemma word_at_wordish_app (w s : str) : wordish w -> word_at (w ++ s) = true.
Proof. intros [Hne Hw]. destruct Hw; [congruence|]. simpl. assumption. Qed.

(** In a subject that starts with the token [tok], a word of the list
    followed by a word boundary can only be the token itself. *)
Lemma whole_token (w tok rest' : str) :
  wordish w -> wordish tok -> word_at rest' = false ->
  startswith w (tok ++ rest') = true ->
  word_at (skipn (length w) (tok ++ rest')) = false ->
  w = tok.
Proof.
  intros [_ Hw] [_ Htok] Hrest. revert tok Htok.
  induction Hw as [|c w Hc Hw IH]; intros tok Htok Hst Hend.
  - simpl in Hend. destruct Htok as [|d tok Hd Htok]; [reflexivity|].
    simpl in Hend. congruence.
  - destruct Htok as [|d tok Hd Htok].
    + simpl in Hst. destruct rest' as [|x rest']; [discriminate|].
      apply andb_true_iff in Hst as [Hx _]. apply Ascii.eqb_eq in Hx. subst x.
      simpl in Hrest. congruence.
    + simpl in Hst. apply andb_true_iff in Hst as [Hx Hst].
      apply Ascii.eqb_eq in Hx. subst d. f_equal. apply IH; assumption.
Qed.

(** The continuation of the word patterns after the group: a word
    boundary, then the match object. *)
Definition after_word (start : nat) : cont mobj :=
  fun pre' rest' cs' =>
    if at_boundary pre' rest'
    then Some (MObj start (length pre') ((1%nat, (start, length pre')) :: cs'))
    else None.

Lemma words_unfold (wl : list string) (pre rest : str) :
  match_at (words wl) pre rest
  = if at_boundary pre rest
    then run (alts (map lit wl)) (after_word (length pre)) pre rest []
    else None.
Proof. reflexivity. Qed.

Definition wordish_list (wl : list string) : Prop := Forall (fun x => wordish (s_ x)) wl.

(** Inside a word, and before a character that is not a word character,
    the word patterns do not match. *)
Lemma alts_need_word (wl : list string) (k : cont mobj) (pre rest : str) (cs : caps) :
  wordish_list wl -> word_at rest = false ->
  run (alts (map lit wl)) k pre rest cs = None.
Proof.
  intros Hwl Hrest. induction Hwl as [|x wl Hx Hwl IH]; [reflexivity|].
  change (map lit (x :: wl)) with (lit x :: map lit wl).
  rewrite run_alts_cons. unfold lit at 1. rewrite run_literal.
  destruct (startswith (list_ascii_of_string x) rest) eqn:E; [|exact IH].
  apply startswith_prefix in E as [r ->].
  pose proof (word_at_wordish_app _ r Hx) as H. unfold s_ in H. congruence.
Qed.

Lemma words_no_match (wl : list string) (pre rest : str) :
  wordish_list wl -> word_at pre = true \/ word_at rest = false ->
  match_at (words wl) pre rest = None.
Proof.
  intros Hwl H. rewrite words_unfold. unfold at_boundary.
  destruct (word_at rest) eqn:Er.
  - destruct H as [-> |H]; [reflexivity|discriminate].
  - rewrite alts_need_word by assumption. destruct (xorb _ _); reflexivity.
Qed.

(** At the start of a token the word patterns match exactly when the
    token is in the list, and the match is the token. *)
Lemma alts_at_token (wl : list string) (start : nat) (pre tok rest' : str) :
  wordish_list wl -> wordish tok -> word_at rest' = false ->
  run (alts (map lit wl)) (after_word start) pre (tok ++ rest') []
  = if listed wl tok
    then Some (MObj start (length (rev tok ++ pre))
                 [(1%nat, (start, length (rev tok ++ pre)))])
    else None.
Proof.
  intros Hwl Htok Hrest. induction Hwl as [|x wl Hx Hwl IH]; [reflexivity|].
  change (map lit (x :: wl)) with (lit x :: map lit wl).
  rewrite run_alts_cons. unfold lit at 1. rewrite run_literal.
  change (listed (x :: wl) tok) with (str_eqb (s_ x) tok || listed wl tok)%bool.
  fold (s_ x).
  destruct (str_eqb (s_ x) tok) eqn:Ex.
  - apply str_eqb_eq in Ex. rewrite Ex, startswith_refl_app.
    unfold after_word, at_boundary.
    rewrite (word_at_rev_wordish tok pre Htok).
    rewrite skipn_app, skipn_all, Nat.sub_diag. simpl skipn. simpl app.
    rewrite Hrest. reflexivity.
  - simpl orb.
    destruct (startswith (s_ x) (tok ++ rest')) eqn:Est; [|exact IH].
    unfold after_word at 1, at_boundary.
    rewrite (word_at_rev_wordish (s_ x) pre Hx).
    destruct (word_at (skipn (length (s_ x)) (tok ++ rest'))) eqn:Eend; [exact IH|].
    pose proof (whole_token (s_ x) tok rest' Hx Htok Hrest Est Eend) as Heq.
    apply str_eqb_eq in Heq. congruence.
Qed.

Lemma words_at_token (wl : list string) (pre tok rest' : str) :
  wordish_list wl -> wordish tok -> word_at pre = false -> word_at rest' = false ->
  match_at (words wl) pre (tok ++ rest')
  = if listed wl tok
    then Some (MObj (length pre) (length (rev tok ++ pre))
                 [(1%nat, (length pre, length (rev tok ++ pre)))])
    else None.
Proof.
  intros Hwl Htok Hpre Hrest. rewrite words_unfold. unfold at_boundary.
  rewrite Hpre, (word_at_wordish_app tok rest' Htok). simpl xorb. cbv iota.
  apply alts_at_token; assumption.
Qed.


(** The leading run of word characters, and what follows it. *)
Fixpoint take_run (s : str) : str :=
  match s with
  | c :: s' => if isword c then c :: take_run s' else []
  | [] => []
  end.

Fixpoint drop_run (s : str) : str :=
  match s with
  | c :: s' => if isword c then drop_run s' else s
  | [] => []
  end.

Lemma take_drop_run (s : str) : take_run s ++ drop_run s = s.
Proof.
  induction s as [|c s IH]; simpl; [reflexivity|].
  destruct (isword c); simpl; [rewrite IH|]; reflexivity.
Qed.

Lemma take_run_word (s : str) : Forall (fun c => isword c = true) (take_run s).
Proof.
  induction s as [|c s IH]; simpl; [constructor|].
  destruct (isword c) eqn:E; constructor; assumption.
Qed.

Lemma drop_run_stops (s : str) : word_at (drop_run s) = false.
Proof.
  induction s as [|c s IH]; simpl; [reflexivity|].
  destruct (isword c) eqn:E; [exact IH|]. simpl. exact E.
Qed.

Lemma drop_run_length (s : str) : (length (drop_run s) <= length s)%nat.
Proof.
  induction s as [|c s IH]; simpl; [lia|].
  destruct (isword c); simpl; lia.
Qed.

Lemma drop_run_fixed (s : str) : word_at s = false -> drop_run s = s.
Proof. destruct s as [|c s]; simpl; [reflexivity|]. intros ->. reflexivity. Qed.

Lemma tokens_from_run (w : str) :
  Forall (fun c => isword c = true) w ->
  forall cur s, tokens_from cur (w ++ s) = tokens_from (rev w ++ cur) s.
Proof.
  induction 1 as [|c w Hc Hw IH]; intros cur s; simpl; [reflexivity|].
  rewrite Hc, IH, <- app_assoc. reflexivity.
Qed.

Lemma tokens_from_end (cur s : str) :
  cur <> [] -> word_at s = false ->
  tokens_from cur s = rev cur :: tokens_from [] s.
Proof.
  intros Hne Hs. destruct s as [|c s]; simpl in *.
  - destruct cur; [congruence|reflexivity].
  - rewrite Hs. destruct cur; [congruence|reflexivity].
Qed.

Lemma tokens_at_token (tok rest' : str) :
  wordish tok -> word_at rest' = false ->
  tokens_from [] (tok ++ rest') = tok :: tokens_from [] rest'.
Proof.
  intros [Hne Htok] Hrest.
  rewrite (tokens_from_run tok Htok), app_nil_r, tokens_from_end; auto.
  - rewrite rev_involutive. reflexivity.
  - intros E. apply (f_equal (@rev ascii)) in E. rewrite rev_involutive in E.
    simpl in E. congruence.
Qed.

(** The number of tokens of [s] in the list. *)
Definition listed_tokens (wl : list string) (s : str) : nat :=
  length (filter (listed wl) (tokens_from [] s)).

Lemma finditer_from_skip (r : regex) (x : str) :
  forall pre rest',
    finditer_from r pre (x ++ rest') (length x) = finditer_from r (rev x ++ pre) rest' 0.
Proof.
  induction x as [|c x IH]; intros pre rest'; simpl.
  - destruct rest'; reflexivity.
  - rewrite IH, <- app_assoc. reflexivity.
Qed.

Lemma finditer_from_step (r : regex) (pre : str) (c : ascii) (rest : str) :
  finditer_from r pre (c :: rest) 0
  = match match_at r pre (c :: rest) with
    | Some m => m :: finditer_from r (c :: pre) rest (mend m - mstart m - 1)
    | None => finditer_from r (c :: pre) rest 0
    end.
Proof. reflexivity. Qed.

(** The matches of a word pattern are the tokens of the subject that are
    in its list. *)
Lemma words_count_tokens (wl : list string) :
  wordish_list wl ->
  forall n rest, (length rest <= n)%nat ->
  forall pre,
    (word_at pre = false ->
     length (finditer_from (words wl) pre rest 0) = listed_tokens wl rest)
    /\ (word_at pre = true ->
        length (finditer_from (words wl) pre rest 0) = listed_tokens wl (drop_run rest)).
Proof.
  intros Hwl. induction n as [|n IH]; intros rest Hlen pre.
  - destruct rest; [|simpl in Hlen; lia].
    simpl. rewrite (words_no_match wl pre [] Hwl (or_intror eq_refl)). auto.
  - destruct rest as [|c rest1].
    { simpl. rewrite (words_no_match wl pre [] Hwl (or_intror eq_refl)). auto. }
    simpl in Hlen. assert (Hlen1 : (length rest1 <= n)%nat) by lia.
    rewrite finditer_from_step. split; intros Hpre.
    + destruct (isword c) eqn:Ec.
      * (* the start of a token *)
        pose proof (take_drop_run (c :: rest1)) as Hsplit.
        pose proof (take_run_word (c :: rest1)) as Hrun.
        pose proof (drop_run_stops (c :: rest1)) as Hstop.
        pose proof (drop_run_length rest1) as Hlen'.
        destruct (IH rest1 Hlen1 (c :: pre)) as [_ Hinside].
        specialize (Hinside Ec).
        simpl in Hsplit, Hrun, Hstop. rewrite Ec in Hsplit, Hrun, Hstop.
        set (tok' := take_run rest1) in *. set (rest' := drop_run rest1) in *.
        assert (Htok : wordish (c :: tok')) by (split; [discriminate|exact Hrun]).
        assert (Hrest1 : rest1 = tok' ++ rest') by (injection Hsplit; auto).
        clearbody tok' rest'. clear Hsplit. subst rest1.
        unfold listed_tokens.
        change (c :: tok' ++ rest') with ((c :: tok') ++ rest').
        rewrite (tokens_at_token (c :: tok') rest' Htok Hstop).
        rewrite (words_at_token wl pre (c :: tok') rest' Hwl Htok Hpre Hstop).
        cbn [filter]. destruct (listed wl (c :: tok')).
        -- cbn [mend mstart length].
           assert (Hskip : (length (rev (c :: tok') ++ pre) - length pre - 1)%nat
                           = length tok').
           { rewrite length_app, length_rev. cbn [length]. lia. }
           rewrite Hskip, finditer_from_skip.
           assert (Hn : (length rest' <= n)%nat) by (rewrite length_app in Hlen1; lia).
           destruct (IH rest' Hn (rev tok' ++ c :: pre)) as [_ Ha].
           rewrite Ha.
           ++ rewrite (drop_run_fixed rest' Hstop). reflexivity.
           ++ change (c :: pre) with ([c] ++ pre). rewrite app_assoc.
              change (rev tok' ++ [c]) with (rev (c :: tok')).
              apply word_at_rev_wordish. exact Htok.
        -- rewrite Hinside. reflexivity.
      * rewrite (words_no_match wl pre (c :: rest1) Hwl (or_intror Ec)).
        destruct (IH rest1 Hlen1 (c :: pre)) as [Hb _].
        rewrite Hb by (simpl; exact Ec).
        unfold listed_tokens. simpl. rewrite Ec. reflexivity.
    + rewrite (words_no_match wl pre (c :: rest1) Hwl (or_introl Hpre)).
      destruct (IH rest1 Hlen1 (c :: pre)) as [Hb Ha]. simpl drop_run.
      destruct (isword c) eqn:Ec.
      * apply Ha. simpl. exact Ec.
      * rewrite Hb by (simpl; exact Ec).
        unfold listed_tokens. simpl. rewrite Ec. reflexivity.
Qed.

Lemma count_whole_words (wl : list string) (text : str) :
  wordish_list wl ->
  count (words wl) (lower text) = whole_words wl text.
Proof.
  intros Hwl. unfold count, findall, len_list, whole_words, tokens, finditer.
  rewrite length_map.
  destruct (words_count_tokens wl Hwl (length (lower text)) (lower text) (le_n _) [])
    as [H _].
  rewrite (H eq_refl). reflexivity.
Qed.

(** Two lists with no word in common count separately. *)
Lemma listed_app (l1 l2 : list string) (toks : list str) :
  (forall tok, listed l1 tok = true -> listed l2 tok = false) ->
  length (filter (listed (l1 ++ l2)) toks)
  = (length (filter (listed l1) toks) + length (filter (listed l2) toks))%nat.
Proof.
  intros Hdis. induction toks as [|tok toks IH]; [reflexivity|].
  simpl. unfold listed at 1. rewrite existsb_app. fold (listed l1 tok) (listed l2 tok).
  destruct (listed l1 tok) eqn:E1.
  - rewrite (Hdis tok E1). simpl. rewrite IH. reflexivity.
  - destruct (listed l2 tok); simpl; rewrite IH; lia.
Qed.

Lemma search_class (p : ascii -> bool) (s : str) :
  match search (Chr p) s with Some _ => true | None => false end = existsb p s.
Proof.
  unfold search, finditer. generalize (@nil ascii) as pre.
  induction s as [|c s IH]; intros pre; [reflexivity|].
  rewrite finditer_from_step. unfold match_at. simpl run. simpl existsb.
  destruct (p c); [reflexivity|]. apply IH.
Qed.

End Classifier.

Ltac wordish_all :=
  repeat constructor; try discriminate.

Ltac disjoint_lists :=
  let tok := fresh "tok" in
  let H := fresh "H" in
  intros tok H; unfold ClassifierSpec.listed in H; cbn [existsb] in H;
  repeat (apply orb_true_iff in H; destruct H as [H|H]);
  try discriminate H;
  apply str_eqb_eq in H; subst tok; reflexivity.

(** C7: [detect_language] answers Spanish when the text holds one of the
    Spanish-specific characters; otherwise it counts the whole words of
    the text that are, without regard to case, in the Spanish and in the
    English function word lists, and answers Spanish when the Spanish
    count is strictly higher and English when the English count is higher
    or the counts are equal. *)
Theorem C7_detect_language (text : str) :
  GoldStandardChunker.detect_language text = ClassifierSpec.classify text.
Proof.
  unfold GoldStandardChunker.detect_language, ClassifierSpec.classify.
  change (ClassifierSpec.has_spanish_mark text)
    with (existsb (Re.one_of ClassifierSpec.spanish_marks) text).
  rewrite <- (search_class (Re.one_of ClassifierSpec.spanish_marks) text).
  change (Re.Chr (Re.one_of ClassifierSpec.spanish_marks))
    with GoldStandardChunker.spanish_chars.
  destruct (Re.search GoldStandardChunker.spanish_chars text); [reflexivity|].
  unfold GoldStandardChunker.spanish_words_re, GoldStandardChunker.english_words_re,
    GoldStandardChunker.spanish_more_re, GoldStandardChunker.english_more_re.
  rewrite !count_whole_words by (unfold wordish_list; wordish_all).
  unfold ClassifierSpec.whole_words.
  change ClassifierSpec.spanish_function_words
    with (["que"; "para"; "con"; "por"; "desde"; "hasta"; "donde"; "cuando"; "porque";
           "aunque"]%string ++ ["el"; "la"; "los"; "las"; "es"; "en"; "de"]%string)%list.
  change ClassifierSpec.english_function_words
    with (["the"; "and"; "for"; "with"; "from"; "where"; "when"; "because"; "although";
           "however"]%string ++ ["a"; "an"; "of"; "in"; "to"; "is"; "was"; "were"]%string)%list.
  rewrite !listed_app by disjoint_lists.
  rewrite !Nat2Z.inj_add. reflexivity.
Qed.

(** The classifier on three short texts: a mark, a count, a tie. *)
Example detect_language_examples :
  GoldStandardChunker.detect_language (s_ "Ma" ++ [ascii_of_N 241] ++ s_ "ana")
    = GoldStandardChunker.spanish
  /\ GoldStandardChunker.detect_language (s_ "El gato come LA comida")
     = GoldStandardChunker.spanish
  /\ GoldStandardChunker.detect_language (s_ "la casa is big")
     = GoldStandardChunker.english.
Proof. vm_compute. repeat split; reflexivity. Qed.

(** ** Protecting and restoring (C8) *)

Section Placeholders.

Import Py GoldStandardChunker.

Definition us : ascii := "_"%char.

(** A string without underscore. *)
Definition clean (s : str) : Prop := Forall (fun c => c <> us) s.

Definition numeral (s : str) : Prop := Forall (fun c => isdigit_ascii c = true) s.

Lemma digit_not_us (c : ascii) : isdigit_ascii c = true -> c <> us.
Proof. intros H ->. vm_compute in H. discriminate. Qed.

Lemma numeral_clean (s : str) : numeral s -> clean s.
Proof.
  intros H. unfold clean. eapply Forall_impl; [|exact H].
  intros c. apply digit_not_us.
Qed.

Lemma digits_of_uint_numeral (d : Decimal.uint) : numeral (digits_of_uint d).
Proof. induction d; simpl; constructor; auto. Qed.

Lemma digits_of_uint_inj (d d' : Decimal.uint) :
  digits_of_uint d = digits_of_uint d' -> d = d'.
Proof.
  revert d'. induction d; destruct d'; simpl; intros H;
    try discriminate H; try reflexivity; injection H as H; f_equal; auto.
Qed.

Lemma str_of_nat_numeral (n : nat) : numeral (str_of_nat n).
Proof. apply digits_of_uint_numeral. Qed.

Lemma str_of_nat_inj (n n' : nat) : str_of_nat n = str_of_nat n' -> n = n'.
Proof. intros H. apply Unsigned.to_uint_inj, digits_of_uint_inj, H. Qed.

Lemma str_of_nat_nonempty (n : nat) : str_of_nat n <> [].
Proof.
  unfold str_of_nat. intros H.
  destruct (Nat.to_uint n) eqn:E; try discriminate H.
  pose proof (Unsigned.of_to n) as Hn. rewrite E in Hn. simpl in Hn. subst n.
  discriminate E.
Qed.

(** A numeral followed by an underscore is read back without ambiguity. *)
Lemma numeral_prefix (di : str) :
  numeral di -> forall da u v, numeral da ->
  startswith (di ++ us :: u) (da ++ us :: v) = true ->
  di = da /\ startswith u v = true.
Proof.
  induction 1 as [|d di Hd Hdi IH]; intros da u v Hda H.
  - destruct Hda as [|a da Ha Hda]; cbn [startswith app] in H.
    + rewrite Ascii.eqb_refl in H. auto.
    + apply andb_true_iff in H as [H _]. apply Ascii.eqb_eq in H.
      subst a. apply digit_not_us in Ha. congruence.
  - destruct Hda as [|a da Ha Hda]; cbn [startswith app] in H.
    + apply andb_true_iff in H as [H _]. apply Ascii.eqb_eq in H.
      subst d. apply digit_not_us in Hd. congruence.
    + apply andb_true_iff in H as [Hh H]. apply Ascii.eqb_eq in Hh. subst a.
      destruct (IH da u v Hda H) as [-> Hu]. auto.
Qed.

(** The placeholder, one underscore at a time. *)
Definition ph_body (i j : nat) : str :=
  s_ "ABBREV" ++ us :: str_of_nat i ++ us :: str_of_nat j ++ [us; us].

Lemma placeholder_unfold (i j : nat) : placeholder i j = us :: us :: ph_body i j.
Proof.
  reflexivity.
Qed.

Lemma startswith_app (p s t : str) : startswith (p ++ s) (p ++ t) = startswith s t.
Proof. induction p as [|c p IH]; simpl; [reflexivity|]. rewrite Ascii.eqb_refl. exact IH. Qed.

(** Two placeholders that start alike are the same. *)
Lemma placeholder_prefix (i j a b : nat) (z : str) :
  startswith (placeholder i j) (placeholder a b ++ z) = true -> i = a /\ j = b.
Proof.
  change (placeholder i j)
    with (s_ "__ABBREV_" ++ str_of_nat i ++ us :: str_of_nat j ++ [us; us]).
  replace (placeholder a b ++ z)
    with (s_ "__ABBREV_" ++ str_of_nat a ++ us :: str_of_nat b ++ us :: us :: z).
  - rewrite startswith_app. intros H.
    apply numeral_prefix in H as [Hi H]; try apply str_of_nat_numeral.
    change [us; us] with ([] ++ us :: [us]) in H.
    change (us :: us :: z) with ([] ++ us :: us :: z) in H.
    rewrite !app_assoc in H.
    apply numeral_prefix in H as [Hj _].
    + rewrite !app_nil_r in Hj. split; apply str_of_nat_inj; assumption.
    + rewrite app_nil_r. apply str_of_nat_numeral.
    + rewrite app_nil_r. apply str_of_nat_numeral.
  - unfold placeholder. rewrite <- !app_assoc. reflexivity.
Qed.


(** *** Replacing one placeholder *)

Lemma replace_pass (old new : str) (c : ascii) (y : str) :
  startswith old (c :: y) = false ->
  replace_from old new 0 (c :: y) = c :: replace_from old new 0 y.
Proof. intros H. cbn [replace_from]. rewrite H. reflexivity. Qed.

Lemma starts_with_us (t : str) (c : ascii) (y : str) :
  c <> us -> startswith (us :: t) (c :: y) = false.
Proof.
  intros Hc. cbn [startswith].
  destruct (Ascii.eqb_spec us c) as [E|_]; [congruence|reflexivity].
Qed.

Lemma replace_clean (t new s y : str) :
  clean s ->
  replace_from (us :: t) new 0 (s ++ y) = s ++ replace_from (us :: t) new 0 y.
Proof.
  induction 1 as [|c s Hc Hs IH]; [reflexivity|].
  cbn [app]. rewrite replace_pass by (apply starts_with_us; exact Hc).
  rewrite IH. reflexivity.
Qed.

Lemma replace_skip (old new x y : str) :
  replace_from old new (length x) (x ++ y) = replace_from old new 0 y.
Proof.
  induction x as [|c x IH]; cbn [length app replace_from].
  - destruct y; reflexivity.
  - exact IH.
Qed.

Lemma replace_hit (c : ascii) (t new y : str) :
  replace_from (c :: t) new 0 ((c :: t) ++ y) = new ++ replace_from (c :: t) new 0 y.
Proof.
  cbn [app replace_from].
  change (startswith (c :: t) (c :: t ++ y)) with (startswith (c :: t) ((c :: t) ++ y)).
  rewrite startswith_refl_app.
  replace (length (c :: t) - 1)%nat with (length t) by (cbn [length]; lia).
  rewrite replace_skip. reflexivity.
Qed.

(** What can follow a placeholder: some characters that are not
    underscores, then nothing or two underscores. *)
Definition shaped (z : str) : Prop :=
  exists u x, z = u ++ x /\ clean u /\ (x = [] \/ exists y, x = us :: us :: y).

Lemma body_not_prefix (d : ascii) (t x : str) :
  d <> us -> (x = [] \/ exists y, x = us :: us :: y) ->
  forall w u, clean w -> clean u -> startswith (w ++ us :: d :: t) (u ++ x) = false.
Proof.
  intros Hd Hx. induction w as [|c w IH]; intros u Hw Hu.
  - destruct Hu as [|c' u Hc' Hu]; cbn [app].
    + destruct Hx as [-> |[y ->]]; [reflexivity|].
      cbn [startswith]. rewrite Ascii.eqb_refl.
      destruct (Ascii.eqb_spec d us) as [E|_]; [congruence|reflexivity].
    + apply starts_with_us. exact Hc'.
  - inversion Hw as [|? ? Hc Hw']; subst.
    destruct Hu as [|c' u Hc' Hu]; cbn [app].
    + destruct Hx as [-> |[y ->]]; [reflexivity|].
      cbn [startswith].
      destruct (Ascii.eqb_spec c us) as [E|_]; [congruence|reflexivity].
    + cbn [startswith]. rewrite (IH u Hw' Hu). apply andb_false_r.
Qed.

Lemma head_not_us (w : str) : w <> [] -> clean w -> exists c r, w = c :: r /\ c <> us.
Proof. intros Hne Hw. destruct Hw as [|c r Hc _]; [congruence|]. eauto. Qed.

(** A placeholder with another key is passed over unchanged. *)
Lemma replace_other (i j a b : nat) (new z : str) :
  (a, b) <> (i, j) -> shaped z ->
  replace_from (placeholder i j) new 0 (placeholder a b ++ z)
  = placeholder a b ++ replace_from (placeholder i j) new 0 z.
Proof.
  intros Hkey [u [x [-> [Hu Hx]]]].
  destruct (head_not_us (str_of_nat a) (str_of_nat_nonempty a)
              (numeral_clean _ (str_of_nat_numeral a))) as [da0 [da' [Ea Hda0]]].
  destruct (head_not_us (str_of_nat b) (str_of_nat_nonempty b)
              (numeral_clean _ (str_of_nat_numeral b))) as [db0 [db' [Eb Hdb0]]].
  destruct (head_not_us (str_of_nat i) (str_of_nat_nonempty i)
              (numeral_clean _ (str_of_nat_numeral i))) as [di0 [di' [Ei Hdi0]]].
  assert (Hfirst : startswith (placeholder i j) (placeholder a b ++ u ++ x) = false).
  { destruct (startswith (placeholder i j) (placeholder a b ++ u ++ x)) eqn:E; [|reflexivity].
    apply placeholder_prefix in E as [-> ->]. congruence. }
  assert (Hca : clean (str_of_nat a)) by apply numeral_clean, str_of_nat_numeral.
  assert (Hcb : clean (str_of_nat b)) by apply numeral_clean, str_of_nat_numeral.
  assert (Hletters : clean (s_ "ABBREV")) by (repeat constructor; discriminate).
  rewrite (placeholder_unfold a b) in *. rewrite (placeholder_unfold i j) in *.
  unfold ph_body in *.
  cbn [app] in *.
  (* the first underscore *)
  rewrite replace_pass by exact Hfirst. f_equal.
  (* the second underscore *)
  rewrite replace_pass.
  2:{ cbn [startswith s_ list_ascii_of_string app]. rewrite Ascii.eqb_refl.
      destruct (Ascii.eqb_spec us "A"%char) as [E|_]; [discriminate E|reflexivity]. }
  f_equal.
  (* the letters *)
  repeat first [rewrite <- app_assoc | progress cbn [app]].
  rewrite (replace_clean _ new (s_ "ABBREV") _ Hletters). f_equal.
  (* the underscore before the first number *)
  rewrite replace_pass.
  2:{ rewrite Ea. cbn [app startswith]. rewrite Ascii.eqb_refl.
      destruct (Ascii.eqb_spec us da0) as [E|_]; [congruence|reflexivity]. }
  f_equal.
  rewrite (replace_clean _ new (str_of_nat a) _ Hca). f_equal.
  (* the underscore between the numbers *)
  rewrite replace_pass.
  2:{ rewrite Eb. cbn [app startswith]. rewrite Ascii.eqb_refl.
      destruct (Ascii.eqb_spec us db0) as [E|_]; [congruence|reflexivity]. }
  f_equal.
  rewrite (replace_clean _ new (str_of_nat b) _ Hcb). f_equal.
  (* the two closing underscores *)
  rewrite replace_pass.
  2:{ cbn [startswith]. rewrite !Ascii.eqb_refl. cbn [andb].
      rewrite Ei. cbn [app].
      exact (body_not_prefix di0 _ x Hdi0 Hx (s_ "ABBREV") u Hletters Hu). }
  f_equal. rewrite replace_pass; [reflexivity|].
  cbn [startswith]. rewrite Ascii.eqb_refl. cbn [andb].
  destruct Hu as [|c u Hc Hu]; cbn [app].
  - destruct Hx as [-> |[y ->]]; [reflexivity|].
    cbn [startswith s_ list_ascii_of_string app]. rewrite Ascii.eqb_refl.
    destruct (Ascii.eqb_spec "A"%char us) as [E|_]; [discriminate E|reflexivity].
  - apply starts_with_us. exact Hc.
Qed.


(** *** A protected text as segments *)

(** A protected text is a sequence of literal pieces and placeholders;
    a placeholder remembers the text it stands for. *)
Inductive seg : Type :=
| Lit (s : str)
| Ph (i j : nat) (orig : str).

Fixpoint render (segs : list seg) : str :=
  match segs with
  | [] => []
  | Lit s :: rest => s ++ render rest
  | Ph i j _ :: rest => placeholder i j ++ render rest
  end.

Fixpoint original (segs : list seg) : str :=
  match segs with
  | [] => []
  | Lit s :: rest => s ++ original rest
  | Ph _ _ orig :: rest => orig ++ original rest
  end.

Fixpoint entries (segs : list seg) : list (str * str) :=
  match segs with
  | [] => []
  | Lit _ :: rest => entries rest
  | Ph i j orig :: rest => (placeholder i j, orig) :: entries rest
  end.

Fixpoint keys (segs : list seg) : list (nat * nat) :=
  match segs with
  | [] => []
  | Lit _ :: rest => keys rest
  | Ph i j _ :: rest => (i, j) :: keys rest
  end.

Definition clean_seg (sg : seg) : Prop :=
  match sg with Lit s => clean s | Ph _ _ orig => clean orig end.

Definition wf (segs : list seg) : Prop := Forall clean_seg segs.

Lemma render_app (a b : list seg) : render (a ++ b) = render a ++ render b.
Proof.
  induction a as [|[s|i j o] a IH]; cbn [render app]; [reflexivity| |];
    rewrite IH, app_assoc; reflexivity.
Qed.

Lemma original_app (a b : list seg) : original (a ++ b) = original a ++ original b.
Proof.
  induction a as [|[s|i j o] a IH]; cbn [original app]; [reflexivity| |];
    rewrite IH, app_assoc; reflexivity.
Qed.

Lemma entries_app (a b : list seg) : entries (a ++ b) = entries a ++ entries b.
Proof.
  induction a as [|[s|i j o] a IH]; cbn [entries app]; [reflexivity|exact IH|].
  rewrite IH. reflexivity.
Qed.

Lemma keys_app (a b : list seg) : keys (a ++ b) = keys a ++ keys b.
Proof.
  induction a as [|[s|i j o] a IH]; cbn [keys app]; [reflexivity|exact IH|].
  rewrite IH. reflexivity.
Qed.

Lemma render_shaped (segs : list seg) : wf segs -> shaped (render segs).
Proof.
  induction 1 as [|[s|i j o] segs Hsg Hsegs IH]; cbn [render].
  - exists [], []. repeat split; [constructor|auto].
  - destruct IH as [u [x [-> [Hu Hx]]]].
    exists (s ++ u), x. rewrite app_assoc. repeat split; [|exact Hx].
    apply Forall_app. split; assumption.
  - exists [], (placeholder i j ++ render segs).
    repeat split; [constructor|]. right.
    rewrite placeholder_unfold. cbn [app]. eauto.
Qed.

(** Replacing a placeholder that does not occur changes nothing. *)
Lemma replace_absent (i j : nat) (new : str) (segs : list seg) :
  wf segs -> ~ In (i, j) (keys segs) ->
  replace_from (placeholder i j) new 0 (render segs) = render segs.
Proof.
  induction 1 as [|[s|a b o] segs Hsg Hsegs IH]; cbn [render keys]; intros Hnot.
  - reflexivity.
  - rewrite (placeholder_unfold i j), replace_clean by exact Hsg.
    rewrite <- (placeholder_unfold i j), IH by exact Hnot. reflexivity.
  - rewrite replace_other.
    + rewrite IH; [reflexivity|]. intros Hin. apply Hnot. right. exact Hin.
    + intros E. apply Hnot. left. exact E.
    + apply render_shaped. exact Hsegs.
Qed.

(** Replacing the placeholder of one segment puts its text back. *)
Lemma replace_present (i j : nat) (o : str) (a b : list seg) :
  wf (a ++ Ph i j o :: b) -> NoDup (keys (a ++ Ph i j o :: b)) ->
  replace (placeholder i j) o (render (a ++ Ph i j o :: b))
  = render (a ++ Lit o :: b).
Proof.
  unfold replace. induction a as [|[s|x y o'] a IH]; cbn [app render keys]; intros Hwf Hnd.
  - inversion Hwf as [|? ? _ Hb]; subst. inversion Hnd as [|? ? Hnot _]; subst.
    rewrite (placeholder_unfold i j), replace_hit.
    rewrite <- (placeholder_unfold i j), (replace_absent i j o b Hb Hnot). reflexivity.
  - inversion Hwf as [|? ? Hs Hrest]; subst.
    rewrite (placeholder_unfold i j), replace_clean by exact Hs.
    rewrite <- (placeholder_unfold i j), (IH Hrest Hnd). reflexivity.
  - inversion Hwf as [|? ? _ Hrest]; subst. inversion Hnd as [|? ? Hnot Hnd']; subst.
    rewrite replace_other.
    + rewrite (IH Hrest Hnd'). reflexivity.
    + intros E. apply Hnot. rewrite keys_app. apply in_or_app. right. left.
      symmetry. exact E.
    + apply render_shaped. exact Hrest.
Qed.

Lemma entries_split (ph o : str) (segs : list seg) :
  In (ph, o) (entries segs) ->
  exists a i j b, segs = a ++ Ph i j o :: b /\ ph = placeholder i j.
Proof.
  induction segs as [|[s|i j o'] segs IH]; cbn [entries]; intros H.
  - contradiction.
  - destruct (IH H) as [a [i [j [b [-> ->]]]]].
    exists (Lit s :: a), i, j, b. auto.
  - destruct H as [E|H].
    + injection E as <- <-. exists [], i, j, segs. auto.
    + destruct (IH H) as [a [x [y [b [-> ->]]]]].
      exists (Ph i j o' :: a), x, y, b. auto.
Qed.

Lemma no_entries (segs : list seg) : entries segs = [] -> render segs = original segs.
Proof.
  induction segs as [|[s|i j o] segs IH]; cbn [entries render original]; intros H.
  - reflexivity.
  - rewrite (IH H). reflexivity.
  - discriminate.
Qed.

(** Restoring with a map that lists exactly the placeholders of the text
    gives the text the segments stand for. *)
Lemma restore_segments (map : protection_map) :
  forall segs,
    wf segs -> NoDup (keys segs) -> Permutation map (entries segs) ->
    restore_abbreviations (render segs) map = original segs.
Proof.
  induction map as [|[ph o] map IH]; intros segs Hwf Hnd Hperm; cbn [restore_abbreviations].
  - apply Permutation_nil in Hperm. apply no_entries. exact Hperm.
  - assert (Hin : In (ph, o) (entries segs)).
    { eapply Permutation_in; [exact Hperm|]. left. reflexivity. }
    destruct (entries_split ph o segs Hin) as [a [i [j [b [-> ->]]]]].
    rewrite (replace_present i j o a b Hwf Hnd).
    rewrite (IH (a ++ Lit o :: b)).
    + rewrite !original_app. reflexivity.
    + unfold wf in *. rewrite Forall_app in *. destruct Hwf as [Ha Hb].
      inversion Hb; subst. split; [assumption|]. constructor; assumption.
    + rewrite keys_app in *. cbn [keys] in *. eapply NoDup_remove_1. exact Hnd.
    + rewrite entries_app in *. cbn [entries] in *.
      eapply Permutation_cons_app_inv. exact Hperm.
Qed.

End Placeholders.

(** *** The matches of the abbreviation patterns *)

Section AbbreviationMatches.

Import Py Re GoldStandardChunker.

(** Every character, as a number below 256. *)
Definition all_chars : list ascii := map ascii_of_nat (seq 0 256).

Lemma all_chars_complete (c : ascii) : In c all_chars.
Proof.
  unfold all_chars. rewrite <- (ascii_nat_embedding c).
  apply in_map, in_seq. pose proof (nat_ascii_bounded c). lia.
Qed.

(** A class that lies within another one. *)
Definition class_sub (p q : ascii -> bool) : bool :=
  forallb (fun c => implb (p c) (q c)) all_chars.

Lemma class_sub_sound (p q : ascii -> bool) :
  class_sub p q = true -> forall c, p c = true -> q c = true.
Proof.
  unfold class_sub. rewrite forallb_forall. intros H c Hc.
  specialize (H c (all_chars_complete c)). rewrite Hc in H. exact H.
Qed.

(** The pattern consumes only characters of the class [q]. *)
Fixpoint consumesb (q : ascii -> bool) (r : regex) : bool :=
  match r with
  | Chr p | Star p => class_sub p q
  | Seq a b | Alt a b => consumesb q a && consumesb q b
  | Group _ a => consumesb q a
  | _ => true
  end.

Lemma consumesb_sound (q : ascii -> bool) (r : regex) :
  consumesb q r = true -> consumes (fun c => q c = true) r.
Proof.
  induction r as [|p|a IHa b IHb|a IHa b IHb|p|n a IHa|a IHa|a IHa| |];
    cbn [consumesb consumes]; intros H; try exact I.
  - apply class_sub_sound. exact H.
  - apply andb_true_iff in H as [Ha Hb]. auto.
  - apply andb_true_iff in H as [Ha Hb]. auto.
  - apply class_sub_sound. exact H.
  - auto.
Qed.

(** The pattern consumes at least one character, and the first is a word
    character. *)
Fixpoint starts_with_word (r : regex) : bool :=
  match r with
  | Chr p => class_sub p isword
  | Seq a _ => starts_with_word a
  | Alt a b => starts_with_word a && starts_with_word b
  | Group _ a => starts_with_word a
  | _ => false
  end.

Lemma starts_with_word_sound (r : regex) :
  starts_with_word r = true ->
  forall pre mid post, matches r pre mid post -> word_at mid = true.
Proof.
  induction r as [|p|a IHa b IHb|a IHa b IHb|p|n a IHa|a IHa|a IHa| |];
    cbn [starts_with_word matches]; intros H pre mid post Hm; try discriminate.
  - destruct Hm as [c [-> Hc]]. cbn [word_at].
    exact (class_sub_sound _ _ H c Hc).
  - destruct Hm as [m1 [m2 [-> [Ha _]]]].
    specialize (IHa H _ _ _ Ha). destruct m1; [discriminate|exact IHa].
  - apply andb_true_iff in H as [Ha Hb]. destruct Hm as [Hm|Hm]; eauto.
  - eauto.
Qed.

Definition not_underscore (c : ascii) : bool := negb (Ascii.eqb c us).

(** The shape every abbreviation pattern has: a word boundary, then a
    pattern that starts with a word character and never consumes an
    underscore. *)
Definition abbreviation_shape (r : regex) : bool :=
  match r with
  | Seq WordB r' => starts_with_word r' && consumesb not_underscore r'
  | _ => false
  end.

Lemma abbreviations_shape (lang : language) :
  forallb abbreviation_shape (abbreviations lang) = true.
Proof.
  destruct lang; vm_compute; reflexivity.
Qed.

(** A span that protection can replace safely: it is not empty, holds no
    underscore, starts with a word character and is not preceded by one. *)
Definition good_span (s : str) (m : mobj) : Prop :=
  exists a mid post,
    s = a ++ mid ++ post /\ mstart m = length a
    /\ mend m = (length a + length mid)%nat
    /\ clean mid /\ word_at mid = true /\ word_at (rev a) = false.

Lemma clean_not_underscore (mid : str) :
  Forall (fun c => not_underscore c = true) mid -> clean mid.
Proof.
  unfold clean. apply Forall_impl. intros c H ->.
  unfold not_underscore in H. rewrite Ascii.eqb_refl in H. discriminate.
Qed.

Lemma shape_good_span (r : regex) (s : str) (m : mobj) :
  abbreviation_shape r = true -> span_of r s m -> good_span s m.
Proof.
  intros Hshape [a [mid [post [-> [Hs [He Hm]]]]]].
  destruct r as [| |r1 r'| | | | | | |]; try discriminate.
  destruct r1; try discriminate.
  cbn [abbreviation_shape] in Hshape. apply andb_true_iff in Hshape as [Hw Hc].
  cbn [matches] in Hm. destruct Hm as [m1 [m2 [-> [[-> Hb] Hm]]]].
  cbn [app rev] in *.
  pose proof (starts_with_word_sound r' Hw _ _ _ Hm) as Hword.
  exists a, m2, post. repeat split; try assumption.
  - apply clean_not_underscore.
    exact (matches_consumes _ r' (consumesb_sound _ r' Hc) _ _ _ Hm).
  - unfold at_boundary in Hb.
    assert (Hw2 : word_at (m2 ++ post) = true) by (destruct m2; [discriminate|exact Hword]).
    rewrite Hw2 in Hb. destruct (word_at (rev a)); [discriminate|reflexivity].
Qed.

(** The matches of [finditer] come from left to right and do not overlap. *)
Fixpoint ordered (lo : nat) (ms : list mobj) : Prop :=
  match ms with
  | [] => True
  | m :: ms' => (lo <= mstart m <= mend m)%nat /\ ordered (mend m) ms'
  end.

Fixpoint descending (hi : nat) (ms : list mobj) : Prop :=
  match ms with
  | [] => True
  | m :: ms' => (mstart m <= mend m <= hi)%nat /\ descending (mstart m) ms'
  end.

Lemma ordered_weaken (ms : list mobj) (lo lo' : nat) :
  (lo' <= lo)%nat -> ordered lo ms -> ordered lo' ms.
Proof.
  destruct ms as [|m ms]; cbn [ordered]; [auto|]. intros Hle [H Hrest].
  split; [lia|exact Hrest].
Qed.

Lemma descending_weaken (ms : list mobj) (hi hi' : nat) :
  (hi <= hi')%nat -> descending hi ms -> descending hi' ms.
Proof.
  destruct ms as [|m ms]; cbn [descending]; [auto|]. intros Hle [H Hrest].
  split; [lia|exact Hrest].
Qed.

Lemma finditer_from_ordered (r : regex) :
  forall rest pre skip, ordered (length pre + skip) (finditer_from r pre rest skip).
Proof.
  assert (Hhere : forall pre rest m, match_at r pre rest = Some m ->
            mstart m = length pre /\ (mstart m <= mend m)%nat).
  { intros pre rest m E.
    apply match_at_sound in E as [mid [post [_ [_ [Hs He]]]]]. lia. }
  induction rest as [|c rest IH]; intros pre skip.
  - destruct skip; cbn [finditer_from]; [|exact I].
    destruct (match_at r pre []) as [m|] eqn:E; [|exact I].
    destruct (Hhere _ _ _ E). cbn [ordered]. repeat split; lia.
  - destruct skip as [|n]; cbn [finditer_from].
    + destruct (match_at r pre (c :: rest)) as [m|] eqn:E.
      * destruct (Hhere _ _ _ E) as [Hs Hle]. cbn [ordered]. split; [lia|].
        eapply ordered_weaken; [|apply IH]. cbn [length]. lia.
      * eapply ordered_weaken; [|apply IH]. cbn [length]. lia.
    + eapply ordered_weaken; [|apply IH]. cbn [length]. lia.
Qed.

Lemma ordered_rev (ms : list mobj) :
  forall lo acc, ordered lo ms -> descending lo acc ->
                 exists hi, descending hi (rev ms ++ acc).
Proof.
  induction ms as [|m ms IH]; intros lo acc Ho Hd; cbn [rev app].
  - exists lo. exact Hd.
  - cbn [ordered] in Ho. destruct Ho as [Hm Ho].
    rewrite <- app_assoc. cbn [app]. apply (IH (mend m)); [exact Ho|].
    cbn [descending]. split; [lia|].
    eapply descending_weaken; [|exact Hd]. lia.
Qed.

Lemma finditer_descending (r : regex) (s : str) :
  exists hi, descending hi (rev (finditer r s)).
Proof.
  destruct (ordered_rev (finditer r s) 0 [] (finditer_from_ordered r s [] 0) I) as [hi H].
  exists hi. rewrite app_nil_r in H. exact H.
Qed.

End AbbreviationMatches.

(** *** The invariant of [protect_abbreviations] *)

Section ProtectInvariant.

Import Py Re GoldStandardChunker.

Lemma digit_word (c : ascii) : isdigit_ascii c = true -> isword c = true.
Proof.
  apply class_sub_sound. vm_compute. reflexivity.
Qed.

Lemma placeholder_words (i j : nat) : Forall (fun c => isword c = true) (placeholder i j).
Proof.
  assert (Hnum : forall n, Forall (fun c => isword c = true) (str_of_nat n)).
  { intros n. eapply Forall_impl; [|apply str_of_nat_numeral]. exact digit_word. }
  unfold placeholder. repeat (apply Forall_app; split); try apply Hnum;
    repeat constructor.
Qed.

Lemma no_word_before (a : str) :
  Forall (fun c => isword c = true) a -> word_at (rev a) = false -> a = [].
Proof.
  intros Hall H. destruct (rev a) as [|c r] eqn:E.
  - rewrite <- (rev_involutive a), E. reflexivity.
  - cbn [word_at] in H. rewrite Forall_forall in Hall.
    rewrite Hall in H; [discriminate|]. apply in_rev. rewrite E. left. reflexivity.
Qed.

Lemma word_at_rev_app (s l : str) :
  word_at (rev (s ++ l)) = false -> word_at (rev l) = false.
Proof.
  rewrite rev_app_distr. destruct (rev l); [reflexivity|]. cbn [app word_at]. auto.
Qed.

Lemma placeholder_head (i j : nat) (c : ascii) (x y z : str) :
  placeholder i j ++ x = (c :: y) ++ z -> c = us.
Proof.
  rewrite placeholder_unfold. cbn [app]. intros H. injection H as H _. auto.
Qed.

Lemma clean_head (c : ascii) (s : str) : clean (c :: s) -> c <> us.
Proof. intros H. inversion H. assumption. Qed.

(** A span without underscore at the start of a protected text lies in
    its literal pieces. *)
Lemma locate_mid (segs : list seg) :
  forall mid post,
    wf segs -> clean mid -> render segs = mid ++ post ->
    exists B, render B = post /\ wf B /\ original segs = mid ++ original B
              /\ keys B = keys segs /\ entries B = entries segs.
Proof.
  induction segs as [|[s|i j o] segs IH]; intros mid post Hwf Hmid H;
    cbn [render] in H.
  - symmetry in H. apply app_eq_nil in H as [-> ->]. exists []. auto.
  - inversion Hwf as [|? ? Hs Hrest]; subst.
    apply app_eq_app in H as [l [[-> ->]|[-> H]]].
    + cbn [clean_seg] in Hs. apply Forall_app in Hs as [_ Hl].
      exists (Lit l :: segs). cbn [render original keys entries].
      rewrite <- app_assoc. repeat split; auto. constructor; assumption.
    + apply Forall_app in Hmid as [_ Hl].
      destruct (IH l post Hrest Hl H) as [B [HB [HwB [Ho [Hk He]]]]].
      exists B. cbn [original keys entries]. rewrite Ho, <- app_assoc. auto.
  - destruct mid as [|c mid].
    + exists (Ph i j o :: segs). cbn [render app]. auto.
    + apply placeholder_head in H. apply clean_head in Hmid. contradiction.
Qed.

(** A good span of a protected text lies in its literal pieces. *)
Lemma locate (segs : list seg) :
  forall a mid post,
    wf segs -> clean mid -> word_at mid = true -> word_at (rev a) = false ->
    render segs = a ++ mid ++ post ->
    exists A B, render A = a /\ render B = post /\ wf A /\ wf B
                /\ original segs = original A ++ mid ++ original B
                /\ keys segs = keys A ++ keys B
                /\ entries segs = entries A ++ entries B.
Proof.
  induction segs as [|[s|i j o] segs IH]; intros a mid post Hwf Hmid Hw Ha H;
    cbn [render] in H.
  - symmetry in H. apply app_eq_nil in H as [_ H]. apply app_eq_nil in H as [-> _].
    discriminate.
  - inversion Hwf as [|? ? Hs Hrest]; subst.
    apply app_eq_app in H as [l [[-> H]|[-> H]]].
    + cbn [clean_seg] in Hs. apply Forall_app in Hs as [Hca Hl].
      destruct (locate_mid (Lit l :: segs) mid post) as [B [HB [HwB [Ho [Hk He]]]]].
      * constructor; assumption.
      * exact Hmid.
      * cbn [render]. symmetry. exact H.
      * exists [Lit a], B. cbn [render original keys entries app] in *.
        rewrite !app_nil_r, <- app_assoc, Ho. repeat split; auto.
        constructor; [exact Hca|constructor].
    + apply word_at_rev_app in Ha.
      destruct (IH l mid post Hrest Hmid Hw Ha H)
        as [A [B [HA [HB [HwA [HwB [Ho [Hk He]]]]]]]].
      exists (Lit s :: A), B. cbn [render original keys entries].
      rewrite HA, Ho, Hk, He, <- app_assoc. repeat split; auto.
      constructor; assumption.
  - inversion Hwf as [|? ? Ho' Hrest]; subst.
    apply app_eq_app in H as [l [[E H]|[-> H]]].
    + exfalso. pose proof (placeholder_words i j) as Hall. rewrite E in Hall.
      apply Forall_app in Hall as [Hall _].
      apply no_word_before in Hall; [|exact Ha]. subst a. cbn [app] in E. subst l.
      destruct mid as [|c mid]; [discriminate|].
      symmetry in H. apply placeholder_head in H. apply clean_head in Hmid.
      contradiction.
    + apply word_at_rev_app in Ha.
      destruct (IH l mid post Hrest Hmid Hw Ha H)
        as [A [B [HA [HB [HwA [HwB [Ho [Hk He]]]]]]]].
      exists (Ph i j o :: A), B. cbn [render original keys entries app].
      rewrite HA, Ho, Hk, He, <- app_assoc. repeat split; auto.
      constructor; assumption.
Qed.

(** Slices at matcher positions. *)
Lemma slice_to_app (a x : str) : slice_to (a ++ x) (Z.of_nat (length a)) = a.
Proof.
  unfold slice_to, norm_index.
  destruct (Z.ltb_spec (Z.of_nat (length a)) 0) as [?|_]; [lia|].
  rewrite Nat2Z.id, length_app, Nat.min_r by lia.
  rewrite firstn_app, Nat.sub_diag, firstn_all. cbn [firstn]. apply app_nil_r.
Qed.

Lemma slice_from_app (a x : str) : slice_from (a ++ x) (Z.of_nat (length a)) = x.
Proof.
  unfold slice_from, norm_index.
  destruct (Z.ltb_spec (Z.of_nat (length a)) 0) as [?|_]; [lia|].
  rewrite Nat2Z.id, length_app, Nat.min_r by lia.
  rewrite skipn_app, Nat.sub_diag, skipn_all. reflexivity.
Qed.

Lemma group0_span (a mid post : str) (m : mobj) :
  mstart m = length a -> mend m = (length a + length mid)%nat ->
  group0 (a ++ mid ++ post) m = mid.
Proof.
  intros Hs He. unfold group0, substr. rewrite Hs, He.
  rewrite skipn_app, Nat.sub_diag, skipn_all. cbn [skipn app].
  replace (length a + length mid - length a)%nat with (length mid) by lia.
  rewrite firstn_app, Nat.sub_diag, firstn_all. cbn [firstn]. apply app_nil_r.
Qed.

Lemma firstn_exact (a x : str) : firstn (length a) (a ++ x) = a.
Proof.
  rewrite firstn_app, Nat.sub_diag, firstn_all. cbn [firstn]. apply app_nil_r.
Qed.

Lemma prefix_transfer (a : str) (hi : nat) (U post : str) :
  (length a <= hi)%nat -> firstn hi U = firstn hi (a ++ post) ->
  exists post', U = a ++ post'.
Proof.
  intros Hle H. rewrite <- (firstn_skipn hi U), H.
  rewrite firstn_app, (firstn_all2 a) by exact Hle.
  rewrite <- app_assoc. eauto.
Qed.

(** A key is below [(i, j)]: it was issued before. *)
Definition key_lt (i j : nat) (k : nat * nat) : Prop :=
  (fst k < i)%nat \/ (fst k = i /\ (snd k < j)%nat).

(** What holds of the protected text and the map between two steps: the
    text is made of pieces without underscore and of distinct
    placeholders issued so far, the map lists those placeholders with
    what they stand for, and putting that back gives [text]. *)
Definition protects (text : str) (i j : nat) (U : str) (map : protection_map) : Prop :=
  exists segs,
    U = render segs /\ wf segs /\ NoDup (keys segs)
    /\ Permutation map (entries segs) /\ original segs = text
    /\ Forall (key_lt i j) (keys segs).

Lemma protects_restore (text : str) (i j : nat) (U : str) (map : protection_map) :
  protects text i j U map -> restore_abbreviations U map = text.
Proof.
  intros [segs [-> [Hwf [Hnd [Hperm [<- _]]]]]].
  apply restore_segments; assumption.
Qed.

Lemma protects_start (text : str) : clean text -> protects text 0 0 text [].
Proof.
  intros H. exists [Lit text]. cbn [render original keys entries].
  rewrite app_nil_r. repeat split; auto; constructor; auto.
Qed.

Lemma protects_next (text : str) (i j : nat) (U : str) (map : protection_map) :
  protects text i j U map -> protects text (S i) 0 U map.
Proof.
  intros [segs [HU [Hwf [Hnd [Hperm [Ho Hk]]]]]].
  exists segs. repeat split; auto.
  eapply Forall_impl; [|exact Hk]. intros k [H|[H _]]; left; lia.
Qed.

(** One placeholder put in place of a good span. *)
Lemma protects_step (text : str) (i j : nat) (a mid post : str)
    (map : protection_map) :
  protects text i j (a ++ mid ++ post) map ->
  clean mid -> word_at mid = true -> word_at (rev a) = false ->
  protects text i (S j) (a ++ placeholder i j ++ post)
           (map ++ [(placeholder i j, mid)]).
Proof.
  intros [segs [HU [Hwf [Hnd [Hperm [Ho Hk]]]]]] Hmid Hw Ha.
  destruct (locate segs a mid post Hwf Hmid Hw Ha (eq_sym HU))
    as [A [B [HA [HB [HwA [HwB [Ho' [Hk' He]]]]]]]].
  exists (A ++ Ph i j mid :: B).
  rewrite render_app, original_app, keys_app, entries_app.
  cbn [render original keys entries]. rewrite HA, HB.
  rewrite Hk' in Hnd, Hk. rewrite He in Hperm.
  assert (Hnew : ~ In (i, j) (keys A ++ keys B)).
  { intros Hin. rewrite Forall_forall in Hk. apply Hk in Hin.
    destruct Hin as [H|[_ H]]; cbn [fst snd] in H; lia. }
  repeat split.
  - unfold wf. apply Forall_app. split; [exact HwA|].
    constructor; [exact Hmid|exact HwB].
  - eapply Permutation_NoDup; [apply Permutation_middle|].
    constructor; assumption.
  - eapply Permutation_trans; [apply Permutation_app_comm|].
    cbn [app]. apply Permutation_cons_app. exact Hperm.
  - rewrite <- Ho, Ho'. reflexivity.
  - apply Forall_app in Hk as [HkA HkB].
    assert (Hup : forall k, key_lt i j k -> key_lt i (S j) k).
    { intros k [H|[H1 H2]]; [left|right]; auto. }
    apply Forall_app. split; [eapply Forall_impl; eauto|].
    constructor; [right; cbn [fst snd]; auto|eapply Forall_impl; eauto].
Qed.

(** The inner loop: the matches come last first, so what lies before
    position [hi] is still as in [text0]. *)
Lemma protect_matches_protects (text text0 : str) (i : nat) :
  forall rmatches j U map hi,
    protects text i j U map ->
    descending hi rmatches ->
    firstn hi U = firstn hi text0 ->
    Forall (good_span text0) rmatches ->
    exists j',
      protects text i j' (fst (protect_matches i j text0 rmatches U map))
               (snd (protect_matches i j text0 rmatches U map)).
Proof.
  induction rmatches as [|m rest IH]; intros j U map hi Hp Hd Hpre Hgood;
    cbn [protect_matches].
  - exists j. exact Hp.
  - cbn [descending] in Hd. destruct Hd as [[Hse Hhi] Hd].
    inversion Hgood as [|? ? Hm Hrest]; subst.
    destruct Hm as [a [mid [post [-> [Hs [He [Hmid [Hw Ha]]]]]]]].
    destruct (prefix_transfer (a ++ mid) hi U post) as [post' ->].
    { rewrite length_app. lia. }
    { rewrite <- app_assoc. exact Hpre. }
    rewrite (group0_span a mid post m Hs He).
    rewrite He, <- length_app, slice_from_app.
    rewrite <- (app_assoc a mid post'), Hs, slice_to_app.
    rewrite <- (app_assoc a mid post') in Hp.
    apply (IH (S j) _ _ (length a)).
    + apply protects_step; assumption.
    + rewrite <- Hs. exact Hd.
    + rewrite !firstn_exact. reflexivity.
    + exact Hrest.
Qed.

(** The outer loop over the patterns. *)
Lemma protect_patterns_protects (text : str) :
  forall patterns i U map,
    forallb abbreviation_shape patterns = true ->
    protects text i 0 U map ->
    exists i' j',
      protects text i' j' (fst (protect_patterns i patterns U map))
               (snd (protect_patterns i patterns U map)).
Proof.
  induction patterns as [|p rest IH]; intros i U map Hshape Hp;
    cbn [protect_patterns].
  - exists i, 0%nat. exact Hp.
  - cbn [forallb] in Hshape. apply andb_true_iff in Hshape as [Hp1 Hrest].
    destruct (finditer_descending p U) as [hi Hd].
    destruct (protect_matches_protects text U i (rev (finditer p U)) 0 U map hi
                Hp Hd eq_refl) as [j' Hj'].
    { apply Forall_forall. intros m Hin. apply in_rev in Hin.
      apply shape_good_span with (r := p); [exact Hp1|].
      apply finditer_spans. exact Hin. }
    destruct (protect_matches i 0 U (rev (finditer p U)) U map) as [U' map'].
    cbn [fst snd] in Hj'. apply (IH (S i)); [exact Hrest|].
    eapply protects_next. exact Hj'.
Qed.

End ProtectInvariant.

Lemma absent_by_eqb (c : ascii) (s : str) :
  existsb (Ascii.eqb c) s = false -> ~ In c s.
Proof.
  intros H Hin. assert (E : existsb (Ascii.eqb c) s = true).
  { apply existsb_exists. exists c. split; [exact Hin|apply Ascii.eqb_refl]. }
  rewrite E in H. discriminate.
Qed.

(** C8, as the source has it: a text that already holds what a
    placeholder looks like is not given back.  The abbreviation in it is
    protected under the same placeholder, and restoring replaces both. *)
Lemma C8_placeholder_in_text_not_restored :
  let text := s_ "__ABBREV_0_0__ Dr." in
  GoldStandardChunker.protect_abbreviations text GoldStandardChunker.english
  = (s_ "__ABBREV_0_0__ __ABBREV_0_0__", [(s_ "__ABBREV_0_0__", s_ "Dr.")])
  /\ (let '(protected_text, map) :=
        GoldStandardChunker.protect_abbreviations text GoldStandardChunker.english in
      GoldStandardChunker.restore_abbreviations protected_text map) = s_ "Dr. Dr."
  /\ (let '(protected_text, map) :=
        GoldStandardChunker.protect_abbreviations text GoldStandardChunker.english in
      GoldStandardChunker.restore_abbreviations protected_text map) <> text.
Proof. vm_compute. repeat split. discriminate. Qed.

(** C8, amended: for every text without an underscore and each language,
    protecting and then restoring gives the text back. *)
Theorem C8_protect_restore_roundtrip (text : str) (lang : GoldStandardChunker.language) :
  ~ In "_"%char text ->
  let '(protected_text, map) := GoldStandardChunker.protect_abbreviations text lang in
  GoldStandardChunker.restore_abbreviations protected_text map = text.
Proof.
  intros Hclean.
  assert (Hc : clean text).
  { apply Forall_forall. intros c Hin ->. exact (Hclean Hin). }
  destruct (protect_patterns_protects text (GoldStandardChunker.abbreviations lang)
              0 text [] (abbreviations_shape lang) (protects_start text Hc))
    as [i' [j' H]].
  unfold GoldStandardChunker.protect_abbreviations.
  destruct (GoldStandardChunker.protect_patterns 0 _ text []) as [U map].
  exact (protects_restore text i' j' U map H).
Qed.

Lemma C8_witness :
  let text := s_ "Dr. Smith works at the U.S. Department. He is the CEO of NASA today." in
  ~ In "_"%char text
  /\ GoldStandardChunker.protect_abbreviations text GoldStandardChunker.english
     = (s_ "__ABBREV_0_0__ Smith works at the __ABBREV_2_0__ Department. He is the __ABBREV_5_1__ of __ABBREV_5_0__ today.",
        [(s_ "__ABBREV_0_0__", s_ "Dr."); (s_ "__ABBREV_2_0__", s_ "U.S.");
         (s_ "__ABBREV_5_0__", s_ "NASA"); (s_ "__ABBREV_5_1__", s_ "CEO")])
  /\ let '(protected_text, map) :=
       GoldStandardChunker.protect_abbreviations text GoldStandardChunker.english in
     GoldStandardChunker.restore_abbreviations protected_text map = text.
Proof.
  assert (Hclean : ~ In "_"%char
            (s_ "Dr. Smith works at the U.S. Department. He is the CEO of NASA today.")).
  { apply absent_by_eqb. vm_compute. reflexivity. }
  split; [exact Hclean|]. split; [vm_compute; reflexivity|].
  exact (C8_protect_restore_roundtrip _ GoldStandardChunker.english Hclean).
Defined.

(** * Further properties of the chunkers *)

(** ** The characters of a text that are not white space *)

Section Content.

Import Py.

Definition nonspace (s : str) : str := filter (fun c => negb (isspace c)) s.

Lemma nonspace_app (a b : str) : nonspace (a ++ b) = nonspace a ++ nonspace b.
Proof. apply filter_app. Qed.

Lemma nonspace_blank (s : str) : blank s = true -> nonspace s = [].
Proof.
  induction s as [|c s IH]; cbn [blank forallb nonspace filter]; [reflexivity|].
  intros H. apply andb_true_iff in H as [Hc Hs]. rewrite Hc. exact (IH Hs).
Qed.

Lemma nonspace_spaceless (s : str) : spaceless s -> nonspace s = s.
Proof.
  induction 1 as [|c s Hc Hs IH]; cbn [nonspace filter]; [reflexivity|].
  rewrite Hc. cbn [negb]. f_equal. exact IH.
Qed.

Lemma nonspace_lstrip (s : str) : nonspace (lstrip s) = nonspace s.
Proof.
  destruct (lstrip_split s) as [l [E B]]. rewrite E at 2.
  rewrite nonspace_app, (nonspace_blank l B). reflexivity.
Qed.

Lemma nonspace_rstrip (s : str) : nonspace (rstrip s) = nonspace s.
Proof.
  destruct (rstrip_split s) as [r [E B]]. rewrite E at 2.
  rewrite nonspace_app, (nonspace_blank r B), app_nil_r. reflexivity.
Qed.

Lemma nonspace_strip (s : str) : nonspace (strip s) = nonspace s.
Proof. unfold strip. rewrite nonspace_rstrip. apply nonspace_lstrip. Qed.

Lemma nonspace_slices (s : str) (k : Z) :
  nonspace (slice_to s k) ++ nonspace (slice_from s k) = nonspace s.
Proof.
  unfold slice_to, slice_from. rewrite <- nonspace_app, firstn_skipn. reflexivity.
Qed.

Lemma nonspace_concat_app (a b : list str) :
  nonspace (concat (a ++ b)) = nonspace (concat a) ++ nonspace (concat b).
Proof. rewrite concat_app. apply nonspace_app. Qed.

(** Joining with single spaces adds white space only. *)
Lemma nonspace_join (l : list str) : nonspace (join (s_ " ") l) = nonspace (concat l).
Proof.
  induction l as [|x l IH]; [reflexivity|].
  destruct l as [|y l].
  - cbn [join concat]. rewrite app_nil_r. reflexivity.
  - change (join (s_ " ") (x :: y :: l)) with (x ++ s_ " " ++ join (s_ " ") (y :: l)).
    change (concat (x :: y :: l)) with (x ++ concat (y :: l)).
    rewrite !nonspace_app, IH. reflexivity.
Qed.

Lemma split_ws_from_content (s : str) :
  forall cur, concat (split_ws_from cur s) = rev cur ++ nonspace s.
Proof.
  induction s as [|c s IH]; intros cur; cbn [split_ws_from nonspace filter].
  - destruct cur; cbn [concat]; [reflexivity|]. rewrite !app_nil_r. reflexivity.
  - destruct (isspace c); cbn [negb].
    + destruct cur as [|d cur].
      * apply IH.
      * cbn [concat]. rewrite (IH []). reflexivity.
    + rewrite IH. cbn [rev]. rewrite <- app_assoc. reflexivity.
Qed.

(** The words of a text hold its characters that are not white space. *)
Lemma split_ws_content (s : str) : concat (split_ws s) = nonspace s.
Proof. apply (split_ws_from_content s []). Qed.

Lemma nonspace_blank_iff (s : str) : nonspace s = [] <-> blank s = true.
Proof.
  split; [|apply nonspace_blank].
  induction s as [|c s IH]; cbn [nonspace filter blank forallb]; [reflexivity|].
  destruct (isspace c); cbn [negb andb]; [exact IH|discriminate].
Qed.

(** What [strip] returns has no white space at either end. *)
Lemma strip_is_trimmed (s : str) : trimmed (strip s).
Proof.
  assert (Hl : forall x, starts_unspaced (lstrip x)).
  { intros x. destruct (lstrip x) as [|c r] eqn:E; [exact I|].
    exact (lstrip_head _ _ _ E). }
  split.
  - rewrite <- strip_idem. unfold strip at 1.
    rewrite <- lstrip_rstrip. apply Hl.
  - unfold strip, rstrip. rewrite rev_involutive. apply Hl.
Qed.

End Content.

(** ** Packing words into chunks *)

Section WordPacking.

Import Py.

(** The loop shared by [_split_at_words] and [_force_split_at_words]. *)
Fixpoint pack (target : Z) (words : list str) (chunks : list str) (current_chunk : str)
    : list str * str :=
  match words with
  | [] => (chunks, current_chunk)
  | word :: rest =>
      let test_chunk :=
        if truthy current_chunk then current_chunk ++ s_ " " ++ word else word in
      if target <? len test_chunk
      then pack target rest
             (if truthy current_chunk then chunks ++ [current_chunk] else chunks) word
      else pack target rest chunks test_chunk
  end.

Definition packed (target : Z) (words : list str) : list str :=
  let '(chunks, current_chunk) := pack target words [] [] in
  if truthy current_chunk then chunks ++ [current_chunk] else chunks.

Lemma tts_pack_words (self : TTSOptimizedChunker.t) (words chunks : list str) (cur : str) :
  TTSOptimizedChunker.pack_words self words chunks cur
  = pack (TTSOptimizedChunker.target_size self) words chunks cur.
Proof.
  revert chunks cur. induction words as [|w words IH]; intros chunks cur;
    cbn [TTSOptimizedChunker.pack_words pack]; [reflexivity|].
  rewrite !IH. reflexivity.
Qed.

Lemma natural_pack_words (self : NaturalSpeechChunker.t) (words chunks : list str)
    (cur : str) :
  NaturalSpeechChunker.pack_words self words chunks cur
  = pack (NaturalSpeechChunker.target_size self) words chunks cur.
Proof.
  revert chunks cur. induction words as [|w words IH]; intros chunks cur;
    cbn [NaturalSpeechChunker.pack_words pack]; [reflexivity|].
  rewrite !IH. reflexivity.
Qed.

Lemma tts_split_at_words_packed (self : TTSOptimizedChunker.t) (text : str) :
  TTSOptimizedChunker._split_at_words self text
  = packed (TTSOptimizedChunker.target_size self) (split_ws text).
Proof.
  unfold TTSOptimizedChunker._split_at_words, packed. rewrite tts_pack_words. reflexivity.
Qed.

Lemma natural_force_split_packed (self : NaturalSpeechChunker.t) (sentence : str) :
  NaturalSpeechChunker._force_split_at_words self sentence
  = packed (NaturalSpeechChunker.target_size self) (split_ws sentence).
Proof.
  unfold NaturalSpeechChunker._force_split_at_words, packed.
  rewrite natural_pack_words. reflexivity.
Qed.

(** A group of words that makes a chunk: not empty, and within the
    target size unless it is a single word. *)
Definition fits (target : Z) (g : list str) : Prop :=
  g <> [] /\ (len (join (s_ " ") g) <= target \/ exists w, g = [w]).

Lemma join_snoc (g : list str) (w : str) :
  g <> [] -> join (s_ " ") (g ++ [w]) = join (s_ " ") g ++ s_ " " ++ w.
Proof.
  induction g as [|x g IH]; [congruence|]. intros _.
  destruct g as [|y g]; [reflexivity|].
  change (join (s_ " ") ((x :: y :: g) ++ [w]))
    with (x ++ s_ " " ++ join (s_ " ") ((y :: g) ++ [w])).
  rewrite IH by discriminate.
  change (join (s_ " ") (x :: y :: g)) with (x ++ s_ " " ++ join (s_ " ") (y :: g)).
  rewrite <- !app_assoc. reflexivity.
Qed.

Lemma join_app (a b : list str) :
  a <> [] -> b <> [] ->
  join (s_ " ") (a ++ b) = join (s_ " ") a ++ s_ " " ++ join (s_ " ") b.
Proof.
  intros Ha. revert a Ha. induction b as [|w b IH] using rev_ind; [congruence|].
  intros a Ha _. destruct b as [|y b].
  - cbn [app]. apply join_snoc. exact Ha.
  - rewrite app_assoc, join_snoc.
    + rewrite IH by (try assumption; discriminate).
      rewrite (join_snoc (y :: b) w) by discriminate.
      rewrite <- !app_assoc. reflexivity.
    + destruct a; [congruence|discriminate].
Qed.

Lemma truthy_join (g : list str) :
  Forall word g -> truthy (join (s_ " ") g) = truthy_list g.
Proof.
  intros H. destruct H as [|w g Hw Hg]; [reflexivity|].
  cbn [truthy_list]. destruct (join (s_ " ") (w :: g)) eqn:E; [|reflexivity].
  exfalso. exact (join_nonempty w g (proj1 Hw) E).
Qed.

(** The loop emits groups of consecutive words. *)
Lemma pack_groups (target : Z) :
  forall words chunks g,
    Forall word words -> Forall word g -> (g = [] \/ fits target g) ->
    exists gs g',
      pack target words chunks (join (s_ " ") g)
      = (chunks ++ map (join (s_ " ")) gs, join (s_ " ") g')
      /\ concat gs ++ g' = g ++ words
      /\ Forall (fits target) gs
      /\ Forall word g' /\ (g' = [] \/ fits target g').
Proof.
  induction words as [|w words IH]; intros chunks g Hwords Hg Hfit; cbn [pack].
  - exists [], g. cbn [map concat app]. rewrite !app_nil_r. auto.
  - inversion Hwords as [|? ? Hw Hrest]; subst.
    rewrite (truthy_join g Hg).
    assert (Hone : fits target [w]).
    { split; [discriminate|]. right. eauto. }
    assert (Hw1 : Forall word [w]) by (constructor; [exact Hw|constructor]).
    destruct g as [|x g]; cbn [truthy_list].
    + (* nothing gathered yet: both branches take the word *)
      assert (E : (if target <? len w
                   then pack target words chunks w else pack target words chunks w)
                  = pack target words chunks (join (s_ " ") [w])).
      { destruct (target <? len w); reflexivity. }
      rewrite E.
      destruct (IH chunks [w] Hrest Hw1 (or_intror Hone))
        as [gs [g' [Ep [Hc [Hgs [Hg' Hf']]]]]].
      exists gs, g'. auto.
    + destruct Hfit as [Hfit|Hfit]; [discriminate|].
      rewrite <- (join_snoc (x :: g) w) by discriminate.
      destruct (Z.ltb_spec target (len (join (s_ " ") ((x :: g) ++ [w])))) as [Hbig|Hsmall].
      * destruct (IH (chunks ++ [join (s_ " ") (x :: g)]) [w] Hrest Hw1 (or_intror Hone))
          as [gs [g' [Ep [Hc [Hgs [Hg' Hf']]]]]].
        exists ((x :: g) :: gs), g'.
        change (join (s_ " ") [w]) with w in Ep. rewrite Ep.
        cbn [map concat]. rewrite <- !app_assoc. cbn [app].
        repeat split; auto.
        -- rewrite <- !app_assoc in *. cbn [app] in *. rewrite Hc. reflexivity.
      * destruct (IH chunks ((x :: g) ++ [w]) Hrest) as [gs [g' [Ep [Hc [Hgs [Hg' Hf']]]]]].
        -- apply Forall_app. split; assumption.
        -- right. split; [discriminate|]. left. exact Hsmall.
        -- exists gs, g'. rewrite Ep. repeat split; auto.
           rewrite Hc, <- app_assoc. reflexivity.
Qed.

(** The chunks of the word packing: the words of the text, in order, in
    groups joined by single spaces. *)
Lemma packed_groups (target : Z) (words : list str) :
  Forall word words ->
  exists gs, packed target words = map (join (s_ " ")) gs
             /\ concat gs = words /\ Forall (fits target) gs.
Proof.
  intros Hwords. unfold packed.
  destruct (pack_groups target words [] [] Hwords (Forall_nil _) (or_introl eq_refl))
    as [gs [g' [Ep [Hc [Hgs [Hg' Hf']]]]]].
  change (join (s_ " ") []) with (@nil ascii) in Ep. rewrite Ep. cbn [app] in *.
  rewrite (truthy_join g' Hg').
  destruct g' as [|x g']; cbn [truthy_list].
  - exists gs. rewrite app_nil_r in Hc. auto.
  - exists (gs ++ [x :: g']). rewrite map_app, concat_app. cbn [map concat].
    rewrite app_nil_r. repeat split; auto.
    apply Forall_app. split; [exact Hgs|]. constructor; [|constructor].
    destruct Hf' as [Hf'|Hf']; [discriminate|exact Hf'].
Qed.

Lemma join_groups (gs : list (list str)) :
  Forall (fun g => g <> []) gs ->
  join (s_ " ") (map (join (s_ " ")) gs) = join (s_ " ") (concat gs).
Proof.
  induction 1 as [|g gs Hg Hgs IH]; [reflexivity|].
  destruct gs as [|g2 gs].
  - cbn [map concat join]. rewrite app_nil_r. reflexivity.
  - change (join (s_ " ") (map (join (s_ " ")) (g :: g2 :: gs)))
      with (join (s_ " ") g ++ s_ " " ++ join (s_ " ") (map (join (s_ " ")) (g2 :: gs))).
    rewrite IH. change (concat (g :: g2 :: gs)) with (g ++ concat (g2 :: gs)).
    rewrite join_app; [reflexivity|exact Hg|].
    inversion Hgs as [|? ? Hg2 _]; subst. cbn [concat].
    destruct g2; [congruence|discriminate].
Qed.

Lemma words_concat (gs : list (list str)) :
  Forall word (concat gs) -> Forall (Forall word) gs.
Proof.
  induction gs as [|g gs IH]; cbn [concat]; intros H; [constructor|].
  apply Forall_app in H as [Hg Hgs]. constructor; auto.
Qed.

(** What the packing of the words of a text gives. *)
Lemma packed_text (target : Z) (text : str) :
  join (s_ " ") (packed target (split_ws text)) = ChunkingEvaluator.normalize_text text
  /\ Forall (fun chunk =>
               chunk <> []
               /\ ChunkingEvaluator.normalize_text chunk = chunk
               /\ (len chunk <= target \/ spaceless chunk))
            (packed target (split_ws text)).
Proof.
  destruct (packed_groups target (split_ws text) (split_ws_words text))
    as [gs [-> [Hc Hgs]]].
  assert (Hne : Forall (fun g => g <> []) gs).
  { eapply Forall_impl; [|exact Hgs]. intros g [H _]. exact H. }
  assert (Hw : Forall (Forall word) gs).
  { apply words_concat. rewrite Hc. apply split_ws_words. }
  split.
  - rewrite (join_groups gs Hne), Hc. symmetry. apply normalize_text_join.
  - apply Forall_forall. intros chunk Hin.
    apply in_map_iff in Hin as [g [<- Hin]].
    rewrite Forall_forall in Hgs, Hw.
    destruct (Hgs g Hin) as [Hg Hsize]. specialize (Hw g Hin).
    split; [|split].
    + destruct g as [|x g]; [congruence|].
      inversion Hw as [|? ? Hx _]; subst. exact (join_nonempty x g (proj1 Hx)).
    + rewrite normalize_text_join, split_ws_join by exact Hw. reflexivity.
    + destruct Hsize as [H|[w ->]]; [left; exact H|right].
      inversion Hw as [|? ? Hx _]; subst. exact (proj2 Hx).
Qed.

End WordPacking.

(** [_split_at_words] of the TTS chunker keeps the words of the text, in
    order: its chunks joined by single spaces are the text with its white
    space normalised.  No chunk is empty, each is made of words separated
    by single spaces, and a chunk longer than [target_size] is a single
    word. *)
Theorem tts_split_at_words_keeps_words (self : TTSOptimizedChunker.t) (text : str) :
  Py.join (s_ " ") (TTSOptimizedChunker._split_at_words self text)
  = ChunkingEvaluator.normalize_text text
  /\ Forall (fun chunk =>
               chunk <> []
               /\ ChunkingEvaluator.normalize_text chunk = chunk
               /\ (Py.len chunk <= TTSOptimizedChunker.target_size self
                   \/ spaceless chunk))
            (TTSOptimizedChunker._split_at_words self text).
Proof.
  rewrite tts_split_at_words_packed.
  exact (packed_text (TTSOptimizedChunker.target_size self) text).
Qed.

(** [_force_split_at_words] of the natural speech chunker keeps the words
    of the sentence, in order: its chunks joined by single spaces are the
    sentence with its white space normalised.  No chunk is empty, each is
    made of words separated by single spaces, and a chunk longer than
    [target_size] is a single word. *)
Theorem natural_force_split_keeps_words (self : NaturalSpeechChunker.t) (sentence : str) :
  Py.join (s_ " ") (NaturalSpeechChunker._force_split_at_words self sentence)
  = ChunkingEvaluator.normalize_text sentence
  /\ Forall (fun chunk =>
               chunk <> []
               /\ ChunkingEvaluator.normalize_text chunk = chunk
               /\ (Py.len chunk <= NaturalSpeechChunker.target_size self
                   \/ spaceless chunk))
            (NaturalSpeechChunker._force_split_at_words self sentence).
Proof.
  rewrite natural_force_split_packed.
  exact (packed_text (NaturalSpeechChunker.target_size self) sentence).
Qed.

(** ** Terminating a chunk twice *)

Section EnsureTwice.

Import Py TTSOptimizedChunker.

Lemma trimmed_snoc (s : str) (c : ascii) :
  s <> [] -> trimmed s -> isspace c = false -> trimmed (s ++ [c]).
Proof.
  intros Hne [H1 _] Hc. split.
  - apply starts_unspaced_app; assumption.
  - rewrite rev_app_distr. exact Hc.
Qed.

Lemma endswith_any_snoc (ps : list str) (s : str) (c : ascii) :
  In [c] ps -> endswith_any ps (s ++ [c]) = true.
Proof.
  intros Hin. unfold endswith_any. apply existsb_exists.
  exists [c]. split; [exact Hin|apply endswith_self].
Qed.

End EnsureTwice.

(** [_ensure_tts_termination] applied to its own result changes nothing:
    a chunk that went through it is stripped and, unless empty, ends with
    a period, an exclamation mark or a question mark. *)
Theorem ensure_tts_termination_idempotent (chunk : str) :
  TTSOptimizedChunker._ensure_tts_termination
    (TTSOptimizedChunker._ensure_tts_termination chunk)
  = TTSOptimizedChunker._ensure_tts_termination chunk.
Proof.
  rewrite (ensure_cases chunk).
  destruct (blank chunk) eqn:B; [reflexivity|].
  assert (Hne : Py.strip chunk <> []).
  { intros E. apply strip_blank in E. congruence. }
  destruct (Py.endswith_any TTSOptimizedChunker.terminators (Py.strip chunk)) eqn:E.
  - rewrite ensure_cases, strip_keeps_blank, B, strip_idem, E. reflexivity.
  - rewrite ensure_cases, blank_app. cbn [blank forallb].
    replace (Py.isspace "."%char) with false by reflexivity.
    rewrite !andb_false_r.
    rewrite (strip_trimmed (Py.strip chunk ++ s_ ".")).
    + change (s_ ".") with ["."%char].
      rewrite endswith_any_snoc; [reflexivity|]. left. reflexivity.
    + apply trimmed_snoc; [exact Hne|apply strip_is_trimmed|reflexivity].
Qed.

(** ** The splitters of long sentences keep every character that is not
    white space *)

Section SplitContent.

Import Py Re.

Lemma nonspace_idem (s : str) : nonspace (nonspace s) = nonspace s.
Proof.
  induction s as [|c s IH]; cbn [nonspace filter]; [reflexivity|].
  destruct (isspace c) eqn:E; cbn [negb]; [exact IH|].
  cbn [nonspace filter]. rewrite E. cbn [negb]. f_equal. exact IH.
Qed.

Lemma nonspace_normalize_text (s : str) :
  nonspace (ChunkingEvaluator.normalize_text s) = nonspace s.
Proof.
  rewrite normalize_text_join, nonspace_join, split_ws_content. apply nonspace_idem.
Qed.

Lemma nonspace_two_parts (s : str) (k : Z) :
  nonspace (concat [strip (slice_to s k); strip (slice_from s k)]) = nonspace s.
Proof.
  cbn [concat]. rewrite app_nil_r, nonspace_app, !nonspace_strip.
  apply nonspace_slices.
Qed.

Lemma nonspace_first_part (s : str) (k : Z) (rest : list str) :
  nonspace (concat rest) = nonspace (strip (slice_from s k)) ->
  nonspace (concat (strip (slice_to s k) :: rest)) = nonspace s.
Proof.
  intros H. cbn [concat]. rewrite nonspace_app, H, !nonspace_strip.
  apply nonspace_slices.
Qed.

(** *** tts_optimized_chunking.py *)

Lemma tts_split_at_words_content (self : TTSOptimizedChunker.t) (text : str) :
  nonspace (concat (TTSOptimizedChunker._split_at_words self text)) = nonspace text.
Proof.
  rewrite <- nonspace_join.
  rewrite tts_split_at_words_packed.
  rewrite (proj1 (packed_text (TTSOptimizedChunker.target_size self) text)).
  apply nonspace_normalize_text.
Qed.

Lemma tts_try_patterns_content (self : TTSOptimizedChunker.t)
    (recurse : str -> option (list str)) (sentence : str) :
  (forall second r, recurse second = Some r -> nonspace (concat r) = nonspace second) ->
  forall patterns r,
    TTSOptimizedChunker.try_patterns self recurse sentence patterns = Some r ->
    nonspace (concat r) = nonspace sentence.
Proof.
  intros Hrec. induction patterns as [|pattern rest IH]; intros r H;
    cbn [TTSOptimizedChunker.try_patterns] in H.
  - injection H as <-. apply tts_split_at_words_content.
  - destruct (finditer pattern sentence) as [|m ms]; [auto|].
    cbv zeta in H.
    destruct (_ && _)%bool; [|auto].
    destruct (TTSOptimizedChunker.max_size self <? _).
    + destruct (recurse _) as [r'|] eqn:E; [|discriminate].
      injection H as <-. apply nonspace_first_part. exact (Hrec _ _ E).
    + injection H as <-. apply nonspace_two_parts.
Qed.

Lemma tts_split_long_content (self : TTSOptimizedChunker.t) :
  forall fuel sentence r,
    TTSOptimizedChunker._split_long_sentence_tts_safe_fuel fuel self sentence = Some r ->
    nonspace (concat r) = nonspace sentence.
Proof.
  induction fuel as [|fuel IH]; intros sentence r H; [discriminate|].
  change (TTSOptimizedChunker._split_long_sentence_tts_safe_fuel (S fuel) self sentence)
    with (TTSOptimizedChunker.try_patterns self
            (TTSOptimizedChunker._split_long_sentence_tts_safe_fuel fuel self)
            sentence TTSOptimizedChunker.break_patterns) in H.
  eapply tts_try_patterns_content; [|exact H]. exact IH.
Qed.

(** *** enhanced_chunking.py *)

Lemma natural_force_split_content (self : NaturalSpeechChunker.t) (sentence : str) :
  nonspace (concat (NaturalSpeechChunker._force_split_at_words self sentence))
  = nonspace sentence.
Proof.
  rewrite <- nonspace_join.
  rewrite natural_force_split_packed.
  rewrite (proj1 (packed_text (NaturalSpeechChunker.target_size self) sentence)).
  apply nonspace_normalize_text.
Qed.

Lemma natural_attempt_content (self : NaturalSpeechChunker.t)
    (recurse : str -> option (list str)) (sentence : str) (pattern : regex)
    (chunks : list str) :
  (forall second r, recurse second = Some r -> nonspace (concat r) = nonspace second) ->
  NaturalSpeechChunker._attempt_split_at_pattern self recurse sentence pattern = Some chunks ->
  chunks = [] \/ nonspace (concat chunks) = nonspace sentence.
Proof.
  intros Hrec H. unfold NaturalSpeechChunker._attempt_split_at_pattern in H.
  destruct (finditer pattern sentence) as [|m ms].
  - injection H as <-. auto.
  - cbv zeta in H. destruct (_ && _)%bool.
    + right. destruct (NaturalSpeechChunker.max_size self <? _).
      * destruct (recurse _) as [r'|] eqn:E; [|discriminate].
        injection H as <-. apply nonspace_first_part. exact (Hrec _ _ E).
      * injection H as <-. apply nonspace_two_parts.
    + injection H as <-. auto.
Qed.

Lemma natural_try_attempts_content (self : NaturalSpeechChunker.t)
    (recurse : str -> option (list str)) (sentence : str) :
  (forall second r, recurse second = Some r -> nonspace (concat r) = nonspace second) ->
  forall attempts r,
    NaturalSpeechChunker.try_attempts self recurse sentence attempts = Some r ->
    nonspace (concat r) = nonspace sentence.
Proof.
  intros Hrec. induction attempts as [|p rest IH]; intros r H;
    cbn [NaturalSpeechChunker.try_attempts] in H.
  - injection H as <-. apply natural_force_split_content.
  - destruct (NaturalSpeechChunker._attempt_split_at_pattern self recurse sentence p)
      as [chunks|] eqn:E; [|discriminate].
    destruct (truthy_list chunks && _)%bool eqn:Hok; [|auto].
    injection H as <-. apply andb_true_iff in Hok as [Hne _].
    destruct (natural_attempt_content self recurse sentence p chunks Hrec E) as [->|Hc];
      [discriminate|exact Hc].
Qed.

Lemma natural_split_long_content (self : NaturalSpeechChunker.t) :
  forall fuel sentence r,
    NaturalSpeechChunker._split_long_sentence_naturally_fuel fuel self sentence = Some r ->
    nonspace (concat r) = nonspace sentence.
Proof.
  induction fuel as [|fuel IH]; intros sentence r H; [discriminate|].
  change (NaturalSpeechChunker._split_long_sentence_naturally_fuel (S fuel) self sentence)
    with (NaturalSpeechChunker.try_attempts self
            (NaturalSpeechChunker._split_long_sentence_naturally_fuel fuel self)
            sentence NaturalSpeechChunker.break_attempts) in H.
  eapply natural_try_attempts_content; [|exact H]. exact IH.
Qed.

Lemma break_attempts_consume :
  Forall (fun p => (1 <= min_len p)%nat) NaturalSpeechChunker.break_attempts.
Proof.
  unfold NaturalSpeechChunker.break_attempts, NaturalSpeechChunker.natural_breaks.
  cbn [app]. repeat constructor; cbn; lia.
Qed.

Lemma natural_attempt_total (self : NaturalSpeechChunker.t)
    (recurse : str -> option (list str)) (sentence : str) (pattern : regex) :
  (forall second, (length second < length sentence)%nat ->
                  exists r, recurse second = Some r) ->
  (1 <= min_len pattern)%nat ->
  exists r, NaturalSpeechChunker._attempt_split_at_pattern self recurse sentence pattern
            = Some r.
Proof.
  intros Hrec Hmin. unfold NaturalSpeechChunker._attempt_split_at_pattern.
  destruct (finditer pattern sentence) as [|m ms] eqn:E; [eauto|].
  set (best := NaturalSpeechChunker.min_by
                 (NaturalSpeechChunker.start_distance sentence) m ms).
  cbv zeta. destruct (_ && _)%bool; [|eauto].
  destruct (NaturalSpeechChunker.max_size self <? _); [|eauto].
  assert (Hin : In best (finditer pattern sentence)).
  { rewrite E. apply natural_min_by_In. }
  apply finditer_spans in Hin. apply span_min_len in Hin as [H1 H2].
  destruct (Hrec (strip (slice_from sentence (Z.of_nat (mend best))))) as [r ->].
  - pose proof (strip_length (slice_from sentence (Z.of_nat (mend best)))).
    assert (Hne : sentence <> []) by (destruct sentence; [simpl in H2; lia|congruence]).
    pose proof (slice_from_length sentence (Z.of_nat (mend best)) ltac:(lia) Hne). lia.
  - cbn [option_map]. eauto.
Qed.

Lemma natural_try_attempts_total (self : NaturalSpeechChunker.t)
    (recurse : str -> option (list str)) (sentence : str) :
  (forall second, (length second < length sentence)%nat ->
                  exists r, recurse second = Some r) ->
  forall attempts, Forall (fun p => (1 <= min_len p)%nat) attempts ->
  exists r, NaturalSpeechChunker.try_attempts self recurse sentence attempts = Some r.
Proof.
  intros Hrec. induction attempts as [|p rest IH]; intros Hp;
    cbn [NaturalSpeechChunker.try_attempts]; [eauto|].
  inversion Hp as [|? ? Hmin Hrest]; subst.
  destruct (natural_attempt_total self recurse sentence p Hrec Hmin) as [r ->].
  destruct (_ && _)%bool; eauto.
Qed.

Lemma natural_split_long_total (self : NaturalSpeechChunker.t) :
  forall fuel sentence, (length sentence < fuel)%nat ->
  exists r, NaturalSpeechChunker._split_long_sentence_naturally_fuel fuel self sentence
            = Some r.
Proof.
  induction fuel as [|fuel IH]; intros sentence Hlen; [lia|].
  change (NaturalSpeechChunker._split_long_sentence_naturally_fuel (S fuel) self sentence)
    with (NaturalSpeechChunker.try_attempts self
            (NaturalSpeechChunker._split_long_sentence_naturally_fuel fuel self)
            sentence NaturalSpeechChunker.break_attempts).
  apply natural_try_attempts_total; [|exact break_attempts_consume].
  intros second Hs. apply IH. lia.
Qed.

(** *** gold_standard_chunker.py *)

Lemma gold_split_loop_content (self : GoldStandardChunker.t) :
  forall fuel remaining chunks r,
    GoldStandardChunker.split_loop fuel self remaining chunks = Some r ->
    nonspace (concat r) = nonspace (concat chunks) ++ nonspace remaining.
Proof.
  assert (Hlast : forall remaining chunks,
            nonspace (concat (if truthy remaining then chunks ++ [remaining] else chunks))
            = nonspace (concat chunks) ++ nonspace remaining).
  { intros remaining chunks. destruct remaining as [|c s]; cbn [truthy].
    - cbn [nonspace filter]. rewrite app_nil_r. reflexivity.
    - rewrite nonspace_concat_app. cbn [concat]. rewrite app_nil_r. reflexivity. }
  induction fuel as [|fuel IH]; intros remaining chunks r H;
    cbn [GoldStandardChunker.split_loop] in H.
  - destruct (_ && _)%bool; [discriminate|]. injection H as <-. apply Hlast.
  - destruct (truthy remaining && _)%bool.
    + cbv zeta in H. apply IH in H. rewrite H.
      set (bp := if _ <=? 0 then _ else _).
      rewrite nonspace_strip, <- (nonspace_slices remaining bp), app_assoc. f_equal.
      rewrite <- (nonspace_strip (slice_to remaining bp)).
      rewrite <- Hlast. reflexivity.
    + injection H as <-. apply Hlast.
Qed.

Lemma gold_comma_split_content (self : GoldStandardChunker.t) (sentence : str)
    (parts : list str) :
  GoldStandardChunker.comma_split self sentence = Some parts ->
  nonspace (concat parts) = nonspace sentence.
Proof.
  unfold GoldStandardChunker.comma_split.
  destruct (_ && _)%bool; [|discriminate].
  destruct (GoldStandardChunker.best_of sentence None _) as [b|]; [|discriminate].
  cbv zeta. destruct (_ && _)%bool; [|discriminate].
  intros H. injection H as <-. apply nonspace_two_parts.
Qed.

Lemma gold_split_loop_returns (self : GoldStandardChunker.t) :
  0 < GoldStandardChunker.max_size self ->
  forall fuel remaining chunks,
    (length remaining <= fuel)%nat ->
    exists r, GoldStandardChunker.split_loop fuel self remaining chunks = Some r.
Proof.
  intros Hmax. induction fuel as [|fuel IH]; intros remaining chunks Hlen.
  - destruct remaining; [|simpl in Hlen; lia]. cbn. eauto.
  - cbn [GoldStandardChunker.split_loop].
    destruct (truthy remaining && _)%bool eqn:Hgo; [|eauto].
    apply andb_true_iff in Hgo as [Ht _]. cbv zeta.
    set (bp := if _ <=? 0 then _ else _).
    assert (Hbp : 1 <= bp).
    { unfold bp.
      destruct (Z.leb_spec
                  (GoldStandardChunker.find_optimal_break_point remaining
                     (GoldStandardChunker.max_size self)) 0); lia. }
    apply IH.
    pose proof (strip_length (slice_from remaining bp)).
    assert (Hne : remaining <> []) by (destruct remaining; [discriminate|congruence]).
    pose proof (slice_from_length remaining bp Hbp Hne). lia.
Qed.

(** *** smart_chunking.py *)

Lemma find_from_split (sub : str) :
  forall s i j, find_from sub s i = Some j ->
    (i <= j)%nat
    /\ s = firstn (j - i) s ++ sub ++ skipn (j - i + length sub) s.
Proof.
  induction s as [|c s IH]; intros i j H; cbn [find_from] in H.
  - destruct (startswith sub []) eqn:E; [|discriminate].
    injection H as <-. apply startswith_prefix in E as [r E].
    symmetry in E. apply app_eq_nil in E as [-> ->].
    rewrite Nat.sub_diag. split; [lia|reflexivity].
  - destruct (startswith sub (c :: s)) eqn:E.
    + injection H as <-. apply startswith_prefix in E as [r E].
      rewrite Nat.sub_diag. split; [lia|]. cbn [firstn app Nat.add].
      rewrite E at 1. f_equal. rewrite E.
      rewrite skipn_app, skipn_all, Nat.sub_diag. reflexivity.
    + apply IH in H as [Hle H]. split; [lia|].
      replace (j - i)%nat with (S (j - S i)) by lia.
      cbn [firstn skipn Nat.add app]. f_equal. exact H.
Qed.

Lemma split1_content (sep s part0 part1 : str) :
  split1 sep s = [part0; part1] -> s = part0 ++ sep ++ part1.
Proof.
  unfold split1, find. destruct (find_from sep s 0) as [i|] eqn:E; [|discriminate].
  intros H. injection H as <- <-.
  apply find_from_split in E as [_ E]. rewrite Nat.sub_0_r in E. exact E.
Qed.

Lemma smart_last_resort_content (self : SmartChunker.t) :
  forall fuel sentence chunks r,
    SmartChunker.last_resort fuel self sentence chunks = Some r ->
    nonspace (concat r) = nonspace (concat chunks) ++ nonspace sentence.
Proof.
  assert (Hlast : forall sentence chunks,
            nonspace (concat (if truthy sentence then chunks ++ [sentence] else chunks))
            = nonspace (concat chunks) ++ nonspace sentence).
  { intros sentence chunks. destruct sentence as [|c s]; cbn [truthy].
    - cbn [nonspace filter]. rewrite app_nil_r. reflexivity.
    - rewrite nonspace_concat_app. cbn [concat]. rewrite app_nil_r. reflexivity. }
  induction fuel as [|fuel IH]; intros sentence chunks r H;
    cbn [SmartChunker.last_resort] in H.
  - destruct (_ <? _); [discriminate|]. injection H as <-. apply Hlast.
  - destruct (_ <? _).
    + cbv zeta in H. apply IH in H. rewrite H.
      set (pos := if _ =? -1 then _ else _).
      rewrite nonspace_lstrip, nonspace_concat_app. cbn [concat].
      rewrite app_nil_r, <- app_assoc, nonspace_slices. reflexivity.
    + injection H as <-. apply Hlast.
Qed.

Lemma smart_try_break_points_content (self : SmartChunker.t)
    (recurse : str -> option (list str)) (fallback : option (list str))
    (sentence : str) :
  (forall part1 r, recurse part1 = Some r -> nonspace (concat r) = nonspace part1) ->
  (forall r, fallback = Some r -> nonspace (concat r) = nonspace sentence) ->
  forall bps r,
    SmartChunker.try_break_points self recurse fallback sentence bps = Some r ->
    nonspace (concat r) = nonspace sentence.
Proof.
  intros Hrec Hfb. induction bps as [|bp bps IH]; intros r H;
    cbn [SmartChunker.try_break_points] in H; [auto|].
  destruct (contains bp sentence); [|auto].
  destruct (split1 bp sentence) as [|part0 [|part1 [|? ?]]] eqn:E; auto.
  destruct (_ && _)%bool; [|auto].
  destruct (recurse part1) as [r'|] eqn:Er; [|discriminate].
  injection H as <-. cbn [concat].
  rewrite (split1_content _ _ _ _ E).
  rewrite !nonspace_app, nonspace_rstrip, (Hrec _ _ Er), <- app_assoc. reflexivity.
Qed.

Lemma smart_force_split_content (self : SmartChunker.t) :
  forall fuel sentence r,
    SmartChunker._force_split_sentence_fuel fuel self sentence = Some r ->
    nonspace (concat r) = nonspace sentence.
Proof.
  induction fuel as [|fuel IH]; intros sentence r H; [discriminate|].
  rewrite force_split_step in H.
  eapply smart_try_break_points_content; [exact IH| |exact H].
  intros r' Hr'. apply smart_last_resort_content in Hr'. exact Hr'.
Qed.

End SplitContent.

(** [_split_long_sentence_tts_safe] returns for every sentence and every
    choice of thresholds, and the chunks it returns hold, in order, exactly
    the characters of the sentence that are not white space: nothing is
    dropped, added or reordered. *)
Theorem tts_split_long_sentence_keeps_content (self : TTSOptimizedChunker.t)
    (sentence : str) :
  exists chunks,
    TTSOptimizedChunker._split_long_sentence_tts_safe self sentence = Some chunks
    /\ nonspace (concat chunks) = nonspace sentence.
Proof.
  unfold TTSOptimizedChunker._split_long_sentence_tts_safe.
  destruct (split_long_total self (S (length sentence)) sentence (Nat.lt_succ_diag_r _))
    as [r Hr].
  exists r. split; [exact Hr|]. exact (tts_split_long_content self _ _ _ Hr).
Qed.

(** [_split_long_sentence_naturally] returns for every sentence and every
    choice of thresholds; its chunks hold, in order, exactly the
    characters of the sentence that are not white space; and its result is
    either the word packing of [_force_split_at_words] or a non-empty list
    of chunks whose lengths all lie between [min_size] and [max_size]. *)
Theorem natural_split_long_sentence_keeps_content (self : NaturalSpeechChunker.t)
    (sentence : str) :
  exists chunks,
    NaturalSpeechChunker._split_long_sentence_naturally self sentence = Some chunks
    /\ nonspace (concat chunks) = nonspace sentence
    /\ (chunks = NaturalSpeechChunker._force_split_at_words self sentence
        \/ (chunks <> []
            /\ Forall (fun chunk =>
                         NaturalSpeechChunker.min_size self <= Py.len chunk
                           <= NaturalSpeechChunker.max_size self) chunks)).
Proof.
  unfold NaturalSpeechChunker._split_long_sentence_naturally.
  destruct (natural_split_long_total self (S (length sentence)) sentence
              (Nat.lt_succ_diag_r _)) as [r Hr].
  exists r. split; [exact Hr|]. split; [exact (natural_split_long_content self _ _ _ Hr)|].
  change (NaturalSpeechChunker._split_long_sentence_naturally_fuel
            (S (length sentence)) self sentence)
    with (NaturalSpeechChunker.try_attempts self
            (NaturalSpeechChunker._split_long_sentence_naturally_fuel (length sentence) self)
            sentence NaturalSpeechChunker.break_attempts) in Hr.
  revert Hr. generalize NaturalSpeechChunker.break_attempts.
  induction l as [|p rest IH]; cbn [NaturalSpeechChunker.try_attempts]; intros H.
  - injection H as <-. left. reflexivity.
  - destruct (NaturalSpeechChunker._attempt_split_at_pattern self _ sentence p)
      as [chunks|]; [|discriminate].
    destruct (Py.truthy_list chunks && _)%bool eqn:Hok; [|auto].
    injection H as <-. apply andb_true_iff in Hok as [Hne Hall]. right. split.
    + destruct chunks; [discriminate|discriminate].
    + apply Forall_forall. intros c Hin. rewrite forallb_forall in Hall.
      specialize (Hall c Hin). unfold NaturalSpeechChunker.within_bounds in Hall.
      apply andb_true_iff in Hall as [H1 H2].
      apply Z.leb_le in H1, H2. lia.
Qed.

(** With a positive [max_size], [chunk_long_sentence] of the gold
    standard engine returns for every sentence, and the chunks it returns
    hold, in order, exactly the characters of the sentence that are not
    white space. *)
Theorem gold_chunk_long_sentence_keeps_content (self : GoldStandardChunker.t)
    (sentence : str) :
  0 < GoldStandardChunker.max_size self ->
  exists chunks,
    GoldStandardChunker.chunk_long_sentence self sentence = Some chunks
    /\ nonspace (concat chunks) = nonspace sentence.
Proof.
  intros Hmax.
  unfold GoldStandardChunker.chunk_long_sentence,
    GoldStandardChunker.chunk_long_sentence_fuel.
  destruct (GoldStandardChunker.comma_split self sentence) as [parts|] eqn:E.
  - exists parts. split; [reflexivity|]. exact (gold_comma_split_content self _ _ E).
  - destruct (Py.len sentence <=? GoldStandardChunker.max_size self).
    + exists [sentence]. split; [reflexivity|]. cbn [concat]. rewrite app_nil_r.
      reflexivity.
    + destruct (gold_split_loop_returns self Hmax (S (length sentence)) sentence [])
        as [r Hr]; [lia|].
      exists r. split; [exact Hr|].
      apply gold_split_loop_content in Hr. exact Hr.
Qed.

Lemma gold_chunk_long_sentence_keeps_content_witness :
  exists chunks,
    GoldStandardChunker.chunk_long_sentence (GoldStandardChunker.Self 20 30 true 5)
      (s_ "the quick brown fox jumps over the lazy dog and keeps running")
    = Some chunks
    /\ nonspace (concat chunks)
       = nonspace (s_ "the quick brown fox jumps over the lazy dog and keeps running").
Proof.
  apply (gold_chunk_long_sentence_keeps_content (GoldStandardChunker.Self 20 30 true 5)).
  simpl. lia.
Defined.

(** With [max_size] at least one, [_force_split_sentence] of the smart
    chunker returns for every sentence, and the pieces it returns hold, in
    order, exactly the characters of the sentence that are not white
    space. *)
Theorem smart_force_split_keeps_content (self : SmartChunker.t) (sentence : str) :
  1 <= SmartChunker.max_size self ->
  exists pieces,
    SmartChunker._force_split_sentence self sentence = Some pieces
    /\ nonspace (concat pieces) = nonspace sentence.
Proof.
  intros Hmax. unfold SmartChunker._force_split_sentence.
  destruct (force_split_total self Hmax (S (length sentence)) sentence
              (Nat.lt_succ_diag_r _)) as [r Hr].
  exists r. split; [exact Hr|]. exact (smart_force_split_content self _ _ _ Hr).
Qed.

Lemma smart_force_split_keeps_content_witness :
  exists pieces,
    SmartChunker._force_split_sentence (SmartChunker.Self 20 30 5)
      (s_ "the quick brown fox jumps over the fence, and the lazy dog keeps sleeping")
    = Some pieces
    /\ nonspace (concat pieces)
       = nonspace (s_ "the quick brown fox jumps over the fence, and the lazy dog keeps sleeping").
Proof.
  apply (smart_force_split_keeps_content (SmartChunker.Self 20 30 5)).
  simpl. lia.
Defined.

(** ** Where the groups of a match lie *)

Section GroupSpans.

Import Py Re.

(** Every span lies between [lo] and [hi]. *)
Definition within (lo hi : nat) (cs : caps) : Prop :=
  Forall (fun kv : nat * (nat * nat) =>
            (lo <= fst (snd kv) /\ fst (snd kv) <= snd (snd kv) /\ snd (snd kv) <= hi)%nat)
         cs.

Lemma within_weaken (lo hi lo' hi' : nat) (cs : caps) :
  (lo' <= lo)%nat -> (hi <= hi')%nat -> within lo hi cs -> within lo' hi' cs.
Proof.
  intros Hlo Hhi. unfold within. apply Forall_impl. intros kv H. lia.
Qed.

(** The spans a pattern adds lie within what it consumes. *)
Lemma run_spans (r : regex) :
  forall (R : Type) (k : cont R) pre rest cs res,
    run r k pre rest cs = Some res ->
    exists mid post added,
      rest = mid ++ post
      /\ k (rev mid ++ pre) post (added ++ cs) = Some res
      /\ within (length pre) (length pre + length mid) added.
Proof.
  induction r as [|p|a IHa b IHb|a IHa b IHb|p|n a IHa|a IHa|a IHa| |];
    intros R k pre rest cs res H; cbn [run] in H.
  - exists [], rest, []. repeat split; [exact H|constructor].
  - destruct rest as [|c rest]; [discriminate|].
    destruct (p c); [|discriminate].
    exists [c], rest, []. repeat split; [exact H|constructor].
  - apply IHa in H as [m1 [post1 [add1 [-> [H Ha]]]]].
    apply IHb in H as [m2 [post [add2 [-> [H Hb]]]]].
    exists (m1 ++ m2), post, (add2 ++ add1).
    rewrite rev_app_distr, <- !app_assoc. repeat split; [exact H|].
    rewrite length_app, length_rev in Hb. rewrite length_app.
    apply Forall_app. split.
    + eapply within_weaken; [| |exact Hb]; lia.
    + eapply within_weaken; [| |exact Ha]; lia.
  - destruct (run a k pre rest cs) as [x|] eqn:E.
    + injection H as <-. apply IHa in E. exact E.
    + apply IHb in H. exact H.
  - apply star_sound in H as [mid [post [-> [_ H]]]].
    exists mid, post, []. repeat split; [exact H|constructor].
  - apply IHa in H as [mid [post [add1 [-> [H Ha]]]]].
    exists mid, post, ((n, (length pre, length (rev mid ++ pre))) :: add1).
    repeat split; [exact H|].
    constructor; [|exact Ha]. cbn [fst snd]. rewrite length_app, length_rev. lia.
  - destruct (run a (fun _ _ _ => Some tt) pre rest cs); [|discriminate].
    exists [], rest, []. repeat split; [exact H|constructor].
  - destruct (run a (fun _ _ _ => Some tt) pre rest cs); [discriminate|].
    exists [], rest, []. repeat split; [exact H|constructor].
  - destruct (at_boundary pre rest); [|discriminate].
    exists [], rest, []. repeat split; [exact H|constructor].
  - destruct (at_end rest); [|discriminate].
    exists [], rest, []. repeat split; [exact H|constructor].
Qed.

Lemma match_at_spans (r : regex) (pre rest : str) (m : mobj) :
  match_at r pre rest = Some m -> within (mstart m) (mend m) (mcaps m).
Proof.
  unfold match_at. intros H.
  apply run_spans in H as [mid [post [added [_ [H Hw]]]]].
  injection H as <-. cbn [mstart mend mcaps].
  rewrite app_nil_r, length_app, length_rev.
  eapply within_weaken; [| |exact Hw]; lia.
Qed.

Lemma finditer_within (r : regex) (s : str) (m : mobj) :
  In m (finditer r s) -> within (mstart m) (mend m) (mcaps m).
Proof.
  intros H. apply finditer_from_match_at in H as [pre [rest [H _]]].
  exact (match_at_spans _ _ _ _ H).
Qed.

Lemma lookup_within (lo hi n a b : nat) (cs : caps) :
  within lo hi cs -> lookup n cs = Some (a, b) -> (lo <= a /\ a <= b /\ b <= hi)%nat.
Proof.
  induction 1 as [|[g sp] cs Hkv Hcs IH]; cbn [lookup]; [discriminate|].
  destruct (Nat.eqb g n); [|exact IH].
  intros H. injection H as ->. exact Hkv.
Qed.

(** A group of a match is no longer than the match. *)
Lemma group_length (s : str) (m : mobj) (n : nat) :
  within (mstart m) (mend m) (mcaps m) ->
  (length (group s m n) <= mend m - mstart m)%nat.
Proof.
  intros Hw. unfold group.
  destruct (lookup n (mcaps m)) as [[a b]|] eqn:E; [|cbn; lia].
  destruct (lookup_within _ _ _ _ _ _ Hw E) as [H1 [H2 H3]].
  unfold substr. rewrite length_firstn. lia.
Qed.

(** The end of the group of the last match, counted from the start of the
    subject, does not pass the end of the subject. *)
Lemma last_match_break (r : regex) (s : str) (m : mobj) (ms : list mobj) (n : nat) :
  rev (finditer r s) = m :: ms ->
  0 <= Z.of_nat (mstart m) + len (group s m n) <= len s.
Proof.
  intros E.
  assert (Hin : In m (finditer r s)).
  { apply in_rev. rewrite E. left. reflexivity. }
  pose proof (group_length s m n (finditer_within r s m Hin)) as Hg.
  destruct (span_min_len r s m (finditer_spans r s m Hin)) as [H1 H2].
  unfold len. lia.
Qed.

End GroupSpans.

(** ** The break point of the gold standard engine *)

Section BreakPoint.

Import Py Re GoldStandardChunker.

Lemma natural_loop_bound (search_start : Z) (search_text : str) :
  0 <= search_start ->
  forall patterns priority best_break best_priority,
    (best_break = -1 \/ 0 <= best_break <= search_start + len search_text) ->
    let b := fst (natural_loop search_start search_text priority patterns
                    best_break best_priority) in
    b = -1 \/ 0 <= b <= search_start + len search_text.
Proof.
  intros Hss. induction patterns as [|p rest IH]; intros priority bb bp Hbb;
    cbn [natural_loop].
  - exact Hbb.
  - destruct (rev (finditer p search_text)) as [|m ms] eqn:E; [apply IH; exact Hbb|].
    pose proof (last_match_break p search_text m ms 1 E) as Hm.
    destruct (bp <=? priority); apply IH; [right; lia|exact Hbb].
Qed.

Lemma slice_to_len (s : str) (k : Z) : 0 <= k -> len (slice_to s k) <= k.
Proof.
  intros Hk. unfold len, slice_to, norm_index.
  destruct (Z.ltb_spec k 0); [lia|]. rewrite length_firstn. lia.
Qed.

Lemma slice_len (s : str) (a b : Z) : 0 <= a -> a <= b -> len s >= b ->
  a + len (slice s a b) <= b.
Proof.
  intros Ha Hab Hb. unfold len in *. unfold slice, norm_index.
  destruct (Z.ltb_spec a 0); [lia|]. destruct (Z.ltb_spec b 0); [lia|].
  rewrite length_firstn. lia.
Qed.

Lemma rfind_bound (sub s : str) (e : Z) :
  0 <= e -> sub <> [] -> rfind sub s e = -1 \/ 0 <= rfind sub s e < e.
Proof.
  intros He Hsub. unfold rfind.
  destruct (rfind_from sub (slice_to s e) 0) as [j|] eqn:E; [right|left; reflexivity].
  apply rfind_from_found in E as [_ E]. rewrite Nat.sub_0_r in E.
  apply startswith_prefix in E as [r E].
  assert (Hlen : (j < length (slice_to s e))%nat).
  { destruct (Nat.lt_ge_cases j (length (slice_to s e))) as [H|H]; [exact H|].
    rewrite skipn_all2 in E by exact H.
    destruct sub; [congruence|discriminate]. }
  pose proof (slice_to_len s e He) as Hs. unfold len in Hs. lia.
Qed.

Lemma find_optimal_break_point_bounds (text : str) (max_pos : Z) :
  0 <= max_pos ->
  0 <= find_optimal_break_point text max_pos <= max_pos
  /\ find_optimal_break_point text max_pos <= len text.
Proof.
  intros Hmax. unfold find_optimal_break_point.
  destruct (Z.leb_spec (len text) max_pos) as [Hshort|Hlong].
  - pose proof (len_nonneg text). lia.
  - cbv zeta.
    destruct (rev (finditer comma_conjunction_pattern (slice_to text max_pos)))
      as [|m ms] eqn:E.
    + pose proof (natural_loop_bound (Z.max 0 (max_pos - 100))
                    (slice text (Z.max 0 (max_pos - 100)) max_pos) ltac:(lia)
                    natural_breaks 0 (-1) 0 (or_introl eq_refl)) as Hb.
      cbv zeta in Hb.
      destruct (natural_loop _ _ 0 natural_breaks (-1) 0) as [b pr]. cbn [fst] in Hb.
      pose proof (slice_len text (Z.max 0 (max_pos - 100)) max_pos
                    ltac:(lia) ltac:(lia) ltac:(lia)) as Hs.
      destruct (Z.eqb_spec b (-1)) as [->|Hne].
      * destruct (rfind_bound (s_ " ") text max_pos Hmax ltac:(discriminate)) as [->|Hr].
        -- cbn. lia.
        -- destruct (Z.eqb_spec (rfind (s_ " ") text max_pos) (-1)); lia.
      * destruct Hb as [Hb|Hb]; [congruence|]. lia.
    + pose proof (last_match_break comma_conjunction_pattern (slice_to text max_pos)
                    m ms 1 E) as Hm.
      pose proof (slice_to_len text max_pos Hmax). lia.
Qed.

(** The chunks of the [while] loop of [chunk_long_sentence]. *)
Lemma split_loop_sizes (self : t) :
  0 < max_size self ->
  forall fuel remaining chunks r,
    Forall (fun c => 0 < len c <= max_size self) chunks ->
    split_loop fuel self remaining chunks = Some r ->
    Forall (fun c => 0 < len c <= max_size self) r.
Proof.
  intros Hmax.
  assert (Hlast : forall remaining chunks,
            Forall (fun c => 0 < len c <= max_size self) chunks ->
            (truthy remaining && (max_size self <? len remaining))%bool = false ->
            Forall (fun c => 0 < len c <= max_size self)
                   (if truthy remaining then chunks ++ [remaining] else chunks)).
  { intros remaining chunks Hc Hstop.
    destruct (truthy remaining) eqn:Ht; [|exact Hc].
    cbn [andb] in Hstop. apply Z.ltb_ge in Hstop. apply truthy_len in Ht.
    apply Forall_app. split; [exact Hc|]. constructor; [lia|constructor]. }
  induction fuel as [|fuel IH]; intros remaining chunks r Hc H;
    cbn [split_loop] in H.
  - destruct (_ && _)%bool eqn:Hgo; [discriminate|]. injection H as <-.
    apply Hlast; assumption.
  - destruct (truthy remaining && _)%bool eqn:Hgo.
    + cbv zeta in H. apply IH in H; [exact H|].
      set (bp := if _ <=? 0 then _ else _).
      assert (Hbp : 0 <= bp <= max_size self).
      { unfold bp.
        pose proof (find_optimal_break_point_bounds remaining (max_size self)
                      ltac:(lia)) as [Hb _].
        destruct (Z.leb_spec (find_optimal_break_point remaining (max_size self)) 0);
          lia. }
      destruct (truthy (strip (slice_to remaining bp))) eqn:Ht; [|exact Hc].
      apply Forall_app. split; [exact Hc|]. constructor; [|constructor].
      apply truthy_len in Ht. split; [exact Ht|].
      pose proof (len_strip (slice_to remaining bp)).
      pose proof (slice_to_len remaining bp ltac:(lia)). lia.
    + injection H as <-. apply Hlast; assumption.
Qed.

Lemma comma_split_none (self : t) (sentence : str) :
  finditer comma_conjunction_pattern sentence = [] \/ len sentence < target_size self ->
  comma_split self sentence = None.
Proof.
  intros H. unfold comma_split. destruct H as [->|H]; [reflexivity|].
  apply Z.leb_gt in H. rewrite H, andb_false_r. reflexivity.
Qed.

End BreakPoint.

(** [find_optimal_break_point] answers with a position between zero and
    [max_pos] that is not past the end of the text, for every text and
    every [max_pos] that is not negative. *)
Theorem gold_break_point_within_bounds (text : str) (max_pos : Z) :
  0 <= max_pos ->
  0 <= GoldStandardChunker.find_optimal_break_point text max_pos
    <= Z.min max_pos (Py.len text).
Proof.
  intros H. destruct (find_optimal_break_point_bounds text max_pos H). lia.
Qed.

Lemma gold_break_point_within_bounds_witness :
  0 <= GoldStandardChunker.find_optimal_break_point
         (s_ "the quick brown fox jumps over the lazy dog") 20
    <= Z.min 20 (Py.len (s_ "the quick brown fox jumps over the lazy dog")).
Proof.
  apply (gold_break_point_within_bounds (s_ "the quick brown fox jumps over the lazy dog") 20).
  lia.
Defined.

(** When the comma and conjunction split does not apply (the sentence
    has no such match, or is shorter than [target_size]) and [max_size] is
    positive, no chunk of [chunk_long_sentence] is empty and none is
    longer than [max_size], unless the sentence is returned whole because
    it already fits. *)
Theorem gold_fallback_chunks_within_max (self : GoldStandardChunker.t)
    (sentence : str) (chunks : list str) :
  0 < GoldStandardChunker.max_size self ->
  Re.finditer GoldStandardChunker.comma_conjunction_pattern sentence = []
    \/ Py.len sentence < GoldStandardChunker.target_size self ->
  GoldStandardChunker.chunk_long_sentence self sentence = Some chunks ->
  Forall (fun chunk => Py.len chunk <= GoldStandardChunker.max_size self) chunks
  /\ (GoldStandardChunker.max_size self < Py.len sentence ->
      Forall (fun chunk => chunk <> []) chunks).
Proof.
  intros Hmax Hno H.
  unfold GoldStandardChunker.chunk_long_sentence,
    GoldStandardChunker.chunk_long_sentence_fuel in H.
  rewrite (comma_split_none self sentence Hno) in H.
  destruct (Z.leb_spec (Py.len sentence) (GoldStandardChunker.max_size self)) as [Hfit|Hlong].
  - injection H as <-. split; [repeat constructor; exact Hfit|]. lia.
  - apply (split_loop_sizes self Hmax) in H; [|constructor].
    split.
    + eapply Forall_impl; [|exact H]. intros c Hc. cbv beta in Hc |- *. lia.
    + intros _. eapply Forall_impl; [|exact H]. intros c Hc E. cbv beta in Hc. subst c.
      unfold Py.len in Hc. cbn in Hc. lia.
Qed.

Lemma gold_fallback_chunks_within_max_witness :
  GoldStandardChunker.chunk_long_sentence (GoldStandardChunker.Self 20 30 true 5)
    (s_ "the quick brown fox jumps over the lazy dog and keeps running")
  = Some [s_ "the quick brown fox jumps"; s_ "over the lazy dog"; s_ "and keeps running"]
  /\ Forall (fun chunk => Py.len chunk <= 30)
       [s_ "the quick brown fox jumps"; s_ "over the lazy dog"; s_ "and keeps running"].
Proof.
  assert (E : GoldStandardChunker.chunk_long_sentence (GoldStandardChunker.Self 20 30 true 5)
                (s_ "the quick brown fox jumps over the lazy dog and keeps running")
              = Some [s_ "the quick brown fox jumps"; s_ "over the lazy dog";
                      s_ "and keeps running"])
    by (vm_compute; reflexivity).
  split; [exact E|].
  refine (proj1 (gold_fallback_chunks_within_max (GoldStandardChunker.Self 20 30 true 5)
                   _ _ _ _ E)).
  - simpl. lia.
  - left. vm_compute. reflexivity.
Defined.

(** ** Paragraph breaks do not survive normalisation *)

Section NoParagraphs.

Import Py Re.

Definition no_newline (s : str) : Prop := Forall (fun c => c <> "010"%char) s.

Lemma Forall_firstn_str (P : ascii -> Prop) (n : nat) (s : str) :
  Forall P s -> Forall P (firstn n s).
Proof.
  intros H. rewrite <- (firstn_skipn n s) in H. apply Forall_app in H. tauto.
Qed.

Lemma Forall_skipn_str (P : ascii -> Prop) (n : nat) (s : str) :
  Forall P s -> Forall P (skipn n s).
Proof.
  intros H. rewrite <- (firstn_skipn n s) in H. apply Forall_app in H. tauto.
Qed.

Lemma Forall_substr (P : ascii -> Prop) (s : str) (a b : nat) :
  Forall P s -> Forall P (substr s a b).
Proof. intros H. unfold substr. apply Forall_firstn_str, Forall_skipn_str, H. Qed.

Lemma Forall_group (P : ascii -> Prop) (s : str) (m : mobj) (n : nat) :
  Forall P s -> Forall P (group s m n).
Proof.
  intros H. unfold group. destruct (lookup n (mcaps m)) as [[a b]|]; [|constructor].
  apply Forall_substr, H.
Qed.

(** A substitution builds its result from the subject and from the
    replacements. *)
Lemma sub_chars (P : ascii -> Prop) (r : regex) (repl : str -> mobj -> str) (s : str) :
  Forall P s -> (forall m, Forall P (repl s m)) -> Forall P (sub r repl s).
Proof.
  intros Hs Hrepl. unfold sub. generalize (finditer r s) as ms. generalize 0%nat as last.
  intros last ms. revert last. induction ms as [|m ms IH]; intros last; cbn [sub_at].
  - apply Forall_skipn_str, Hs.
  - apply Forall_app. split; [apply Forall_substr, Hs|].
    apply Forall_app. split; [apply Hrepl|apply IH].
Qed.

Lemma no_newline_strip (s : str) : no_newline s -> no_newline (strip s).
Proof.
  intros H. destruct (lstrip_split s) as [l [E _]].
  destruct (rstrip_split (lstrip s)) as [r [E' _]].
  unfold no_newline in *. rewrite E, E' in H. fold (strip s) in H.
  apply Forall_app in H as [_ H]. apply Forall_app in H as [H _]. exact H.
Qed.

Lemma split_no_newline (s : str) :
  no_newline s -> split SmartChunker.paragraph_breaks 0 s = [s].
Proof.
  intros H. unfold split, finditer.
  rewrite (finditer_from_nomatch SmartChunker.paragraph_breaks _
             paragraph_breaks_need_newline s [] 0%nat H).
  reflexivity.
Qed.

Lemma spaced_no_newline (s : str) (m : mobj) :
  no_newline s -> no_newline (group s m 1 ++ s_ " " ++ group s m 2).
Proof.
  intros H. apply Forall_app. split; [apply Forall_group, H|].
  apply Forall_app. split; [repeat constructor; discriminate|apply Forall_group, H].
Qed.

Lemma smart_normalize_no_newline (text : str) :
  no_newline (SmartChunker._normalize_text text).
Proof.
  unfold SmartChunker._normalize_text. apply sub_chars.
  - apply join_no_newline, split_ws_words.
  - intros m. apply spaced_no_newline, join_no_newline, split_ws_words.
Qed.

Lemma tts_normalize_no_newline (text : str) :
  no_newline (TTSOptimizedChunker._normalize_for_tts text).
Proof.
  unfold TTSOptimizedChunker._normalize_for_tts. cbv zeta.
  apply no_newline_strip.
  assert (H0 : no_newline (join (s_ " ") (split_ws text)))
    by (apply join_no_newline, split_ws_words).
  set (t0 := join (s_ " ") (split_ws text)) in *.
  assert (H1 : no_newline
                 (sub TTSOptimizedChunker.glued_sentences
                    (fun s m => group s m 1 ++ s_ " " ++ group s m 2) t0)).
  { apply sub_chars; [exact H0|]. intros m. apply spaced_no_newline, H0. }
  set (t1 := sub TTSOptimizedChunker.glued_sentences _ t0) in *.
  assert (H2 : no_newline
                 (sub TTSOptimizedChunker.glued_clause
                    (fun s m => group s m 1 ++ s_ " " ++ group s m 2) t1)).
  { apply sub_chars; [exact H1|]. intros m. apply spaced_no_newline, H1. }
  set (t2 := sub TTSOptimizedChunker.glued_clause _ t1) in *.
  assert (H3 : no_newline (sub TTSOptimizedChunker.ending (fun s m => group s m 1) t2)).
  { apply sub_chars; [exact H2|]. intros m. apply Forall_group, H2. }
  set (t3 := sub TTSOptimizedChunker.ending _ t2) in *.
  apply sub_chars; [exact H3|]. intros m.
  apply Forall_app. split; [apply Forall_group, H3|].
  apply Forall_app. split; [repeat constructor; discriminate|].
  apply Forall_app. split; apply Forall_group, H3.
Qed.

End NoParagraphs.

(** The text [smart_chunk_text] works on after [_normalize_text] holds no
    line break, so the split on paragraph breaks never splits: whatever
    the text, it is chunked as a single paragraph. *)
Theorem smart_chunk_text_one_paragraph (self : SmartChunker.t) (text : str) :
  let normalized := SmartChunker._normalize_text text in
  ~ In "010"%char normalized
  /\ Re.split SmartChunker.paragraph_breaks 0 normalized = [normalized]
  /\ SmartChunker.smart_chunk_text self text
     = if Py.truthy (Py.strip normalized)
       then option_map (filter (SmartChunker.long_enough self))
              (SmartChunker._chunk_paragraph self (Py.strip normalized))
       else Some [].
Proof.
  cbv zeta. pose proof (smart_normalize_no_newline text) as H.
  split; [|split].
  - intros Hin. unfold no_newline in H. rewrite Forall_forall in H.
    exact (H _ Hin eq_refl).
  - apply split_no_newline, H.
  - unfold SmartChunker.smart_chunk_text. cbv zeta.
    rewrite (split_no_newline _ H). cbn [SmartChunker.each_paragraph].
    destruct (Py.truthy (Py.strip (SmartChunker._normalize_text text))); cbn [negb];
      [|reflexivity].
    destruct (SmartChunker._chunk_paragraph self _); reflexivity.
Qed.

(** The text [tts_chunk_text] works on after [_normalize_for_tts] holds
    no line break, so the split on paragraph breaks never splits:
    whatever the text, it is chunked as a single paragraph. *)
Theorem tts_chunk_text_one_paragraph (self : TTSOptimizedChunker.t) (text : str) :
  let normalized := TTSOptimizedChunker._normalize_for_tts text in
  ~ In "010"%char normalized
  /\ Re.split TTSOptimizedChunker.paragraph_breaks 0 normalized = [normalized]
  /\ TTSOptimizedChunker.tts_chunk_text self text
     = if Py.truthy normalized
       then option_map (filter (TTSOptimizedChunker.long_enough self))
              (TTSOptimizedChunker._chunk_paragraph_for_tts self normalized)
       else Some [].
Proof.
  cbv zeta. pose proof (tts_normalize_no_newline text) as H.
  assert (Hstrip : Py.strip (TTSOptimizedChunker._normalize_for_tts text)
                   = TTSOptimizedChunker._normalize_for_tts text).
  { unfold TTSOptimizedChunker._normalize_for_tts. cbv zeta. apply strip_idem. }
  split; [|split].
  - intros Hin. unfold no_newline in H. rewrite Forall_forall in H.
    exact (H _ Hin eq_refl).
  - apply (split_no_newline _ H).
  - unfold TTSOptimizedChunker.tts_chunk_text. cbv zeta.
    change TTSOptimizedChunker.paragraph_breaks with SmartChunker.paragraph_breaks.
    rewrite (split_no_newline _ H). cbn [TTSOptimizedChunker.each_paragraph].
    rewrite Hstrip.
    destruct (Py.truthy (TTSOptimizedChunker._normalize_for_tts text)); cbn [negb];
      [|reflexivity].
    destruct (TTSOptimizedChunker._chunk_paragraph_for_tts self _); reflexivity.
Qed.

(** ** analysis/precise_chunker.py: what the splitter returns *)

Section PreciseSplit.

Import Py Re Precise.

Lemma substr_middle (a mid post : str) :
  substr (a ++ mid ++ post) (length a) (length a + length mid) = mid.
Proof.
  unfold substr. rewrite skipn_app, Nat.sub_diag, skipn_all. cbn [skipn app].
  replace (length a + length mid - length a)%nat with (length mid) by lia.
  rewrite firstn_app, Nat.sub_diag, firstn_all. cbn [firstn]. apply app_nil_r.
Qed.

(** A match of the pattern of the split: group 1 is the exclamation mark
    and the white space after it. *)
Lemma bang_match_shape (pre rest : str) (m : mobj) :
  match_at bang_before_paren pre rest = Some m ->
  exists w post,
    rest = "!"%char :: w ++ post
    /\ lookup 1 (mcaps m) = Some (length pre, (length pre + S (length w))%nat).
Proof.
  unfold match_at, bang_before_paren.
  remember (Seq (chr "!") (plus ws)) as bang eqn:Hbang.
  cbn [run]. intros H.
  apply run_sound in H as [mid [post [cs' [-> [Hm H]]]]].
  match type of H with
  | match ?x with _ => _ end = _ => destruct x; [|discriminate]
  end.
  injection H as <-. cbn [mcaps lookup Nat.eqb].
  subst bang. cbn [matches] in Hm. destruct Hm as [m1 [m2 [-> [[c [-> Hc]] _]]]].
  unfold chr in Hc. apply Ascii.eqb_eq in Hc. subst c.
  exists m2, post. split; [reflexivity|].
  rewrite length_app, length_rev. cbn [app length]. f_equal. f_equal. lia.
Qed.

Lemma bang_group (text : str) (m : mobj) :
  In m (finditer bang_before_paren text) ->
  exists w, group text m 1 = "!"%char :: w.
Proof.
  intros H. apply finditer_from_match_at in H as [pre [rest [Hm Heq]]].
  cbn [rev app] in Heq.
  apply bang_match_shape in Hm as [w [post [-> Hl]]].
  exists w. unfold group. rewrite Hl, <- Heq, <- (length_rev pre).
  change ("!"%char :: w ++ post) with (("!"%char :: w) ++ post).
  change (S (length w)) with (length ("!"%char :: w)).
  apply substr_middle.
Qed.

Lemma keep_one (chunk : str) :
  blank chunk = false -> keep_stripped [chunk] = [strip chunk].
Proof.
  intros H. unfold keep_stripped. cbn [filter]. rewrite truthy_strip, H. reflexivity.
Qed.

End PreciseSplit.

(** [precise_mixed_punctuation_split] always returns exactly one chunk.
    When the text holds an exclamation mark followed by white space and an
    opening parenthesis, the result is only the text before the first such
    mark, with the mark, stripped: the mark stays at the head of what
    remains, which therefore never starts with a parenthesis, so the
    parenthetical and what follows it are never added.  Otherwise the
    result is the text itself. *)
Theorem precise_split_returns_one_chunk (text : str) :
  Precise.precise_mixed_punctuation_split text
  = match Re.search Precise.bang_paren text with
    | Some _ =>
        [Py.strip (hd [] (Re.split Precise.bang_before_paren 1 text) ++ s_ "!")]
    | None => [text]
    end
  /\ length (Precise.precise_mixed_punctuation_split text) = 1%nat.
Proof.
  assert (E : Precise.precise_mixed_punctuation_split text
              = match Re.search Precise.bang_paren text with
                | Some _ =>
                    [Py.strip (hd [] (Re.split Precise.bang_before_paren 1 text) ++ s_ "!")]
                | None => [text]
                end).
  { unfold Precise.precise_mixed_punctuation_split.
    destruct (Re.search Precise.bang_paren text) as [found|]; [|reflexivity].
    cbv zeta.
    assert (Hstart : Py.startswith (s_ "(")
                       (Py.lstrip (concat (tl (Re.split Precise.bang_before_paren 1 text))))
                     = false).
    { unfold Re.split.
      destruct (Re.finditer Precise.bang_before_paren text) as [|m ms] eqn:Ef;
        [reflexivity|].
      cbn [Re.split_at seq map app tl concat].
      destruct (bang_group text m) as [w ->].
      { rewrite Ef. left. reflexivity. }
      reflexivity. }
    rewrite Hstart. apply keep_one.
    rewrite blank_app. cbn [blank forallb s_ list_ascii_of_string].
    replace (Py.isspace "!"%char) with false by reflexivity.
    rewrite andb_false_r. reflexivity. }
  split; [exact E|]. rewrite E.
  destruct (Re.search Precise.bang_paren text); reflexivity.
Qed.

(** ** chunking_test_framework.py: the text that is compared *)

Section ComparedText.

Import Py.

Lemma split_ws_from_space (a : str) (c : ascii) (b : str) :
  isspace c = true ->
  forall cur, split_ws_from cur (a ++ c :: b) = split_ws_from cur a ++ split_ws_from [] b.
Proof.
  intros Hc. induction a as [|x a IH]; intros cur; cbn [app split_ws_from].
  - rewrite Hc. destruct cur; reflexivity.
  - destruct (isspace x).
    + destruct cur; [apply IH|]. cbn [app]. f_equal. apply IH.
    + apply IH.
Qed.

(** The words of chunks joined by single spaces are the words of the
    chunks. *)
Lemma split_ws_joined (chunks : list str) :
  split_ws (join (s_ " ") chunks) = concat (map split_ws chunks).
Proof.
  induction chunks as [|x chunks IH]; [reflexivity|].
  destruct chunks as [|y chunks].
  - cbn [join map concat]. rewrite app_nil_r. reflexivity.
  - change (join (s_ " ") (x :: y :: chunks))
      with (x ++ " "%char :: join (s_ " ") (y :: chunks)).
    unfold split_ws at 1. rewrite split_ws_from_space by reflexivity.
    fold (split_ws x). fold (split_ws (join (s_ " ") (y :: chunks))).
    rewrite IH. reflexivity.
Qed.

End ComparedText.

(** [normalize_text] gives the words of the text joined by single
    spaces.  Normalising again changes nothing, the words of the normal
    form are the words of the text, and so are its characters that are
    not white space; a text of white space only has the empty normal
    form. *)
Theorem normalize_text_keeps_words (text : str) :
  ChunkingEvaluator.normalize_text text = Py.join (s_ " ") (Py.split_ws text)
  /\ ChunkingEvaluator.normalize_text (ChunkingEvaluator.normalize_text text)
     = ChunkingEvaluator.normalize_text text
  /\ Py.split_ws (ChunkingEvaluator.normalize_text text) = Py.split_ws text
  /\ nonspace (ChunkingEvaluator.normalize_text text) = nonspace text
  /\ (ChunkingEvaluator.normalize_text text = [] <-> blank text = true).
Proof.
  split; [apply normalize_text_join|].
  split; [apply normalize_text_idem|].
  split; [rewrite normalize_text_join; apply split_ws_join, split_ws_words|].
  split; [apply nonspace_normalize_text|].
  unfold ChunkingEvaluator.normalize_text. rewrite strip_blank.
  rewrite <- !nonspace_blank_iff, nonspace_join, split_ws_content, nonspace_idem.
  tauto.
Qed.

(** The text that [calculate_similarity] compares depends only on the
    words of the chunks, not on where the chunk boundaries fall nor on
    the white space inside the chunks: it is the words of all chunks, in
    order, joined by single spaces.  Two lists of chunks with the same
    words are compared as equal texts. *)
Theorem reconstructed_is_words_of_chunks (chunks : list str) :
  ChunkingEvaluator.reconstructed chunks
  = Py.join (s_ " ") (concat (map Py.split_ws chunks))
  /\ (forall chunks',
        concat (map Py.split_ws chunks') = concat (map Py.split_ws chunks) ->
        ChunkingEvaluator.reconstructed chunks' = ChunkingEvaluator.reconstructed chunks).
Proof.
  assert (E : forall l, ChunkingEvaluator.reconstructed l
                        = Py.join (s_ " ") (concat (map Py.split_ws l))).
  { intros l. unfold ChunkingEvaluator.reconstructed.
    rewrite normalize_text_join, split_ws_joined. reflexivity. }
  split; [apply E|]. intros chunks' H. rewrite !E, H. reflexivity.
Qed.

(** ** A substitution as one pass over the subject *)

Section SubScan.

Import Py Re.

Variable r : regex.
Variable f : mobj -> str.

(** The result of [re.sub] read off in one pass: at a match the
    replacement is written and the matched characters are passed over;
    elsewhere the character is copied. *)
Fixpoint sub_scan (pre rest : str) (skip : nat) {struct rest} : str :=
  match skip with
  | S n =>
      match rest with
      | c :: rest' => sub_scan (c :: pre) rest' n
      | [] => []
      end
  | O =>
      match match_at r pre rest with
      | Some m =>
          f m ++ match rest with
                 | c :: rest' => sub_scan (c :: pre) rest' (mend m - mstart m - 1)
                 | [] => []
                 end
      | None =>
          match rest with
          | c :: rest' => c :: sub_scan (c :: pre) rest' 0
          | [] => []
          end
      end
  end.

Hypothesis consuming : (1 <= min_len r)%nat.

Lemma substr_empty (s : str) (a b : nat) : (b <= a)%nat -> substr s a b = [].
Proof.
  intros H. unfold substr. replace (b - a)%nat with 0%nat by lia. reflexivity.
Qed.

Lemma substr_step (pre rest : str) (c : ascii) (last : nat) :
  (last <= length pre)%nat ->
  substr (rev pre ++ c :: rest) last (S (length pre))
  = substr (rev pre ++ c :: rest) last (length pre) ++ [c].
Proof.
  intros H. unfold substr.
  rewrite skipn_app, length_rev.
  replace (last - length pre)%nat with 0%nat by lia. cbn [skipn].
  assert (Hx : length (skipn last (rev pre)) = (length pre - last)%nat).
  { rewrite length_skipn, length_rev. reflexivity. }
  rewrite !firstn_app, Hx.
  replace (length pre - last - (length pre - last))%nat with 0%nat by lia.
  replace (S (length pre) - last - (length pre - last))%nat with 1%nat by lia.
  cbn [firstn]. rewrite app_nil_r.
  rewrite !firstn_all2 by lia. reflexivity.
Qed.

Lemma substr_rest (pre : str) (last : nat) :
  skipn last (rev pre ++ []) = substr (rev pre ++ []) last (length pre).
Proof.
  unfold substr. rewrite firstn_all2; [reflexivity|].
  rewrite length_skipn, app_nil_r, length_rev. lia.
Qed.

Lemma sub_at_scan :
  forall rest pre skip last,
    (last <= length pre + skip)%nat ->
    (skip <> 0%nat -> last = (length pre + skip)%nat) ->
    sub_at (rev pre ++ rest) f last (finditer_from r pre rest skip)
    = substr (rev pre ++ rest) last (length pre) ++ sub_scan pre rest skip.
Proof.
  assert (Hcons : forall c (pre rest : str), rev (c :: pre) ++ rest = rev pre ++ c :: rest).
  { intros. cbn [rev]. rewrite <- app_assoc. reflexivity. }
  induction rest as [|c rest IH]; intros pre skip last Hle Hskip.
  - destruct skip as [|n]; cbn [finditer_from sub_scan].
    + destruct (match_at r pre []) as [m|] eqn:E.
      * exfalso. apply match_at_sound in E as [mid [post [Hsplit [Hm _]]]].
        apply matches_min_len in Hm. symmetry in Hsplit.
        apply app_eq_nil in Hsplit as [-> _]. cbn in Hm. lia.
      * cbn [sub_at]. rewrite (app_nil_r (substr _ _ _)). apply substr_rest.
    + cbn [sub_at]. rewrite (Hskip ltac:(discriminate)).
      rewrite skipn_all2 by (rewrite app_nil_r, length_rev; lia).
      rewrite substr_empty by lia. reflexivity.
  - destruct skip as [|n]; cbn [finditer_from sub_scan].
    + destruct (match_at r pre (c :: rest)) as [m|] eqn:E.
      * apply match_at_sound in E as [mid [post [Hsplit [Hm [Hs He]]]]].
        apply matches_min_len in Hm.
        cbn [sub_at]. rewrite Hs. f_equal. f_equal.
        rewrite <- Hcons, (IH (c :: pre) _ (mend m)); cbn [length]; try lia.
        rewrite substr_empty by lia. reflexivity.
      * rewrite <- Hcons, (IH (c :: pre) 0%nat last); cbn [length]; try lia.
        rewrite Hcons, substr_step by lia. rewrite <- app_assoc. reflexivity.
    + rewrite <- Hcons, (IH (c :: pre) n last); cbn [length]; try lia.
      rewrite (substr_empty _ last (S (length pre))) by lia.
      rewrite Hcons, (substr_empty _ last (length pre)) by lia. reflexivity.
Qed.

End SubScan.

Lemma sub_as_scan (r : Re.regex) (repl : str -> Re.mobj -> str) (s : str) :
  (1 <= min_len r)%nat -> Re.sub r repl s = sub_scan r (repl s) [] s 0.
Proof.
  intros H. unfold Re.sub, Re.finditer.
  exact (sub_at_scan r (repl s) H s [] 0%nat 0%nat (Nat.le_refl _) (fun E => False_ind _ (E eq_refl))).
Qed.

(** ** enhanced_chunking.py: the text the natural speech chunker works on *)

Section NaturalText.

Import Py Re NaturalSpeechChunker.

Lemma star_returns (R : Type) (p : ascii -> bool) (k : cont R) :
  (forall pre rest cs, k pre rest cs <> None) ->
  forall rest pre cs, star p k pre rest cs <> None.
Proof.
  intros Hk. induction rest as [|c rest IH]; intros pre cs; cbn [star]; [apply Hk|].
  destruct (p c); [|apply Hk].
  destruct (star p k (c :: pre) rest cs) eqn:E; [discriminate|].
  exfalso. exact (IH _ _ E).
Qed.

(** A run of characters of a class matches wherever one of them stands. *)
Lemma plus_matches_at (p : ascii -> bool) (pre : str) (c : ascii) (rest : str) :
  match_at (plus p) pre (c :: rest) = None -> p c = false.
Proof.
  unfold match_at, plus. cbn [run]. destruct (p c); [|reflexivity].
  intros H. exfalso. revert H. apply star_returns. discriminate.
Qed.

(** White space, if any, is a space. *)
Definition only_spaces (s : str) : Prop :=
  Forall (fun c => isspace c = true -> c = " "%char) s.

Lemma scan_white_space :
  forall rest pre skip,
    only_spaces (sub_scan white_space (fun _ => s_ " ") pre rest skip).
Proof.
  induction rest as [|c rest IH]; intros pre skip.
  - destruct skip; cbn [sub_scan]; [|constructor].
    destruct (match_at white_space pre []); [|constructor].
    repeat constructor.
  - destruct skip as [|n]; cbn [sub_scan]; [|apply IH].
    destruct (match_at white_space pre (c :: rest)) eqn:E.
    + constructor; [reflexivity|apply IH].
    + apply plus_matches_at in E. constructor; [|apply IH].
      unfold ws in E. intros H. congruence.
Qed.

Lemma Forall_strip (P : ascii -> Prop) (s : str) : Forall P s -> Forall P (strip s).
Proof.
  intros H. destruct (lstrip_split s) as [l [E _]].
  destruct (rstrip_split (lstrip s)) as [r [E' _]].
  rewrite E, E' in H. fold (strip s) in H.
  apply Forall_app in H as [_ H]. apply Forall_app in H as [H _]. exact H.
Qed.

Lemma natural_normalize_only_spaces (text : str) : only_spaces (_normalize_text text).
Proof.
  unfold _normalize_text. cbv zeta. apply Forall_strip.
  rewrite sub_as_scan by (cbn; lia). apply scan_white_space.
Qed.

Lemma only_spaces_no_newline (s : str) : only_spaces s -> no_newline s.
Proof.
  unfold only_spaces, no_newline. apply Forall_impl.
  intros c H E. subst c. specialize (H eq_refl). discriminate.
Qed.

Lemma only_spaces_strip_fixed (text : str) :
  strip (_normalize_text text) = _normalize_text text.
Proof. unfold _normalize_text. cbv zeta. apply strip_idem. Qed.

Lemma natural_gather_returns (self : t) :
  forall sentences chunks current_chunk,
  exists r, gather self sentences chunks current_chunk = Some r.
Proof.
  induction sentences as [|sentence rest IH]; intros chunks cur; cbn [gather].
  - eauto.
  - destruct (max_size self <? len sentence).
    + unfold _split_long_sentence_naturally.
      destruct (natural_split_long_total self (S (length sentence)) sentence
                  (Nat.lt_succ_diag_r _)) as [r ->].
      apply IH.
    + cbv zeta. destruct (target_size self <? len _); [|apply IH].
      destruct (_ && _)%bool; apply IH.
Qed.

Lemma natural_chunk_paragraph_returns (self : t) (paragraph : str) :
  exists r, _chunk_paragraph_naturally self paragraph = Some r.
Proof.
  unfold _chunk_paragraph_naturally.
  destruct (len paragraph <=? max_size self); [eauto|].
  destruct (natural_gather_returns self (_split_sentences_advanced paragraph) [] [])
    as [[chunks cur] ->].
  eauto.
Qed.

End NaturalText.

(** The text [natural_chunk_text] works on after [_normalize_text] holds
    no white space character other than the space, in particular no line
    break, so the split on paragraph breaks never splits: whatever the
    text, it is chunked as a single paragraph.  The call returns for
    every text and every choice of thresholds, and each chunk it returns
    has, stripped, at least [min_size] characters. *)
Theorem natural_chunk_text_one_paragraph (self : NaturalSpeechChunker.t) (text : str) :
  let normalized := NaturalSpeechChunker._normalize_text text in
  Forall (fun c => Py.isspace c = true -> c = " "%char) normalized
  /\ Re.split NaturalSpeechChunker.paragraph_breaks 0 normalized = [normalized]
  /\ NaturalSpeechChunker.natural_chunk_text self text
     = (if Py.truthy normalized
        then option_map (filter (NaturalSpeechChunker.long_enough self))
               (NaturalSpeechChunker._chunk_paragraph_naturally self normalized)
        else Some [])
  /\ exists chunks,
       NaturalSpeechChunker.natural_chunk_text self text = Some chunks
       /\ Forall (fun chunk => NaturalSpeechChunker.min_size self
                               <= Py.len (Py.strip chunk)) chunks.
Proof.
  cbv zeta. pose proof (natural_normalize_only_spaces text) as H.
  pose proof (only_spaces_no_newline _ H) as Hnl.
  assert (Hsplit : Re.split NaturalSpeechChunker.paragraph_breaks 0
                     (NaturalSpeechChunker._normalize_text text)
                   = [NaturalSpeechChunker._normalize_text text]).
  { change NaturalSpeechChunker.paragraph_breaks with SmartChunker.paragraph_breaks.
    apply split_no_newline, Hnl. }
  assert (E : NaturalSpeechChunker.natural_chunk_text self text
              = (if Py.truthy (NaturalSpeechChunker._normalize_text text)
                 then option_map (filter (NaturalSpeechChunker.long_enough self))
                        (NaturalSpeechChunker._chunk_paragraph_naturally self
                           (NaturalSpeechChunker._normalize_text text))
                 else Some [])).
  { unfold NaturalSpeechChunker.natural_chunk_text. cbv zeta.
    rewrite Hsplit. cbn [NaturalSpeechChunker.each_paragraph].
    rewrite only_spaces_strip_fixed.
    destruct (Py.truthy (NaturalSpeechChunker._normalize_text text)); cbn [negb];
      [|reflexivity].
    destruct (NaturalSpeechChunker._chunk_paragraph_naturally self _); reflexivity. }
  split; [exact H|]. split; [exact Hsplit|]. split; [exact E|].
  rewrite E.
  destruct (Py.truthy (NaturalSpeechChunker._normalize_text text)).
  - destruct (natural_chunk_paragraph_returns self
                (NaturalSpeechChunker._normalize_text text)) as [r ->].
    eexists. split; [reflexivity|].
    apply Forall_forall. intros c Hin. apply filter_In in Hin as [_ Hlong].
    apply Z.leb_le. exact Hlong.
  - exists []. split; [reflexivity|constructor].
Qed.

(** ** The gold standard engine keeps the text *)

(** *** Cutting a protected text *)

Section Pieces.

Import Py Re GoldStandardChunker.

Lemma space_not_word (c : ascii) : isspace c = true -> isword c = false.
Proof.
  intros H. destruct (isword c) eqn:E; [|reflexivity].
  assert (Hsub : class_sub isspace (fun x => negb (isword x)) = true)
    by (vm_compute; reflexivity).
  pose proof (class_sub_sound _ _ Hsub c H) as Hn. cbv beta in Hn.
  rewrite E in Hn. discriminate.
Qed.

Lemma blank_starts (s : str) : blank s = true -> word_at s = false.
Proof.
  destruct s as [|c s]; [reflexivity|]. cbn [blank forallb word_at].
  intros H. apply andb_true_iff in H as [H _]. apply space_not_word, H.
Qed.

Lemma blank_ends (s : str) : blank s = true -> word_at (rev s) = false.
Proof. intros H. apply blank_starts. rewrite blank_rev. exact H. Qed.

(** A cut that does not fall between two word characters. *)
Definition safe_cut (x y : str) : Prop :=
  word_at (rev x) = false \/ word_at y = false.

Lemma safe_cut_shift (s l y : str) : l <> [] -> safe_cut (s ++ l) y -> safe_cut l y.
Proof.
  intros Hl [H|H]; [left|right; exact H].
  rewrite rev_app_distr in H. destruct (rev l) eqn:E; [|exact H].
  apply (f_equal (@rev ascii)) in E. rewrite rev_involutive in E. contradiction.
Qed.

Lemma words_end (x : str) :
  x <> [] -> Forall (fun c => isword c = true) x -> word_at (rev x) = true.
Proof.
  intros Hne H. destruct (rev x) as [|c r] eqn:E.
  - apply (f_equal (@rev ascii)) in E. rewrite rev_involutive in E. contradiction.
  - cbn [word_at]. rewrite Forall_forall in H. apply H, in_rev. rewrite E. left.
    reflexivity.
Qed.

Lemma words_start (x : str) :
  x <> [] -> Forall (fun c => isword c = true) x -> forall y, word_at (x ++ y) = true.
Proof.
  intros Hne H y. destruct x as [|c x]; [contradiction|].
  inversion H; subst. assumption.
Qed.

(** A protected text cut at a safe place: each side is a protected text. *)
Lemma cut (segs : list seg) :
  forall x y,
    wf segs -> render segs = x ++ y -> safe_cut x y ->
    exists A B, render A = x /\ render B = y /\ wf A /\ wf B
                /\ original segs = original A ++ original B
                /\ keys segs = keys A ++ keys B
                /\ entries segs = entries A ++ entries B.
Proof.
  induction segs as [|[s|i j o] segs IH]; intros x y Hwf H Hsafe; cbn [render] in H.
  - symmetry in H. apply app_eq_nil in H as [-> ->]. exists [], []. auto 10.
  - inversion Hwf as [|? ? Hs Hrest]; subst.
    apply app_eq_app in H as [l [[-> ->]|[-> H]]].
    + cbn [clean_seg] in Hs. apply Forall_app in Hs as [Hx Hl].
      exists [Lit x], (Lit l :: segs). cbn [render original keys entries app].
      rewrite !app_nil_r, <- app_assoc. repeat split; auto.
      * constructor; [exact Hx|constructor].
      * constructor; assumption.
    + destruct l as [|c l].
      * cbn [app] in H. rewrite app_nil_r.
        exists [Lit s], segs. cbn [render original keys entries app].
        rewrite !app_nil_r. repeat split; auto. constructor; [exact Hs|constructor].
      * assert (Hsafe' : safe_cut (c :: l) y)
          by (eapply safe_cut_shift; [discriminate|exact Hsafe]).
        destruct (IH (c :: l) y Hrest H Hsafe')
          as [A [B [HA [HB [HwA [HwB [Ho [Hk He]]]]]]]].
        exists (Lit s :: A), B. cbn [render original keys entries].
        rewrite HA, Ho, Hk, He, <- app_assoc. repeat split; auto.
        constructor; assumption.
  - inversion Hwf as [|? ? Ho' Hrest]; subst.
    apply app_eq_app in H as [l [[E H]|[-> H]]].
    + destruct x as [|c x].
      * cbn [app] in E. subst l. exists [], (Ph i j o :: segs).
        cbn [render original keys entries app]. repeat split; auto. constructor.
      * destruct l as [|d l].
        -- rewrite app_nil_r in E. cbn [app] in H. subst y.
           exists [Ph i j o], segs. cbn [render original keys entries app].
           rewrite !app_nil_r. repeat split; auto. constructor; [exact Ho'|constructor].
        -- exfalso. pose proof (placeholder_words i j) as Hall. rewrite E in Hall.
           apply Forall_app in Hall as [Hx Hl].
           destruct Hsafe as [Hs|Hs].
           ++ rewrite (words_end (c :: x)) in Hs; [discriminate|discriminate|exact Hx].
           ++ rewrite H, (words_start (d :: l)) in Hs;
                [discriminate|discriminate|exact Hl].
    + destruct l as [|c l].
      * cbn [app] in H. rewrite app_nil_r.
        exists [Ph i j o], segs. cbn [render original keys entries app].
        rewrite !app_nil_r. repeat split; auto. constructor; [exact Ho'|constructor].
      * assert (Hsafe' : safe_cut (c :: l) y)
          by (eapply safe_cut_shift; [discriminate|exact Hsafe]).
        destruct (IH (c :: l) y Hrest H Hsafe')
          as [A [B [HA [HB [HwA [HwB [Ho [Hk He]]]]]]]].
        exists (Ph i j o :: A), B. cbn [render original keys entries app].
        rewrite HA, Ho, Hk, He, <- app_assoc. repeat split; auto.
        constructor; assumption.
Qed.

(** A protected text of white space only holds no placeholder. *)
Lemma blank_render (segs : list seg) :
  blank (render segs) = true -> original segs = render segs.
Proof.
  induction segs as [|[s|i j o] segs IH]; cbn [render original]; intros H.
  - reflexivity.
  - rewrite blank_app in H. apply andb_true_iff in H as [_ H]. rewrite (IH H).
    reflexivity.
  - exfalso. rewrite placeholder_unfold in H. cbn [app blank forallb] in H.
    discriminate.
Qed.

(** *** Restoring a piece of the protected text *)

Lemma placeholder_inj (i j a b : nat) :
  placeholder i j = placeholder a b -> i = a /\ j = b.
Proof.
  intros H. apply (placeholder_prefix i j a b []).
  rewrite app_nil_r, <- H. rewrite <- (app_nil_r (placeholder i j)) at 2.
  apply startswith_refl_app.
Qed.

Lemma entries_keys (segs : list seg) (i j : nat) (o : str) :
  In (placeholder i j, o) (entries segs) -> In (i, j) (keys segs).
Proof.
  induction segs as [|[s|a b o'] segs IH]; cbn [entries keys]; intros H.
  - contradiction.
  - auto.
  - destruct H as [E|H]; [|right; auto].
    apply pair_equal_spec in E as [E _]. apply placeholder_inj in E as [-> ->]. left. reflexivity.
Qed.

Lemma keys_split (segs : list seg) (i j : nat) :
  In (i, j) (keys segs) -> exists a o b, segs = a ++ Ph i j o :: b.
Proof.
  induction segs as [|[s|x y o'] segs IH]; cbn [keys]; intros H.
  - contradiction.
  - destruct (IH H) as [a [o [b ->]]]. exists (Lit s :: a), o, b. reflexivity.
  - destruct H as [E|H].
    + injection E as -> ->. exists [], o', segs. reflexivity.
    + destruct (IH H) as [a [o [b ->]]]. exists (Ph x y o' :: a), o, b. reflexivity.
Qed.

(** A key stands for one text. *)
Lemma entries_functional (segs : list seg) (i j : nat) (o o' : str) :
  NoDup (keys segs) ->
  In (placeholder i j, o) (entries segs) -> In (placeholder i j, o') (entries segs) ->
  o = o'.
Proof.
  induction segs as [|[s|a b o0] segs IH]; cbn [entries keys]; intros Hnd H H'.
  - contradiction.
  - auto.
  - inversion Hnd as [|? ? Hnot Hnd']; subst.
    destruct H as [E|H], H' as [E'|H'].
    + apply pair_equal_spec in E as [_ E]. apply pair_equal_spec in E' as [_ E'].
      congruence.
    + apply pair_equal_spec in E as [E _]. apply placeholder_inj in E as [-> ->].
      exfalso. apply Hnot. eapply entries_keys. exact H'.
    + apply pair_equal_spec in E' as [E' _]. apply placeholder_inj in E' as [-> ->].
      exfalso. apply Hnot. eapply entries_keys. exact H.
    + auto.
Qed.

Lemma in_dec_key (k : nat * nat) (l : list (nat * nat)) : {In k l} + {~ In k l}.
Proof.
  apply in_dec. intros [a b] [c d].
  destruct (Nat.eq_dec a c) as [->|Ha]; [|right; congruence].
  destruct (Nat.eq_dec b d) as [->|Hb]; [left; reflexivity|right; congruence].
Qed.

(** Restoring a piece of the protected text with the whole map gives the
    text the piece stands for. *)
Lemma restore_piece (map : protection_map) :
  forall whole piece,
    wf whole -> NoDup (keys whole) -> Permutation map (entries whole) ->
    wf piece -> NoDup (keys piece) -> incl (entries piece) (entries whole) ->
    restore_abbreviations (render piece) map = original piece.
Proof.
  induction map as [|[ph o] map IH]; intros whole piece Hww Hnw Hperm Hwp Hnp Hincl;
    cbn [restore_abbreviations].
  - apply Permutation_nil in Hperm. apply no_entries.
    rewrite Hperm in Hincl. destruct (entries piece) as [|e es]; [reflexivity|].
    exfalso. exact (Hincl e (or_introl eq_refl)).
  - assert (Hin : In (ph, o) (entries whole)).
    { eapply Permutation_in; [exact Hperm|]. left. reflexivity. }
    destruct (entries_split ph o whole Hin) as [a [i [j [b [-> ->]]]]].
    assert (Hww' : wf (a ++ Lit o :: b)).
    { unfold wf in *. rewrite Forall_app in *. destruct Hww as [Ha Hb].
      inversion Hb; subst. split; [assumption|]. constructor; assumption. }
    assert (Hnw' : NoDup (keys (a ++ Lit o :: b))).
    { rewrite keys_app in *. cbn [keys] in *. eapply NoDup_remove_1. exact Hnw. }
    assert (Hperm' : Permutation map (entries (a ++ Lit o :: b))).
    { rewrite entries_app in *. cbn [entries] in *.
      eapply Permutation_cons_app_inv. exact Hperm. }
    assert (Hother : forall x y o', In (placeholder x y, o') (entries (a ++ Ph i j o :: b)) ->
                       (x, y) <> (i, j) ->
                       In (placeholder x y, o') (entries (a ++ Lit o :: b))).
    { intros x y o' H Hne. rewrite entries_app in *. cbn [entries] in *.
      apply in_app_or in H. apply in_or_app. destruct H as [H|[H|H]]; auto.
      apply pair_equal_spec in H as [H _]. apply placeholder_inj in H as [-> ->]. congruence. }
    destruct (in_dec_key (i, j) (keys piece)) as [Hk|Hk].
    + destruct (keys_split piece i j Hk) as [pa [o' [pb ->]]].
      assert (o' = o).
      { apply (entries_functional (a ++ Ph i j o :: b) i j o' o Hnw); [|exact Hin].
        apply Hincl. rewrite entries_app. apply in_or_app. right. left. reflexivity. }
      subst o'. rewrite (replace_present i j o pa pb Hwp Hnp).
      rewrite (IH (a ++ Lit o :: b) (pa ++ Lit o :: pb) Hww' Hnw' Hperm').
      * rewrite !original_app. reflexivity.
      * unfold wf in *. rewrite Forall_app in *. destruct Hwp as [Ha Hb].
        inversion Hb; subst. split; [assumption|]. constructor; assumption.
      * rewrite keys_app in *. cbn [keys] in *. eapply NoDup_remove_1. exact Hnp.
      * intros [e eo] He.
        assert (He' : In (e, eo) (entries (pa ++ Ph i j o :: pb))).
        { rewrite entries_app in *. cbn [entries] in *.
          apply in_app_or in He. apply in_or_app. destruct He; auto. right. right.
          assumption. }
        destruct (entries_split e eo _ He') as [qa [x [y [qb [Eq ->]]]]].
        apply Hother; [apply Hincl; exact He'|].
        intros Exy. injection Exy as -> ->.
        rewrite keys_app in Hnp. cbn [keys] in Hnp. apply NoDup_remove_2 in Hnp.
        apply Hnp. apply entries_keys in He. rewrite keys_app in He.
        cbn [keys] in He. exact He.
    + unfold replace. rewrite (replace_absent i j o piece Hwp Hk).
      apply (IH (a ++ Lit o :: b) piece Hww' Hnw' Hperm' Hwp Hnp).
      intros [e eo] He.
      destruct (entries_split e eo _ He) as [qa [x [y [qb [Eq ->]]]]].
      apply Hother; [apply Hincl; exact He|].
      intros Exy. injection Exy as -> ->. apply Hk. eapply entries_keys. exact He.
Qed.

(** A piece of the protected text, stripped and restored, holds what the
    piece stands for. *)
Lemma piece_content (map : protection_map) (whole piece : list seg) :
  wf whole -> NoDup (keys whole) -> Permutation map (entries whole) ->
  wf piece -> NoDup (keys piece) -> incl (entries piece) (entries whole) ->
  nonspace (restore_abbreviations (strip (render piece)) map) = nonspace (original piece).
Proof.
  intros Hww Hnw Hperm Hwp Hnp Hincl.
  destruct (lstrip_split (render piece)) as [l [El Bl]].
  destruct (rstrip_split (lstrip (render piece))) as [r [Er Br]].
  fold (strip (render piece)) in Er.
  destruct (cut piece l (lstrip (render piece)) Hwp El (or_introl (blank_ends l Bl)))
    as [L [M [HL [HM [HwL [HwM [Ho [Hk He]]]]]]]].
  rewrite Er in HM.
  destruct (cut M (strip (render piece)) r HwM HM (or_intror (blank_starts r Br)))
    as [C [R [HC [HR [HwC [HwR [Ho' [Hk' He']]]]]]]].
  rewrite <- HC.
  rewrite (restore_piece map whole C Hww Hnw Hperm HwC).
  - rewrite Ho, Ho', !nonspace_app.
    rewrite (blank_render L), (blank_render R) by (rewrite ?HL, ?HR; assumption).
    rewrite HL, HR, (nonspace_blank l Bl), (nonspace_blank r Br), app_nil_r.
    reflexivity.
  - rewrite Hk, Hk' in Hnp. apply NoDup_app_remove_l in Hnp.
    apply NoDup_app_remove_r in Hnp. exact Hnp.
  - intros e Hin. apply Hincl. rewrite He, He'. apply in_or_app. right.
    apply in_or_app. left. exact Hin.
Qed.

End Pieces.

(** *** Patterns whose two groups make up the match *)

Section TiledPatterns.

Import Py Re.

Lemma run_full (r : regex) :
  forall (R : Type) (k : cont R) pre rest cs res,
    run r k pre rest cs = Some res ->
    exists mid post added,
      rest = mid ++ post /\ matches r pre mid post
      /\ k (rev mid ++ pre) post (added ++ cs) = Some res
      /\ only_ids (group_ids r) added.
Proof.
  induction r as [|p|a IHa b IHb|a IHa b IHb|p|n a IHa|a IHa|a IHa| |];
    intros R k pre rest cs res H; cbn [run] in H; cbn [matches group_ids].
  - exists [], rest, []. repeat split; [exact H|constructor].
  - destruct rest as [|c rest]; [discriminate|].
    destruct (p c) eqn:Hc; [|discriminate].
    exists [c], rest, []. repeat split; [eauto|exact H|constructor].
  - apply IHa in H as [m1 [post1 [add1 [-> [Ha [H Hi1]]]]]].
    apply IHb in H as [m2 [post [add2 [-> [Hb [H Hi2]]]]]].
    exists (m1 ++ m2), post, (add2 ++ add1).
    rewrite rev_app_distr, <- !app_assoc. repeat split; [|exact H|].
    + exists m1, m2. auto.
    + apply Forall_app. split.
      * eapply only_ids_incl; [|exact Hi2]. apply incl_appr, incl_refl.
      * eapply only_ids_incl; [|exact Hi1]. apply incl_appl, incl_refl.
  - destruct (run a k pre rest cs) as [x|] eqn:E.
    + injection H as <-. apply IHa in E as [mid [post [add1 [-> [Ha [H Hi]]]]]].
      exists mid, post, add1. repeat split; [auto|exact H|].
      eapply only_ids_incl; [|exact Hi]. apply incl_appl, incl_refl.
    + apply IHb in H as [mid [post [add1 [-> [Hb [H Hi]]]]]].
      exists mid, post, add1. repeat split; [auto|exact H|].
      eapply only_ids_incl; [|exact Hi]. apply incl_appr, incl_refl.
  - apply star_sound in H as [mid [post [-> [Hall H]]]].
    exists mid, post, []. repeat split; [exact Hall|exact H|constructor].
  - apply IHa in H as [mid [post [add1 [-> [Ha [H Hi]]]]]].
    exists mid, post, ((n, (length pre, length (rev mid ++ pre))) :: add1).
    repeat split; [exact Ha|exact H|].
    constructor; [left; reflexivity|].
    eapply only_ids_incl; [|exact Hi]. apply incl_tl, incl_refl.
  - destruct (run a (fun _ _ _ => Some tt) pre rest cs) eqn:E; [|discriminate].
    apply IHa in E as [m [post' [add1 [-> [Ha _]]]]].
    exists [], (m ++ post'), []. repeat split; [eauto|exact H|constructor].
  - destruct (run a (fun _ _ _ => Some tt) pre rest cs); [discriminate|].
    exists [], rest, []. repeat split; [exact H|constructor].
  - destruct (at_boundary pre rest) eqn:E; [|discriminate].
    exists [], rest, []. repeat split; [exact E|exact H|constructor].
  - destruct (at_end rest) eqn:E; [|discriminate].
    exists [], rest, []. repeat split; [exact E|exact H|constructor].
Qed.

Definition no_groups (r : regex) : bool :=
  match group_ids r with [] => true | _ => false end.

Lemma no_groups_added (r : regex) (added : caps) :
  no_groups r = true -> only_ids (group_ids r) added -> added = [].
Proof.
  unfold no_groups. destruct (group_ids r); [|discriminate]. intros _ H.
  destruct added as [|kv added]; [reflexivity|].
  inversion H as [|? ? Hin _]. destruct Hin.
Qed.

(** Group 1, then white space as group 2, then at most a lookahead. *)
Definition tiles (a b : regex) : bool :=
  (no_groups a && no_groups b && consumesb ws b && (1 <=? min_len b)%nat)%bool.

Definition tiled (p : regex) : bool :=
  match p with
  | Seq (Group 1 a) (Group 2 b) => tiles a b
  | Seq (Group 1 a) (Seq (Group 2 b) (Ahead _)) => tiles a b
  | _ => false
  end.

Lemma blank_consumed (b : regex) (pre mid post : str) :
  consumesb ws b = true -> matches b pre mid post -> blank mid = true.
Proof.
  intros Hc Hm. apply consumesb_sound in Hc.
  pose proof (matches_consumes _ b Hc _ _ _ Hm) as Hall.
  unfold blank. apply forallb_forall. rewrite Forall_forall in Hall. exact Hall.
Qed.

Definition tiling (pre rest : str) (m : mobj) : Prop :=
  exists g1 g2 post,
    rest = g1 ++ g2 ++ post
    /\ mstart m = length pre
    /\ mend m = (length pre + length g1 + length g2)%nat
    /\ lookup 1 (mcaps m) = Some (length pre, (length pre + length g1)%nat)
    /\ lookup 2 (mcaps m)
       = Some ((length pre + length g1)%nat, (length pre + length g1 + length g2)%nat)
    /\ g2 <> [] /\ blank g2 = true.

Lemma tiles_match (a b : regex) (tail : cont mobj -> cont mobj) (pre rest : str)
    (m : mobj) :
  tiles a b = true ->
  (forall k pre' rest' cs res, tail k pre' rest' cs = Some res -> k pre' rest' cs = Some res) ->
  run a (fun pre1 rest1 cs1 =>
           run b (fun pre2 rest2 cs2 =>
                    tail (fun pre' _ cs => Some (MObj (length pre) (length pre') cs))
                         pre2 rest2 ((2%nat, (length pre1, length pre2)) :: cs2))
               pre1 rest1 ((1%nat, (length pre, length pre1)) :: cs1))
      pre rest [] = Some m ->
  tiling pre rest m.
Proof.
  unfold tiles. intros Hok Htail H.
  apply andb_true_iff in Hok as [Hok Hlen]. apply andb_true_iff in Hok as [Hok Hws].
  apply andb_true_iff in Hok as [Hna Hnb]. apply Nat.leb_le in Hlen.
  apply run_full in H as [g1 [post1 [add1 [-> [Ha [H Hi1]]]]]].
  apply (no_groups_added a add1 Hna) in Hi1. subst add1.
  apply run_full in H as [g2 [post [add2 [-> [Hb [H Hi2]]]]]].
  apply (no_groups_added b add2 Hnb) in Hi2. subst add2.
  apply Htail in H. injection H as <-.
  exists g1, g2, post. cbn [mstart mend mcaps lookup Nat.eqb app].
  rewrite !length_app, !length_rev.
  repeat split.
  - lia.
  - f_equal. apply pair_equal_spec. split; lia.
  - f_equal. apply pair_equal_spec. split; lia.
  - apply matches_min_len in Hb. intros ->. cbn in Hb. lia.
  - exact (blank_consumed b _ _ _ Hws Hb).
Qed.

Lemma tiled_match (p : regex) (pre rest : str) (m : mobj) :
  tiled p = true -> match_at p pre rest = Some m -> tiling pre rest m.
Proof.
  intros Hp H.
  destruct p as [| |p1 p2| | | | | | |]; try discriminate.
  destruct p1 as [| | | | |n a| | | |]; try discriminate.
  destruct n as [|[|n]]; try discriminate.
  destruct p2 as [| |q1 q2| | |n2 b| | | |]; try discriminate.
  - destruct q1 as [| | | | |n2 b| | | |]; try discriminate.
    destruct n2 as [|[|[|n2]]]; try discriminate.
    destruct q2 as [| | | | | |l| | |]; try discriminate.
    unfold match_at in H. cbn [run] in H. cbn [tiled] in Hp.
    apply (tiles_match a b
             (fun k pre' rest' cs =>
                match run l (fun _ _ _ => Some tt) pre' rest' cs with
                | Some _ => k pre' rest' cs
                | None => None
                end) pre rest m Hp); [|exact H].
    intros k pre' rest' cs res Hk.
    destruct (run l _ pre' rest' cs); [exact Hk|discriminate].
  - destruct n2 as [|[|[|n2]]]; try discriminate.
    unfold match_at in H. cbn [run] in H. cbn [tiled] in Hp.
    apply (tiles_match a b (fun k => k) pre rest m Hp); [auto|exact H].
Qed.

Lemma substr_second (a g1 g2 post : str) :
  substr (a ++ g1 ++ g2 ++ post) (length a + length g1)
    (length a + length g1 + length g2) = g2.
Proof.
  rewrite app_assoc, <- length_app. apply substr_middle.
Qed.

(** The matches of a tiled pattern in a subject. *)
Definition tiled_at (s : str) (m : mobj) : Prop :=
  exists a g1 g2 post,
    s = a ++ g1 ++ g2 ++ post
    /\ mstart m = length a
    /\ mend m = (length a + length g1 + length g2)%nat
    /\ group s m 1 = g1 /\ group s m 2 = g2
    /\ g2 <> [] /\ blank g2 = true.

Lemma tiled_finditer (p : regex) (s : str) (m : mobj) :
  tiled p = true -> In m (finditer p s) -> tiled_at s m.
Proof.
  intros Hp H. apply finditer_from_match_at in H as [pre [rest [Hm Heq]]].
  cbn [rev app] in Heq.
  destruct (tiled_match p pre rest m Hp Hm)
    as [g1 [g2 [post [-> [Hs [He [H1 [H2 [Hne Hb]]]]]]]]].
  exists (rev pre), g1, g2, post. rewrite length_rev.
  repeat split; auto.
  - unfold group. rewrite H1, <- Heq, <- (length_rev pre). apply substr_middle.
  - unfold group. rewrite H2, <- Heq, <- (length_rev pre). apply substr_second.
Qed.

End TiledPatterns.

(** *** The loops of [split_into_sentences] *)

Section SentenceLoops.

Import Py Re GoldStandardChunker.

Variable map : protection_map.
Variable whole : list seg.

Hypothesis whole_wf : wf whole.
Hypothesis whole_keys : NoDup (keys whole).
Hypothesis whole_map : Permutation map (entries whole).

(** A sentence is added when, stripped, it is not empty. *)
Definition flushed (acc : list str) (piece : str) : list str :=
  if truthy (strip piece)
  then acc ++ [restore_abbreviations (strip piece) map]
  else acc.

Lemma flushed_content (acc : list str) (piece : list seg) :
  wf piece -> NoDup (keys piece) -> incl (entries piece) (entries whole) ->
  nonspace (concat (flushed acc (render piece)))
  = nonspace (concat acc) ++ nonspace (original piece).
Proof.
  intros Hw Hn Hi. unfold flushed. rewrite truthy_strip.
  destruct (blank (render piece)) eqn:B; cbn [negb].
  - rewrite (blank_render piece B), (nonspace_blank _ B), app_nil_r. reflexivity.
  - rewrite nonspace_concat_app. cbn [concat]. rewrite app_nil_r.
    rewrite (piece_content map whole piece whole_wf whole_keys whole_map Hw Hn Hi).
    reflexivity.
Qed.

Lemma mod3_next (i : nat) :
  (i mod 3 = 0 -> S i mod 3 = 1 /\ S (S i) mod 3 = 2 /\ S (S (S i)) mod 3 = 0)%nat.
Proof.
  intros H.
  pose proof (Nat.div_mod_eq i 3) as E. rewrite H, Nat.add_0_r in E.
  set (k := (i / 3)%nat) in E.
  repeat split.
  - replace (S i) with (1 + k * 3)%nat by lia.
    rewrite Nat.Div0.mod_add. reflexivity.
  - replace (S (S i)) with (2 + k * 3)%nat by lia.
    rewrite Nat.Div0.mod_add. reflexivity.
  - replace (S (S (S i))) with (0 + (S k) * 3)%nat by lia.
    rewrite Nat.Div0.mod_add. reflexivity.
Qed.

Lemma standard_triple (i : nat) (t g1 g2 : str) (rest acc : list str) :
  (i mod 3 = 0)%nat ->
  standard_loop map i (t :: g1 :: g2 :: rest) [] acc
  = standard_loop map (S (S (S i))) rest [] (flushed acc (t ++ g1)).
Proof.
  intros H. destruct (mod3_next i H) as [H1 [H2 _]].
  cbn [standard_loop]. rewrite H. cbn [standard_loop]. rewrite H1.
  cbn [standard_loop]. rewrite H2. reflexivity.
Qed.

Lemma standard_last (i : nat) (t : str) (acc : list str) :
  (i mod 3 = 0)%nat -> standard_loop map i [t] [] acc = (t, acc).
Proof. intros H. cbn [standard_loop]. rewrite H. reflexivity. Qed.

Lemma punctuation_triple (i : nat) (t g1 g2 : str) (rest acc : list str) :
  (i mod 3 = 0)%nat ->
  punctuation_loop map i (t :: g1 :: g2 :: rest) [] acc
  = punctuation_loop map (S (S (S i))) rest [] (flushed acc (t ++ g1)).
Proof.
  intros H. destruct (mod3_next i H) as [H1 [H2 _]].
  cbn [punctuation_loop]. rewrite H. cbn [punctuation_loop]. rewrite H1.
  cbn [punctuation_loop]. rewrite H2. reflexivity.
Qed.

Lemma punctuation_last (i : nat) (t : str) (acc : list str) :
  (i mod 3 = 0)%nat -> punctuation_loop map i [t] [] acc = (t, acc).
Proof. intros H. cbn [punctuation_loop]. rewrite H. reflexivity. Qed.

Lemma substr_prefix (a x : str) (last : nat) :
  (last <= length a)%nat -> substr (a ++ x) last (length a) = skipn last a.
Proof.
  intros H. unfold substr. rewrite skipn_app.
  replace (last - length a)%nat with 0%nat by lia. cbn [skipn].
  rewrite firstn_app, length_skipn, Nat.sub_diag. cbn [firstn].
  rewrite app_nil_r. apply firstn_all2. rewrite length_skipn. lia.
Qed.

Lemma skipn_prefix (a x : str) (last : nat) :
  (last <= length a)%nat -> skipn last (a ++ x) = skipn last a ++ x.
Proof.
  intros H. rewrite skipn_app. replace (last - length a)%nat with 0%nat by lia.
  reflexivity.
Qed.

Lemma skipn_past (a g1 g2 post : str) :
  skipn (length a + length g1 + length g2) (a ++ g1 ++ g2 ++ post) = post.
Proof.
  rewrite !app_assoc, <- !length_app. rewrite skipn_app, skipn_all, Nat.sub_diag.
  reflexivity.
Qed.

Section AnyLoop.

Variable loop : nat -> list str -> str -> list str -> str * list str.

Hypothesis loop_triple :
  forall i t g1 g2 rest acc,
    (i mod 3 = 0)%nat ->
    loop i (t :: g1 :: g2 :: rest) [] acc
    = loop (S (S (S i))) rest [] (flushed acc (t ++ g1)).

Hypothesis loop_last :
  forall i t acc, (i mod 3 = 0)%nat -> loop i [t] [] acc = (t, acc).

(** The loop over the parts of a split by a tiled pattern: the sentences
    hold what the protected text stands for. *)
Lemma loop_content (U : str) :
  forall ms last i acc rest,
    (i mod 3 = 0)%nat ->
    ordered last ms ->
    (forall m, In m ms -> tiled_at U m) ->
    render rest = skipn last U ->
    wf rest -> NoDup (keys rest) -> incl (entries rest) (entries whole) ->
    nonspace (concat (flushed (snd (loop i (split_at U 2 last ms) [] acc))
                              (fst (loop i (split_at U 2 last ms) [] acc))))
    = nonspace (concat acc) ++ nonspace (original rest).
Proof.
  induction ms as [|m ms IH]; intros last i acc rest Hi Hord Htiled Hr Hw Hn Hincl.
  - cbn [split_at]. rewrite (loop_last i _ acc Hi). cbn [fst snd].
    rewrite <- Hr. apply flushed_content; assumption.
  - cbn [ordered] in Hord. destruct Hord as [[Hlo _] Hord].
    destruct (Htiled m (or_introl eq_refl))
      as [a [g1 [g2 [post [HU [Hs [He [Hg1 [Hg2 [Hne Hb]]]]]]]]]].
    cbn [split_at seq List.map app]. rewrite Hg1, Hg2, Hs.
    rewrite Hs in Hlo.
    assert (Et : substr U last (length a) = skipn last a)
      by (rewrite HU; apply substr_prefix; exact Hlo).
    rewrite Et, (loop_triple i _ g1 g2 _ acc Hi).
    assert (Erest : render rest = (skipn last a ++ g1) ++ g2 ++ post).
    { rewrite Hr, HU, (skipn_prefix a _ last Hlo), <- app_assoc. reflexivity. }
    assert (Hstart : word_at (g2 ++ post) = false).
    { destruct g2 as [|c g2]; [congruence|]. exact (blank_starts (c :: g2) Hb). }
    destruct (cut rest _ _ Hw Erest (or_intror Hstart))
      as [X1 [X2 [HX1 [HX2 [HwX1 [HwX2 [Ho [Hk Hen]]]]]]]].
    destruct (cut X2 g2 post HwX2 HX2 (or_introl (blank_ends g2 Hb)))
      as [G [X' [HG [HX' [HwG [HwX' [Ho' [Hk' Hen']]]]]]]].
    rewrite Hk, Hk' in Hn.
    rewrite (IH (mend m) (S (S (S i))) _ X').
    + rewrite <- HX1, (flushed_content acc X1 HwX1).
      * rewrite Ho, Ho', !nonspace_app, (blank_render G) by (rewrite HG; exact Hb).
        rewrite HG, (nonspace_blank g2 Hb). cbn [app]. rewrite app_assoc. reflexivity.
      * apply NoDup_app_remove_r in Hn. exact Hn.
      * intros e Hin. apply Hincl. rewrite Hen. apply in_or_app. left. exact Hin.
    + destruct (mod3_next i Hi) as [_ [_ H3]]. exact H3.
    + exact Hord.
    + intros m' Hin. apply Htiled. right. exact Hin.
    + rewrite HX', He, HU. symmetry. apply skipn_past.
    + exact HwX'.
    + apply NoDup_app_remove_l in Hn. apply NoDup_app_remove_l in Hn. exact Hn.
    + intros e Hin. apply Hincl. rewrite Hen, Hen'. apply in_or_app. right.
      apply in_or_app. right. exact Hin.
Qed.

End AnyLoop.

Lemma nonspace_filter_nonblank (l : list str) :
  nonspace (concat (filter (fun s => truthy (strip s)) l)) = nonspace (concat l).
Proof.
  induction l as [|x l IH]; [reflexivity|]. cbn [filter concat].
  rewrite truthy_strip. destruct (blank x) eqn:B; cbn [negb].
  - rewrite nonspace_app, (nonspace_blank x B). exact IH.
  - cbn [concat]. rewrite !nonspace_app, IH. reflexivity.
Qed.

Lemma finditer_ordered (r : regex) (s : str) : ordered 0 (finditer r s).
Proof. exact (finditer_from_ordered r s [] 0%nat). Qed.

Lemma standard_split_content (lang : language) :
  tiled (sentence_endings lang) = true ->
  nonspace (concat (standard_split map lang (render whole))) = nonspace (original whole).
Proof.
  intros Ht. unfold standard_split, split.
  pose proof (loop_content (standard_loop map) standard_triple standard_last
                (render whole) (finditer (sentence_endings lang) (render whole))
                0%nat 0%nat [] whole eq_refl (finditer_ordered _ _)
                (fun m Hin => tiled_finditer _ _ m Ht Hin) eq_refl
                whole_wf whole_keys (incl_refl _)) as H.
  destruct (standard_loop map 0 _ [] []) as [cur sents]. cbn [fst snd] in H.
  cbv zeta. rewrite nonspace_filter_nonblank. exact H.
Qed.

Lemma punctuation_split_content (pattern : regex * nat) :
  tiled (fst pattern) = true -> snd pattern = 2%nat ->
  nonspace (concat (punctuation_split map pattern (render whole)))
  = nonspace (original whole).
Proof.
  intros Ht H2. unfold punctuation_split, split. rewrite H2.
  pose proof (loop_content (punctuation_loop map) punctuation_triple punctuation_last
                (render whole) (finditer (fst pattern) (render whole))
                0%nat 0%nat [] whole eq_refl (finditer_ordered _ _)
                (fun m Hin => tiled_finditer _ _ m Ht Hin) eq_refl
                whole_wf whole_keys (incl_refl _)) as H.
  destruct (punctuation_loop map 0 _ [] []) as [cur sents]. cbn [fst snd] in H.
  exact H.
Qed.

Lemma try_punctuation_content (lang : language) :
  tiled (sentence_endings lang) = true ->
  forall patterns,
    Forall (fun p => (tiled (fst p) = true /\ snd p = 2%nat)
                     \/ finditer (fst p) (render whole) = []) patterns ->
    nonspace (concat (try_punctuation map lang patterns (render whole)))
    = nonspace (original whole).
Proof.
  intros Hs. induction patterns as [|p rest IH]; intros Hp; cbn [try_punctuation].
  - apply standard_split_content, Hs.
  - inversion Hp as [|? ? Hp1 Hrest]; subst.
    destruct Hp1 as [[Ht H2]|Hnone].
    + destruct (search (fst p) (render whole)); [|auto].
      destruct (punctuation_split map p (render whole)) as [|s0 ss] eqn:E; [auto|].
      rewrite <- E. apply punctuation_split_content; assumption.
    + unfold search. rewrite Hnone. cbn [hd_error]. auto.
Qed.

End SentenceLoops.

(** *** split_into_sentences and gold_standard_chunk_text *)

Section GoldContent.

Import Py Re GoldStandardChunker.

Definition no_semicolon (s : str) : Prop := Forall (fun c => c <> ";"%char) s.

Lemma sentence_endings_tiled (lang : language) : tiled (sentence_endings lang) = true.
Proof. destruct lang; vm_compute; reflexivity. Qed.

(** The characters of a protected text are those of the text it stands
    for and those of placeholders. *)
Lemma render_chars (P : ascii -> Prop) (segs : list seg) :
  (forall i j, Forall P (placeholder i j)) ->
  Forall P (original segs) -> Forall P (render segs).
Proof.
  intros Hph. induction segs as [|[s|i j o] segs IH]; cbn [render original]; intros H.
  - constructor.
  - apply Forall_app in H as [Hs Hrest]. apply Forall_app. auto.
  - apply Forall_app in H as [_ Hrest]. apply Forall_app. auto.
Qed.

Lemma placeholder_no_semicolon (i j : nat) : no_semicolon (placeholder i j).
Proof.
  eapply Forall_impl; [|apply placeholder_words].
  intros c Hc E. subst c. discriminate.
Qed.

(** The third class of break needs a semicolon. *)
Lemma semicolon_class_needs_semicolon (pattern : regex * nat) (s : str) :
  nth_error punctuation_breaks 2 = Some pattern ->
  no_semicolon s -> finditer (fst pattern) s = [].
Proof.
  intros Hp Hs. cbn [nth_error punctuation_breaks] in Hp. injection Hp as <-.
  cbn [fst]. unfold finditer.
  apply (finditer_from_nomatch _ (fun c => c <> ";"%char)); [|exact Hs].
  intros pre rest Hrest.
  match goal with |- match_at ?r pre rest = None =>
    destruct (match_at r pre rest) as [m|] eqn:E; [|reflexivity]
  end.
  apply match_at_sound in E as [mid [post [-> [Hm _]]]].
  cbn [seqs matches] in Hm.
  destruct Hm as [m1 [m2 [-> [[c [-> Hc]] _]]]].
  unfold chr in Hc. apply Ascii.eqb_eq in Hc. subst c.
  inversion Hrest as [|? ? Hne _]. congruence.
Qed.

Lemma punctuation_breaks_cases (s : str) :
  no_semicolon s ->
  Forall (fun p => (tiled (fst p) = true /\ snd p = 2%nat) \/ finditer (fst p) s = [])
         punctuation_breaks.
Proof.
  intros Hs.
  assert (H3 : exists p3, nth_error punctuation_breaks 2 = Some p3) by (eexists; reflexivity).
  destruct H3 as [p3 H3].
  pose proof (semicolon_class_needs_semicolon p3 s H3 Hs) as Hnone.
  cbn [nth_error punctuation_breaks] in H3. injection H3 as <-.
  unfold punctuation_breaks.
  constructor; [left; split; [vm_compute; reflexivity|reflexivity]|].
  constructor; [left; split; [vm_compute; reflexivity|reflexivity]|].
  constructor; [right; exact Hnone|constructor].
Qed.

Lemma split_into_sentences_content (text : str) (lang : language) :
  clean text -> no_semicolon text ->
  nonspace (concat (split_into_sentences text lang)) = nonspace text.
Proof.
  intros Hc Hs. unfold split_into_sentences, protect_abbreviations.
  destruct (protect_patterns_protects text (abbreviations lang) 0 text []
              (abbreviations_shape lang) (protects_start text Hc)) as [i' [j' Hp]].
  destruct (protect_patterns 0 (abbreviations lang) text []) as [U map].
  cbn [fst snd] in Hp.
  destruct Hp as [segs [-> [Hwf [Hnd [Hperm [Ho _]]]]]].
  rewrite <- Ho.
  apply (try_punctuation_content map segs Hwf Hnd Hperm lang (sentence_endings_tiled lang)).
  apply punctuation_breaks_cases.
  apply render_chars; [exact placeholder_no_semicolon|].
  rewrite Ho. exact Hs.
Qed.

(** The loop of [gold_standard_chunk_text] over the sentences. *)
Lemma nonspace_flush (chunks : list str) (current_chunk : str) :
  nonspace (concat (flush chunks current_chunk))
  = nonspace (concat chunks) ++ nonspace current_chunk.
Proof.
  unfold flush. destruct current_chunk as [|c s]; cbn [truthy].
  - cbn [nonspace filter]. rewrite app_nil_r. reflexivity.
  - rewrite nonspace_concat_app. cbn [concat]. rewrite app_nil_r, nonspace_strip.
    reflexivity.
Qed.

Lemma nonspace_potential (current_chunk sentence : str) :
  nonspace (potential current_chunk sentence)
  = nonspace current_chunk ++ nonspace sentence.
Proof.
  unfold potential. rewrite !nonspace_app.
  destruct (truthy current_chunk); reflexivity.
Qed.

Lemma chunk_long_sentence_content (self : t) (sentence : str) (r : list str) :
  chunk_long_sentence self sentence = Some r ->
  nonspace (concat r) = nonspace sentence.
Proof.
  unfold chunk_long_sentence, chunk_long_sentence_fuel.
  destruct (comma_split self sentence) as [parts|] eqn:E.
  - intros H. injection H as <-. exact (gold_comma_split_content self _ _ E).
  - destruct (len sentence <=? max_size self).
    + intros H. injection H as <-. cbn [concat]. rewrite app_nil_r. reflexivity.
    + intros H. apply gold_split_loop_content in H. exact H.
Qed.

Lemma assemble_content (self : t) :
  forall sentences chunks current_chunk chunks' current',
    assemble self sentences chunks current_chunk = Some (chunks', current') ->
    nonspace (concat chunks') ++ nonspace current'
    = nonspace (concat chunks) ++ nonspace current_chunk
        ++ nonspace (concat sentences).
Proof.
  induction sentences as [|sentence rest IH]; intros chunks cur chunks' cur' H;
    cbn [assemble] in H.
  - injection H as <- <-. cbn [concat nonspace filter]. rewrite app_nil_r. reflexivity.
  - cbv zeta in H. cbn [concat]. rewrite nonspace_app.
    rewrite <- (nonspace_strip sentence).
    set (s := strip sentence) in *.
    assert (Hlong : forall r, chunk_long_sentence self s = Some r ->
              assemble self rest (flush chunks cur ++ r) [] = Some (chunks', cur') ->
              nonspace (concat chunks') ++ nonspace cur'
              = nonspace (concat chunks) ++ nonspace cur
                  ++ nonspace s ++ nonspace (concat rest)).
    { intros r Hr Ha. apply IH in Ha. rewrite Ha.
      rewrite nonspace_concat_app, nonspace_flush, (chunk_long_sentence_content _ _ _ Hr).
      cbn [nonspace filter app]. rewrite <- !app_assoc. reflexivity. }
    assert (Hother :
              (if ((len (potential cur s) <=? target_size self)
                   || negb (truthy cur))%bool
               then assemble self rest chunks (potential cur s)
               else assemble self rest (chunks ++ [strip cur]) s)
              = Some (chunks', cur') ->
              nonspace (concat chunks') ++ nonspace cur'
              = nonspace (concat chunks) ++ nonspace cur
                  ++ nonspace s ++ nonspace (concat rest)).
    { destruct (_ || _)%bool; intros Ha; apply IH in Ha; rewrite Ha.
      - rewrite nonspace_potential, <- !app_assoc. reflexivity.
      - rewrite nonspace_concat_app. cbn [concat].
        rewrite app_nil_r, nonspace_strip, <- !app_assoc. reflexivity. }
    destruct (truthy s) eqn:Et; cbn [negb] in H.
    + destruct (max_size self <? len s).
      { destruct (chunk_long_sentence self s) as [r|] eqn:Er; [|discriminate].
        exact (Hlong r eq_refl H). }
      destruct (prefer_sentence_boundaries self); [|exact (Hother H)].
      destruct (_ && _)%bool.
      { apply IH in H. rewrite H, nonspace_potential, <- !app_assoc. reflexivity. }
      destruct (_ && _)%bool.
      { apply IH in H. rewrite H, nonspace_concat_app, nonspace_flush.
        cbn [concat nonspace filter app]. rewrite app_nil_r, <- !app_assoc.
        reflexivity. }
      destruct (target_size self <=? len s); [|exact (Hother H)].
      destruct (chunk_long_sentence self s) as [r|] eqn:Er; [|discriminate].
      exact (Hlong r eq_refl H).
    + apply IH in H. rewrite H. destruct s; [|discriminate]. reflexivity.
Qed.

Lemma chunk_text_content (self : t) (text : str) (chunks : list str) :
  gold_standard_chunk_text self text = Some chunks ->
  nonspace (concat (split_into_sentences text (detect_language text))) = nonspace text ->
  nonspace (concat chunks) = nonspace text.
Proof.
  unfold gold_standard_chunk_text. intros H Hs.
  rewrite truthy_strip, negb_involutive in H.
  destruct (blank text) eqn:B.
  - injection H as <-. rewrite (nonspace_blank text B). reflexivity.
  - assert (Hone : nonspace (concat [strip text]) = nonspace text).
    { cbn [concat]. rewrite app_nil_r. apply nonspace_strip. }
    destruct (split_into_sentences text (detect_language text)) as [|s0 ss] eqn:E.
    + injection H as <-. exact Hone.
    + destruct (assemble self (s0 :: ss) [] []) as [[chunks' cur']|] eqn:Ea;
        [|discriminate].
      injection H as <-. apply assemble_content in Ea.
      cbn [concat nonspace filter app] in Ea. fold (nonspace (s0 ++ concat ss)) in Ea.
      set (final := if truthy (strip cur') then chunks' ++ [strip cur'] else chunks').
      assert (Hfinal : nonspace (concat final) = nonspace text).
      { rewrite <- Hs. cbn [concat]. rewrite <- Ea. unfold final.
        rewrite truthy_strip. destruct (blank cur') eqn:Bc; cbn [negb].
        - rewrite (nonspace_blank cur' Bc), app_nil_r. reflexivity.
        - rewrite nonspace_concat_app. cbn [concat].
          rewrite app_nil_r, nonspace_strip. reflexivity. }
      destruct final as [|c0 cs]; [|exact Hfinal].
      exact Hone.
Qed.

Lemma clean_of_absent (text : str) : ~ In "_"%char text -> clean text.
Proof. intros H. apply Forall_forall. intros c Hin ->. exact (H Hin). Qed.

Lemma no_semicolon_of_absent (text : str) : ~ In ";"%char text -> no_semicolon text.
Proof. intros H. apply Forall_forall. intros c Hin ->. exact (H Hin). Qed.

End GoldContent.

(** For a text that holds no underscore and no semicolon, and for each
    language, the sentences of [split_into_sentences] hold, in order,
    exactly the characters of the text that are not white space: the
    protection of abbreviations, the split and the restoring together
    drop and add nothing but white space. *)
Theorem gold_split_into_sentences_keeps_content (text : str)
    (lang : GoldStandardChunker.language) :
  ~ In "_"%char text -> ~ In ";"%char text ->
  nonspace (concat (GoldStandardChunker.split_into_sentences text lang)) = nonspace text.
Proof.
  intros Hu Hs. apply split_into_sentences_content.
  - apply clean_of_absent, Hu.
  - apply no_semicolon_of_absent, Hs.
Qed.

Lemma gold_split_into_sentences_keeps_content_witness :
  let text := s_ "Dr. Smith arrived!  (He was late.) We started at once. It went well" in
  GoldStandardChunker.split_into_sentences text GoldStandardChunker.english
  = [s_ "Dr. Smith arrived!  (He was late.)"; s_ "We started at once. It went well"]
  /\ nonspace (concat (GoldStandardChunker.split_into_sentences text
                         GoldStandardChunker.english))
     = nonspace text.
Proof.
  cbv zeta. split; [vm_compute; reflexivity|].
  apply gold_split_into_sentences_keeps_content; apply absent_by_eqb; vm_compute;
    reflexivity.
Defined.

(** For a text that holds no underscore and no semicolon, and a positive
    [max_size], [gold_standard_chunk_text] returns, and its chunks hold,
    in order, exactly the characters of the text that are not white
    space: the engine drops nothing, adds nothing and reorders nothing. *)
Theorem gold_chunk_text_keeps_content (self : GoldStandardChunker.t) (text : str) :
  0 < GoldStandardChunker.max_size self ->
  ~ In "_"%char text -> ~ In ";"%char text ->
  exists chunks,
    GoldStandardChunker.gold_standard_chunk_text self text = Some chunks
    /\ nonspace (concat chunks) = nonspace text.
Proof.
  intros Hmax Hu Hs.
  destruct (gold_standard_chunk_text_total self text Hmax) as [chunks [E _]].
  exists chunks. split; [exact E|].
  apply (chunk_text_content self text chunks E).
  apply split_into_sentences_content.
  - apply clean_of_absent, Hu.
  - apply no_semicolon_of_absent, Hs.
Qed.

Lemma gold_chunk_text_keeps_content_witness :
  let text := s_ "Dr. Smith arrived!  (He was late.) We started at once. It went well" in
  exists chunks,
    GoldStandardChunker.gold_standard_chunk_text (GoldStandardChunker.Self 30 40 true 10) text
    = Some chunks
    /\ nonspace (concat chunks) = nonspace text.
Proof.
  cbv zeta. apply gold_chunk_text_keeps_content.
  - simpl. lia.
  - apply absent_by_eqb. vm_compute. reflexivity.
  - apply absent_by_eqb. vm_compute. reflexivity.
Defined.

(** ** smart_chunking.py: sentences and paragraphs *)

Section SmartSentences.

Import Py Re SmartChunker.

(** Every sentence mark of the text stands right after a character that
    is not white space. *)
Definition marks_attached (s : str) : Prop :=
  forall a c post,
    s = a ++ c :: post -> enders c = true ->
    exists a' d, a = a' ++ [d] /\ isspace d = false.

(** The position is the start of the text or follows white space. *)
Definition after_space (s : str) (last : nat) : Prop :=
  last = 0%nat \/ exists p w, firstn last s = p ++ [w] /\ isspace w = true.

Lemma forallb_last (p : ascii -> bool) (c : ascii) (x : str) :
  p c = true -> forallb p x = true ->
  exists y w, c :: x = y ++ [w] /\ p w = true.
Proof.
  revert c. induction x as [|d x IH]; intros c Hc Hx.
  - exists [], c. auto.
  - cbn [forallb] in Hx. apply andb_true_iff in Hx as [Hd Hx].
    destruct (IH d Hd Hx) as [y [w [E Hw]]].
    exists (c :: y), w. rewrite E. auto.
Qed.

(** A match of the sentence endings: it starts with a mark and ends with
    white space. *)
Definition ending_at (s : str) (m : mobj) : Prop :=
  exists a c x y w post,
    s = a ++ (c :: x) ++ post
    /\ c :: x = y ++ [w]
    /\ enders c = true /\ isspace w = true
    /\ mstart m = length a
    /\ mend m = (length a + length (c :: x))%nat
    /\ group0 s m = c :: x.

Lemma sentence_endings_shape (s : str) (m : mobj) :
  In m (finditer sentence_endings s) -> ending_at s m.
Proof.
  intros H. apply finditer_spans in H as [a [mid [post [-> [Hs [He Hm]]]]]].
  unfold sentence_endings, plus in Hm. cbn [matches] in Hm.
  destruct Hm as [m1 [m2 [-> [[e1 [e2 [-> [[c [-> Hc]] _]]]]
                               [w1 [w2 [-> [[w [-> Hw]] Hws]]]]]]]].
  destruct (forallb_last ws w w2 Hw Hws) as [y [w' [Ey Hw']]].
  cbn [app] in *.
  exists a, c, (e2 ++ w :: w2), (c :: e2 ++ y), w', post.
  split; [reflexivity|].
  split; [cbn [app]; rewrite <- app_assoc, <- Ey; reflexivity|].
  split; [exact Hc|]. split; [exact Hw'|]. split; [exact Hs|]. split; [exact He|].
  unfold group0. rewrite Hs, He.
  exact (substr_middle a (c :: e2 ++ w :: w2) post).
Qed.

Lemma split_at_nonempty (s : str) (ng last : nat) (ms : list mobj) :
  split_at s ng last ms <> [].
Proof. destruct ms; cbn [split_at]; discriminate. Qed.

Lemma removelast_cons (A : Type) (x : A) (l : list A) :
  l <> [] -> removelast (x :: l) = x :: removelast l.
Proof. destruct l; [congruence|reflexivity]. Qed.

Lemma last_cons (A : Type) (x : A) (l : list A) (d : A) :
  l <> [] -> last (x :: l) d = last l d.
Proof. destruct l; [congruence|reflexivity]. Qed.

(** What [_split_sentences] adds for the text after the last ending. *)
Definition with_last (result : list str) (piece : str) : list str :=
  if truthy (strip piece) then result ++ [strip piece] else result.

Lemma with_last_content (result : list str) (piece : str) :
  nonspace (concat (with_last result piece))
  = nonspace (concat result) ++ nonspace piece.
Proof.
  unfold with_last. rewrite truthy_strip. destruct (blank piece) eqn:B; cbn [negb].
  - rewrite (nonspace_blank piece B), app_nil_r. reflexivity.
  - rewrite nonspace_concat_app. cbn [concat]. rewrite app_nil_r, nonspace_strip.
    reflexivity.
Qed.

(** The text before an ending is not blank when the marks are attached. *)
Lemma before_ending_nonblank (s a : str) (c : ascii) (rest : str) (last : nat) :
  marks_attached s -> s = a ++ c :: rest -> enders c = true ->
  after_space s last -> (last <= length a)%nat ->
  blank (skipn last a) = false.
Proof.
  intros Hatt Hs Hc Hafter Hle.
  destruct (Hatt a c rest Hs Hc) as [a' [d [-> Hd]]].
  assert (Hlt : (last <= length a')%nat).
  { destruct Hafter as [->|[p [w [Ep Hw]]]]; [lia|].
    rewrite length_app in Hle. cbn [length] in Hle.
    destruct (Nat.eq_dec last (length a' + 1)) as [E|E]; [|lia].
    exfalso. rewrite Hs, E, <- app_assoc in Ep.
    replace (length a' + 1)%nat with (length (a' ++ [d])) in Ep
      by (rewrite length_app; reflexivity).
    rewrite app_assoc, firstn_exact in Ep.
    apply app_inj_tail in Ep as [_ ->]. congruence. }
  rewrite skipn_app. replace (last - length a')%nat with 0%nat by lia.
  cbn [skipn]. rewrite blank_app. cbn [blank forallb]. rewrite Hd.
  rewrite andb_false_r. reflexivity.
Qed.

Lemma rebuild_content (s : str) :
  marks_attached s ->
  forall ms last done result,
    ordered last ms ->
    (forall m, In m ms -> ending_at s m) ->
    after_space s last ->
    let sentences := split_at s 0 last ms in
    let parts := done ++ map (group0 s) ms in
    nonspace (concat (with_last
                        (rebuild (length done) (removelast sentences) parts result)
                        (List.last sentences [])))
    = nonspace (concat result) ++ nonspace (skipn last s).
Proof.
  intros Hatt. induction ms as [|m ms IH]; intros last done result Hord Hshape Hafter;
    cbv zeta; cbn [split_at seq map app].
  - cbn [removelast rebuild List.last]. apply with_last_content.
  - cbn [ordered] in Hord. destruct Hord as [[Hlo _] Hord].
    destruct (Hshape m (or_introl eq_refl))
      as [a [c [x [y [w [post [Hs [Ey [Hc [Hw [Hst [He Hg]]]]]]]]]]]].
    rewrite removelast_cons by apply split_at_nonempty.
    rewrite last_cons by apply split_at_nonempty.
    cbn [rebuild]. rewrite Hst in Hlo |- *.
    assert (Et : substr s last (length a) = skipn last a).
    { rewrite Hs at 1. apply substr_prefix. exact Hlo. }
    rewrite Et, truthy_strip.
    rewrite (before_ending_nonblank s a c (x ++ post) last Hatt Hs Hc Hafter Hlo).
    cbn [negb]. cbv zeta.
    rewrite app_nth2, Nat.sub_diag by lia. cbn [nth]. rewrite Hg.
    assert (Hshape' : forall m', In m' ms -> ending_at s m')
      by (intros m' Hin; apply Hshape; right; exact Hin).
    assert (Hafter' : after_space s (mend m)).
    { right. exists (a ++ y), w. split; [|exact Hw].
      rewrite He, Hs, app_assoc, <- length_app, firstn_exact, Ey, app_assoc.
      reflexivity. }
    pose proof (IH (mend m) (done ++ [c :: x])
                  (result ++ [strip (skipn last a) ++ strip (c :: x)])
                  Hord Hshape' Hafter') as Hrec.
    cbv zeta in Hrec. rewrite <- app_assoc, length_app, Nat.add_1_r in Hrec.
    cbn [app length] in Hrec. rewrite Hrec.
    rewrite nonspace_concat_app. cbn [concat].
    rewrite app_nil_r, nonspace_app, !nonspace_strip.
    assert (Epost : skipn (mend m) s = post).
    { rewrite He, Hs, app_assoc, <- length_app, skipn_app, skipn_all, Nat.sub_diag.
      reflexivity. }
    assert (Elast : skipn last s = skipn last a ++ (c :: x) ++ post).
    { rewrite Hs at 1. apply skipn_prefix. exact Hlo. }
    rewrite Epost, Elast, !nonspace_app, <- !app_assoc. reflexivity.
Qed.

Lemma split_sentences_content (paragraph : str) :
  marks_attached paragraph ->
  nonspace (concat (_split_sentences paragraph)) = nonspace paragraph.
Proof.
  intros Hatt. unfold _split_sentences, split, findall.
  pose proof (rebuild_content paragraph Hatt (finditer sentence_endings paragraph)
                0%nat [] [] (finditer_ordered _ _)
                (fun m Hin => sentence_endings_shape paragraph m Hin)
                (or_introl eq_refl)) as H.
  cbv zeta in H. cbn [app length] in H. exact H.
Qed.

(** The loop of [_chunk_paragraph] over the sentences. *)
Lemma smart_gather_content (self : t) :
  forall sentences chunks current_chunk chunks' current',
    gather self sentences chunks current_chunk = Some (chunks', current') ->
    nonspace (concat chunks') ++ nonspace current'
    = nonspace (concat chunks) ++ nonspace current_chunk
        ++ nonspace (concat sentences).
Proof.
  assert (Hflush : forall chunks cur,
            nonspace (concat (if truthy cur then chunks ++ [strip cur] else chunks))
            = nonspace (concat chunks) ++ nonspace cur).
  { intros chunks cur. destruct cur as [|c cur]; cbn [truthy].
    - cbn [nonspace filter]. rewrite app_nil_r. reflexivity.
    - rewrite nonspace_concat_app. cbn [concat]. rewrite app_nil_r, nonspace_strip.
      reflexivity. }
  induction sentences as [|sentence rest IH]; intros chunks cur chunks' cur' H;
    cbn [gather] in H.
  - injection H as <- <-. cbn [concat nonspace filter]. rewrite app_nil_r. reflexivity.
  - cbn [concat]. rewrite nonspace_app.
    destruct (max_size self <? len sentence).
    + cbv zeta in H.
      destruct (_force_split_sentence self sentence) as [long_chunks|] eqn:E;
        [|discriminate].
      apply IH in H. rewrite H, nonspace_concat_app, Hflush.
      unfold _force_split_sentence in E.
      rewrite (smart_force_split_content self _ _ _ E).
      cbn [nonspace filter app]. rewrite <- !app_assoc. reflexivity.
    + cbv zeta in H. destruct (target_size self <? _).
      * apply IH in H. rewrite H, Hflush, <- !app_assoc. reflexivity.
      * apply IH in H. rewrite H. destruct cur as [|c cur]; cbn [truthy].
        -- reflexivity.
        -- rewrite !nonspace_app. rewrite (nonspace_blank (s_ " ") eq_refl).
           cbn [app]. rewrite <- !app_assoc. reflexivity.
Qed.

(** The check of [marks_attached] by one pass over the text. *)
Fixpoint attached_from (prev_space : bool) (s : str) : bool :=
  match s with
  | [] => true
  | c :: rest => negb (enders c && prev_space) && attached_from (isspace c) rest
  end.

Lemma attached_from_sound :
  forall s prev_space,
    attached_from prev_space s = true ->
    forall a c post,
      s = a ++ c :: post -> enders c = true ->
      (a = [] /\ prev_space = false)
      \/ exists a' d, a = a' ++ [d] /\ isspace d = false.
Proof.
  induction s as [|x s IH]; intros b H a c post Hs Hc.
  - destruct a; discriminate.
  - cbn [attached_from] in H. apply andb_true_iff in H as [Hx Hrest].
    destruct a as [|y a]; cbn [app] in Hs; injection Hs as -> Hs.
    + left. split; [reflexivity|]. rewrite Hc in Hx. destruct b; [discriminate|reflexivity].
    + right. destruct (IH _ Hrest a c post Hs Hc) as [[-> Hy]|[a' [d [-> Hd]]]].
      * exists [], y. auto.
      * exists (y :: a'), d. auto.
Qed.

Lemma marks_attached_by_scan (s : str) :
  attached_from true s = true -> marks_attached s.
Proof.
  intros H a c post Hs Hc.
  destruct (attached_from_sound s true H a c post Hs Hc) as [[_ E]|E];
    [discriminate|exact E].
Qed.

Lemma chunk_paragraph_content (self : t) (paragraph : str) :
  1 <= max_size self -> marks_attached paragraph ->
  exists chunks,
    _chunk_paragraph self paragraph = Some chunks
    /\ nonspace (concat chunks) = nonspace paragraph.
Proof.
  intros Hmax Hatt. unfold _chunk_paragraph.
  destruct (len paragraph <=? max_size self).
  - exists [paragraph]. split; [reflexivity|]. cbn [concat]. rewrite app_nil_r.
    reflexivity.
  - destruct (smart_gather_total self Hmax (_split_sentences paragraph) [] [])
      as [[chunks cur] E].
    rewrite E. eexists. split; [reflexivity|].
    apply smart_gather_content in E. cbn [concat nonspace filter app] in E.
    rewrite split_sentences_content in E by exact Hatt. rewrite <- E.
    destruct cur as [|c cur]; cbn [truthy].
    + cbn [nonspace filter]. rewrite app_nil_r. reflexivity.
    + rewrite nonspace_concat_app. cbn [concat]. rewrite app_nil_r, nonspace_strip.
      reflexivity.
Qed.

End SmartSentences.

(** When every sentence mark of the paragraph stands right after a
    character that is not white space, the sentences of
    [_split_sentences] hold, in order, exactly the characters of the
    paragraph that are not white space.  (A mark at the start of the
    paragraph or after white space is dropped with its ending.) *)
Theorem smart_split_sentences_keeps_content (paragraph : str) :
  marks_attached paragraph ->
  nonspace (concat (SmartChunker._split_sentences paragraph)) = nonspace paragraph.
Proof. intros H. apply split_sentences_content. exact H. Qed.

Lemma smart_split_sentences_keeps_content_witness :
  let paragraph := s_ "Hello there.  How are you?! Fine... and you" in
  SmartChunker._split_sentences paragraph
  = [s_ "Hello there."; s_ "How are you?!"; s_ "Fine..."; s_ "and you"]
  /\ nonspace (concat (SmartChunker._split_sentences paragraph)) = nonspace paragraph.
Proof.
  cbv zeta. split; [vm_compute; reflexivity|].
  apply smart_split_sentences_keeps_content. apply marks_attached_by_scan.
  vm_compute. reflexivity.
Defined.

(** For a positive [max_size] and a paragraph whose sentence marks each
    stand right after a character that is not white space,
    [_chunk_paragraph] returns, and its chunks hold, in order, exactly the
    characters of the paragraph that are not white space. *)
Theorem smart_chunk_paragraph_keeps_content (self : SmartChunker.t) (paragraph : str) :
  1 <= SmartChunker.max_size self -> marks_attached paragraph ->
  exists chunks,
    SmartChunker._chunk_paragraph self paragraph = Some chunks
    /\ nonspace (concat chunks) = nonspace paragraph.
Proof. intros Hmax Hatt. apply chunk_paragraph_content; assumption. Qed.

Lemma smart_chunk_paragraph_keeps_content_witness :
  let paragraph :=
    s_ "The quick brown fox jumps. It runs over the lazy dog! Then it sleeps?" in
  exists chunks,
    SmartChunker._chunk_paragraph (SmartChunker.Self 20 30 5) paragraph = Some chunks
    /\ nonspace (concat chunks) = nonspace paragraph.
Proof.
  cbv zeta. apply smart_chunk_paragraph_keeps_content.
  - simpl. lia.
  - apply marks_attached_by_scan. vm_compute. reflexivity.
Defined.

(** ** Which match a long sentence is cut at (C5) *)

(** [best] is the first of the matches of least [key]: every earlier
    match has a strictly larger key, no later match a smaller one. *)
Definition first_least (key : Re.mobj -> Z) (matches : list Re.mobj) (best : Re.mobj)
    : Prop :=
  exists before after,
    matches = before ++ best :: after
    /\ (forall m, In m before -> key best < key m)
    /\ (forall m, In m after -> key best <= key m).

Section Choice.

Import Py Re.

Lemma first_least_step (key : mobj -> Z) (before mid : list mobj) (b m : mobj) :
  (forall x, In x before -> key b < key x) ->
  (forall x, In x mid -> key b <= key x) ->
  (key m < key b ->
   (forall x, In x (before ++ b :: mid) -> key m < key x))
  /\ (key b <= key m -> forall x, In x (mid ++ [m]) -> key b <= key x).
Proof.
  intros Hb Hm. split.
  - intros Hlt x Hx. apply in_app_iff in Hx as [Hx|[<-|Hx]].
    + specialize (Hb x Hx). lia.
    + exact Hlt.
    + specialize (Hm x Hx). lia.
  - intros Hle x Hx. apply in_app_iff in Hx as [Hx|[<-|[]]]; auto.
Qed.

(** The loop of [chunk_long_sentence] keeps the first match of least
    distance. *)
Lemma gold_best_of_first_least (sentence : str) :
  forall ms before b mid,
    (forall x, In x before ->
               GoldStandardChunker.distance5 sentence b
               < GoldStandardChunker.distance5 sentence x) ->
    (forall x, In x mid ->
               GoldStandardChunker.distance5 sentence b
               <= GoldStandardChunker.distance5 sentence x) ->
    exists best,
      GoldStandardChunker.best_of sentence (Some b) ms = Some best
      /\ first_least (GoldStandardChunker.distance5 sentence)
           (before ++ b :: mid ++ ms) best.
Proof.
  induction ms as [|m ms IH]; intros before b mid Hb Hm;
    cbn [GoldStandardChunker.best_of].
  - exists b. split; [reflexivity|]. exists before, mid.
    rewrite app_nil_r. auto.
  - destruct (first_least_step _ before mid b m Hb Hm) as [Hless Hmore].
    destruct (Z.ltb_spec (GoldStandardChunker.distance5 sentence m)
                (GoldStandardChunker.distance5 sentence b)) as [Hlt|Hge].
    + destruct (IH (before ++ b :: mid) m [] (Hless Hlt)) as [best [E H]];
        [intros x []|].
      exists best. split; [exact E|].
      cbn [app] in H. rewrite <- app_assoc in H. exact H.
    + destruct (IH before b (mid ++ [m]) Hb (Hmore Hge)) as [best [E H]].
      exists best. split; [exact E|].
      rewrite <- app_assoc in H. exact H.
Qed.

(** [min(matches, key=...)] is the first match of least key. *)
Lemma tts_min_by_first_least (key : mobj -> Z) :
  forall ms before b mid,
    (forall x, In x before -> key b < key x) ->
    (forall x, In x mid -> key b <= key x) ->
    first_least key (before ++ b :: mid ++ ms) (TTSOptimizedChunker.min_by key b ms).
Proof.
  induction ms as [|m ms IH]; intros before b mid Hb Hm;
    cbn [TTSOptimizedChunker.min_by].
  - exists before, mid. rewrite app_nil_r. auto.
  - destruct (first_least_step key before mid b m Hb Hm) as [Hless Hmore].
    destruct (Z.ltb_spec (key m) (key b)) as [Hlt|Hge].
    + pose proof (IH (before ++ b :: mid) m [] (Hless Hlt)) as H.
      cbn [app] in H. rewrite <- app_assoc in H. apply H. intros x [].
    + pose proof (IH before b (mid ++ [m]) Hb (Hmore Hge)) as H.
      rewrite <- app_assoc in H. exact H.
Qed.

(** There is one first match of least key. *)
Lemma first_least_unique (key : mobj -> Z) (matches : list mobj) (b1 b2 : mobj) :
  first_least key matches b1 -> first_least key matches b2 -> b1 = b2.
Proof.
  intros [p1 [a1 [E1 [Hp1 Ha1]]]] [p2 [a2 [E2 [Hp2 Ha2]]]].
  subst matches. revert p2 E2 Hp2. induction p1 as [|x p1 IH]; intros p2 E2 Hp2.
  - destruct p2 as [|y p2]; cbn [app] in E2.
    + injection E2 as -> _. reflexivity.
    + injection E2 as <- E2.
      assert (Hin : In b2 a1) by (rewrite E2; apply in_elt).
      specialize (Ha1 _ Hin). specialize (Hp2 b1 (or_introl eq_refl)). lia.
  - destruct p2 as [|y p2]; cbn [app] in E2.
    + injection E2 as -> E2.
      assert (Hin : In b1 a2) by (rewrite <- E2; apply in_elt).
      specialize (Ha2 _ Hin). specialize (Hp1 b2 (or_introl eq_refl)). lia.
    + injection E2 as <- E2. apply (IH (fun m H => Hp1 m (or_intror H)) p2 E2).
      intros m H. apply Hp2. right. exact H.
Qed.

(** The comma and conjunction split of [chunk_long_sentence] cuts at the
    first match of least distance. *)
Lemma gold_comma_split_choice (self : GoldStandardChunker.t) (sentence : str) :
  finditer GoldStandardChunker.comma_conjunction_pattern sentence <> [] ->
  GoldStandardChunker.target_size self <= len sentence ->
  exists best a r,
    first_least (GoldStandardChunker.distance5 sentence)
      (finditer GoldStandardChunker.comma_conjunction_pattern sentence) best
    /\ sentence = a ++ ","%char :: r /\ mstart best = length a
    /\ GoldStandardChunker.chunk_long_sentence self sentence
       = Some [strip (a ++ [","%char]); strip r]
    /\ nonblank (strip (a ++ [","%char])) /\ nonblank (strip r).
Proof.
  intros Hne Hlen.
  destruct (finditer GoldStandardChunker.comma_conjunction_pattern sentence)
    as [|m ms] eqn:E; [congruence|].
  destruct (gold_best_of_first_least sentence ms [] m [])
    as [best [Hbest Hfirst]]; [intros x []|intros x []|].
  cbn [app] in Hfirst.
  assert (Hin : In best (finditer GoldStandardChunker.comma_conjunction_pattern sentence)).
  { destruct Hfirst as [before [after [Eq _]]]. rewrite E, Eq. apply in_elt. }
  destruct (comma_match_in_sentence sentence best Hin) as [a [r [Hs [Hstart [Hl Hb]]]]].
  exists best, a, r. split; [exact Hfirst|]. split; [exact Hs|]. split; [exact Hstart|].
  split; [|split].
  - unfold GoldStandardChunker.chunk_long_sentence,
      GoldStandardChunker.chunk_long_sentence_fuel, GoldStandardChunker.comma_split.
    rewrite E. cbn [truthy_list].
    apply Z.leb_le in Hlen. rewrite Hlen. cbn [andb].
    change (GoldStandardChunker.best_of sentence None (m :: ms))
      with (GoldStandardChunker.best_of sentence (Some m) ms).
    rewrite Hbest, Hstart. subst sentence.
    rewrite (group1_at_comma a r best Hl).
    destruct (slices_at_comma a r) as [-> ->].
    rewrite !truthy_strip, Hb, blank_app. cbn [blank forallb].
    rewrite andb_false_r. reflexivity.
  - apply nonblank_strip. unfold nonblank. rewrite blank_app. cbn [blank forallb].
    apply andb_false_r.
  - apply nonblank_strip. exact Hb.
Qed.

(** *** The recursion of [_split_long_sentence_tts_safe] *)

Lemma tts_try_patterns_ext (self : TTSOptimizedChunker.t)
    (recurse1 recurse2 : str -> option (list str)) (sentence : str) :
  (forall second, (length second < length sentence)%nat ->
                  recurse1 second = recurse2 second) ->
  forall patterns, Forall (fun p => (1 <= min_len p)%nat) patterns ->
  TTSOptimizedChunker.try_patterns self recurse1 sentence patterns
  = TTSOptimizedChunker.try_patterns self recurse2 sentence patterns.
Proof.
  intros Hrec. induction patterns as [|pattern rest IH]; intros Hp;
    cbn [TTSOptimizedChunker.try_patterns]; [reflexivity|].
  inversion Hp as [|? ? Hmin Hrest]; subst.
  destruct (finditer pattern sentence) as [|m ms] eqn:E; [auto|].
  cbv zeta.
  set (best := TTSOptimizedChunker.min_by (TTSOptimizedChunker.end_distance sentence) m ms).
  destruct (_ && _)%bool; [|auto].
  destruct (TTSOptimizedChunker.max_size self <? _); [|reflexivity].
  rewrite Hrec; [reflexivity|].
  assert (Hin : In best (finditer pattern sentence)).
  { rewrite E. apply min_by_In. }
  apply finditer_spans in Hin. apply span_min_len in Hin as [H1 H2].
  pose proof (strip_length (slice_from sentence (Z.of_nat (mend best)))).
  assert (sentence <> []) by (destruct sentence; [cbn in H2; lia|congruence]).
  pose proof (slice_from_length sentence (Z.of_nat (mend best)) ltac:(lia) H0). lia.
Qed.

(** Any fuel above the length of the sentence gives the same result. *)
Lemma tts_fuel_irrelevant (self : TTSOptimizedChunker.t) :
  forall fuel1 fuel2 sentence,
    (length sentence < fuel1)%nat -> (length sentence < fuel2)%nat ->
    TTSOptimizedChunker._split_long_sentence_tts_safe_fuel fuel1 self sentence
    = TTSOptimizedChunker._split_long_sentence_tts_safe_fuel fuel2 self sentence.
Proof.
  induction fuel1 as [|fuel1 IH]; intros fuel2 sentence H1 H2; [lia|].
  destruct fuel2 as [|fuel2]; [lia|].
  cbn [TTSOptimizedChunker._split_long_sentence_tts_safe_fuel].
  apply tts_try_patterns_ext; [|exact break_patterns_consume].
  intros second Hs. apply IH; lia.
Qed.

(** A pattern is passed over when it has no match in the sentence, or
    when a side of the cut at its chosen match is shorter than
    [min_size]. *)
Definition passed_over (self : TTSOptimizedChunker.t) (sentence : str) (pattern : regex)
    : Prop :=
  forall best,
    first_least (fun m => Z.abs (Z.of_nat (mend m) - len sentence / 2))
      (finditer pattern sentence) best ->
    len (strip (slice_to sentence (Z.of_nat (mend best)))) < TTSOptimizedChunker.min_size self
    \/ len (strip (slice_from sentence (Z.of_nat (mend best))))
       < TTSOptimizedChunker.min_size self.

Lemma tts_try_patterns_passed (self : TTSOptimizedChunker.t)
    (recurse : str -> option (list str)) (sentence : str) :
  forall before rest,
    Forall (passed_over self sentence) before ->
    TTSOptimizedChunker.try_patterns self recurse sentence (before ++ rest)
    = TTSOptimizedChunker.try_patterns self recurse sentence rest.
Proof.
  induction before as [|p before IH]; intros rest Hp; [reflexivity|].
  inversion Hp as [|? ? Hone Hrest]; subst. cbn [app].
  destruct (finditer p sentence) as [|m ms] eqn:E.
  - cbn [TTSOptimizedChunker.try_patterns]. rewrite E. apply IH, Hrest.
  - rewrite (tts_try_patterns_next self recurse sentence p (before ++ rest) m ms E).
    + apply IH, Hrest.
    + cbv zeta. apply Hone. rewrite E.
      exact (tts_min_by_first_least (TTSOptimizedChunker.end_distance sentence)
               ms [] m [] (fun x (H : In x []) => False_ind _ H)
               (fun x (H : In x []) => False_ind _ H)).
Qed.

(** The cut of [_split_long_sentence_tts_safe] at a pattern. *)
Lemma tts_split_choice (self : TTSOptimizedChunker.t) (sentence : str)
    (before : list regex) (pattern : regex) (after : list regex) :
  TTSOptimizedChunker.break_patterns = before ++ pattern :: after ->
  Forall (passed_over self sentence) before ->
  finditer pattern sentence <> [] ->
  exists best,
    first_least (fun m => Z.abs (Z.of_nat (mend m) - len sentence / 2))
      (finditer pattern sentence) best
    /\ (TTSOptimizedChunker.min_size self
          <= len (strip (slice_to sentence (Z.of_nat (mend best)))) ->
        TTSOptimizedChunker.min_size self
          <= len (strip (slice_from sentence (Z.of_nat (mend best)))) ->
        exists rest,
          TTSOptimizedChunker._split_long_sentence_tts_safe self sentence
          = Some (strip (slice_to sentence (Z.of_nat (mend best))) :: rest)
          /\ if TTSOptimizedChunker.max_size self
                <? len (strip (slice_from sentence (Z.of_nat (mend best))))
             then TTSOptimizedChunker._split_long_sentence_tts_safe self
                    (strip (slice_from sentence (Z.of_nat (mend best)))) = Some rest
             else rest = [strip (slice_from sentence (Z.of_nat (mend best)))]).
Proof.
  intros Hpat Hbefore Hne.
  destruct (finditer pattern sentence) as [|m ms] eqn:E; [congruence|].
  set (best := TTSOptimizedChunker.min_by (TTSOptimizedChunker.end_distance sentence) m ms).
  exists best. split.
  { exact (tts_min_by_first_least (TTSOptimizedChunker.end_distance sentence)
             ms [] m [] (fun x (H : In x []) => False_ind _ H)
             (fun x (H : In x []) => False_ind _ H)). }
  intros H1 H2.
  unfold TTSOptimizedChunker._split_long_sentence_tts_safe at 1.
  cbn [TTSOptimizedChunker._split_long_sentence_tts_safe_fuel].
  rewrite Hpat, (tts_try_patterns_passed self _ sentence before _ Hbefore).
  cbn [TTSOptimizedChunker.try_patterns]. rewrite E. cbv zeta. fold best.
  apply Z.leb_le in H1, H2. rewrite H1, H2. cbn [andb].
  set (second := strip (slice_from sentence (Z.of_nat (mend best)))) in *.
  destruct (TTSOptimizedChunker.max_size self <? len second) eqn:Hlong.
  - assert (Hshort : (length second < length sentence)%nat).
    { assert (Hin : In best (finditer pattern sentence)).
      { rewrite E. apply min_by_In. }
      assert (Hmin : (1 <= min_len pattern)%nat).
      { pose proof break_patterns_consume as Hall.
        rewrite Hpat in Hall. apply Forall_app in Hall as [_ Hall].
        inversion Hall; assumption. }
      apply finditer_spans in Hin. apply span_min_len in Hin as [Ha Hb].
      pose proof (strip_length (slice_from sentence (Z.of_nat (mend best)))).
      assert (sentence <> []) by (destruct sentence; [cbn in Hb; lia|congruence]).
      pose proof (slice_from_length sentence (Z.of_nat (mend best)) ltac:(lia) H0).
      subst second. lia. }
    destruct (split_long_total self (length sentence) second Hshort)
      as [rest Hrest].
    exists rest. rewrite Hrest. split; [reflexivity|].
    unfold TTSOptimizedChunker._split_long_sentence_tts_safe.
    rewrite <- Hrest. apply tts_fuel_irrelevant; lia.
  - exists [second]. split; reflexivity.
Qed.

End Choice.

(** C5, amended: when a sentence longer than [max_size] has a match of
    the comma and conjunction pattern, the gold standard
    [chunk_long_sentence] (with [target_size] at most [max_size]) cuts at
    the first of the matches whose start is nearest to 60 percent of the
    length of the sentence (the distances are compared times five, as
    integers), right after the comma of that match, and returns exactly
    the two stripped parts, both non-blank.  On a sentence of 400
    characters with one such match at 239 the engine with [max_size] 300
    returns two chunks of 240 and 159 characters; on a sentence of 100
    characters with matches at 44 and 58 it cuts at 58, although 44 comes
    first and is the nearer to the middle.
    [_split_long_sentence_tts_safe] goes through its break patterns in
    order, passing over a pattern with no match or whose cut leaves a
    side shorter than [min_size]; at the first pattern left it cuts at
    the end of the first of the matches whose end is nearest to the
    middle of the sentence ([len // 2]), returns the stripped text
    before the cut as first chunk, and then the stripped rest, split
    again by the same function when it is longer than [max_size]. *)
Theorem C5_comma_conjunction_choice :
  (forall (self : GoldStandardChunker.t) (sentence : str),
     Re.finditer GoldStandardChunker.comma_conjunction_pattern sentence <> [] ->
     GoldStandardChunker.target_size self <= GoldStandardChunker.max_size self ->
     GoldStandardChunker.max_size self < Py.len sentence ->
     exists best a r,
       first_least (fun m => Z.abs (5 * Z.of_nat (Re.mstart m) - 3 * Py.len sentence))
         (Re.finditer GoldStandardChunker.comma_conjunction_pattern sentence) best
       /\ sentence = a ++ ","%char :: r /\ Re.mstart best = length a
       /\ GoldStandardChunker.chunk_long_sentence self sentence
          = Some [Py.strip (a ++ [","%char]); Py.strip r]
       /\ nonblank (Py.strip (a ++ [","%char])) /\ nonblank (Py.strip r))
  /\ (GoldStandardChunker.gold_standard_chunk_text
        (GoldStandardChunker.Self 150 300 true 50) sentence400
      = Some [repeat "a"%char 239 ++ s_ ","; s_ "and " ++ repeat "b"%char 155]
      /\ Py.len sentence400 = 400
      /\ Py.len (repeat "a"%char 239 ++ s_ ",") = 240
      /\ Py.len (s_ "and " ++ repeat "b"%char 155) = 159)
  /\ (map Re.mstart (Re.finditer GoldStandardChunker.comma_conjunction_pattern two_commas)
      = [44%nat; 58%nat]
      /\ Py.len two_commas = 100
      /\ GoldStandardChunker.chunk_long_sentence
           (GoldStandardChunker.Self 40 60 true 10) two_commas
         = Some [repeat "a"%char 44 ++ s_ ", and " ++ repeat "b"%char 8 ++ s_ ",";
                 s_ "and " ++ repeat "c"%char 36])
  /\ (forall (self : TTSOptimizedChunker.t) (sentence : str)
             (before : list Re.regex) (pattern : Re.regex) (after : list Re.regex),
        TTSOptimizedChunker.break_patterns = before ++ pattern :: after ->
        Forall (passed_over self sentence) before ->
        Re.finditer pattern sentence <> [] ->
        exists best,
          first_least (fun m => Z.abs (Z.of_nat (Re.mend m) - Py.len sentence / 2))
            (Re.finditer pattern sentence) best
          /\ (TTSOptimizedChunker.min_size self
                <= Py.len (Py.strip (Py.slice_to sentence (Z.of_nat (Re.mend best)))) ->
              TTSOptimizedChunker.min_size self
                <= Py.len (Py.strip (Py.slice_from sentence (Z.of_nat (Re.mend best)))) ->
              exists rest,
                TTSOptimizedChunker._split_long_sentence_tts_safe self sentence
                = Some (Py.strip (Py.slice_to sentence (Z.of_nat (Re.mend best))) :: rest)
                /\ if TTSOptimizedChunker.max_size self
                      <? Py.len (Py.strip
                                   (Py.slice_from sentence (Z.of_nat (Re.mend best))))
                   then TTSOptimizedChunker._split_long_sentence_tts_safe self
                          (Py.strip (Py.slice_from sentence (Z.of_nat (Re.mend best))))
                        = Some rest
                   else rest
                        = [Py.strip (Py.slice_from sentence (Z.of_nat (Re.mend best)))])).
Proof.
  split; [|split; [|split]].
  - intros self sentence Hne Hcfg Hlong.
    exact (gold_comma_split_choice self sentence Hne ltac:(lia)).
  - vm_compute. repeat split; reflexivity.
  - vm_compute. repeat split; reflexivity.
  - exact tts_split_choice.
Qed.

(** A witness: the sentence of 100 characters with matches at 44 and 58.
    The gold standard engine cuts after the comma at 58; the TTS
    splitter, with no semicolon to cut at, cuts at the end of the match
    that starts at 44. *)
Lemma C5_witness :
  (exists best a r,
     first_least (fun m => Z.abs (5 * Z.of_nat (Re.mstart m) - 3 * Py.len two_commas))
       (Re.finditer GoldStandardChunker.comma_conjunction_pattern two_commas) best
     /\ two_commas = a ++ ","%char :: r /\ Re.mstart best = length a
     /\ Re.mstart best = 58%nat
     /\ GoldStandardChunker.chunk_long_sentence
          (GoldStandardChunker.Self 40 60 true 10) two_commas
        = Some [Py.strip (a ++ [","%char]); Py.strip r])
  /\ (exists best rest,
        first_least (fun m => Z.abs (Z.of_nat (Re.mend m) - Py.len two_commas / 2))
          (Re.finditer (nth 1 TTSOptimizedChunker.break_patterns Re.Eps) two_commas) best
        /\ Re.mend best = 50%nat
        /\ TTSOptimizedChunker._split_long_sentence_tts_safe
             (TTSOptimizedChunker.Self 40 60 10) two_commas
           = Some ((repeat "a"%char 44 ++ s_ ", and") :: rest)).
Proof.
  split.
  - destruct (proj1 C5_comma_conjunction_choice
                (GoldStandardChunker.Self 40 60 true 10) two_commas)
      as [best [a [r [Hfirst [Hs [Hstart [Hcut _]]]]]]].
    + vm_compute. discriminate.
    + simpl. lia.
    + vm_compute. reflexivity.
    + exists best, a, r. repeat split; try assumption.
      destruct Hfirst as [before [after [E [Hb Ha]]]].
      vm_compute in E.
      destruct before as [|x before]; cbn [app] in E.
      * injection E as <- <-. exfalso.
        specialize (Ha _ (or_introl eq_refl)). vm_compute in Ha. apply Ha. reflexivity.
      * injection E as <- E. destruct before as [|y before]; cbn [app] in E.
        -- injection E as <- _. reflexivity.
        -- injection E as _ E. destruct before; discriminate.
  - destruct (proj2 (proj2 (proj2 C5_comma_conjunction_choice))
                (TTSOptimizedChunker.Self 40 60 10) two_commas
                [nth 0 TTSOptimizedChunker.break_patterns Re.Eps]
                (nth 1 TTSOptimizedChunker.break_patterns Re.Eps)
                [nth 2 TTSOptimizedChunker.break_patterns Re.Eps;
                 nth 3 TTSOptimizedChunker.break_patterns Re.Eps])
      as [best [Hfirst Hcut]].
    + reflexivity.
    + constructor; [|constructor]. intros best [before [after [E _]]].
      vm_compute in E. destruct before; discriminate.
    + vm_compute. discriminate.
    + assert (Hend : Re.mend best = 50%nat).
      { destruct Hfirst as [before [after [E [Hb Ha]]]].
        vm_compute in E.
        destruct before as [|x before]; cbn [app] in E.
        - injection E as <- _. reflexivity.
        - injection E as <- E. exfalso. destruct before as [|y before]; cbn [app] in E.
          + injection E as <- _.
            specialize (Hb _ (or_introl eq_refl)). vm_compute in Hb. discriminate.
          + injection E as _ E. destruct before; discriminate. }
      rewrite Hend in Hcut.
      destruct Hcut as [rest [Hres _]].
      * vm_compute. discriminate.
      * vm_compute. discriminate.
      * exists best, rest. split; [exact Hfirst|]. split; [exact Hend|].
        rewrite Hres. f_equal.
Defined.

(** ** The words of the chunks (C1) *)

(** The words of a list of chunks, in order. *)
Definition words_of (chunks : list str) : list str := concat (map Py.split_ws chunks).

Section WordsKept.

Import Py Re SmartChunker.

Lemma words_of_app (a b : list str) : words_of (a ++ b) = words_of a ++ words_of b.
Proof. unfold words_of. rewrite map_app, concat_app. reflexivity. Qed.

Lemma words_of_one (s : str) : words_of [s] = split_ws s.
Proof. unfold words_of. cbn [map concat]. apply app_nil_r. Qed.

Lemma split_ws_app_space (a : str) (c : ascii) (b : str) :
  isspace c = true -> split_ws (a ++ c :: b) = split_ws a ++ split_ws b.
Proof. intros Hc. unfold split_ws. apply split_ws_from_space. exact Hc. Qed.

Lemma split_ws_blank (s : str) : blank s = true -> split_ws s = [].
Proof. apply split_ws_from_blank. Qed.

Lemma split_ws_cons_space (c : ascii) (s : str) :
  isspace c = true -> split_ws (c :: s) = split_ws s.
Proof. intros Hc. unfold split_ws. cbn [split_ws_from]. rewrite Hc. reflexivity. Qed.

Lemma split_ws_blank_app (b s : str) : blank b = true -> split_ws (b ++ s) = split_ws s.
Proof.
  induction b as [|c b IH]; intros H; [reflexivity|].
  cbn [blank forallb] in H. apply andb_true_iff in H as [Hc Hb].
  cbn [app]. rewrite split_ws_cons_space by exact Hc. apply IH. exact Hb.
Qed.

Lemma split_ws_app_blank (s b : str) : blank b = true -> split_ws (s ++ b) = split_ws s.
Proof.
  destruct b as [|c b]; intros H; [rewrite app_nil_r; reflexivity|].
  cbn [blank forallb] in H. apply andb_true_iff in H as [Hc Hb].
  rewrite split_ws_app_space by exact Hc.
  rewrite (split_ws_blank b Hb). apply app_nil_r.
Qed.

Lemma split_ws_lstrip (s : str) : split_ws (lstrip s) = split_ws s.
Proof.
  destruct (lstrip_split s) as [l [E B]]. rewrite E at 2.
  symmetry. apply split_ws_blank_app. exact B.
Qed.

Lemma split_ws_rstrip (s : str) : split_ws (rstrip s) = split_ws s.
Proof.
  destruct (rstrip_split s) as [r [E B]]. rewrite E at 2.
  symmetry. apply split_ws_app_blank. exact B.
Qed.

Lemma split_ws_strip (s : str) : split_ws (strip s) = split_ws s.
Proof. unfold strip. rewrite split_ws_rstrip. apply split_ws_lstrip. Qed.

(** Cutting at a white space character keeps the words. *)
Lemma split_ws_cut (a b : str) :
  (exists c r, b = c :: r /\ isspace c = true) ->
  split_ws (a ++ b) = split_ws a ++ split_ws b.
Proof.
  intros [c [r [-> Hc]]]. rewrite split_ws_app_space by exact Hc.
  rewrite (split_ws_cons_space c r Hc). reflexivity.
Qed.

(** The word being read is part of the first word found. *)
Lemma split_ws_from_head (s : str) :
  forall cur, cur <> [] ->
    exists w ws, split_ws_from cur s = w :: ws /\ (length cur <= length w)%nat.
Proof.
  induction s as [|c s IH]; intros cur Hcur; cbn [split_ws_from].
  - destruct cur as [|d cur]; [congruence|].
    eexists. eexists. split; [reflexivity|]. rewrite length_rev. lia.
  - destruct (isspace c).
    + destruct cur as [|d cur]; [congruence|].
      eexists. eexists. split; [reflexivity|]. rewrite length_rev. lia.
    + destruct (IH (c :: cur)) as [w [ws [E Hlen]]]; [discriminate|].
      exists w, ws. split; [exact E|]. cbn [length] in Hlen. lia.
Qed.

(** A run of characters that are not white space, followed by one more,
    lies inside a longer word. *)
Lemma long_word (w : str) (c : ascii) (r : str) :
  spaceless w -> isspace c = false ->
  exists x xs, split_ws (w ++ c :: r) = x :: xs /\ (length w < length x)%nat.
Proof.
  intros Hw Hc. unfold split_ws. rewrite (split_ws_from_word w Hw), app_nil_r.
  cbn [split_ws_from]. rewrite Hc.
  destruct (split_ws_from_head r (c :: rev w)) as [x [xs [E Hlen]]]; [discriminate|].
  exists x, xs. split; [exact E|]. cbn [length] in Hlen. rewrite length_rev in Hlen. lia.
Qed.

(** No word of the text is longer than [max_size]. *)
Definition small_words (self : t) (s : str) : Prop :=
  Forall (fun w => len w <= max_size self) (split_ws s).

Lemma Forall_lstrip (P : ascii -> Prop) (s : str) : Forall P s -> Forall P (lstrip s).
Proof.
  destruct (lstrip_split s) as [l [E _]]. rewrite E at 1.
  intros H. apply Forall_app in H. tauto.
Qed.

Lemma rfind_from_absent (s : str) :
  forall i, rfind_from (s_ " ") s i = None -> ~ In " "%char s.
Proof.
  induction s as [|c s IH]; intros i H; [intros []|].
  change (rfind_from (s_ " ") (c :: s) i)
    with (match rfind_from (s_ " ") s (S i) with
          | Some j => Some j
          | None => if (Ascii.eqb " " c && true)%bool then Some i else None
          end) in H.
  destruct (rfind_from (s_ " ") s (S i)) eqn:E; [discriminate|].
  destruct (Ascii.eqb_spec " "%char c) as [Hc|Hc]; [discriminate|].
  intros [Hin|Hin]; [congruence|]. exact (IH _ E Hin).
Qed.

Lemma only_spaces_spaceless (s : str) :
  only_spaces s -> ~ In " "%char s -> spaceless s.
Proof.
  unfold only_spaces, spaceless. rewrite !Forall_forall. intros H Hno c Hin.
  destruct (isspace c) eqn:E; [|reflexivity].
  exfalso. apply Hno. rewrite <- (H c Hin E). exact Hin.
Qed.

(** One turn of the last resort cuts between two words, when no word is
    longer than [max_size] and all white space is spaces. *)
Lemma last_resort_cut (self : t) (sentence : str) :
  1 <= max_size self -> max_size self < len sentence ->
  only_spaces sentence -> small_words self sentence ->
  let split_pos := rfind (s_ " ") sentence (max_size self) in
  let split_pos := if split_pos =? -1 then max_size self else split_pos in
  split_ws sentence
  = split_ws (slice_to sentence split_pos)
      ++ split_ws (lstrip (slice_from sentence split_pos)).
Proof.
  intros Hmax Hlong Hsp Hsmall. cbv zeta. rewrite split_ws_lstrip.
  unfold rfind.
  destruct (rfind_from (s_ " ") (slice_to sentence (max_size self)) 0) as [j|] eqn:E.
  - destruct (Z.eqb_spec (Z.of_nat j) (-1)) as [Hneg|_]; [lia|].
    apply rfind_from_found in E as [_ E]. rewrite Nat.sub_0_r in E.
    apply startswith_prefix in E as [r E].
    assert (Hcut : skipn j sentence = " "%char :: skipn (S j) sentence
                   /\ (j < length sentence)%nat).
    { unfold slice_to in E.
      assert (Hn : norm_index (length sentence) (max_size self)
                   = Z.to_nat (max_size self)).
      { unfold norm_index. destruct (Z.ltb_spec (max_size self) 0); [lia|].
        unfold len in Hlong. lia. }
      rewrite Hn in E. set (n := Z.to_nat (max_size self)) in *.
      assert (Hj : (j < n)%nat /\ (n <= length sentence)%nat).
      { assert (Hle : (n <= length sentence)%nat) by (unfold len in Hlong; lia).
        assert (Hl : (length (skipn j (firstn n sentence)) >= 1)%nat)
          by (rewrite E; cbn [app length s_ list_ascii_of_string]; lia).
        rewrite length_skipn, length_firstn in Hl. lia. }
      assert (Hnth : nth_error sentence j = Some " "%char).
      { rewrite <- (firstn_skipn n sentence), nth_error_app1
          by (rewrite length_firstn; lia).
        rewrite <- (firstn_skipn j (firstn n sentence)), nth_error_app2
          by (rewrite length_firstn; lia).
        rewrite E, length_firstn, length_firstn.
        replace (j - Nat.min j (Nat.min n (length sentence)))%nat with 0%nat by lia.
        reflexivity. }
      split; [|lia].
      apply nth_error_split in Hnth as [l1 [l2 [Hs Hl1]]].
      rewrite Hs, <- Hl1.
      replace (S (length l1)) with (length (l1 ++ [" "%char]))
        by (rewrite length_app; cbn [length]; lia).
      rewrite skipn_app, skipn_all, Nat.sub_diag. cbn [app skipn].
      replace (l1 ++ " "%char :: l2) with ((l1 ++ [" "%char]) ++ l2)
        by (rewrite <- app_assoc; reflexivity).
      rewrite skipn_app, skipn_all, Nat.sub_diag. reflexivity. }
    destruct Hcut as [Hcut Hj].
    assert (Hn : norm_index (length sentence) (Z.of_nat j) = j).
    { unfold norm_index. destruct (Z.ltb_spec (Z.of_nat j) 0); lia. }
    unfold slice_to, slice_from. rewrite Hn.
    rewrite <- (firstn_skipn j sentence) at 1.
    apply split_ws_cut. exists " "%char, (skipn (S j) sentence). split; [exact Hcut|reflexivity].
  - change (-1 =? -1) with true. cbv iota.
    apply rfind_from_absent in E.
    assert (Hn : norm_index (length sentence) (max_size self) = Z.to_nat (max_size self)).
    { unfold norm_index. destruct (Z.ltb_spec (max_size self) 0); [lia|].
      unfold len in Hlong. lia. }
    unfold slice_to, slice_from in *. rewrite Hn in *.
    set (n := Z.to_nat (max_size self)) in *.
    assert (Hw : spaceless (firstn n sentence)).
    { apply only_spaces_spaceless; [|exact E].
      unfold only_spaces in *. rewrite <- (firstn_skipn n sentence) in Hsp.
      apply Forall_app in Hsp. tauto. }
    rewrite <- (firstn_skipn n sentence) at 1.
    destruct (skipn n sentence) as [|c r] eqn:Er.
    { apply (f_equal (@length ascii)) in Er. rewrite length_skipn in Er.
      unfold len in Hlong. cbn [length] in Er. lia. }
    destruct (isspace c) eqn:Hc.
    + apply split_ws_cut. exists c, r. auto.
    + exfalso. destruct (long_word (firstn n sentence) c r Hw Hc) as [x [xs [Ex Hlen]]].
      unfold small_words in Hsmall.
      rewrite <- (firstn_skipn n sentence), Er, Ex in Hsmall.
      inversion Hsmall as [|? ? Hx _]; subst.
      rewrite length_firstn in Hlen. unfold len in Hx, Hlong. lia.
Qed.

Lemma smart_last_resort_words (self : t) :
  1 <= max_size self ->
  forall fuel sentence chunks r,
    only_spaces sentence -> small_words self sentence ->
    last_resort fuel self sentence chunks = Some r ->
    words_of r = words_of chunks ++ split_ws sentence.
Proof.
  intros Hmax.
  assert (Hlast : forall sentence chunks,
            words_of (if truthy sentence then chunks ++ [sentence] else chunks)
            = words_of chunks ++ split_ws sentence).
  { intros sentence chunks. destruct sentence as [|c s]; cbn [truthy].
    - rewrite app_nil_r. reflexivity.
    - rewrite words_of_app, words_of_one. reflexivity. }
  induction fuel as [|fuel IH]; intros sentence chunks r Hsp Hsmall H;
    cbn [last_resort] in H.
  - destruct (_ <? _); [discriminate|]. injection H as <-. apply Hlast.
  - destruct (Z.ltb_spec (max_size self) (len sentence)) as [Hlong|_].
    + cbv zeta in H.
      pose proof (last_resort_cut self sentence Hmax Hlong Hsp Hsmall) as Hcut.
      cbv zeta in Hcut.
      set (pos := if _ =? -1 then _ else _) in *.
      apply IH in H.
      * rewrite H, words_of_app, words_of_one, Hcut, <- app_assoc. reflexivity.
      * apply Forall_lstrip. unfold slice_from. apply Forall_skipn_str. exact Hsp.
      * unfold small_words in *. rewrite Hcut in Hsmall.
        apply Forall_app in Hsmall. tauto.
    + injection H as <-. apply Hlast.
Qed.

(** A text for which the forced split keeps the words. *)
Definition fine (self : t) (s : str) : Prop := only_spaces s /\ small_words self s.

(** Every break point is its right-stripped form and one space. *)
Lemma break_points_end_with_space :
  Forall (fun bp => bp = rstrip bp ++ s_ " ") break_points.
Proof. unfold break_points. repeat constructor. Qed.

Lemma smart_try_break_points_words (self : t)
    (recurse : str -> option (list str)) (fallback : option (list str))
    (sentence : str) :
  (forall part1 r, fine self part1 -> recurse part1 = Some r ->
                   words_of r = split_ws part1) ->
  (forall r, fallback = Some r -> words_of r = split_ws sentence) ->
  fine self sentence ->
  forall bps r,
    Forall (fun bp => bp = rstrip bp ++ s_ " ") bps ->
    try_break_points self recurse fallback sentence bps = Some r ->
    words_of r = split_ws sentence.
Proof.
  intros Hrec Hfb [Hsp Hsmall]. induction bps as [|bp bps IH]; intros r Hb H;
    cbn [try_break_points] in H; [auto|].
  inversion Hb as [|? ? Hbp Hbps]; subst.
  destruct (contains bp sentence); [|auto].
  destruct (split1 bp sentence) as [|part0 [|part1 [|? ?]]] eqn:E; auto.
  destruct (_ && _)%bool; [|auto].
  destruct (recurse part1) as [r'|] eqn:Er; [|discriminate].
  injection H as <-.
  apply split1_content in E.
  assert (Ecut : split_ws sentence
                 = split_ws (part0 ++ rstrip bp) ++ split_ws part1).
  { rewrite E, Hbp at 1. rewrite <- app_assoc, app_assoc.
    cbn [s_ list_ascii_of_string app].
    apply split_ws_app_space. reflexivity. }
  change (words_of ((part0 ++ rstrip bp) :: r'))
    with (split_ws (part0 ++ rstrip bp) ++ words_of r').
  rewrite (Hrec part1 r'); [symmetry; exact Ecut| |exact Er].
  split.
  - unfold only_spaces in *. rewrite E in Hsp.
    apply Forall_app in Hsp as [_ Hsp]. apply Forall_app in Hsp. tauto.
  - unfold small_words in *. rewrite Ecut in Hsmall.
    apply Forall_app in Hsmall. tauto.
Qed.

(** When no word is longer than [max_size] and all white space is
    spaces, [_force_split_sentence] cuts between words only. *)
Lemma smart_force_split_words (self : t) :
  1 <= max_size self ->
  forall fuel sentence r,
    fine self sentence ->
    _force_split_sentence_fuel fuel self sentence = Some r ->
    words_of r = split_ws sentence.
Proof.
  intros Hmax. induction fuel as [|fuel IH]; intros sentence r Hfine H; [discriminate|].
  rewrite force_split_step in H.
  eapply smart_try_break_points_words;
    [exact IH| |exact Hfine|exact break_points_end_with_space|exact H].
  intros r' Hr'. destruct Hfine as [Hsp Hsmall].
  apply (smart_last_resort_words self Hmax _ _ _ _ Hsp Hsmall) in Hr'. exact Hr'.
Qed.

(** *** _split_sentences *)

Lemma enders_not_space (c : ascii) : enders c = true -> isspace c = false.
Proof.
  destruct c as [b0 b1 b2 b3 b4 b5 b6 b7].
  destruct b0, b1, b2, b3, b4, b5, b6, b7; vm_compute; congruence.
Qed.

Lemma rstrip_ends_unspaced (a : str) (d : ascii) :
  isspace d = false -> rstrip (a ++ [d]) = a ++ [d].
Proof.
  intros Hd. unfold rstrip. rewrite rev_app_distr. cbn [rev app lstrip].
  rewrite Hd. cbn [rev]. rewrite rev_involutive. reflexivity.
Qed.

Lemma lstrip_ends_unspaced (a : str) (d : ascii) :
  isspace d = false -> exists a', lstrip (a ++ [d]) = a' ++ [d].
Proof.
  intros Hd. induction a as [|x a IH]; cbn [app lstrip].
  - rewrite Hd. exists []. reflexivity.
  - destruct (isspace x); [exact IH|]. exists (x :: a). reflexivity.
Qed.

(** A sentence and its ending, both stripped and put together, have the
    words of the two as they stand in the text. *)
Lemma split_ws_stripped_pair (t' : str) (d c : ascii) (x : str) :
  isspace d = false -> isspace c = false ->
  split_ws (strip (t' ++ [d]) ++ strip (c :: x)) = split_ws ((t' ++ [d]) ++ c :: x).
Proof.
  intros Hd Hc.
  assert (E1 : strip (t' ++ [d]) = lstrip (t' ++ [d])).
  { unfold strip. destruct (lstrip_ends_unspaced t' d Hd) as [a' ->].
    apply rstrip_ends_unspaced. exact Hd. }
  assert (E2 : strip (c :: x) = rstrip (c :: x)).
  { unfold strip. cbn [lstrip]. rewrite Hc. reflexivity. }
  rewrite E1, E2.
  destruct (lstrip_split (t' ++ [d])) as [l [El Bl]].
  destruct (rstrip_split (c :: x)) as [r [Er Br]].
  rewrite El at 2. rewrite Er at 2.
  rewrite <- app_assoc, (split_ws_blank_app l _ Bl).
  rewrite app_assoc, (split_ws_app_blank _ r Br). reflexivity.
Qed.

(** The text before an ending ends with a character that is not white
    space, when the marks are attached. *)
Lemma before_ending_tail (s a : str) (c : ascii) (rest : str) (last : nat) :
  marks_attached s -> s = a ++ c :: rest -> enders c = true ->
  after_space s last -> (last <= length a)%nat ->
  exists t' d, skipn last a = t' ++ [d] /\ isspace d = false.
Proof.
  intros Hatt Hs Hc Hafter Hle.
  destruct (Hatt a c rest Hs Hc) as [a' [d [-> Hd]]].
  assert (Hlt : (last <= length a')%nat).
  { destruct Hafter as [->|[p [w [Ep Hw]]]]; [lia|].
    rewrite length_app in Hle. cbn [length] in Hle.
    destruct (Nat.eq_dec last (length a' + 1)) as [E|E]; [|lia].
    exfalso. rewrite Hs, E, <- app_assoc in Ep.
    replace (length a' + 1)%nat with (length (a' ++ [d])) in Ep
      by (rewrite length_app; reflexivity).
    rewrite app_assoc, firstn_exact in Ep.
    apply app_inj_tail in Ep as [_ ->]. congruence. }
  exists (skipn last a'), d. split; [|exact Hd].
  rewrite skipn_app. replace (last - length a')%nat with 0%nat by lia. reflexivity.
Qed.

Lemma with_last_words (result : list str) (piece : str) :
  words_of (with_last result piece) = words_of result ++ split_ws piece.
Proof.
  unfold with_last. rewrite truthy_strip. destruct (blank piece) eqn:B; cbn [negb].
  - rewrite (split_ws_blank piece B), app_nil_r. reflexivity.
  - rewrite words_of_app, words_of_one, split_ws_strip. reflexivity.
Qed.

Lemma rebuild_words (s : str) :
  marks_attached s ->
  forall ms last done result,
    ordered last ms ->
    (forall m, In m ms -> ending_at s m) ->
    after_space s last ->
    let sentences := split_at s 0 last ms in
    let parts := done ++ map (group0 s) ms in
    words_of (with_last
                (rebuild (length done) (removelast sentences) parts result)
                (List.last sentences []))
    = words_of result ++ split_ws (skipn last s).
Proof.
  intros Hatt. induction ms as [|m ms IH]; intros last done result Hord Hshape Hafter;
    cbv zeta; cbn [split_at seq map app].
  - cbn [removelast rebuild List.last]. apply with_last_words.
  - cbn [ordered] in Hord. destruct Hord as [[Hlo _] Hord].
    destruct (Hshape m (or_introl eq_refl))
      as [a [c [x [y [w [post [Hs [Ey [Hc [Hw [Hst [He Hg]]]]]]]]]]]].
    rewrite removelast_cons by apply split_at_nonempty.
    rewrite last_cons by apply split_at_nonempty.
    cbn [rebuild]. rewrite Hst in Hlo |- *.
    assert (Et : substr s last (length a) = skipn last a).
    { rewrite Hs at 1. apply substr_prefix. exact Hlo. }
    rewrite Et, truthy_strip.
    rewrite (before_ending_nonblank s a c (x ++ post) last Hatt Hs Hc Hafter Hlo).
    cbn [negb]. cbv zeta.
    rewrite app_nth2, Nat.sub_diag by lia. cbn [nth]. rewrite Hg.
    assert (Hshape' : forall m', In m' ms -> ending_at s m')
      by (intros m' Hin; apply Hshape; right; exact Hin).
    assert (Hafter' : after_space s (mend m)).
    { right. exists (a ++ y), w. split; [|exact Hw].
      rewrite He, Hs, app_assoc, <- length_app, firstn_exact, Ey, app_assoc.
      reflexivity. }
    pose proof (IH (mend m) (done ++ [c :: x])
                  (result ++ [strip (skipn last a) ++ strip (c :: x)])
                  Hord Hshape' Hafter') as Hrec.
    cbv zeta in Hrec. rewrite <- app_assoc, length_app, Nat.add_1_r in Hrec.
    cbn [app length] in Hrec. rewrite Hrec.
    rewrite words_of_app, words_of_one.
    assert (Epost : skipn (mend m) s = post).
    { rewrite He, Hs, app_assoc, <- length_app, skipn_app, skipn_all, Nat.sub_diag.
      reflexivity. }
    assert (Elast : skipn last s = skipn last a ++ (c :: x) ++ post).
    { rewrite Hs at 1. apply skipn_prefix. exact Hlo. }
    destruct (before_ending_tail s a c (x ++ post) last Hatt Hs Hc Hafter Hlo)
      as [t' [d [Etail Hd]]].
    rewrite Epost, Elast, Etail, <- app_assoc. f_equal.
    rewrite (split_ws_stripped_pair t' d c x Hd (enders_not_space c Hc)).
    rewrite Ey.
    assert (E1 : (t' ++ [d]) ++ y ++ [w] = ((t' ++ [d]) ++ y) ++ [w])
      by (rewrite app_assoc; reflexivity).
    assert (E2 : (t' ++ [d]) ++ (y ++ [w]) ++ post = ((t' ++ [d]) ++ y) ++ w :: post)
      by (rewrite <- !app_assoc; reflexivity).
    rewrite E1, E2.
    rewrite (split_ws_app_space ((t' ++ [d]) ++ y) w post Hw).
    rewrite (split_ws_app_blank ((t' ++ [d]) ++ y) [w]); [reflexivity|].
    cbn [blank forallb]. rewrite Hw. reflexivity.
Qed.

Lemma split_sentences_words (paragraph : str) :
  marks_attached paragraph ->
  words_of (_split_sentences paragraph) = split_ws paragraph.
Proof.
  intros Hatt. unfold _split_sentences, split, findall.
  pose proof (rebuild_words paragraph Hatt (finditer sentence_endings paragraph)
                0%nat [] [] (finditer_ordered _ _)
                (fun m Hin => sentence_endings_shape paragraph m Hin)
                (or_introl eq_refl)) as H.
  cbv zeta in H. cbn [app length] in H. exact H.
Qed.

(** The sentences are made of characters of the paragraph. *)
Lemma Forall_removelast (A : Type) (P : A -> Prop) (l : list A) :
  Forall P l -> Forall P (removelast l).
Proof.
  induction 1 as [|x l Hx Hl IH]; [constructor|].
  cbn [removelast]. destruct l; [constructor|]. constructor; assumption.
Qed.

Lemma Forall_last (A : Type) (P : A -> Prop) (l : list A) (d : A) :
  P d -> Forall P l -> P (List.last l d).
Proof.
  intros Hd. induction 1 as [|x l Hx Hl IH]; [exact Hd|].
  cbn [List.last]. destruct l; assumption.
Qed.

Lemma split_at_chars (P : ascii -> Prop) (s : str) :
  Forall P s -> forall ms last, Forall (Forall P) (split_at s 0 last ms).
Proof.
  intros Hs. induction ms as [|m ms IH]; intros last; cbn [split_at seq map app].
  - repeat constructor. apply Forall_skipn_str, Hs.
  - constructor; [apply Forall_substr, Hs|apply IH].
Qed.

Lemma rebuild_chars (P : ascii -> Prop) (parts : list str) :
  Forall P (s_ ". ") -> Forall (Forall P) parts ->
  forall sentences i result,
    Forall (Forall P) sentences -> Forall (Forall P) result ->
    Forall (Forall P) (rebuild i sentences parts result).
Proof.
  intros Hdot Hparts. induction sentences as [|sentence rest IH]; intros i result Hs Hr;
    cbn [rebuild]; [exact Hr|].
  inversion Hs as [|? ? Hone Hrest]; subst.
  destruct (truthy (strip sentence)); [|apply IH; assumption].
  cbv zeta. apply IH; [assumption|].
  apply Forall_app. split; [assumption|]. repeat constructor.
  apply Forall_app. split; [apply Forall_strip, Hone|].
  apply Forall_strip.
  destruct (nth_in_or_default i parts (s_ ". ")) as [Hin| ->]; [|exact Hdot].
  rewrite Forall_forall in Hparts. apply Hparts. exact Hin.
Qed.

Lemma split_sentences_only_spaces (paragraph : str) :
  only_spaces paragraph -> Forall only_spaces (_split_sentences paragraph).
Proof.
  intros Hp. unfold _split_sentences. cbv zeta.
  set (P := fun c : ascii => isspace c = true -> c = " "%char).
  assert (Hsent : Forall (Forall P) (split sentence_endings 0 paragraph))
    by (apply split_at_chars; exact Hp).
  assert (Hparts : Forall (Forall P) (findall sentence_endings paragraph)).
  { unfold findall. apply Forall_forall. intros x Hin.
    apply in_map_iff in Hin as [m [<- _]]. unfold group0. apply Forall_substr, Hp. }
  assert (Hdot : Forall P (s_ ". ")).
  { repeat constructor; intros H; try reflexivity; discriminate H. }
  assert (Hres : Forall (Forall P)
                   (rebuild 0 (removelast (split sentence_endings 0 paragraph))
                      (findall sentence_endings paragraph) [])).
  { apply rebuild_chars; [exact Hdot|exact Hparts| |constructor].
    apply Forall_removelast, Hsent. }
  destruct (truthy _); [|exact Hres].
  apply Forall_app. split; [exact Hres|]. repeat constructor.
  apply Forall_strip. apply (Forall_last _ (Forall P)); [constructor|exact Hsent].
Qed.

Lemma words_of_small (self : t) (chunks : list str) :
  Forall (fun w => len w <= max_size self) (words_of chunks) ->
  Forall (small_words self) chunks.
Proof.
  induction chunks as [|x chunks IH]; intros H; [constructor|].
  change (words_of (x :: chunks)) with (split_ws x ++ words_of chunks) in H.
  apply Forall_app in H as [Hx Hrest]. constructor; [exact Hx|apply IH, Hrest].
Qed.

Lemma split_sentences_fine (self : t) (paragraph : str) :
  marks_attached paragraph -> fine self paragraph ->
  Forall (fine self) (_split_sentences paragraph).
Proof.
  intros Hatt [Hsp Hsmall].
  pose proof (split_sentences_only_spaces paragraph Hsp) as H1.
  assert (H2 : Forall (small_words self) (_split_sentences paragraph)).
  { apply words_of_small. rewrite (split_sentences_words paragraph Hatt). exact Hsmall. }
  rewrite Forall_forall in *. intros x Hin. split; auto.
Qed.

(** *** _chunk_paragraph *)

Lemma smart_gather_words (self : t) :
  1 <= max_size self ->
  forall sentences chunks current_chunk chunks' current',
    Forall (fine self) sentences ->
    gather self sentences chunks current_chunk = Some (chunks', current') ->
    words_of chunks' ++ split_ws current'
    = words_of chunks ++ split_ws current_chunk ++ words_of sentences.
Proof.
  intros Hmax.
  assert (Hflush : forall chunks cur,
            words_of (if truthy cur then chunks ++ [strip cur] else chunks)
            = words_of chunks ++ split_ws cur).
  { intros chunks cur. destruct cur as [|c cur]; cbn [truthy].
    - rewrite app_nil_r. reflexivity.
    - rewrite words_of_app, words_of_one, split_ws_strip. reflexivity. }
  induction sentences as [|sentence rest IH]; intros chunks cur chunks' cur' Hfine H;
    cbn [gather] in H.
  - injection H as <- <-. rewrite app_nil_r. reflexivity.
  - inversion Hfine as [|? ? Hone Hrest]; subst.
    change (words_of (sentence :: rest)) with (split_ws sentence ++ words_of rest).
    destruct (max_size self <? len sentence).
    + cbv zeta in H.
      destruct (_force_split_sentence self sentence) as [long_chunks|] eqn:E;
        [|discriminate].
      apply (IH _ _ _ _ Hrest) in H. rewrite H, words_of_app, Hflush.
      unfold _force_split_sentence in E.
      rewrite (smart_force_split_words self Hmax _ _ _ Hone E).
      cbn [app]. rewrite <- !app_assoc. reflexivity.
    + cbv zeta in H. destruct (target_size self <? _).
      * apply (IH _ _ _ _ Hrest) in H. rewrite H, Hflush, <- !app_assoc. reflexivity.
      * apply (IH _ _ _ _ Hrest) in H. rewrite H.
        destruct cur as [|c cur]; cbn [truthy]; [reflexivity|].
        cbn [s_ list_ascii_of_string].
        change ((c :: cur) ++ [" "%char] ++ sentence)
          with ((c :: cur) ++ " "%char :: sentence).
        rewrite (split_ws_app_space (c :: cur) " "%char sentence eq_refl).
        rewrite <- !app_assoc. reflexivity.
Qed.

Lemma chunk_paragraph_words (self : t) (paragraph : str) :
  1 <= max_size self -> marks_attached paragraph -> fine self paragraph ->
  exists chunks,
    _chunk_paragraph self paragraph = Some chunks
    /\ words_of chunks = split_ws paragraph.
Proof.
  intros Hmax Hatt Hfine. unfold _chunk_paragraph.
  destruct (len paragraph <=? max_size self).
  - exists [paragraph]. split; [reflexivity|]. apply words_of_one.
  - destruct (smart_gather_total self Hmax (_split_sentences paragraph) [] [])
      as [[chunks cur] E].
    rewrite E. eexists. split; [reflexivity|].
    apply (smart_gather_words self Hmax) in E;
      [|apply split_sentences_fine; assumption].
    change (words_of []) with (@nil str) in E.
    change (split_ws []) with (@nil str) in E. cbn [app] in E.
    rewrite (split_sentences_words paragraph Hatt) in E. rewrite <- E.
    destruct cur as [|c cur]; cbn [truthy].
    + rewrite app_nil_r. reflexivity.
    + rewrite words_of_app, words_of_one, split_ws_strip. reflexivity.
Qed.

(** *** smart_chunk_text *)

(** The word begins with one of [.!?]. *)
Definition starts_with_mark (w : str) : bool :=
  match w with c :: _ => enders c | [] => false end.

Lemma attached_from_word (w r : str) :
  spaceless w -> attached_from false (w ++ r) = attached_from false r.
Proof.
  induction 1 as [|c w Hc Hw IH]; [reflexivity|].
  cbn [app attached_from]. rewrite andb_false_r, Hc. cbn [negb andb]. exact IH.
Qed.

(** When no word begins with a sentence mark, every mark of the words
    joined by single spaces stands right after a character that is not
    white space. *)
Lemma join_marks_attached (ws : list str) :
  Forall word ws -> Forall (fun w => starts_with_mark w = false) ws ->
  marks_attached (join (s_ " ") ws).
Proof.
  intros Hw Hm. apply marks_attached_by_scan.
  induction Hw as [|w ws [Hne Hsp] Hws IH]; [reflexivity|].
  inversion Hm as [|? ? Hone Hrest]; subst.
  destruct w as [|c w]; [congruence|]. cbn [starts_with_mark] in Hone.
  inversion Hsp as [|? ? Hc Hsp']; subst.
  destruct ws as [|w' ws].
  - cbn [join attached_from]. rewrite Hone, Hc. cbn [negb andb].
    rewrite <- (app_nil_r w), attached_from_word by exact Hsp'. reflexivity.
  - change (join (s_ " ") ((c :: w) :: w' :: ws))
      with (c :: w ++ " "%char :: join (s_ " ") (w' :: ws)).
    cbn [attached_from]. rewrite Hone, Hc. cbn [negb andb].
    rewrite attached_from_word by exact Hsp'.
    cbn [attached_from]. rewrite andb_false_r. cbn [negb andb].
    change (isspace " "%char) with true. apply IH. exact Hrest.
Qed.

Lemma join_only_spaces (ws : list str) :
  Forall word ws -> only_spaces (join (s_ " ") ws).
Proof.
  assert (Hword : forall w, word w -> only_spaces w).
  { intros w [_ Hw]. unfold spaceless, only_spaces in *. rewrite Forall_forall in *.
    intros c Hin Hc. rewrite (Hw c Hin) in Hc. discriminate. }
  induction 1 as [|w ws Hw Hws IH]; [constructor|].
  destruct ws as [|w' ws]; [cbn [join]; auto|].
  change (join (s_ " ") (w :: w' :: ws))
    with (w ++ " "%char :: join (s_ " ") (w' :: ws)).
  apply Forall_app. split; [exact (Hword w Hw)|].
  constructor; [reflexivity|exact IH].
Qed.

(** The text [smart_chunk_text] chunks, when no sentence mark is glued to
    a capital letter. *)
Lemma smart_normalize_unglued (text : str) :
  search glued_sentences (ChunkingEvaluator.normalize_text text) = None ->
  _normalize_text text = ChunkingEvaluator.normalize_text text.
Proof.
  rewrite normalize_text_join. intros Hglue.
  unfold _normalize_text, sub. rewrite (search_none _ _ Hglue). reflexivity.
Qed.

(** The chunks built by [smart_chunk_text] before its last line. *)
Lemma smart_chunks_keep_words (self : t) (text : str) :
  1 <= max_size self ->
  search glued_sentences (ChunkingEvaluator.normalize_text text) = None ->
  Forall (fun w => starts_with_mark w = false) (split_ws text) ->
  Forall (fun w => len w <= max_size self) (split_ws text) ->
  exists chunks,
    each_paragraph self (split paragraph_breaks 0 (_normalize_text text)) [] = Some chunks
    /\ words_of chunks = split_ws text.
Proof.
  intros Hmax Hglue Hmarks Hsmall.
  rewrite (smart_normalize_unglued text Hglue).
  pose proof (normalize_text_join text) as Hn.
  pose proof (strip_trimmed _ (join_trimmed _ (split_ws_words text))) as Hstrip.
  pose proof (join_no_newline _ (split_ws_words text)) as Hnl.
  pose proof (join_only_spaces _ (split_ws_words text)) as Hsp.
  pose proof (join_marks_attached _ (split_ws_words text) Hmarks) as Hatt.
  pose proof (split_ws_join _ (split_ws_words text)) as Hwords.
  rewrite Hn in *.
  set (t0 := join (s_ " ") (split_ws text)) in *.
  rewrite (split_no_newline t0 Hnl). cbn [each_paragraph]. rewrite Hstrip.
  destruct (truthy t0) eqn:Et; cbn [negb].
  - destruct (chunk_paragraph_words self t0 Hmax Hatt) as [chunks [E Hw]].
    { split; [exact Hsp|]. unfold small_words. rewrite Hwords. exact Hsmall. }
    rewrite E. exists chunks. split; [reflexivity|]. rewrite Hw. exact Hwords.
  - exists []. split; [reflexivity|].
    destruct t0; [|discriminate]. rewrite <- Hwords. reflexivity.
Qed.

Lemma reconstructed_words (chunks : list str) :
  ChunkingEvaluator.reconstructed chunks = join (s_ " ") (words_of chunks).
Proof.
  unfold ChunkingEvaluator.reconstructed, words_of.
  rewrite normalize_text_join, split_ws_joined. reflexivity.
Qed.

Lemma filter_all (A : Type) (f : A -> bool) (l : list A) :
  Forall (fun x => f x = true) l -> filter f l = l.
Proof.
  induction 1 as [|x l Hx Hl IH]; [reflexivity|].
  cbn [filter]. rewrite Hx, IH. reflexivity.
Qed.

(** *** _ensure_tts_termination *)

(** The chunk that [_ensure_tts_termination] returns stands for the text
    of the chunk it was given exactly when it added nothing. *)
Lemma ensure_keeps_text (chunk : str) :
  ChunkingEvaluator.reconstructed [TTSOptimizedChunker._ensure_tts_termination chunk]
  = ChunkingEvaluator.normalize_text chunk
  <-> blank chunk = true
      \/ endswith_any TTSOptimizedChunker.terminators (strip chunk) = true.
Proof.
  rewrite reconstructed_words, words_of_one, ensure_cases, normalize_text_join.
  destruct (blank chunk) eqn:B.
  - split; [auto|]. intros _. rewrite (split_ws_blank chunk B). reflexivity.
  - destruct (endswith_any TTSOptimizedChunker.terminators (strip chunk)) eqn:E.
    + split; [auto|]. intros _. rewrite split_ws_strip. reflexivity.
    + split; [|intros [H|H]; discriminate].
      intros H. exfalso. apply (f_equal nonspace) in H.
      rewrite !nonspace_join, !split_ws_content, !nonspace_idem in H.
      rewrite nonspace_app, nonspace_strip in H.
      apply (f_equal (@length ascii)) in H. rewrite length_app in H.
      cbn in H. lia.
Qed.

End WordsKept.

Definition three_sentences : str :=
  s_ "  The quick   brown fox jumps.  It runs over the lazy dog! "
    ++ "010"%char :: s_ "Then it sleeps? ".

(** Each condition of the amended claim is needed, with thresholds 20, 30
    and 5: a mark glued to a capital letter gets a space after it; a mark
    that stands alone is joined to the word before it, or dropped when
    nothing stands before it in its sentence; a word longer than
    [max_size] is cut in two. *)
Lemma smart_round_trip_limits :
  let self := SmartChunker.Self 20 30 5 in
  (SmartChunker.smart_chunk_text self (s_ "Hi.There") = Some [s_ "Hi. There"]
   /\ ChunkingEvaluator.normalize_text (s_ "Hi.There") = s_ "Hi.There")
  /\ SmartChunker.smart_chunk_text self
       (s_ "The quick brown fox jumps . It runs over the lazy dog")
     = Some [s_ "The quick brown fox jumps."; s_ "It runs over the lazy dog"]
  /\ SmartChunker.smart_chunk_text self (s_ "Wait for it. . Then it runs over the lazy dog")
     = Some [s_ "Wait for it."; s_ "Then it runs over the lazy dog"]
  /\ SmartChunker.smart_chunk_text self (repeat "a"%char 40 ++ s_ " bbbbb")
     = Some [repeat "a"%char 30; repeat "a"%char 10 ++ s_ " bbbbb"].
Proof. vm_compute. repeat split; reflexivity. Qed.

(** C1, amended: take a text in which no sentence mark is directly
    followed by a capital letter, no word begins with a sentence mark and
    no word is longer than [max_size] (at least 1).  Then the chunks that
    [smart_chunk_text] builds, however many they are, reconstruct the
    text: joined by single spaces and normalised they give the normalised
    text, word for word.  [smart_chunk_text] returns these chunks without
    those whose stripped length is below [min_size]; when there is none,
    the returned chunks reconstruct the text.  In general every chunk
    that [smart_chunk_text] returns has a stripped length of at least
    [min_size], so shorter content is dropped.
    [_ensure_tts_termination] returns the stripped chunk, or the stripped
    chunk with one period added; what it returns reconstructs the chunk
    exactly when the chunk is blank or ends, once stripped, with one of
    the three sentence marks. *)
Theorem C1_chunks_reconstruct_text :
  (forall (self : SmartChunker.t) (text : str),
     1 <= SmartChunker.max_size self ->
     Re.search SmartChunker.glued_sentences (ChunkingEvaluator.normalize_text text) = None ->
     Forall (fun w => starts_with_mark w = false) (Py.split_ws text) ->
     Forall (fun w => Py.len w <= SmartChunker.max_size self) (Py.split_ws text) ->
     exists chunks,
       SmartChunker.each_paragraph self
         (Re.split SmartChunker.paragraph_breaks 0 (SmartChunker._normalize_text text)) []
       = Some chunks
       /\ SmartChunker.smart_chunk_text self text
          = Some (filter (SmartChunker.long_enough self) chunks)
       /\ words_of chunks = Py.split_ws text
       /\ ChunkingEvaluator.reconstructed chunks = ChunkingEvaluator.normalize_text text
       /\ (Forall (fun chunk => SmartChunker.min_size self <= Py.len (Py.strip chunk))
             chunks ->
           SmartChunker.smart_chunk_text self text = Some chunks))
  /\ (forall (self : SmartChunker.t) (text : str) (chunks : list str),
        SmartChunker.smart_chunk_text self text = Some chunks ->
        Forall (fun chunk => SmartChunker.min_size self <= Py.len (Py.strip chunk)) chunks)
  /\ (forall chunk : str,
        (TTSOptimizedChunker._ensure_tts_termination chunk = Py.strip chunk
         \/ TTSOptimizedChunker._ensure_tts_termination chunk = Py.strip chunk ++ s_ ".")
        /\ (ChunkingEvaluator.reconstructed
              [TTSOptimizedChunker._ensure_tts_termination chunk]
            = ChunkingEvaluator.normalize_text chunk
            <-> blank chunk = true
                \/ Py.endswith_any TTSOptimizedChunker.terminators (Py.strip chunk)
                   = true)).
Proof.
  split; [|split].
  - intros self text Hmax Hglue Hmarks Hsmall.
    destruct (smart_chunks_keep_words self text Hmax Hglue Hmarks Hsmall)
      as [chunks [E Hw]].
    exists chunks. split; [exact E|].
    assert (Hres : SmartChunker.smart_chunk_text self text
                   = Some (filter (SmartChunker.long_enough self) chunks)).
    { unfold SmartChunker.smart_chunk_text. cbv zeta. rewrite E. reflexivity. }
    split; [exact Hres|]. split; [exact Hw|]. split.
    + rewrite reconstructed_words, Hw. symmetry. apply normalize_text_join.
    + intros Hall. rewrite Hres. f_equal. apply filter_all.
      apply Forall_forall. intros c Hin. rewrite Forall_forall in Hall.
      unfold SmartChunker.long_enough. apply Z.leb_le. apply Hall. exact Hin.
  - intros self text chunks E. unfold SmartChunker.smart_chunk_text in E.
    destruct (SmartChunker.each_paragraph self _ []) as [r|]; [|discriminate].
    injection E as <-. apply Forall_forall. intros c Hin.
    apply filter_In in Hin as [_ Hlong]. apply Z.leb_le. exact Hlong.
  - intros chunk. split; [|apply ensure_keeps_text].
    rewrite ensure_cases. destruct (blank chunk) eqn:B.
    + left. symmetry. apply strip_blank. exact B.
    + destruct (Py.endswith_any _ _); auto.
Qed.

(** A witness: three sentences with irregular white space and a line
    break, cut into three chunks that reconstruct the text. *)
Lemma C1_witness :
  SmartChunker.smart_chunk_text (SmartChunker.Self 20 30 5) three_sentences
  = Some [s_ "The quick brown fox jumps."; s_ "It runs over the lazy dog!";
          s_ "Then it sleeps?"]
  /\ ChunkingEvaluator.reconstructed
       [s_ "The quick brown fox jumps."; s_ "It runs over the lazy dog!";
        s_ "Then it sleeps?"]
     = ChunkingEvaluator.normalize_text three_sentences.
Proof.
  destruct (proj1 C1_chunks_reconstruct_text (SmartChunker.Self 20 30 5) three_sentences)
    as [chunks [E [_ [_ [Hrec Hkeep]]]]].
  - simpl. lia.
  - vm_compute. reflexivity.
  - vm_compute. repeat constructor.
  - vm_compute. repeat constructor; discriminate.
  - vm_compute in E. injection E as <-.
    split; [|exact Hrec]. apply Hkeep.
    repeat constructor; vm_compute; discriminate.
Defined.
